(** * RemixDB storage engine (xdb): a shallow embedding and its properties

    The development follows the C sources: [lib.c] (CRC32C, vi128 varints),
    [kv.c] (records, key comparison, the merging iterator [miter]),
    [wh.c] (the wormhole memtable, through the operations the engine calls)
    and [xdb.c] (WAL, recovery, compaction, the public operations).

    Conventions.
    - A byte is a [Z] in [0, 256); a [u32]/[u64] is a [Z] with the wrap-around
      written out ([u32], [u64]).
    - A C buffer is a [list Z]; a pointer into it is an offset ([nat]); a read
      outside the buffer, or through NULL, is an explicit [Fault].
    - The engine is modelled sequentially: one operation (or one phase of the
      compaction thread) runs at a time. *)

From Stdlib Require Import ZArith List Lia Bool Arith.
From stdpp Require Import base list.
Import ListNotations.

Local Open Scope Z_scope.

(** ** Machine words *)

Definition u32 (z : Z) : Z := z mod 2^32.
Definition u64 (z : Z) : Z := z mod 2^64.

Definition is_u8 (b : Z) : Prop := 0 <= b < 256.
Definition is_u32 (z : Z) : Prop := 0 <= z < 2^32.





(** ** Records ([struct kv], kv.h) and the tombstone encoding (sst.h) *)

(** [SST_VLEN_TS] and [SST_VLEN_MASK] of sst.h. *)
Definition SST_VLEN_TS : Z := 0x10000.
Definition SST_VLEN_MASK : Z := 0xffff.

(** [struct kv]: [klen] is the length of [kv_key]; [kv_vlen] is the raw
    [vlen] field (it may carry the tombstone bit); [kv_val] holds the value
    bytes that follow the key.  The [hash] field is the CRC32C of the key
    (kv_update_hash) and is recomputed where the code reads it. *)
Record kv : Type := Kv {
  kv_key : list Z;
  kv_vlen : Z;
  kv_val : list Z
}.

Definition kv_klen (r : kv) : Z := Z.of_nat (length (kv_key r)).

(** [sizeof(struct kv)]: two packed 64-bit words. *)
Definition KV_HDR : Z := 16.

(** [sst_kv_size]: [sizeof (struct kv) + kv->klen + (kv->vlen & SST_VLEN_MASK)]. *)
Definition sst_kv_size (r : kv) : Z :=
  KV_HDR + kv_klen r + Z.land (kv_vlen r) SST_VLEN_MASK.

(** [kv_create] / [kv_refill]: a plain record with the given value. *)
Definition kv_create (key val : list Z) : kv :=
  Kv key (Z.of_nat (length val)) val.

(** [xdb_new_ts]: a tombstone holds the key only. *)
Definition xdb_new_ts (key : list Z) : kv := Kv key SST_VLEN_TS [].

(** [xdb_dup_kv]: copies [sst_kv_size] bytes, that is the header, the key
    and [vlen & SST_VLEN_MASK] value bytes. *)
Definition xdb_dup_kv (r : kv) : kv :=
  Kv (kv_key r) (kv_vlen r)
     (firstn (Z.to_nat (Z.land (kv_vlen r) SST_VLEN_MASK)) (kv_val r)).

(** A record is well formed when its value area has the length that its
    [vlen] field declares. *)
Definition kv_wf (r : kv) : Prop :=
  0 <= kv_vlen r < 2^32 /\
  Z.of_nat (length (kv_val r)) = Z.land (kv_vlen r) SST_VLEN_MASK.




(** ** Key order ([kref_compare], kv.c) *)

(** [memcmp] over the first [n] bytes of both buffers (unsigned bytes). *)
Fixpoint memcmp (p1 p2 : list Z) (n : nat) : comparison :=
  match n, p1, p2 with
  | S n', x :: p1', y :: p2' =>
      match x ?= y with
      | Eq => memcmp p1' p2' n'
      | c => c
      end
  | _, _, _ => Eq
  end.

(** [klen_compare]. *)
Definition klen_compare (len1 len2 : nat) : comparison := Nat.compare len1 len2.

(** [kref_compare]: [memcmp] on the common length, then the lengths. *)
Definition kref_compare (k1 k2 : list Z) : comparison :=
  let len := Nat.min (length k1) (length k2) in
  match memcmp k1 k2 len with
  | Eq => klen_compare (length k1) (length k2)
  | c => c
  end.

(** [kref_match]: same length and same bytes. *)
Definition kref_match (k1 k2 : list Z) : bool :=
  Nat.eqb (length k1) (length k2) &&
  match memcmp k1 k2 (length k1) with Eq => true | _ => false end.

(** ** Outcomes of fallible code *)

(** A read through NULL or outside the buffer; a record that is freed
    while a map still holds it. *)
Inductive fault : Type := NullDeref | OutOfBounds | UseAfterFree.

(** What a call can come to: a result, a memory fault (the process is
    killed), [debug_die] (the process exits), or a wait that does not end
    while no other thread runs ([xdb_write_enter]). *)
Inductive outcome (A : Type) : Type :=
| Ok (a : A)
| Fault (f : fault)
| Died
| Waits.
Arguments Ok {A} a.
Arguments Fault {A} f.
Arguments Died {A}.
Arguments Waits {A}.

Definition obind {A B} (m : outcome A) (f : A -> outcome B) : outcome B :=
  match m with
  | Ok a => f a
  | Fault e => Fault e
  | Died => Died
  | Waits => Waits
  end.

Notation "'let*' x ':=' m 'in' k" := (obind m (fun x => k))
  (at level 10, x pattern, m at level 100, k at level 200).

(** A read [ptr[0]] for a pointer [p] into the buffer [mem], whose end is
    [length mem]. *)
Definition rd (mem : list Z) (p : nat) : outcome Z :=
  match mem !! p with
  | Some b => Ok b
  | None => Fault OutOfBounds
  end.

(** ** CRC32C (lib.c) *)

(** The CRC32C (Castagnoli) polynomial, bit-reflected, as the [crc32]
    instructions behind [crc32c_u8] use it. *)
Definition CRC32C_POLY : Z := 0x82F63B78.

Fixpoint crc32c_bits (n : nat) (crc : Z) : Z :=
  match n with
  | O => crc
  | S n' =>
      crc32c_bits n'
        (if Z.testbit crc 0 then Z.lxor (Z.shiftr crc 1) CRC32C_POLY
         else Z.shiftr crc 1)
  end.

(** [crc32c_u8]: one byte folded into the running CRC. *)
Definition crc32c_u8 (crc v : Z) : Z := crc32c_bits 8 (Z.lxor crc v).

(** [crc32c_inc]: the 8-, 4-, 2- and 1-byte instructions consume the buffer
    front to back in little-endian order, which is the byte-wise fold. *)
Definition crc32c_inc (buf : list Z) (crc : Z) : Z := fold_left crc32c_u8 buf crc.

Definition KV_CRC32C_SEED : Z := 0xDEADBEEF.

(** [kv_crc32c]. *)
Definition kv_crc32c (buf : list Z) : Z := crc32c_inc buf KV_CRC32C_SEED.

(** ** vi128 varints (lib.c) *)

(** [vi128_estimate_u32]: the table indexed by the leading-zero count. *)
Definition vi128_estimate_u32 (v : Z) : nat :=
  if v =? 0 then 2%nat
  else if v <? 2^7 then 1%nat
  else if v <? 2^14 then 2%nat
  else if v <? 2^21 then 3%nat
  else if v <? 2^28 then 4%nat
  else 5%nat.

(** The cases of the [switch] in [vi128_encode_u32], which fall through:
    [n - 1] bytes with the continuation bit, then the last byte. *)
Fixpoint vi128_encode_cases (n : nat) (v : Z) : list Z :=
  match n with
  | O => []
  | S O => [v mod 256]
  | S n' => (Z.lor v 0x80) mod 256 :: vi128_encode_cases n' (Z.shiftr v 7)
  end.

(** [vi128_encode_u32]. *)
Definition vi128_encode_u32 (v : Z) : list Z :=
  vi128_encode_cases (vi128_estimate_u32 v) v.

(** The loop of [vi128_decode_u32]: [n] iterations are left, [src] is the
    read pointer.  The result is the returned pointer (NULL is [None]) and
    the value stored in [*out]. *)
Fixpoint vi128_decode_loop (n : nat) (mem : list Z) (src : nat) (shift r : Z)
  : outcome (option nat * Z) :=
  match n with
  | O => Ok (None, 0)
  | S n' =>
      let* byte := rd mem src in
      let r' := Z.lor r (u32 (Z.shiftl (Z.land byte 0x7f) shift)) in
      if Z.land byte 0x80 =? 0 then Ok (Some (S src), r')
      else vi128_decode_loop n' mem (S src) (shift + 7) r'
  end.

(** [vi128_decode_u32]: [shift] runs over 0, 7, 14, 21, 28.  A NULL [src]
    is dereferenced by the first read. *)
Definition vi128_decode_u32 (mem : list Z) (src : option nat)
  : outcome (option nat * Z) :=
  match src with
  | None => Fault NullDeref
  | Some p => vi128_decode_loop 5 mem p 0 0
  end.

(** ** The memtable (wh.c), through the operations the engine calls

    A wormhole map holds at most one record per key and iterates in
    [kref_compare] order.  It is modelled by the list of its records in
    that order; leaf layout, hashing and locking are left out. *)

Definition memtable : Type := list kv.

(** The search of [wormleaf_match_hs] followed by [wormleaf_kv_at_ih]:
    the record whose key matches, if any. *)
Fixpoint mt_get (k : list Z) (m : memtable) : option kv :=
  match m with
  | [] => None
  | r :: m' => if kref_match k (kv_key r) then Some r else mt_get k m'
  end.

(** [wormleaf_update]: the slot of the record that matches [k] takes the
    new record. *)
Fixpoint mt_update (k : list Z) (new : kv) (m : memtable) : memtable :=
  match m with
  | [] => []
  | r :: m' =>
      if kref_match k (kv_key r) then new :: m' else r :: mt_update k new m'
  end.

(** [wormleaf_insert] (or [wormhole_split_insert]): the record enters the
    map at the place of its key.  [wormhole_put] is an update when the key
    is present and an insert when it is not, which is this function on a
    map in key order. *)
Fixpoint mt_set (new : kv) (m : memtable) : memtable :=
  match m with
  | [] => [new]
  | r :: m' =>
      match kref_compare (kv_key new) (kv_key r) with
      | Lt => new :: r :: m'
      | Eq => new :: m'
      | Gt => r :: mt_set new m'
      end
  end.

(** What a [kv_merge_func] returns: NULL, the pointer [kv0] it was given,
    or a pointer to another record.  The maps hold pointers, so a callback
    that rewrites the record behind [kv0] changes what the map holds:
    [RetInPlace now] stands for a callback that has left [now] in that
    record (and returns [kv0] or NULL). *)
Inductive merge_ret : Type :=
| RetNull
| RetSame
| RetInPlace (now : kv)
| RetNew (new : kv).

(** [wormhole_merge] / [whunsafe_merge].  The callback [uf] runs on its
    private state [S] (the [priv] argument and what it points to).  The
    memory manager of the memtables is [mm_mt] of [xdb_open], whose [in]
    is the identity: the returned record itself is stored.  Allocation
    failure in [wormhole_split_insert] is left out. *)
Definition wormhole_merge {S : Type} (m : memtable) (k : list Z)
    (uf : option kv -> S -> merge_ret * S) (s : S) : bool * memtable * S :=
  match mt_get k m with
  | Some kv0 =>
      let '(r, s') := uf (Some kv0) s in
      match r with
      | RetNull | RetSame => (true, m, s')
      | RetInPlace now => (true, mt_update k now m, s')
      | RetNew new => (true, mt_update k new m, s')
      end
  | None =>
      let '(r, s') := uf None s in
      match r with
      | RetNull | RetSame | RetInPlace _ => (true, m, s')
      | RetNew new => (true, mt_set new m, s')
      end
  end.

(** [wormhole_inpr] / [whunsafe_inp]: the callback sees the record or NULL;
    the result tells whether the key was found. *)
Definition wormhole_inpr {R : Type} (m : memtable) (k : list Z)
    (uf : option kv -> R) : bool * R :=
  match mt_get k m with
  | Some r => (true, uf (Some r))
  | None => (false, uf None)
  end.

(** [wormhole_clean]. *)
Definition wormhole_clean (m : memtable) : memtable := [].

(** *** Memtable iterators

    An iterator is the list of the records from its position on; an empty
    list is an iterator that is not valid. *)

Definition mt_iter : Type := list kv.

(** [wormhole_iter_seek] / [whunsafe_iter_seek] ([wormleaf_seek]): the first
    record whose key is not below [k]. *)
Fixpoint iter_seek (m : memtable) (k : list Z) : mt_iter :=
  match m with
  | [] => []
  | r :: m' =>
      match kref_compare (kv_key r) k with
      | Lt => iter_seek m' k
      | _ => r :: m'
      end
  end.

(** [wormhole_iter_valid]. *)
Definition iter_valid (it : mt_iter) : bool :=
  match it with [] => false | _ => true end.

(** [wormhole_iter_peek] with the identity [mm.out]: the record itself. *)
Definition iter_peek (it : mt_iter) : option kv := head it.

(** [wormhole_iter_kref]. *)
Definition iter_kref (it : mt_iter) : option (list Z) :=
  match it with [] => None | r :: _ => Some (kv_key r) end.

(** [wormhole_iter_kvref]. *)
Definition iter_kvref (it : mt_iter) : option kv := head it.

(** [wormhole_iter_skip1] / [whunsafe_iter_skip1]. *)
Definition iter_skip1 (it : mt_iter) : mt_iter := tail it.

(** [whunsafe_iter_next]: peek, then skip one. *)
Definition iter_next (it : mt_iter) : option kv * mt_iter :=
  (iter_peek it, iter_skip1 it).

(** ** The write-ahead log (xdb.c) *)

Definition PGSZ : Z := 4096.
(** [WAL_BLKSZ]: [PGSZ << 6]. *)
Definition WAL_BLKSZ : Z := 262144.
(** [XDB_SYNC_SIZE]: [1lu << 26]. *)
Definition XDB_SYNC_SIZE : Z := 67108864.

(** The two WAL files of a database directory. *)
Inductive fd : Type := Wal1 | Wal2.

Definition fd_eqb (a b : fd) : bool :=
  match a, b with
  | Wal1, Wal1 | Wal2, Wal2 => true
  | _, _ => false
  end.

(** The I/O that the engine issues, in program order. *)
Inductive io_event : Type :=
| EvAppend (r : kv)                          (* wal_append: the record is in the buffer *)
| EvWrite (f : fd) (off : Z) (data : list Z) (* wring_write_partial: submitted *)
| EvFsync (f : fd)                           (* wring_fsync: submitted, not awaited *)
| EvIoWait                                   (* wring_flush: everything submitted has completed *)
| EvUpdateFd (f : fd)                        (* wring_update_fd *)
| EvPwrite (f : fd) (off : Z) (data : list Z)
| EvTruncate (f : fd)                        (* ftruncate(fd, 0) *)
| EvFdatasync (f : fd).

(** [struct wal].  [bufoff] is the length of [wal_buf].  The write ring is
    kept as its file descriptor and the operations submitted to it and not
    yet known to be complete.
    Modelled from the spec: the write ring of blkio.c, which is not part of
    the sources; blkio.h documents [wring_fsync] as submitting an fsync
    without waiting and [wring_flush] as flushing the queue and waiting for
    completion. *)
Record wal : Type := Wal {
  wal_buf : list Z;
  wal_woff : Z;
  wal_soff : Z;
  wal_write_user : Z;
  wal_write_nbytes : Z;
  wal_version : Z;
  wal_fds : fd * fd;
  wal_maxsz : Z;
  wal_ring_fd : fd;
  wal_inflight : list io_event;
  wal_log : list io_event
}.

Definition wal_bufoff (w : wal) : Z := Z.of_nat (length (wal_buf w)).

(** [bits_round_up]: [(v + (1 << power) - 1) >> power << power]. *)
Definition bits_round_up (v : Z) (power : Z) : Z :=
  u64 (Z.shiftl (Z.shiftr (u64 (v + Z.shiftl 1 power - 1)) power) power).

(** The [n] low bytes of [v], least significant first. *)
Fixpoint le_bytes (n : nat) (v : Z) : list Z :=
  match n with
  | O => []
  | S n' => v mod 256 :: le_bytes n' (v / 256)
  end.

(** The little-endian value of a byte string. *)
Fixpoint le_value (bs : list Z) : Z :=
  match bs with
  | [] => 0
  | b :: bs' => b + 256 * le_value bs'
  end.

(** Modelled from the spec: [sst_kv_vi128_encode] of sst.c, which is not
    part of the sources.  The WAL record layout is
    [varint(klen)][varint(vlen|TS-bit)][key][value], where the value has
    [vlen & 0xFFFF] bytes. *)
Definition sst_kv_vi128_encode (r : kv) : list Z :=
  vi128_encode_u32 (kv_klen r) ++ vi128_encode_u32 (kv_vlen r) ++
  kv_key r ++ firstn (Z.to_nat (Z.land (kv_vlen r) SST_VLEN_MASK)) (kv_val r).

(** Modelled from the spec: [sst_kv_vi128_estimate] of sst.c, the size of
    that encoding. *)
Definition sst_kv_vi128_estimate (r : kv) : Z :=
  Z.of_nat (vi128_estimate_u32 (kv_klen r)) +
  Z.of_nat (vi128_estimate_u32 (kv_vlen r)) +
  kv_klen r + Z.land (kv_vlen r) SST_VLEN_MASK.

Definition wal_emit (e : io_event) (w : wal) : wal :=
  Wal (wal_buf w) (wal_woff w) (wal_soff w) (wal_write_user w)
      (wal_write_nbytes w) (wal_version w) (wal_fds w) (wal_maxsz w)
      (wal_ring_fd w) (wal_inflight w) (wal_log w ++ [e]).

(** Submission to the ring: [wring_write_partial] and [wring_fsync]. *)
Definition wring_submit (e : io_event) (w : wal) : wal :=
  Wal (wal_buf w) (wal_woff w) (wal_soff w) (wal_write_user w)
      (wal_write_nbytes w) (wal_version w) (wal_fds w) (wal_maxsz w)
      (wal_ring_fd w) (wal_inflight w ++ [e]) (wal_log w ++ [e]).

(** [wring_fsync]. *)
Definition wring_fsync (w : wal) : wal := wring_submit (EvFsync (wal_ring_fd w)) w.

(** [wring_flush]: returns when nothing is in flight any more. *)
Definition wring_flush (w : wal) : wal :=
  Wal (wal_buf w) (wal_woff w) (wal_soff w) (wal_write_user w)
      (wal_write_nbytes w) (wal_version w) (wal_fds w) (wal_maxsz w)
      (wal_ring_fd w) [] (wal_log w ++ [EvIoWait]).

Definition wal_set_soff (soff : Z) (w : wal) : wal :=
  Wal (wal_buf w) (wal_woff w) soff (wal_write_user w)
      (wal_write_nbytes w) (wal_version w) (wal_fds w) (wal_maxsz w)
      (wal_ring_fd w) (wal_inflight w) (wal_log w).

(** [wal_flush]. *)
Definition wal_flush (w : wal) : wal :=
  if wal_bufoff w =? 0 then w
  else
    let wsize := bits_round_up (wal_bufoff w) 12 in
    let data := wal_buf w ++ repeat 0 (Z.to_nat (wsize - wal_bufoff w)) in
    let w1 := wring_submit (EvWrite (wal_ring_fd w) (wal_woff w) data) w in
    let w2 := Wal [] (u64 (wal_woff w1 + wsize)) (wal_soff w1) (wal_write_user w1)
                  (u64 (wal_write_nbytes w1 + wsize)) (wal_version w1) (wal_fds w1)
                  (wal_maxsz w1) (wal_ring_fd w1) (wal_inflight w1) (wal_log w1) in
    if XDB_SYNC_SIZE <=? u64 (wal_woff w2 - wal_soff w2)
    then wal_set_soff (wal_woff w2) (wring_fsync w2)
    else w2.

(** [wal_flush_sync]. *)
Definition wal_flush_sync (w : wal) : wal :=
  let w1 := wal_flush w in
  if wal_woff w1 =? wal_soff w1 then w1
  else wal_set_soff (wal_woff w1) (wring_fsync w1).

(** [wal_io_complete]. *)
Definition wal_io_complete (w : wal) : wal := wring_flush w.

(** [wal_flush_sync_wait]. *)
Definition wal_flush_sync_wait (w : wal) : wal := wal_io_complete (wal_flush_sync w).

(** The bytes of a record in the log: the encoded record, then
    [kv->hashlo], the CRC32C of the key. *)
Definition wal_record_bytes (r : kv) : list Z :=
  sst_kv_vi128_encode r ++ le_bytes 4 (kv_crc32c (kv_key r)).

(** [wal_append]. *)
Definition wal_append (w : wal) (r : kv) : wal :=
  let estsz := sst_kv_vi128_estimate r + 4 in
  let w1 := if WAL_BLKSZ <? estsz + wal_bufoff w then wal_flush w else w in
  let bytes := wal_record_bytes r in
  wal_emit (EvAppend r)
    (Wal (wal_buf w1 ++ bytes) (wal_woff w1) (wal_soff w1) (wal_write_user w1)
         (wal_write_nbytes w1) (wal_version w1) (wal_fds w1) (wal_maxsz w1)
         (wal_ring_fd w1) (wal_inflight w1) (wal_log w1)).

(** [wal_switch]: the retired file's size is returned. *)
Definition wal_switch (w : wal) (version : Z) : wal * Z :=
  let w1 := wal_flush_sync_wait w in
  let woff0 := wal_woff w1 in
  let '(fd0, fd1) := wal_fds w1 in
  let w2 := Wal (le_bytes 8 version) 0 0 (wal_write_user w1)
                (wal_write_nbytes w1) version (fd1, fd0) (wal_maxsz w1)
                fd1 (wal_inflight w1) (wal_log w1 ++ [EvUpdateFd fd1]) in
  (w2, woff0).

(** ** The SSTable engine, as the core consumes it

    sst.c is not part of the sources; sst.h declares the functions and the
    specification states their contract. *)

(** Modelled from the spec: an SSTable version ([struct msstv]), "a sorted
    sequence of immutable tables partitioned by anchor keys k0 < k1 < ...",
    where partition i holds the keys in [[ki, ki+1)].  [v_anchors] is the
    anchor array of [msstv_anchors]: after a compaction each anchor's [vlen]
    is 0 for an accepted and 1 for a rejected partition.  [v_data] is the
    content of the tables, one record per key, in key order. *)
Record msstv : Type := Msstv {
  v_version : Z;
  v_anchors : list kv;
  v_data : memtable
}.

(** Modelled from the spec: a tombstone is "a record whose value-length
    field carries a sentinel bit (TS)". *)
Definition sst_is_ts (r : kv) : bool :=
  negb (Z.land (kv_vlen r) SST_VLEN_TS =? 0).

(** Modelled from the spec: [msstv_get_ts], a point lookup "returning not
    found for a tombstone". *)
Definition msstv_get_ts (v : msstv) (k : list Z) : option kv :=
  match mt_get k (v_data v) with
  | Some r => if sst_is_ts r then None else Some r
  | None => None
  end.

(** Modelled from the spec: [msstv_probe_ts]. *)
Definition msstv_probe_ts (v : msstv) (k : list Z) : bool :=
  match mt_get k (v_data v) with
  | Some r => negb (sst_is_ts r)
  | None => false
  end.

(** Modelled from the spec: [kvmap_mm_out_ts] of sst.c, the copy-out of a
    record that [xdb_get] returns to the caller. *)
Definition kvmap_mm_out_ts (r : kv) : kv := r.

(** The [vlen] of the anchor whose partition holds [k]: the last anchor that
    is not above [k].  [cur] is the answer while no anchor has been passed. *)
Fixpoint anchor_flag (anchors : list kv) (k : list Z) (cur : Z) : Z :=
  match anchors with
  | [] => cur
  | a :: rest =>
      match kref_compare (kv_key a) k with
      | Gt => cur
      | _ => anchor_flag rest k (kv_vlen a)
      end
  end.

Definition part_rejected (anchors : list kv) (k : list Z) : bool :=
  negb (anchor_flag anchors k 0 =? 0).

(** The anchors with the dispositions [flags] written into their [vlen]
    (0 where [flags] is too short). *)
Fixpoint mark_anchors (anchors : list kv) (flags : list bool) : list kv :=
  match anchors with
  | [] => []
  | a :: rest =>
      Kv (kv_key a) (if hd false flags then 1 else 0) (kv_val a)
        :: mark_anchors rest (tl flags)
  end.

(** The bytes of the records of [imt] that lie in rejected partitions. *)
Definition rejected_size (anchors : list kv) (imt : memtable) : Z :=
  fold_right (fun r acc => if part_rejected anchors (kv_key r)
                           then sst_kv_size r + acc else acc) 0 imt.

(** A new split point enters the anchor array at the place of its key. *)
Definition split_anchor (anchors : list kv) (k : list Z) : list kv :=
  mt_set (Kv k 0 []) anchors.

(** Modelled from the spec: [msstz_comp] (section 4.3, step 4).  The engine
    decides per partition of the outgoing version ([decide], one choice per
    anchor, [true] for reject) and may add split points ([splits]); these
    choices are its own and are parameters here.  The rejected bytes must
    not exceed [max_rejsz]: a decision that does is replaced by accepting
    every partition.  Accepted partitions take the records of the IMT (the
    newer record wins); rejected partitions keep their data and none of the
    IMT's records.  The result is the new version and the outgoing version
    with the dispositions in its anchors. *)
Definition msstz_comp (z : msstv) (imt : memtable) (max_rejsz : Z)
    (decide : list bool) (splits : list (list Z)) : msstv * msstv :=
  let marked0 := mark_anchors (v_anchors z) decide in
  let marked :=
    if rejected_size marked0 imt <=? max_rejsz then marked0
    else mark_anchors (v_anchors z) [] in
  let data :=
    fold_left (fun acc r => if part_rejected marked (kv_key r) then acc
                            else mt_set r acc) imt (v_data z) in
  let anchors := fold_left split_anchor splits (mark_anchors (v_anchors z) []) in
  (Msstv (v_version z + 1) anchors data,
   Msstv (v_version z) marked (v_data z)).

(** Modelled from the spec: [msstz_version], "numeric id of the current
    version". *)
Definition msstz_version (z : msstv) : Z := v_version z.

(** Modelled from the spec: [msstv_anchors]. *)
Definition msstv_anchors (v : msstv) : list kv := v_anchors v.

(** ** The engine state ([struct xdb], [struct xdb_ref]) *)

(** The two memtable instances [mt1] and [mt2]. *)
Inductive mt_id : Type := MT1 | MT2.

(** [struct mt_pair]; [mp_next] is the index of the next view. *)
Record mt_pair : Type := MtPair {
  mp_wmt : mt_id;
  mp_imt : option mt_id;
  mp_next : nat
}.

(** [xdb->mt_views], as [xdb_open] fills it. *)
Definition mt_views (i : nat) : mt_pair :=
  match i with
  | 0%nat => MtPair MT1 None 1
  | 1%nat => MtPair MT2 (Some MT1) 2
  | 2%nat => MtPair MT2 None 3
  | _ => MtPair MT1 (Some MT2) 0
  end.

(** [struct xdb]: [x_mt_view] is the index of the current view. *)
Record xdb : Type := Xdb {
  x_mt_view : nat;
  x_mtsz : Z;
  x_wal : wal;
  x_mt1 : memtable;
  x_mt2 : memtable;
  x_max_mtsz : Z;
  x_max_rejsz : Z;
  x_z : msstv
}.

Definition x_mt (x : xdb) (i : mt_id) : memtable :=
  match i with MT1 => x_mt1 x | MT2 => x_mt2 x end.

Definition x_set_mt (x : xdb) (i : mt_id) (m : memtable) : xdb :=
  match i with
  | MT1 => Xdb (x_mt_view x) (x_mtsz x) (x_wal x) m (x_mt2 x)
               (x_max_mtsz x) (x_max_rejsz x) (x_z x)
  | MT2 => Xdb (x_mt_view x) (x_mtsz x) (x_wal x) (x_mt1 x) m
               (x_max_mtsz x) (x_max_rejsz x) (x_z x)
  end.

Definition x_set_mtsz (x : xdb) (mtsz : Z) : xdb :=
  Xdb (x_mt_view x) mtsz (x_wal x) (x_mt1 x) (x_mt2 x)
      (x_max_mtsz x) (x_max_rejsz x) (x_z x).

Definition x_set_wal (x : xdb) (w : wal) : xdb :=
  Xdb (x_mt_view x) (x_mtsz x) w (x_mt1 x) (x_mt2 x)
      (x_max_mtsz x) (x_max_rejsz x) (x_z x).

Definition x_set_view (x : xdb) (v : nat) : xdb :=
  Xdb v (x_mtsz x) (x_wal x) (x_mt1 x) (x_mt2 x)
      (x_max_mtsz x) (x_max_rejsz x) (x_z x).

Definition x_set_z (x : xdb) (z : msstv) : xdb :=
  Xdb (x_mt_view x) (x_mtsz x) (x_wal x) (x_mt1 x) (x_mt2 x)
      (x_max_mtsz x) (x_max_rejsz x) z.

(** The WMT and the IMT of the current view. *)
Definition x_wmt (x : xdb) : memtable := x_mt x (mp_wmt (mt_views (x_mt_view x))).
Definition x_imt (x : xdb) : option memtable :=
  option_map (x_mt x) (mp_imt (mt_views (x_mt_view x))).

(** [xdb_mt_wal_full]. *)
Definition xdb_mt_wal_full (x : xdb) : bool :=
  (x_max_mtsz x <=? x_mtsz x) || (wal_maxsz (x_wal x) <=? wal_woff (x_wal x)).

(** [struct xdb_ref]: the view the thread has references for and the
    SSTable version it holds.  The memtable references [wmt_ref] and
    [imt_ref] name the maps of that view; the maps themselves are the
    engine's. *)
Record xdb_ref : Type := XdbRef {
  ref_mt_view : nat;
  ref_v : msstv
}.

(** [xdb_ref_all]: the current view and [msstz_getv]. *)
Definition xdb_ref_all (x : xdb) : xdb_ref := XdbRef (x_mt_view x) (x_z x).

(** [xdb_ref_update_version]. *)
Definition xdb_ref_update_version (x : xdb) (ref : xdb_ref) : xdb_ref :=
  if Nat.eqb (x_mt_view x) (ref_mt_view ref) then ref else xdb_ref_all x.

Definition ref_wmt (x : xdb) (ref : xdb_ref) : memtable :=
  x_mt x (mp_wmt (mt_views (ref_mt_view ref))).
Definition ref_imt (x : xdb) (ref : xdb_ref) : option memtable :=
  option_map (x_mt x) (mp_imt (mt_views (ref_mt_view ref))).

(** ** Point reads ([xdb_get], [xdb_probe]) *)

(** [xdb_inp_get]: what [info.ret] is set to. *)
Definition xdb_inp_get (r : option kv) : option kv :=
  match r with
  | Some r => if kv_vlen r =? SST_VLEN_TS then None else Some (kvmap_mm_out_ts r)
  | None => None
  end.

(** [xdb_get]: the WMT, then the IMT if the view has one, then the SSTable
    version. *)
Definition xdb_get (x : xdb) (ref : xdb_ref) (k : list Z) : option kv * xdb_ref :=
  let ref := xdb_ref_update_version x ref in
  let '(found, ret) := wormhole_inpr (ref_wmt x ref) k xdb_inp_get in
  if found then (ret, ref)
  else
    match ref_imt x ref with
    | Some imt =>
        let '(found, ret) := wormhole_inpr imt k xdb_inp_get in
        if found then (ret, ref) else (msstv_get_ts (ref_v ref) k, ref)
    | None => (msstv_get_ts (ref_v ref) k, ref)
    end.

(** [xdb_inp_probe]. *)
Definition xdb_inp_probe (r : option kv) : bool :=
  match r with
  | Some r => negb (kv_vlen r =? SST_VLEN_TS)
  | None => false
  end.

(** [xdb_probe]. *)
Definition xdb_probe (x : xdb) (ref : xdb_ref) (k : list Z) : bool * xdb_ref :=
  let ref := xdb_ref_update_version x ref in
  let '(found, is_valid) := wormhole_inpr (ref_wmt x ref) k xdb_inp_probe in
  if found then (is_valid, ref)
  else
    match ref_imt x ref with
    | Some imt =>
        let '(found, is_valid) := wormhole_inpr imt k xdb_inp_probe in
        if found then (is_valid, ref) else (msstv_probe_ts (ref_v ref) k, ref)
    | None => (msstv_probe_ts (ref_v ref) k, ref)
    end.

(** ** Writes ([xdb_update], [xdb_put], [xdb_del]) *)

(** [xdb->wal.write_user += newsz]. *)
Definition wal_add_write_user (w : wal) (n : Z) : wal :=
  Wal (wal_buf w) (wal_woff w) (wal_soff w) (u64 (wal_write_user w + n))
      (wal_write_nbytes w) (wal_version w) (wal_fds w) (wal_maxsz w)
      (wal_ring_fd w) (wal_inflight w) (wal_log w).

(** [struct xdb_mt_merge_ctx]; its [xdb] pointer is the engine state that
    the callback runs on. *)
Record xdb_mt_merge_ctx : Type := MergeCtx {
  ctx_newkv : kv;
  ctx_mt_view : nat;
  ctx_success : bool
}.

(** [xdb_mt_update_func]: under the engine lock, unless the view has moved,
    [mtsz] takes the size difference and the record goes to the WAL. *)
Definition xdb_mt_update_func (kv0 : option kv) (s : xdb * xdb_mt_merge_ctx)
  : merge_ret * (xdb * xdb_mt_merge_ctx) :=
  let '(x, ctx) := s in
  let newsz := sst_kv_size (ctx_newkv ctx) in
  let oldsz := match kv0 with Some r0 => sst_kv_size r0 | None => 0 end in
  let diffsz := u64 (newsz - oldsz) in
  if negb (Nat.eqb (x_mt_view x) (ctx_mt_view ctx)) then (RetNull, (x, ctx))
  else
    let w1 := wal_add_write_user (x_wal x) newsz in
    let x1 := x_set_wal (x_set_mtsz x (u64 (x_mtsz x + diffsz)))
                        (wal_append w1 (ctx_newkv ctx)) in
    (RetNew (ctx_newkv ctx), (x1, MergeCtx (ctx_newkv ctx) (ctx_mt_view ctx) true)).

(** The [do ... while (s && !ctx.success)] loop of [xdb_update]; [fuel]
    bounds the retries.  A retry needs the view to move between
    [xdb_ref_update_version] and the callback, which takes another thread. *)
Fixpoint xdb_update_loop (fuel : nat) (x : xdb) (ref : xdb_ref)
    (ctx : xdb_mt_merge_ctx) (k : list Z) : outcome (bool * xdb * xdb_ref) :=
  match fuel with
  | O => Waits
  | S fuel' =>
      let ref := xdb_ref_update_version x ref in
      let ctx := MergeCtx (ctx_newkv ctx) (ref_mt_view ref) (ctx_success ctx) in
      let wid := mp_wmt (mt_views (ref_mt_view ref)) in
      let '(s, m, (x1, ctx1)) :=
        wormhole_merge (x_mt x wid) k xdb_mt_update_func (x, ctx) in
      let x2 := x_set_mt x1 wid m in
      if s && negb (ctx_success ctx1)
      then xdb_update_loop fuel' x2 ref ctx1 k
      else Ok (s, x2, ref)
  end.

(** [xdb_update].  [xdb_write_enter] sleeps while the memtable or the WAL is
    full; only the compaction thread ends that wait. *)
Definition xdb_update (x : xdb) (ref : xdb_ref) (k : list Z) (newkv : kv)
  : outcome (bool * xdb * xdb_ref) :=
  if xdb_mt_wal_full x then Waits
  else xdb_update_loop 2 x ref (MergeCtx newkv 0 false) k.

(** [xdb_put]: the record is duplicated and merged under its own key. *)
Definition xdb_put (x : xdb) (ref : xdb_ref) (r : kv) : outcome (bool * xdb * xdb_ref) :=
  xdb_update x ref (kv_key r) (xdb_dup_kv r).

(** [xdb_del]: a tombstone is merged. *)
Definition xdb_del (x : xdb) (ref : xdb_ref) (k : list Z) : outcome (bool * xdb * xdb_ref) :=
  xdb_update x ref k (xdb_new_ts k).

(** ** The public wrappers ([remixdb_put], [remixdb_del])

    The key and the value are given as their bytes; [klen] and [vlen] are
    their lengths, of type [u32]. *)

(** [remixdb_put]: the guard adds [klen] and [vlen] in [u32]. *)
Definition remixdb_put (x : xdb) (ref : xdb_ref) (key val : list Z)
  : outcome (bool * xdb * xdb_ref) :=
  let klen := Z.of_nat (length key) in
  let vlen := Z.of_nat (length val) in
  if 65500 <? u32 (klen + vlen) then Ok (false, x, ref)
  else xdb_update x ref key (kv_create key val).

(** [remixdb_del]. *)
Definition remixdb_del (x : xdb) (ref : xdb_ref) (key : list Z)
  : outcome (bool * xdb * xdb_ref) :=
  xdb_update x ref key (xdb_new_ts key).

(** ** Read-modify-write ([xdb_merge]) *)

(** What the user's function does with the record it receives (the
    current record, or NULL) and what it returns: NULL; the pointer it was
    given, the record untouched; the pointer it was given, after it has
    updated the record in place ("if kv0 is not NULL, uf may update in
    place: just return kv0", xdb.h), which leaves the value length [vlen]
    and the value bytes [val] in it; or a record of its own.  When the
    argument is NULL, handing it back is returning NULL. *)
Inductive user_ret : Type :=
| URetNull
| URetSame
| URetInPlace (vlen : Z) (val : list Z)
| URetNew (new : kv).

(** A record after an update in place: the key, under which the map holds
    the record, stays; the value is the first [vlen & SST_VLEN_MASK] bytes
    that the update has left. *)
Definition kv_rewrite (r : kv) (vlen : Z) (val : list Z) : kv :=
  Kv (kv_key r) vlen (firstn (Z.to_nat (Z.land vlen SST_VLEN_MASK)) val).

(** [struct xdb_rmw_ctx].  The records are kept by value here, so the one
    fact about pointers that [xdb_merge] depends on is kept apart:
    [rmw_alias] tells that the WMT has taken the pointer [oldkv] itself
    ([mt_ctx.newkv == oldkv], and the update went through). *)
Record xdb_rmw_ctx : Type := RmwCtx {
  rmw_mt_ctx : xdb_mt_merge_ctx;
  rmw_oldkv : option kv;
  rmw_merged : bool;
  rmw_alias : bool
}.

(** [xdb_merge_merge_func].  [ukv] is a copy only when it is neither [kv0]
    nor [oldkv_for_uf]; otherwise the pointer itself goes on to
    [xdb_mt_update_func], which then reads both [newsz] and [oldsz] of an
    update of [kv0] from the one record, as the user's function left it.
    When [kv0] is NULL and the pointer handed back is [ctx->oldkv], the WMT
    takes that pointer. *)
Definition xdb_merge_merge_func (uf : option kv -> user_ret) (kv0 : option kv)
    (s : xdb * xdb_rmw_ctx) : merge_ret * (xdb * xdb_rmw_ctx) :=
  let '(x, ctx) := s in
  let oldkv_for_uf := match kv0 with Some r => Some r | None => rmw_oldkv ctx end in
  let ukv :=
    match uf oldkv_for_uf, oldkv_for_uf with
    | URetNull, _ => None
    | URetSame, None | URetInPlace _ _, None => None
    | URetSame, Some r => Some (true, r)
    | URetInPlace vlen val, Some r => Some (true, kv_rewrite r vlen val)
    | URetNew new, _ => Some (false, new)
    end in
  match ukv with
  | None =>
      (RetNull, (x, RmwCtx (rmw_mt_ctx ctx) (rmw_oldkv ctx) true (rmw_alias ctx)))
  | Some (same, u) =>
      let newkv_to_wmt := if same then u else xdb_dup_kv u in
      let mt_ctx := MergeCtx newkv_to_wmt (ctx_mt_view (rmw_mt_ctx ctx))
                             (ctx_success (rmw_mt_ctx ctx)) in
      let kv0_now :=
        match kv0 with
        | Some r0 => Some (if same then u else r0)
        | None => None
        end in
      let '(ret, (x1, mt_ctx1)) := xdb_mt_update_func kv0_now (x, mt_ctx) in
      let ret :=
        match kv0, same, uf oldkv_for_uf with
        | Some _, true, URetInPlace _ _ => RetInPlace u
        | Some _, true, _ => match ret with RetNew _ => RetSame | _ => ret end
        | _, _, _ => ret
        end in
      let alias :=
        match kv0 with
        | None => same && ctx_success mt_ctx1
        | Some _ => false
        end in
      (ret, (x1, RmwCtx mt_ctx1 (rmw_oldkv ctx)
                        (if ctx_success mt_ctx1 then true else rmw_merged ctx)
                        (alias || rmw_alias ctx)))
  end.

(** [xdb_merge_merge_func1]. *)
Definition xdb_merge_merge_func1 (uf : option kv -> user_ret) (kv0 : option kv)
    (s : xdb * xdb_rmw_ctx) : merge_ret * (xdb * xdb_rmw_ctx) :=
  match kv0 with
  | None =>
      let '(x, ctx) := s in
      (RetNull, (x, RmwCtx (MergeCtx (ctx_newkv (rmw_mt_ctx ctx))
                                     (ctx_mt_view (rmw_mt_ctx ctx)) true)
                           (rmw_oldkv ctx) (rmw_merged ctx) (rmw_alias ctx)))
  | Some _ => xdb_merge_merge_func uf kv0 s
  end.

(** [xdb_merge_get_old]: the IMT, then the SSTable version. *)
Definition xdb_merge_get_old (x : xdb) (ref : xdb_ref) (k : list Z) : option kv :=
  match ref_imt x ref with
  | Some imt =>
      let '(found, ret) := wormhole_inpr imt k xdb_inp_get in
      if found then ret else msstv_get_ts (ref_v ref) k
  | None => msstv_get_ts (ref_v ref) k
  end.

Definition rmw_set_view (ctx : xdb_rmw_ctx) (v : nat) : xdb_rmw_ctx :=
  RmwCtx (MergeCtx (ctx_newkv (rmw_mt_ctx ctx)) v (ctx_success (rmw_mt_ctx ctx)))
         (rmw_oldkv ctx) (rmw_merged ctx) (rmw_alias ctx).

(** The first loop of [xdb_merge]. *)
Fixpoint xdb_merge_loop1 (fuel : nat) (uf : option kv -> user_ret) (x : xdb)
    (ref : xdb_ref) (ctx : xdb_rmw_ctx) (k : list Z)
  : outcome (bool * xdb * xdb_ref * xdb_rmw_ctx) :=
  match fuel with
  | O => Waits
  | S fuel' =>
      let ref := xdb_ref_update_version x ref in
      let ctx := rmw_set_view ctx (ref_mt_view ref) in
      let wid := mp_wmt (mt_views (ref_mt_view ref)) in
      let '(s, m, (x1, ctx1)) :=
        wormhole_merge (x_mt x wid) k (xdb_merge_merge_func1 uf) (x, ctx) in
      let x2 := x_set_mt x1 wid m in
      if s && negb (ctx_success (rmw_mt_ctx ctx1))
      then xdb_merge_loop1 fuel' uf x2 ref ctx1 k
      else Ok (s, x2, ref, ctx1)
  end.

(** The second loop of [xdb_merge].  [free (ctx.oldkv)] ends every turn:
    when the WMT has taken that very pointer, the map is left holding a
    freed record, and every later use of the key reads it; the run stops
    there with [Fault UseAfterFree]. *)
Fixpoint xdb_merge_loop2 (fuel : nat) (uf : option kv -> user_ret) (x : xdb)
    (ref : xdb_ref) (ctx : xdb_rmw_ctx) (k : list Z)
  : outcome (bool * xdb * xdb_ref) :=
  match fuel with
  | O => Waits
  | S fuel' =>
      let ref := xdb_ref_update_version x ref in
      let ctx := RmwCtx (rmw_mt_ctx ctx) (xdb_merge_get_old x ref k) (rmw_merged ctx)
                        false in
      let ctx := rmw_set_view ctx (ref_mt_view ref) in
      let wid := mp_wmt (mt_views (ref_mt_view ref)) in
      let '(s, m, (x1, ctx1)) :=
        wormhole_merge (x_mt x wid) k (xdb_merge_merge_func uf) (x, ctx) in
      let x2 := x_set_mt x1 wid m in
      if rmw_alias ctx1 then Fault UseAfterFree
      else
        let ctx2 := RmwCtx (rmw_mt_ctx ctx1) None (rmw_merged ctx1) false in
        if s && negb (rmw_merged ctx2)
        then xdb_merge_loop2 fuel' uf x2 ref ctx2 k
        else Ok (s, x2, ref)
  end.

(** [xdb_merge].  The first loop does not end when the key is in the WMT
    and the user's function returns NULL: [Waits] stands for that. *)
Definition xdb_merge (fuel : nat) (x : xdb) (ref : xdb_ref) (k : list Z)
    (uf : option kv -> user_ret) : outcome (bool * xdb * xdb_ref) :=
  if xdb_mt_wal_full x then Waits
  else
    let ctx0 := RmwCtx (MergeCtx (Kv [] 0 []) 0 false) None false false in
    let* r1 := xdb_merge_loop1 fuel uf x ref ctx0 k in
    let '(s, x1, ref1, ctx1) := r1 in
    if rmw_merged ctx1 || negb s then Ok (s, x1, ref1)
    else
      let ctx2 := RmwCtx (MergeCtx (ctx_newkv (rmw_mt_ctx ctx1))
                                   (ctx_mt_view (rmw_mt_ctx ctx1)) false)
                         (rmw_oldkv ctx1) (rmw_merged ctx1) (rmw_alias ctx1) in
      xdb_merge_loop2 fuel uf x1 ref1 ctx2 k.

(** ** Compaction ([xdb_do_comp]) and the reinsertion of rejected keys *)

(** [xdb_mt_reinsert_func]: a key that the WMT lacks gets a copy of the
    IMT's record, counted in [mtsz] and appended to the WAL under the engine
    lock; a key that the WMT has keeps its record. *)
Definition xdb_mt_reinsert_func (kv0 : option kv) (s : xdb * kv)
  : merge_ret * (xdb * kv) :=
  let '(x, ctx_kv) := s in
  match kv0 with
  | None =>
      let ret := xdb_dup_kv ctx_kv in
      let incsz := sst_kv_size ret in
      let x1 := x_set_wal (x_set_mtsz x (u64 (x_mtsz x + incsz)))
                          (wal_append (x_wal x) ret) in
      (RetNew ret, (x1, ctx_kv))
  | Some _ => (RetSame, s)
  end.

(** The [while (imt_api->iter_valid(rej_iter))] loop of
    [xdb_reinsert_rejected].  [rej_iter] is the iterator over the IMT.  The
    records of the IMT are told apart by their place: [endp] is the number of
    records from [end] on (NONE when [end] is NULL), so that [curr == end]
    holds exactly when as many records remain at [curr]. *)
Fixpoint reinsert_range (rej_iter : mt_iter) (endp : option nat)
    (wid : mt_id) (x : xdb) : outcome xdb :=
  match rej_iter with
  | [] => Ok x
  | curr :: rest =>
      if match endp with
         | Some n => Nat.eqb n (length rej_iter)
         | None => false
         end
      then Ok x
      else
        let '(s, m, (x1, _)) :=
          wormhole_merge (x_mt x wid) (kv_key curr) xdb_mt_reinsert_func (x, curr) in
        if s then reinsert_range rest endp wid (x_set_mt x1 wid m)
        else Died
  end.

(** The [for (u32 i = 0; anchors[i]; i++)] loop of [xdb_reinsert_rejected];
    [anchors] is the array from [anchors[i]] on. *)
Fixpoint reinsert_anchors (anchors : list kv) (imt : memtable)
    (wid : mt_id) (x : xdb) : outcome xdb :=
  match anchors with
  | [] => Ok x
  | a :: rest =>
      if kv_vlen a =? 0 then reinsert_anchors rest imt wid x
      else
        let endp :=
          match rest with
          | kz :: _ =>
              match iter_seek imt (kv_key kz) with
              | [] => None
              | it => Some (length it)
              end
          | [] => None
          end in
        let* x1 := reinsert_range (iter_seek imt (kv_key a)) endp wid x in
        reinsert_anchors rest imt wid x1
  end.

(** [xdb_reinsert_rejected]. *)
Definition xdb_reinsert_rejected (x : xdb) (wid iid : mt_id) (anchors : list kv)
  : outcome xdb :=
  reinsert_anchors anchors (x_mt x iid) wid x.

(** The local variables of [xdb_do_comp] that live across its steps. *)
Record comp_locals : Type := CompLocals {
  cl_v_comp : nat;
  cl_walsz0 : Z;
  cl_mtsz0 : Z;
  cl_oldv : msstv;
  cl_anchors : list kv
}.

(** Where the compaction thread is in [xdb_do_comp]. *)
Inductive comp_pc : Type :=
| CompIdle
| CompRotated (l : comp_locals)     (* view and WAL switched; before the first qsbr_wait *)
| CompTablesDone (l : comp_locals)  (* msstz_comp returned *)
| CompReinserted (l : comp_locals)  (* rejected keys are back in the WMT *)
| CompSynced (l : comp_locals)      (* new WAL flushed, fsync submitted *)
| CompSwitched (l : comp_locals)    (* view switched back; before the second qsbr_wait *)
| CompCleaned (l : comp_locals).    (* IMT cleaned *)

(** Step 1 of [xdb_do_comp], under the engine lock: the next view, the WAL
    switch to version [msstz_version + 1], [mtsz] reset; then the old
    version is taken with [msstz_getv]. *)
Definition comp_rotate (x : xdb) : xdb * comp_locals :=
  let v_comp := mp_next (mt_views (x_mt_view x)) in
  let x1 := x_set_view x v_comp in
  let '(w, walsz0) := wal_switch (x_wal x1) (msstz_version (x_z x1) + 1) in
  let mtsz0 := x_mtsz x1 in
  let x2 := x_set_mtsz (x_set_wal x1 w) 0 in
  (x2, CompLocals v_comp walsz0 mtsz0 (x_z x2) []).

(** [msstz_comp] on the IMT, then [msstv_anchors (oldv)].  The compaction
    writes the dispositions into the anchors of the version that [oldv]
    points to; [msstz_comp] returns that version. *)
Definition comp_tables (x : xdb) (l : comp_locals) (decide : list bool)
    (splits : list (list Z)) : xdb * comp_locals :=
  let imt := match mp_imt (mt_views (cl_v_comp l)) with
             | Some i => x_mt x i
             | None => []
             end in
  let '(z, oldv) := msstz_comp (x_z x) imt (x_max_rejsz x) decide splits in
  (x_set_z x z,
   CompLocals (cl_v_comp l) (cl_walsz0 l) (cl_mtsz0 l) oldv (msstv_anchors oldv)).

(** [xdb_reinsert_rejected (xdb, wmt_map, imt_map, anchors)]. *)
Definition comp_reinsert (x : xdb) (l : comp_locals) : outcome xdb :=
  match mp_imt (mt_views (cl_v_comp l)) with
  | Some iid =>
      xdb_reinsert_rejected x (mp_wmt (mt_views (cl_v_comp l))) iid (cl_anchors l)
  | None => Ok x
  end.

(** [wal_flush_sync] under the lock. *)
Definition comp_flush_sync (x : xdb) : xdb := x_set_wal x (wal_flush_sync (x_wal x)).

(** [xdb->mt_view = v_normal], the view after [v_comp]. *)
Definition comp_rotate_back (x : xdb) (l : comp_locals) : xdb :=
  x_set_view x (mp_next (mt_views (cl_v_comp l))).

(** [imt_api->clean (imt_map)]. *)
Definition comp_clean (x : xdb) (l : comp_locals) : xdb :=
  match mp_imt (mt_views (cl_v_comp l)) with
  | Some iid => x_set_mt x iid (wormhole_clean (x_mt x iid))
  | None => x
  end.

(** [wal_io_complete] under the lock, then [ftruncate] and [fdatasync] on
    [wal.fds[1]], the retired file. *)
Definition comp_finish (x : xdb) : xdb :=
  let w := wal_io_complete (x_wal x) in
  let old := snd (wal_fds w) in
  x_set_wal x (wal_emit (EvFdatasync old) (wal_emit (EvTruncate old) w)).

(** One step of the compaction thread.  [decide] and [splits] are the
    choices of the SSTable engine in [msstz_comp].  [qsbr v] tells whether
    every registered reference has reached the view [v]: [qsbr_wait] does
    not return before. *)
Definition comp_step (decide : list bool) (splits : list (list Z))
    (qsbr : nat -> bool) (s : xdb * comp_pc) : outcome (xdb * comp_pc) :=
  let '(x, pc) := s in
  match pc with
  | CompIdle => let '(x1, l) := comp_rotate x in Ok (x1, CompRotated l)
  | CompRotated l =>
      if qsbr (cl_v_comp l) then
        let '(x1, l1) := comp_tables x l decide splits in Ok (x1, CompTablesDone l1)
      else Waits
  | CompTablesDone l =>
      let* x1 := comp_reinsert x l in Ok (x1, CompReinserted l)
  | CompReinserted l => Ok (comp_flush_sync x, CompSynced l)
  | CompSynced l => Ok (comp_rotate_back x l, CompSwitched l)
  | CompSwitched l =>
      if qsbr (mp_next (mt_views (cl_v_comp l))) then Ok (comp_clean x l, CompCleaned l)
      else Waits
  | CompCleaned l => Ok (comp_finish x, CompIdle)
  end.

(** [xdb_do_comp]: the steps in program order, when no reference lags
    behind (both [qsbr_wait] return). *)
Definition xdb_do_comp (x : xdb) (decide : list bool) (splits : list (list Z))
  : outcome xdb :=
  let step := comp_step decide splits (fun _ => true) in
  let* s1 := step (x, CompIdle) in
  let* s2 := step s1 in
  let* s3 := step s2 in
  let* s4 := step s3 in
  let* s5 := step s4 in
  let* s6 := step s5 in
  let* s7 := step s6 in
  Ok (fst s7).

(** [xdb_sync]. *)
Definition xdb_sync (x : xdb) : xdb := x_set_wal x (wal_flush_sync_wait (x_wal x)).

(** ** Recovery ([wal_vi128_decode], [xdb_recover_fd], [xdb_wal_recover]) *)

(** [struct wal_kv]: [wk_ptr] is [kref.ptr], the offset of the key. *)
Record wal_kv : Type := WalKv {
  wk_len : Z;
  wk_hash32 : Z;
  wk_ptr : nat;
  wk_vlen : Z;
  wk_kvlen : Z
}.

(** The counting loop of [wal_vi128_decode]: [n] bytes from [p] on are
    looked at. *)
Fixpoint count_loop (n : nat) (mem : list Z) (p : nat) (count : nat) : outcome nat :=
  match n with
  | O => Ok count
  | S n' =>
      let* b := rd mem p in
      count_loop n' mem (S p) (if Z.land b 0x80 =? 0 then S count else count)
  end.

(** The [n] bytes at [p], as [kv_crc32c] and the [u32] load read them. *)
Definition rd_bytes (mem : list Z) (p : nat) (n : Z) : outcome (list Z) :=
  if Z.of_nat p + n <=? Z.of_nat (length mem)
  then Ok (firstn (Z.to_nat n) (skipn p mem))
  else Fault OutOfBounds.

(** [wal_vi128_decode (ptr, end, wal_kv)]: the buffer is [mem], [end] is its
    end and [ptr] an offset in it.  The result is the returned pointer (NULL
    is [None]) with [*wal_kv]. *)
Definition wal_vi128_decode (mem : list Z) (ptr : nat)
  : outcome (option (wal_kv * nat)) :=
  let safelen := Nat.min (length mem - ptr) 10 in
  let* count := count_loop safelen mem ptr 0 in
  if (count <? 2)%nat then Ok None
  else
    let* d1 := vi128_decode_u32 mem (Some ptr) in
    let '(ptr1, klen) := d1 in
    let* d2 := vi128_decode_u32 mem ptr1 in
    let '(ptr2, vlen) := d2 in
    let kvlen_data := u32 (klen + Z.land vlen SST_VLEN_MASK) in
    match ptr2 with
    | None =>
        (* ptr is NULL: NULL + kvlen_data + 4 is below [end], the range check
           passes, and the CRC load at ptr + kvlen_data goes through NULL *)
        Fault NullDeref
    | Some p =>
        if (Z.of_nat (length mem) <? Z.of_nat p + kvlen_data + 4) then Ok None
        else
          let* key := rd_bytes mem p klen in
          let sum1 := kv_crc32c key in
          let* sum2b := rd_bytes mem (p + Z.to_nat kvlen_data) 4 in
          let sum2 := le_value sum2b in
          if negb (sum1 =? sum2) then Ok None
          else
            Ok (Some (WalKv klen sum2 p vlen kvlen_data,
                      (p + Z.to_nat kvlen_data + 4)%nat))
    end.

(** [xdb_recover_update_func]: the record of the log replaces the old one
    and [ctx->mtsz] takes the size difference. *)
Definition xdb_recover_update_func (kv0 : option kv) (s : kv * Z)
  : merge_ret * (kv * Z) :=
  let '(newkv, mtsz) := s in
  let newsz := sst_kv_size newkv in
  let oldsz := match kv0 with Some r0 => sst_kv_size r0 | None => 0 end in
  let diffsz := u64 (newsz - oldsz) in
  (RetNew newkv, (newkv, u64 (mtsz + diffsz))).

(** The loops [while (iter < end and iter[0] == 0) iter++]. *)
Fixpoint skip_zeros (fuel : nat) (mem : list Z) (iter : nat) : nat :=
  match fuel with
  | O => iter
  | S fuel' =>
      match mem !! iter with
      | Some 0 => skip_zeros fuel' mem (S iter)
      | _ => iter
      end
  end.

(** The state of the replay loop: the memtable, [ctx.mtsz], [nkeys]. *)
Record replay_state : Type := Replay {
  rp_mt : memtable;
  rp_mtsz : Z;
  rp_nkeys : Z
}.

(** The record that [xdb_recover_fd] builds from a decoded [wal_kv]:
    [memcpy (kv->kv, wal_kv.kref.ptr, wal_kv.kvlen)] copies the key and the
    value. *)
Definition wal_kv_record (mem : list Z) (wk : wal_kv) : kv :=
  Kv (firstn (Z.to_nat (wk_len wk)) (skipn (wk_ptr wk) mem))
     (wk_vlen wk)
     (firstn (Z.to_nat (wk_kvlen wk - wk_len wk))
             (skipn (wk_ptr wk + Z.to_nat (wk_len wk)) mem)).

(** The [while (iter < end)] loop of [xdb_recover_fd]; every turn consumes
    at least one byte, so [fuel = length mem] turns are enough. *)
Fixpoint recover_loop (fuel : nat) (mem : list Z) (iter : nat) (st : replay_state)
  : outcome (nat * replay_state) :=
  match fuel with
  | O => Ok (iter, st)
  | S fuel' =>
      if (iter <? length mem)%nat then
        let* d := wal_vi128_decode mem iter in
        match d with
        | None => Ok (iter, st)
        | Some (wk, iter1) =>
            let newkv := wal_kv_record mem wk in
            let '(s, m, (_, mtsz)) :=
              wormhole_merge (rp_mt st) (kv_key newkv) xdb_recover_update_func
                             (newkv, rp_mtsz st) in
            if s then
              recover_loop fuel' mem (skip_zeros (length mem) mem iter1)
                           (Replay m mtsz (rp_nkeys st + 1))
            else Died
        end
      else Ok (iter, st)
  end.

(** A line of the engine's log file: [xdb_recover_fd] reports the file, how
    far it read and how many records it applied. *)
Inductive log_line : Type :=
| LogRecover (f : fd) (fsize : Z) (rsize : Z) (nkeys : Z).

(** [xdb_recover_fd]: [file] is the content of [fd]; the records go to
    [xdb->mt1].  The result is [rsize] and the line written to the log (none
    for an empty file). *)
Definition xdb_recover_fd (x : xdb) (f : fd) (file : list Z)
  : outcome (Z * xdb * list log_line) :=
  let fsize := length file in
  if Nat.eqb fsize 0 then Ok (0, x, [])
  else
    let iter := skip_zeros fsize file 8 in
    let* r := recover_loop fsize file iter (Replay (x_mt1 x) (x_mtsz x) 0) in
    let '(iter, st) := r in
    let x1 := x_set_mtsz (x_set_mt x MT1 (rp_mt st)) (rp_mtsz st) in
    let rsize := Z.of_nat iter in
    Ok (rsize, x1, [LogRecover f (Z.of_nat fsize) rsize (rp_nkeys st)]).

(** The version header that [xdb_wal_recover] reads with [pread]: 0 unless
    the file is longer than the header. *)
Definition wal_file_version (file : list Z) : Z :=
  if (8 <? length file)%nat then le_value (firstn 8 file) else 0.

Definition wal_set_buf_version (w : wal) (v : Z) : wal :=
  Wal (le_bytes 8 v) (wal_woff w) (wal_soff w) (wal_write_user w)
      (wal_write_nbytes w) v (wal_fds w) (wal_maxsz w)
      (wal_ring_fd w) (wal_inflight w) (wal_log w).

Definition wal_set_woff (w : wal) (woff : Z) : wal :=
  Wal (wal_buf w) woff (wal_soff w) (wal_write_user w)
      (wal_write_nbytes w) (wal_version w) (wal_fds w) (wal_maxsz w)
      (wal_ring_fd w) (wal_inflight w) (wal_log w).

(** The first decision of [xdb_wal_recover]: [fds[0]] becomes the file
    with the greater version; [wal1] stays there when the versions are
    equal. *)
Definition wal_select (w : wal) (vs0 vs1 : Z) : wal :=
  let '(fd0, fd1) := wal_fds w in
  if vs0 <? vs1 then
    Wal (wal_buf w) (wal_woff w) (wal_soff w) (wal_write_user w)
        (wal_write_nbytes w) vs1 (fd1, fd0) (wal_maxsz w)
        fd1 (wal_inflight w) (wal_log w ++ [EvUpdateFd fd1])
  else
    Wal (wal_buf w) (wal_woff w) (wal_soff w) (wal_write_user w)
        (wal_write_nbytes w) vs0 (fd0, fd1) (wal_maxsz w)
        (wal_ring_fd w) (wal_inflight w) (wal_log w).

(** [xdb_wal_recover].  [files] gives the content of the two WAL files;
    [decide] and [splits] are the choices of the SSTable engine in the
    compaction of the two-file case.  The result carries the lines written
    to the log by [xdb_recover_fd], in order. *)
Definition xdb_wal_recover (x : xdb) (files : fd -> list Z)
    (decide : list bool) (splits : list (list Z))
  : outcome (xdb * list log_line) :=
  let w := x_wal x in
  let vs0 := wal_file_version (files (fst (wal_fds w))) in
  let vs1 := wal_file_version (files (snd (wal_fds w))) in
  let two := negb (vs0 =? 0) && negb (vs1 =? 0) in
  let v0 := msstz_version (x_z x) in
  let w1 := wal_select w vs0 vs1 in
  let x := x_set_wal x w1 in
  let '(fd0, fd1) := wal_fds w1 in
  let* r :=
    if two then
      if vs0 =? vs1 then Died
      else
        let* r1 := xdb_recover_fd x fd1 (files fd1) in
        let '(_, x1, l1) := r1 in
        let* r0 := xdb_recover_fd x1 fd0 (files fd0) in
        let '(_, x2, l0) := r0 in
        let '(z, _) := msstz_comp (x_z x2) (x_mt1 x2) 0 decide splits in
        let w2 :=
          wal_emit (EvFdatasync fd0) (wal_emit (EvTruncate fd0)
            (wal_emit (EvFdatasync fd1) (wal_emit (EvTruncate fd1) (x_wal x2)))) in
        let x3 := x_set_mtsz (x_set_mt (x_set_z x2 z) MT1 (wormhole_clean (x_mt1 x2))) 0 in
        Ok (x_set_wal x3 (wal_set_buf_version w2 (msstz_version z)), l1 ++ l0)
    else
      let* r0 := xdb_recover_fd x fd0 (files fd0) in
      let '(rsize, x1, l0) := r0 in
      let* w2 :=
        if rsize =? 0 then Ok (wal_set_buf_version (x_wal x1) v0)
        else if v0 <? wal_version (x_wal x1) then Died
        else
          let woff := bits_round_up rsize 12 in
          let w := wal_set_woff (x_wal x1) woff in
          if rsize <? woff then
            (* fewer than [PGSZ] zeros are missing: the loop writes once *)
            Ok (wal_emit (EvFdatasync fd0)
                  (wal_emit (EvPwrite fd0 rsize (repeat 0 (Z.to_nat (woff - rsize)))) w))
          else Ok w in
      Ok (x_set_wal x1 (wal_emit (EvFdatasync fd1) (wal_emit (EvTruncate fd1) w2)), l0) in
  let '(x4, lines) := r in
  Ok (x_set_wal x4 (wal_set_soff (wal_woff (x_wal x4)) (x_wal x4)), lines).

(** [xdb_open], as far as the state goes: two empty memtables, view 0, the
    WAL on [wal1] with nothing written, then [xdb_wal_recover]. *)
Definition xdb_open_state (z : msstv) (max_mtsz maxsz : Z) : xdb :=
  Xdb 0 0 (Wal [] 0 0 0 0 0 (Wal1, Wal2) maxsz Wal1 [] []) [] []
      max_mtsz (Z.shiftr max_mtsz 4) z.

(** ** The merging iterator ([struct miter], kv.c) *)

(** What a stream iterates over: one of the engine's memtables, or an
    SSTable version. *)
Inductive stream_src : Type :=
| SrcMt (i : mt_id)
| SrcSst (v : msstv).

(** Modelled from the spec: the iterator of [kvmap_api_msstv_ts] (sst.c is
    not part of the sources), "standard ordered iteration" over the records
    of the version. *)
Definition stream_map (x : xdb) (src : stream_src) : memtable :=
  match src with
  | SrcMt i => x_mt x i
  | SrcSst v => v_data v
  end.

(** [struct miter_stream].  [ms_kref] is the cached [kref] ([None] when
    [kref.ptr] is NULL); [ms_src] stands for [ref], [ms_iter] for [iter] and
    [ms_unique] for [api->unique]. *)
Record miter_stream : Type := MiterStream {
  ms_kref : option (list Z);
  ms_src : stream_src;
  ms_iter : mt_iter;
  ms_rank : nat;
  ms_unique : bool
}.

Definition MITER_MAX_STREAMS : nat := 18.

(** [struct miter].  [mi_mh] holds [mh[1]] to [mh[nway]], so that [nway] is
    its length; [mi_kref0] is the key saved by [miter_retain_key0] (the
    iterators of the engine have no [iter_retain], the key is copied). *)
Record miter : Type := Miter {
  mi_mh : list miter_stream;
  mi_kref0 : list Z
}.

Definition mi_nway (m : miter) : nat := length (mi_mh m).

(** [miter->mh[i]] for [1 <= i <= nway]. *)
Definition mh_get (m : miter) (i : nat) : option miter_stream :=
  match i with
  | O => None
  | S j => mi_mh m !! j
  end.

Definition mh_set (m : miter) (i : nat) (s : miter_stream) : miter :=
  match i with
  | O => m
  | S j => Miter (<[j := s]> (mi_mh m)) (mi_kref0 m)
  end.

(** [miter_swap]: the child [cidx] changes place with its parent. *)
Definition miter_swap (m : miter) (cidx : nat) : miter :=
  match mh_get m cidx, mh_get m (Nat.div2 cidx) with
  | Some sc, Some sp => mh_set (mh_set m cidx sp) (Nat.div2 cidx) sc
  | _, _ => m
  end.

(** [miter_should_swap (sp, sc)]. *)
Definition miter_should_swap (sp sc : miter_stream) : bool :=
  match ms_kref sp with
  | None => true
  | Some kp =>
      match ms_kref sc with
      | None => false
      | Some kc =>
          match kref_compare kp kc with
          | Gt => true
          | Lt => false
          | Eq => (ms_rank sp <? ms_rank sc)%nat
          end
      end
  end.

(** [miter_upheap]; [fuel] bounds the turns of the loop, which halves [idx]. *)
Fixpoint miter_upheap (fuel : nat) (m : miter) (idx : nat) : miter :=
  match fuel with
  | O => m
  | S fuel' =>
      if (idx <=? 1)%nat then m
      else
        match mh_get m (Nat.div2 idx), mh_get m idx with
        | Some sp, Some sc =>
            match ms_kref sc with
            | None => m
            | Some _ =>
                if miter_should_swap sp sc
                then miter_upheap fuel' (miter_swap m idx) (Nat.div2 idx)
                else m
            end
        | _, _ => m
        end
  end.

(** [miter_downheap]; [fuel] bounds the turns of the loop, which doubles
    [idx]. *)
Fixpoint miter_downheap (fuel : nat) (m : miter) (idx : nat) : miter :=
  match fuel with
  | O => m
  | S fuel' =>
      if (2 * idx <=? mi_nway m)%nat then
        let idxs :=
          if (2 * idx <? mi_nway m)%nat then
            match mh_get m (2 * idx), mh_get m (2 * idx + 1) with
            | Some sl, Some sr =>
                if miter_should_swap sl sr then (2 * idx + 1)%nat else (2 * idx)%nat
            | _, _ => (2 * idx)%nat
            end
          else (2 * idx)%nat in
        match mh_get m idx, mh_get m idxs with
        | Some sp, Some sc =>
            if miter_should_swap sp sc
            then miter_downheap fuel' (miter_swap m idxs) idxs
            else m
        | _, _ => m
        end
      else m
  end.

(** [miter_stream_fix]. *)
Definition miter_stream_fix (s : miter_stream) : miter_stream :=
  MiterStream (iter_kref (ms_iter s)) (ms_src s) (ms_iter s) (ms_rank s) (ms_unique s).

(** [miter_stream_skip]. *)
Definition miter_stream_skip (s : miter_stream) : miter_stream :=
  miter_stream_fix
    (MiterStream (ms_kref s) (ms_src s) (iter_skip1 (ms_iter s)) (ms_rank s) (ms_unique s)).

(** [miter_add_ref]: the new stream takes rank [nway]; [iter0] is the
    iterator that [api->iter_create] returns. *)
Definition miter_add_ref (m : miter) (src : stream_src) (unique : bool)
    (iter0 : mt_iter) : miter :=
  if (MITER_MAX_STREAMS <=? mi_nway m)%nat then m
  else Miter (mi_mh m ++ [MiterStream None src iter0 (mi_nway m) unique]) (mi_kref0 m).

(** The first loop of [miter_seek]: every stream seeks and is fixed. *)
Definition miter_seek_streams (x : xdb) (m : miter) (key : list Z) : miter :=
  Miter (map (fun s => miter_stream_fix
                (MiterStream (ms_kref s) (ms_src s)
                   (iter_seek (stream_map x (ms_src s)) key)
                   (ms_rank s) (ms_unique s)))
             (mi_mh m))
        (mi_kref0 m).

(** The second loop of [miter_seek]: [miter_upheap (miter, i)] for [i] from
    2 to [nway]; [n] turns are left. *)
Fixpoint miter_seek_upheaps (n : nat) (m : miter) (i : nat) : miter :=
  match n with
  | O => m
  | S n' => miter_seek_upheaps n' (miter_upheap i m i) (S i)
  end.

(** [miter_seek]. *)
Definition miter_seek (x : xdb) (m : miter) (key : list Z) : miter :=
  let m1 := miter_seek_streams x m key in
  miter_seek_upheaps (mi_nway m1 - 1) m1 2.

(** [miter_valid]. *)
Definition miter_valid (m : miter) : bool :=
  match mh_get m 1 with
  | Some s => match ms_kref s with Some _ => true | None => false end
  | None => false
  end.

(** [miter_kref]. *)
Definition miter_kref (m : miter) : option (list Z) :=
  match mh_get m 1 with
  | Some s => iter_kref (ms_iter s)
  | None => None
  end.

(** [miter_kvref]: the record under the top stream's iterator. *)
Definition miter_kvref (m : miter) : option kv :=
  match mh_get m 1 with
  | Some s => iter_kvref (ms_iter s)
  | None => None
  end.

(** [miter_rank] of a valid iterator. *)
Definition miter_rank (m : miter) : option nat :=
  if miter_valid m then option_map ms_rank (mh_get m 1) else None.

(** [miter_skip1]. *)
Definition miter_skip1 (m : miter) : miter :=
  if miter_valid m then
    match mh_get m 1 with
    | Some s => miter_downheap (mi_nway m) (mh_set m 1 (miter_stream_skip s)) 1
    | None => m
    end
  else m.

(** The records that the streams still hold. *)
Definition miter_remaining (m : miter) : nat :=
  fold_right (fun s acc => (length (ms_iter s) + acc)%nat) 0%nat (mi_mh m).

(** The [do ... while] loop of [miter_skip_unique].  The stream [s0] is
    told from the others by its rank, which no two streams share. *)
Fixpoint miter_skip_unique_loop (fuel : nat) (m : miter) (rank0 : nat)
    (unique0 : bool) : miter :=
  match fuel with
  | O => m
  | S fuel' =>
      let m1 := miter_skip1 m in
      match mh_get m1 1 with
      | Some s1 =>
          match ms_kref s1 with
          | None => m1
          | Some k1 =>
              if unique0 && Nat.eqb (ms_rank s1) rank0 then m1
              else
                match kref_compare (mi_kref0 m1) k1 with
                | Eq => miter_skip_unique_loop fuel' m1 rank0 unique0
                | _ => m1
                end
          end
      | None => m1
      end
  end.

(** [miter_skip_unique]: every turn of the loop consumes a record, so the
    number of records left bounds the turns. *)
Definition miter_skip_unique (m : miter) : miter :=
  if miter_valid m then
    match mh_get m 1 with
    | Some s0 =>
        match ms_kref s0 with
        | Some k0 =>
            miter_skip_unique_loop (miter_remaining m) (Miter (mi_mh m) k0)
                                   (ms_rank s0) (ms_unique s0)
        | None => m
        end
    | None => m
    end
  else m.

(** ** The engine's iterator ([struct xdb_iter]) *)

(** The loop of [xdb_iter_skip_ts]. *)
Fixpoint xdb_iter_skip_ts_loop (fuel : nat) (m : miter) : miter :=
  match fuel with
  | O => m
  | S fuel' =>
      match miter_kvref m with
      | None => m
      | Some kvref =>
          if negb (kv_vlen kvref =? SST_VLEN_TS) then m
          else xdb_iter_skip_ts_loop fuel' (miter_skip_unique m)
      end
  end.

(** [xdb_iter_skip_ts]: every turn but the last consumes a record. *)
Definition xdb_iter_skip_ts (m : miter) : miter :=
  xdb_iter_skip_ts_loop (S (miter_remaining m)) m.

(** [struct xdb_iter]: the view the streams were made for, and the
    [miter]. *)
Record xdb_iter : Type := XdbIter {
  it_mt_view : nat;
  it_miter : miter
}.

(** [xdb_iter_miter_ref]: the SSTable version first (rank 0), then the IMT
    if the view has one, then the WMT.  [sst_unique] is the [unique] field
    of [kvmap_api_msstv_ts], which sst.c sets.  [wormhole_iter_create]
    leaves the iterator without a position; [whunsafe_iter_create] seeks to
    the empty key. *)
Definition xdb_iter_miter_ref (sst_unique : bool) (x : xdb) (ref : xdb_ref)
    (m : miter) : miter :=
  let m1 := miter_add_ref m (SrcSst (ref_v ref)) sst_unique [] in
  let m2 := match mp_imt (mt_views (ref_mt_view ref)) with
            | Some i => miter_add_ref m1 (SrcMt i) true (iter_seek (x_mt x i) [])
            | None => m1
            end in
  miter_add_ref m2 (SrcMt (mp_wmt (mt_views (ref_mt_view ref)))) true [].

(** [xdb_iter_create]. *)
Definition xdb_iter_create (sst_unique : bool) (x : xdb) (ref : xdb_ref)
  : xdb_iter * xdb_ref :=
  let ref := xdb_ref_update_version x ref in
  (XdbIter (ref_mt_view ref) (xdb_iter_miter_ref sst_unique x ref (Miter [] [])), ref).

(** [xdb_iter_update_version]: the streams are made anew when the view has
    moved. *)
Definition xdb_iter_update_version (sst_unique : bool) (x : xdb) (ref : xdb_ref)
    (it : xdb_iter) : xdb_iter * xdb_ref :=
  if Nat.eqb (ref_mt_view ref) (x_mt_view x) && Nat.eqb (it_mt_view it) (ref_mt_view ref)
  then (it, ref)
  else
    let ref := xdb_ref_update_version x ref in
    (XdbIter (ref_mt_view ref)
             (xdb_iter_miter_ref sst_unique x ref (Miter [] (mi_kref0 (it_miter it)))),
     ref).

(** [xdb_iter_seek]. *)
Definition xdb_iter_seek (sst_unique : bool) (x : xdb) (ref : xdb_ref)
    (it : xdb_iter) (key : list Z) : xdb_iter * xdb_ref :=
  let '(it1, ref1) := xdb_iter_update_version sst_unique x ref it in
  (XdbIter (it_mt_view it1) (xdb_iter_skip_ts (miter_seek x (it_miter it1) key)), ref1).

(** [xdb_iter_valid]. *)
Definition xdb_iter_valid (it : xdb_iter) : bool := miter_valid (it_miter it).

(** [xdb_iter_peek]: a copy of the record under the iterator. *)
Definition xdb_iter_peek (it : xdb_iter) : option kv := miter_kvref (it_miter it).

(** [xdb_iter_skip1]. *)
Definition xdb_iter_skip1 (it : xdb_iter) : xdb_iter :=
  XdbIter (it_mt_view it) (xdb_iter_skip_ts (miter_skip_unique (it_miter it))).

(** [xdb_iter_skip]. *)
Fixpoint xdb_iter_skip (it : xdb_iter) (n : nat) : xdb_iter :=
  match n with
  | O => it
  | S n' =>
      let it1 := xdb_iter_skip1 it in
      if negb (miter_valid (it_miter it1)) then it1 else xdb_iter_skip it1 n'
  end.

(** [xdb_iter_next]. *)
Definition xdb_iter_next (it : xdb_iter) : option kv * xdb_iter :=
  match xdb_iter_peek it with
  | Some r => (Some r, xdb_iter_skip1 it)
  | None => (None, it)
  end.

(** * Specification-level definitions

    What follows is used to state and prove the properties; it is not part
    of the engine. *)

(** The lexicographic order on byte strings, by structural recursion. *)
Fixpoint lex_compare (a b : list Z) : comparison :=
  match a, b with
  | [], [] => Eq
  | [], _ :: _ => Lt
  | _ :: _, [] => Gt
  | x :: a', y :: b' =>
      match x ?= y with
      | Eq => lex_compare a' b'
      | c => c
      end
  end.

(** [a <= b] in the key order. *)
Definition key_le (a b : list Z) : Prop := kref_compare a b <> Gt.
Definition key_lt (a b : list Z) : Prop := kref_compare a b = Lt.

(** A memtable holds its records in strictly ascending key order. *)
Definition keys_above (k : list Z) (m : memtable) : bool :=
  forallb (fun r => match kref_compare k (kv_key r) with Lt => true | _ => false end) m.

Fixpoint mt_sortedb (m : memtable) : bool :=
  match m with
  | [] => true
  | r :: m' => keys_above (kv_key r) m' && mt_sortedb m'
  end.

Definition mt_sorted (m : memtable) : Prop := mt_sortedb m = true.

(** The sum of [sst_kv_size] over the records of a memtable. *)
Definition mt_size (m : memtable) : Z :=
  fold_right (fun r acc => sst_kv_size r + acc) 0 m.

(** A record that [xdb_dup_kv] copies whole: its value area is not longer
    than its [vlen] says. *)
Definition kv_stable (r : kv) : Prop := xdb_dup_kv r = r.

(** ** Concrete inputs *)

(** A fresh SSTable store: version 1, one partition that starts at the
    empty key, no data. *)
Definition ex_z0 : msstv := Msstv 1 [Kv [] 0 []] [].

(** The engine as [xdb_open] sets it up with a 4 MiB memtable and an 8 MiB
    WAL. *)
Definition ex_x0 : xdb := xdb_open_state ex_z0 4194304 8388608.

(** A WAL file with the given version header and records. *)
Definition ex_wal_file (version : Z) (rs : list kv) : list Z :=
  le_bytes 8 version ++ flat_map wal_record_bytes rs.

(** Two WAL files with the same non-zero version. *)
Definition ex_files_equal (f : fd) : list Z :=
  match f with
  | Wal1 => ex_wal_file 5 [kv_create [97] [1]]
  | Wal2 => ex_wal_file 5 [kv_create [98] [2]]
  end.

(** Two WAL files of which [wal2] is the newer. *)
Definition ex_files_newer2 (f : fd) : list Z :=
  match f with
  | Wal1 => ex_wal_file 5 [kv_create [97] [1]; xdb_new_ts [98]]
  | Wal2 => ex_wal_file 6 [kv_create [97] [2]]
  end.

(** A WAL file whose first record declares [klen = 0xFFFFFFFF] and
    [vlen = 1]. *)
Definition ex_file_huge_klen : list Z :=
  le_bytes 8 1 ++ [0xff; 0xff; 0xff; 0xff; 0x0f; 0x01; 0; 0; 0; 0].

(** A buffer that starts with five continuation bytes. *)
Definition ex_buf_long_varint : list Z := [0x80; 0x80; 0x80; 0x80; 0x80; 0x01; 0x01].

(** A buffer whose first record declares [klen = 0xFFFFFFFF] and
    [vlen = 1]. *)
Definition ex_buf_huge_klen : list Z := [0xff; 0xff; 0xff; 0xff; 0x0f; 0x01; 0; 0; 0; 0].

(** A call that returns or is killed by a memory fault: it neither exits
    through [debug_die] nor waits. *)
Definition returns_or_faults {A : Type} (o : outcome A) : Prop :=
  match o with
  | Ok _ | Fault _ => True
  | Died | Waits => False
  end.

(** ** The engine with one client thread and the compaction thread

    The threads take turns: a turn is one operation of the client, or one
    step of the compaction thread. *)

Inductive op : Type :=
| OpPut (r : kv)
| OpDel (k : list Z)
| OpMerge (k : list Z) (uf : option kv -> user_ret)
| OpGet (k : list Z)
| OpProbe (k : list Z)
| OpSync
| OpComp (decide : list bool) (splits : list (list Z)).

(** The engine, the client's reference, and the place of the compaction
    thread. *)
Record sys : Type := Sys {
  s_x : xdb;
  s_ref : xdb_ref;
  s_pc : comp_pc
}.

Definition sys_step (o : op) (s : sys) : outcome sys :=
  match o with
  | OpPut r =>
      let* res := xdb_put (s_x s) (s_ref s) r in
      Ok (Sys (snd (fst res)) (snd res) (s_pc s))
  | OpDel k =>
      let* res := xdb_del (s_x s) (s_ref s) k in
      Ok (Sys (snd (fst res)) (snd res) (s_pc s))
  | OpMerge k uf =>
      let* res := xdb_merge 2 (s_x s) (s_ref s) k uf in
      Ok (Sys (snd (fst res)) (snd res) (s_pc s))
  | OpGet k => Ok (Sys (s_x s) (snd (xdb_get (s_x s) (s_ref s) k)) (s_pc s))
  | OpProbe k => Ok (Sys (s_x s) (snd (xdb_probe (s_x s) (s_ref s) k)) (s_pc s))
  | OpSync => Ok (Sys (xdb_sync (s_x s)) (s_ref s) (s_pc s))
  | OpComp decide splits =>
      let* r := comp_step decide splits
                  (fun v => Nat.eqb (ref_mt_view (s_ref s)) v) (s_x s, s_pc s) in
      Ok (Sys (fst r) (s_ref s) (snd r))
  end.

Fixpoint sys_run (ops : list op) (s : sys) : outcome sys :=
  match ops with
  | [] => Ok s
  | o :: ops' => let* s1 := sys_step o s in sys_run ops' s1
  end.

(** The operation writes the key [k]. *)
Definition op_writes (o : op) (k : list Z) : Prop :=
  match o with
  | OpPut r => kv_key r = k
  | OpDel k' => k' = k
  | OpMerge k' _ => k' = k
  | _ => False
  end.

(** What a user's merge function owes the engine: a record of its own
    that it returns has the key that is merged.  It may hand back any
    record that it is given, and it may update such a record in place to
    any length. *)
Definition op_ok (s : sys) (o : op) : Prop :=
  match o with
  | OpMerge k uf => forall old new, uf old = URetNew new -> kv_key new = k
  | _ => True
  end.

(** Every operation of a run meets its contract in the state it runs in. *)
Fixpoint run_ok (ops : list op) (s : sys) : Prop :=
  match ops with
  | [] => True
  | o :: ops' =>
      op_ok s o /\
      match sys_step o s with
      | Ok s1 => run_ok ops' s1
      | _ => True
      end
  end.

(** Two engine states that differ in the WAL only. *)
Definition same_tables (x x' : xdb) : Prop :=
  x_mt_view x' = x_mt_view x /\ x_mtsz x' = x_mtsz x /\
  x_mt1 x' = x_mt1 x /\ x_mt2 x' = x_mt2 x /\
  x_max_mtsz x' = x_max_mtsz x /\ x_max_rejsz x' = x_max_rejsz x /\
  x_z x' = x_z x.

Definition mt_other (i : mt_id) : mt_id :=
  match i with MT1 => MT2 | MT2 => MT1 end.

Definition view_normal (v : nat) : Prop := v = 0%nat \/ v = 2%nat.
Definition view_comp (v : nat) : Prop := v = 1%nat \/ v = 3%nat.

(** The record of [k] that a reader comes upon first: the WMT's, else the
    IMT's, else the SSTable version's. *)
Definition vis_lookup (x : xdb) (ref : xdb_ref) (k : list Z) : option kv :=
  match mt_get k (ref_wmt x ref) with
  | Some r => Some r
  | None =>
      match ref_imt x ref with
      | Some imt =>
          match mt_get k imt with
          | Some r => Some r
          | None => mt_get k (v_data (ref_v ref))
          end
      | None => mt_get k (v_data (ref_v ref))
      end
  end.

(** What the client's next read will see. *)
Definition vis (s : sys) (k : list Z) : option kv :=
  vis_lookup (s_x s) (xdb_ref_update_version (s_x s) (s_ref s)) k.

(** The IMT of the compaction that the locals [l] belong to. *)
Definition comp_imt (x : xdb) (l : comp_locals) : memtable :=
  match mp_imt (mt_views (cl_v_comp l)) with
  | Some i => x_mt x i
  | None => []
  end.

Definition comp_wmt (x : xdb) (l : comp_locals) : memtable :=
  x_mt x (mp_wmt (mt_views (cl_v_comp l))).

(** After [msstz_comp]: the new version has, for a key of an accepted
    partition, the IMT's record or else the old version's, and for a key of
    a rejected partition the old version's. *)
Definition comp_rel (x : xdb) (l : comp_locals) : Prop :=
  mt_sorted (cl_anchors l) /\
  forall k,
    mt_get k (v_data (x_z x)) =
      if part_rejected (cl_anchors l) k then mt_get k (v_data (cl_oldv l))
      else match mt_get k (comp_imt x l) with
           | Some r => Some r
           | None => mt_get k (v_data (cl_oldv l))
           end.

(** After the reinsertion: a key of the IMT in a rejected partition is in
    the WMT. *)
Definition comp_reinserted (x : xdb) (l : comp_locals) : Prop :=
  forall k r, mt_get k (comp_imt x l) = Some r ->
              part_rejected (cl_anchors l) k = true ->
              mt_get k (comp_wmt x l) <> None.

Definition pc_inv (x : xdb) (pc : comp_pc) : Prop :=
  match pc with
  | CompIdle | CompCleaned _ =>
      view_normal (x_mt_view x) /\
      x_mt x (mt_other (mp_wmt (mt_views (x_mt_view x)))) = []
  | CompRotated l => cl_v_comp l = x_mt_view x /\ view_comp (x_mt_view x)
  | CompTablesDone l =>
      cl_v_comp l = x_mt_view x /\ view_comp (x_mt_view x) /\ comp_rel x l
  | CompReinserted l | CompSynced l =>
      cl_v_comp l = x_mt_view x /\ view_comp (x_mt_view x) /\
      comp_rel x l /\ comp_reinserted x l
  | CompSwitched l =>
      x_mt_view x = mp_next (mt_views (cl_v_comp l)) /\ view_comp (cl_v_comp l)
  end.

(** The client's reference: after a [qsbr_wait] it is on the current view;
    it holds the version that was current when it was taken. *)
Definition ref_inv (x : xdb) (ref : xdb_ref) (pc : comp_pc) : Prop :=
  match pc with
  | CompIdle | CompCleaned _ =>
      ref_mt_view ref = x_mt_view x /\ v_data (ref_v ref) = v_data (x_z x)
  | CompRotated _ =>
      ref_mt_view ref = x_mt_view x -> v_data (ref_v ref) = v_data (x_z x)
  | CompTablesDone l | CompReinserted l | CompSynced l =>
      ref_mt_view ref = x_mt_view x /\ v_data (ref_v ref) = v_data (cl_oldv l)
  | CompSwitched _ =>
      ref_mt_view ref = x_mt_view x -> v_data (ref_v ref) = v_data (x_z x)
  end.

(** The invariant of the engine between turns. *)
Definition sys_inv (s : sys) : Prop :=
  let x := s_x s in
  mt_sorted (x_mt1 x) /\ mt_sorted (x_mt2 x) /\
  Forall kv_stable (x_mt1 x) /\ Forall kv_stable (x_mt2 x) /\
  x_mtsz x = u64 (mt_size (x_wmt x)) /\
  mt_sorted (v_anchors (x_z x)) /\
  pc_inv x (s_pc s) /\ ref_inv x (s_ref s) (s_pc s).

(** What every run keeps, also one with a merge function that changes the
    length of a record in place (after which [mtsz] is no longer the size
    of the WMT, so that [sys_inv] is lost): the tables are in key order,
    their records hold no bytes past their length, the compaction and the
    client's reference are where [pc_inv] and [ref_inv] say, and [mtsz] is
    within 64 bits. *)
Definition sys_shape (s : sys) : Prop :=
  let x := s_x s in
  mt_sorted (x_mt1 x) /\ mt_sorted (x_mt2 x) /\
  Forall kv_stable (x_mt1 x) /\ Forall kv_stable (x_mt2 x) /\
  0 <= x_mtsz x < 2^64 /\
  mt_sorted (v_anchors (x_z x)) /\
  pc_inv x (s_pc s) /\ ref_inv x (s_ref s) (s_pc s).

(** A record that the public limits admit: the key and the value have at
    most 65500 bytes together. *)
Definition kv_legal (r : kv) : Prop :=
  kv_wf r /\ kv_klen r + kv_vlen r <= 65500.

(** ** The effect of the write paths, spelled out *)

(** The engine after a record has been merged into the WMT by
    [xdb_mt_update_func]. *)
Definition xdb_update_result (x : xdb) (newkv : kv) : xdb :=
  let wid := mp_wmt (mt_views (x_mt_view x)) in
  let oldsz := match mt_get (kv_key newkv) (x_mt x wid) with
               | Some r0 => sst_kv_size r0
               | None => 0
               end in
  x_set_mt
    (x_set_wal (x_set_mtsz x (u64 (x_mtsz x + u64 (sst_kv_size newkv - oldsz))))
               (wal_append (wal_add_write_user (x_wal x) (sst_kv_size newkv)) newkv))
    wid (mt_set newkv (x_mt x wid)).

(** The engine after one record of the IMT has gone through
    [xdb_mt_reinsert_func]. *)
Definition reinsert_one (wid : mt_id) (x : xdb) (curr : kv) : xdb :=
  match mt_get (kv_key curr) (x_mt x wid) with
  | Some _ => x
  | None =>
      x_set_mt
        (x_set_wal (x_set_mtsz x (u64 (x_mtsz x + sst_kv_size (xdb_dup_kv curr))))
                   (wal_append (x_wal x) (xdb_dup_kv curr)))
        wid (mt_set (xdb_dup_kv curr) (x_mt x wid))
  end.

(** [a <= k], and [k < z] when there is a next anchor [z]. *)
Definition key_in_range (a : list Z) (oz : option (list Z)) (k : list Z) : bool :=
  match kref_compare a k with
  | Gt => false
  | _ =>
      match oz with
      | Some z => match kref_compare k z with Lt => true | _ => false end
      | None => true
      end
  end.

(** The records of the IMT that the reinsertion walks over, in the order
    of the walk: for every anchor with a non-zero [vlen], the records from
    that anchor up to the next one. *)
Fixpoint rej_records (anchors : list kv) (imt : memtable) : list kv :=
  match anchors with
  | [] => []
  | a :: rest =>
      (if kv_vlen a =? 0 then []
       else List.filter (fun r => key_in_range (kv_key a) (option_map kv_key (head rest))
                                          (kv_key r)) imt)
      ++ rej_records rest imt
  end.

(** The [EvAppend] events of a log. *)
Definition log_appends (log : list io_event) : list kv :=
  flat_map (fun e => match e with EvAppend r => [r] | _ => [] end) log.

(** A record whose key the memtable does not hold. *)
Definition mt_absent (m : memtable) (r : kv) : bool :=
  match mt_get (kv_key r) m with
  | None => true
  | Some _ => false
  end.

(** The copies that the reinsertion makes: one for every walked record of
    the IMT whose key the WMT does not hold. *)
Definition reinserted (anchors : list kv) (imt wmt : memtable) : list kv :=
  map xdb_dup_kv (List.filter (mt_absent wmt) (rej_records anchors imt)).

(** An engine in the middle of a compaction: the WMT holds a newer record
    for key [3]; the IMT holds keys [1], [2] and [3]; the partition that
    starts at key [2] has been rejected. *)
Definition ex_anchors : list kv := [Kv [] 0 []; Kv [2] 1 []].

Definition ex_reinsert_x : xdb :=
  x_set_mt (x_set_mt ex_x0 MT1 [Kv [3] 1 [9]])
           MT2 [Kv [1] 1 [1]; Kv [2] 1 [2]; Kv [3] 1 [3]].

(** A key of 65501 bytes, and the reference of a client of [ex_x0]. *)
Definition ex_long_key : list Z := repeat 0 (Z.to_nat 65501).
Definition ex_ref0 : xdb_ref := xdb_ref_all ex_x0.

(** The engine while [xdb_open] recovers: view 0, the records in [mt1],
    [mt2] empty. *)
Definition recover_inv (x : xdb) : Prop :=
  x_mt_view x = 0%nat /\ mt_sorted (x_mt1 x) /\ Forall kv_stable (x_mt1 x) /\
  x_mt2 x = [] /\ x_mtsz x = u64 (mt_size (x_mt1 x)) /\
  mt_sorted (v_anchors (x_z x)).

(** A state that a run reaches from [xdb_open]: the open state, the
    recovery of the two WAL files, then turns of the client and of the
    compaction thread. *)
Definition reachable (s : sys) : Prop :=
  exists z max_mtsz maxsz files decide splits x1 lines ops,
    mt_sorted (v_anchors z) /\
    xdb_wal_recover (xdb_open_state z max_mtsz maxsz) files decide splits
      = Ok (x1, lines) /\
    run_ok ops (Sys x1 (xdb_ref_all x1) CompIdle) /\
    sys_run ops (Sys x1 (xdb_ref_all x1) CompIdle) = Ok s.

(** The state that a run ends in ([s] itself when the run does not return). *)
Definition sys_after (ops : list op) (s : sys) : sys :=
  match sys_run ops s with
  | Ok s' => s'
  | _ => s
  end.

(** A store opened on two empty WAL files, and runs on it. *)
Definition ex_open : sys :=
  match xdb_wal_recover ex_x0 (fun _ => []) [] [] with
  | Ok (x, _) => Sys x (xdb_ref_all x) CompIdle
  | _ => Sys ex_x0 ex_ref0 CompIdle
  end.

Definition ex_r1 : kv := Kv [1] 2 [10; 11].
Definition ex_r2 : kv := Kv [2] 1 [20].

(** One compaction, every partition accepted, with the turns of the client
    that the two [qsbr_wait] calls wait for (a probe of the empty key). *)
Definition ex_comp : list op :=
  [OpComp [] []; OpProbe []; OpComp [] []; OpComp [] []; OpComp [] []; OpComp [] [];
   OpProbe []; OpComp [] []; OpComp [] []].

(** The store after [ex_r1] was put, and after a compaction on top. *)
Definition ex_after_put : sys := sys_after [OpPut ex_r1] ex_open.
Definition ex_after_put_comp : sys := sys_after ex_comp ex_after_put.

(** A merge function that shortens the value of the record it is given to
    the one byte 7, in place, and hands the record back. *)
Definition ex_uf_shrink (old : option kv) : user_ret :=
  match old with
  | Some _ => URetInPlace 1 [7]
  | None => URetNull
  end.

(** The store after [ex_r1] was put and deleted, and after a compaction on
    top. *)
Definition ex_after_del : sys := sys_after [OpDel [1]] ex_after_put.
Definition ex_after_del_comp : sys := sys_after ex_comp ex_after_del.

(** ** The order of the I/O of a compaction *)

(** Traffic on the file [f]: appends to the buffer, writes and fsyncs
    submitted for [f]. *)
Definition ev_on (f : fd) (e : io_event) : bool :=
  match e with
  | EvAppend _ => true
  | EvWrite g _ _ => fd_eqb g f
  | EvFsync g => fd_eqb g f
  | _ => false
  end.

Definition ev_is_truncate (e : io_event) : bool :=
  match e with
  | EvTruncate _ => true
  | _ => false
  end.

(** The WAL while a compaction reinserts: the ring is on [new], [old] is
    retired, the buffer is not empty, and the offsets are in order and
    below [bound]. *)
Definition wal_during_comp (new old : fd) (bound : Z) (w : wal) : Prop :=
  wal_ring_fd w = new /\ wal_fds w = (new, old) /\
  0 < wal_bufoff w /\ 0 <= wal_soff w <= wal_woff w /\
  wal_woff w + wal_bufoff w <= bound.

(** The bytes that a record can take in the log, with the padding of one
    flush. *)
Definition wal_cost (r : kv) : Z := sst_kv_size r + 70000.

Definition wal_costs (m : list kv) : Z :=
  fold_right (fun r acc => wal_cost r + acc) 0 m.

Definition ev_not_truncate (e : io_event) : bool := negb (ev_is_truncate e).

(** ** The merging iterator, as the heap orders it *)

(** The order that [miter_should_swap] sorts the streams by: a stream
    with a key before one without; the smaller key first; of two streams
    on the same key, the one of higher rank first. *)
Definition stream_le (p c : miter_stream) : Prop :=
  match ms_kref p, ms_kref c with
  | Some kp, Some kc => key_lt kp kc \/ (kp = kc /\ (ms_rank c <= ms_rank p)%nat)
  | Some _, None => True
  | None, Some _ => False
  | None, None => True
  end.

(** The stream at [mh[1]] is not behind any other. *)
Definition heap_root_min (m : miter) : Prop :=
  match mi_mh m with
  | [] => True
  | s :: rest => Forall (stream_le s) rest
  end.

(** The cached key of a stream is the key under its iterator. *)
Definition stream_fixed (s : miter_stream) : Prop :=
  ms_kref s = iter_kref (ms_iter s).

(** The iterator of the stream stands in its map at the cut [k]: behind it
    are the records below [k] (up to [k] when [strict]), ahead of it the
    rest. *)
Definition stream_at (x : xdb) (strict : bool) (k : list Z) (s : miter_stream) : Prop :=
  exists pre,
    stream_map x (ms_src s) = pre ++ ms_iter s /\
    Forall (fun r => if strict then key_le (kv_key r) k else key_lt (kv_key r) k) pre /\
    Forall (fun r => if strict then key_lt k (kv_key r) else key_le k (kv_key r))
           (ms_iter s).

(** What identifies a stream: its source, its rank and its [unique] flag. *)
Definition stream_id (s : miter_stream) : stream_src * nat * bool :=
  (ms_src s, ms_rank s, ms_unique s).

(** The streams of an iterator on the reference [ref]: those that
    [xdb_iter_miter_ref] makes, in whatever order the heap holds them; each
    over a map in key order, each with its key cached. *)
Definition miter_for (sst_unique : bool) (x : xdb) (ref : xdb_ref) (m : miter) : Prop :=
  Permutation (map stream_id (mi_mh m))
              (map stream_id (mi_mh (xdb_iter_miter_ref sst_unique x ref (Miter [] [])))) /\
  Forall stream_fixed (mi_mh m) /\
  Forall (fun s => mt_sorted (stream_map x (ms_src s))) (mi_mh m) /\
  heap_root_min m.

(** Every stream stands at the same cut. *)
Definition miter_aligned (x : xdb) (m : miter) : Prop :=
  exists strict k, Forall (stream_at x strict k) (mi_mh m).

(** Every record that the streams still hold has a key in [P]. *)
Definition miter_keys (P : list Z -> Prop) (m : miter) : Prop :=
  Forall (fun s => Forall (fun r => P (kv_key r)) (ms_iter s)) (mi_mh m).

(** The records that [n] calls of [xdb_iter_next] hand out. *)
Fixpoint xdb_iter_collect (n : nat) (it : xdb_iter) : list kv :=
  match n with
  | O => []
  | S n' =>
      match xdb_iter_next it with
      | (Some r, it') => r :: xdb_iter_collect n' it'
      | (None, _) => []
      end
  end.

(** The records that a client sees who reads the record under the
    iterator, calls [xdb_iter_skip] with a count of [S n] for the first
    [n] of [ns], reads again, and so on; it stops at the end of [ns] or
    when the iterator has nothing under it. *)
Fixpoint xdb_iter_walk (ns : list nat) (it : xdb_iter) : list kv :=
  match ns with
  | [] => match xdb_iter_peek it with Some r => [r] | None => [] end
  | n :: ns' =>
      match xdb_iter_peek it with
      | Some r => r :: xdb_iter_walk ns' (xdb_iter_skip it (S n))
      | None => []
      end
  end.

(** The keys of a list of records go up strictly. *)
Fixpoint keys_ascend (l : list kv) : Prop :=
  match l with
  | [] => True
  | r :: l' =>
      match l' with
      | [] => True
      | r' :: _ => key_lt (kv_key r) (kv_key r')
      end /\ keys_ascend l'
  end.

(** The iterator belongs to the reference: when neither has to be brought
    up to date, the streams of the iterator are those of the reference. *)
Definition xdb_iter_for (sst_unique : bool) (x : xdb) (ref : xdb_ref) (it : xdb_iter)
  : Prop :=
  ref_mt_view ref = x_mt_view x -> it_mt_view it = ref_mt_view ref ->
  Permutation (map stream_id (mi_mh (it_miter it)))
              (map stream_id (mi_mh (xdb_iter_miter_ref sst_unique x ref (Miter [] [])))).

(** An engine in the middle of a compaction, for iteration: the WMT has
    a tombstone for key [1] and a newer record for key [3]; the IMT has
    keys [1], [2], [3]; the SSTable version has keys [2] and [4]. *)
Definition ex_iter_x : xdb :=
  Xdb 1 0 (x_wal ex_x0)
      [Kv [1] 1 [11]; Kv [2] 1 [12]; Kv [3] 1 [13]]
      [Kv [1] SST_VLEN_TS []; Kv [3] 1 [23]]
      4194304 262144
      (Msstv 1 [Kv [] 0 []] [Kv [2] 1 [32]; Kv [4] 1 [34]]).

Definition ex_iter_ref : xdb_ref := xdb_ref_all ex_iter_x.

Definition ex_iter : xdb_iter := fst (xdb_iter_create true ex_iter_x ex_iter_ref).


(** * More of lib.c and kv.c: varints, kv128, key comparison, prefixes *)

(** [__builtin_clz] and [__builtin_clzl] on a [w]-bit word that is not
    zero: the number of zero bits above the highest set bit. *)
Definition clz (w : Z) (v : Z) : nat := Z.to_nat (w - 1 - Z.log2 v).

(** [__builtin_ctz] and [__builtin_ctzl] on a word that is not zero: the
    number of zero bits below the lowest set bit.  [n] bounds the width. *)
Fixpoint ctz (n : nat) (v : Z) : Z :=
  match n with
  | O => 0
  | S n' => if Z.testbit v 0 then 0 else 1 + ctz n' (Z.shiftr v 1)
  end.

(** The table [t] of [vi128_estimate_u32], indexed by [__builtin_clz (v)]. *)
Definition vi128_t32 : list nat :=
  [5; 5; 5; 5;
   4; 4; 4; 4; 4; 4; 4;
   3; 3; 3; 3; 3; 3; 3;
   2; 2; 2; 2; 2; 2; 2;
   1; 1; 1; 1; 1; 1; 1]%nat.

(** [vi128_estimate_u32] as the source has it: [v ? t[clz (v)] : 2]. *)
Definition vi128_estimate_u32_tab (v : Z) : nat :=
  if v =? 0 then 2%nat else nth (clz 32 v) vi128_t32 0%nat.

(** The table [t] of [vi128_estimate_u64], indexed by [__builtin_clzl (v)]. *)
Definition vi128_t64 : list nat :=
  [10;
   9; 9; 9; 9; 9; 9; 9;
   8; 8; 8; 8; 8; 8; 8;
   7; 7; 7; 7; 7; 7; 7;
   6; 6; 6; 6; 6; 6; 6;
   5; 5; 5; 5; 5; 5; 5;
   4; 4; 4; 4; 4; 4; 4;
   3; 3; 3; 3; 3; 3; 3;
   2; 2; 2; 2; 2; 2; 2;
   1; 1; 1; 1; 1; 1; 1]%nat.

(** [vi128_estimate_u64]. *)
Definition vi128_estimate_u64 (v : Z) : nat :=
  if v =? 0 then 2%nat else nth (clz 64 v) vi128_t64 0%nat.

(** [vi128_encode_u64]: the same falling-through [switch], from case 10. *)
Definition vi128_encode_u64 (v : Z) : list Z :=
  vi128_encode_cases (vi128_estimate_u64 v) v.

(** The loop of [vi128_decode_u64]. *)
Fixpoint vi128_decode_loop64 (n : nat) (mem : list Z) (src : nat) (shift r : Z)
  : outcome (option nat * Z) :=
  match n with
  | O => Ok (None, 0)
  | S n' =>
      let* byte := rd mem src in
      let r' := Z.lor r (u64 (Z.shiftl (Z.land byte 0x7f) shift)) in
      if Z.land byte 0x80 =? 0 then Ok (Some (S src), r')
      else vi128_decode_loop64 n' mem (S src) (shift + 7) r'
  end.

(** [vi128_decode_u64]: [shift] runs over 0, 7, ..., 63. *)
Definition vi128_decode_u64 (mem : list Z) (src : option nat)
  : outcome (option nat * Z) :=
  match src with
  | None => Fault NullDeref
  | Some p => vi128_decode_loop64 10 mem p 0 0
  end.

(** ** kv128: a record as [varint (klen)] [varint (vlen)] [key] [value] (kv.c) *)

(** The [klen + vlen] bytes that follow the header of a [struct kv]. *)
Definition kv_data (r : kv) : list Z := kv_key r ++ kv_val r.

(** [kv128_estimate_kv]: the four terms are [u32] values, and so is
    their sum, which is widened to [size_t] on return. *)
Definition kv128_estimate_kv (r : kv) : Z :=
  u32 (Z.of_nat (vi128_estimate_u32 (kv_klen r)) +
       Z.of_nat (vi128_estimate_u32 (kv_vlen r)) + kv_klen r + kv_vlen r).

(** [kv128_encode_kv (kv, out, pesize)] with a buffer [out]: the bytes
    written and the size stored through [pesize].  The length of the
    [memcpy] is the [u32] sum [kv->klen + kv->vlen]; the size stored
    through [pesize] starts from a [size_t] and does not wrap at 32 bits. *)
Definition kv128_encode_kv (r : kv) : outcome (list Z * Z) :=
  let hdr := vi128_encode_u32 (kv_klen r) ++ vi128_encode_u32 (kv_vlen r) in
  let* data := rd_bytes (kv_data r) 0 (u32 (kv_klen r + kv_vlen r)) in
  Ok (hdr ++ data, u64 (Z.of_nat (length hdr) + kv_klen r + kv_vlen r)).

(** The pointer difference [(size_t)(pdata - ptr)]: [base] is the address
    of the buffer, [ptr] an offset in it, and [pdata] is NULL or an
    offset. *)
Definition ptr_diff (base : Z) (pdata : option nat) (ptr : nat) : Z :=
  match pdata with
  | Some p => u64 (Z.of_nat p - Z.of_nat ptr)
  | None => u64 (0 - (base + Z.of_nat ptr))
  end.

(** A [memcpy] of [n] bytes from [pdata + off]. *)
Definition copy_from (mem : list Z) (pdata : option nat) (off : Z) (n : Z)
  : outcome (list Z) :=
  if n =? 0 then Ok []
  else
    match pdata with
    | Some p => rd_bytes mem (p + Z.to_nat off) n
    | None => Fault NullDeref
    end.

(** The two lengths in front of a kv128 and the pointer behind them:
    [vi128_decode_u32 (vi128_decode_u32 (ptr, &klen), &vlen)]. *)
Definition kv128_header (mem : list Z) (ptr : nat) : outcome (option nat * Z * Z) :=
  let* d1 := vi128_decode_u32 mem (Some ptr) in
  let '(p1, klen) := d1 in
  let* d2 := vi128_decode_u32 mem p1 in
  let '(pdata, vlen) := d2 in
  Ok (pdata, klen, vlen).

(** [kv128_decode_kv (ptr, out, pesize)] with a buffer [out]: the record
    that [kv_refill] makes and the size stored through [pesize]. *)
Definition kv128_decode_kv (base : Z) (mem : list Z) (ptr : nat) : outcome (kv * Z) :=
  let* h := kv128_header mem ptr in
  let '(pdata, klen, vlen) := h in
  let* key := copy_from mem pdata 0 klen in
  let* val := copy_from mem pdata klen vlen in
  Ok (Kv key vlen val, u64 (ptr_diff base pdata ptr + klen + vlen)).

(** [kv128_size]. *)
Definition kv128_size (base : Z) (mem : list Z) (ptr : nat) : outcome Z :=
  let* h := kv128_header mem ptr in
  let '(pdata, klen, vlen) := h in
  Ok (u64 (ptr_diff base pdata ptr + klen + vlen)).

(** [memcmp (p1, pdata, n)] where [pdata] points into [mem]: the [n] bytes
    have to be there. *)
Definition memcmp_at (p1 : list Z) (mem : list Z) (pdata : option nat) (n : Z)
  : outcome comparison :=
  let* bytes := copy_from mem pdata 0 n in
  Ok (memcmp p1 bytes (Z.to_nat n)).

(** [kv_match_kv128 (sk, kv128)], and [kref_kv_match] against the key of
    an encoded record. *)
Definition kv_match_kv128 (sk : list Z) (mem : list Z) (ptr : nat) : outcome bool :=
  let* h := kv128_header mem ptr in
  let '(pdata, klen128, _) := h in
  if Z.of_nat (length sk) =? klen128 then
    let* c := memcmp_at sk mem pdata klen128 in
    Ok (match c with Eq => true | _ => false end)
  else Ok false.

(** [kv_kv128_compare (sk, kv128)] and [kref_kv128_compare (sk, kv128)],
    which have the same body. *)
Definition kref_kv128_compare (sk : list Z) (mem : list Z) (ptr : nat)
  : outcome comparison :=
  let* h := kv128_header mem ptr in
  let '(pdata, klen2, _) := h in
  let klen1 := Z.of_nat (length sk) in
  let len := if klen1 <? klen2 then klen1 else klen2 in
  let* c := memcmp_at sk mem pdata len in
  Ok (match c with
      | Eq => klen_compare (length sk) (Z.to_nat klen2)
      | c => c
      end).

(** ** Longest common prefixes ([memlcp] of lib.c, [kref_lcp] of kv.c) *)

(** A 64-bit or 32-bit load at [p + off]: [n] bytes, little-endian. *)
Definition load_le (n : nat) (p : list Z) (off : nat) : Z :=
  le_value (firstn n (skipn off p)).

(** The first loop of [memlcp], eight bytes at a time.  The result is
    [clen] and whether the function has returned. *)
Fixpoint memlcp_loop64 (fuel : nat) (p1 p2 : list Z) (max64 clen : nat)
  : nat * bool :=
  match fuel with
  | O => (clen, false)
  | S fuel' =>
      if (clen <? max64)%nat then
        let x := Z.lxor (load_le 8 p1 clen) (load_le 8 p2 clen) in
        if negb (x =? 0) then ((clen + Z.to_nat (Z.shiftr (ctz 64 x) 3))%nat, true)
        else memlcp_loop64 fuel' p1 p2 max64 (clen + 8)
      else (clen, false)
  end.

(** The last loop of [memlcp], byte by byte. *)
Fixpoint memlcp_bytes (fuel : nat) (p1 p2 : list Z) (max clen : nat) : nat :=
  match fuel with
  | O => clen
  | S fuel' =>
      if (clen <? max)%nat && (nth clen p1 0 =? nth clen p2 0)
      then memlcp_bytes fuel' p1 p2 max (S clen)
      else clen
  end.

(** [memlcp (p1, p2, max)]: [max64] is [max & ~7u]. *)
Definition memlcp (p1 p2 : list Z) (max : nat) : nat :=
  let max64 := Z.to_nat (Z.land (Z.of_nat max) 0xFFFFFFF8) in
  let '(clen, returned) := memlcp_loop64 max p1 p2 max64 0 in
  if returned then clen
  else
    let '(clen, returned) :=
      if (clen + 4 <=? max)%nat then
        let x := Z.lxor (load_le 4 p1 clen) (load_le 4 p2 clen) in
        if negb (x =? 0) then ((clen + Z.to_nat (Z.shiftr (ctz 32 x) 3))%nat, true)
        else ((clen + 4)%nat, false)
      else (clen, false) in
    if returned then clen
    else memlcp_bytes max p1 p2 max clen.

(** [kref_lcp], [kv_key_lcp] and [kref_kv_lcp], which have the same body. *)
Definition kref_lcp (k1 k2 : list Z) : nat :=
  memlcp k1 k2 (if (length k1 <? length k2)%nat then length k1 else length k2).

(** [kv_key_lcp_skip (key1, key2, lcp0)]. *)
Definition kv_key_lcp_skip (k1 k2 : list Z) (lcp0 : nat) : nat :=
  let max := if (length k1 <? length k2)%nat then length k1 else length k2 in
  (lcp0 + memlcp (skipn lcp0 k1) (skipn lcp0 k2) (max - lcp0))%nat.

(** The byte-wise meaning: how many leading bytes two strings share. *)
Fixpoint common_prefix (a b : list Z) : nat :=
  match a, b with
  | x :: a', y :: b' => if x =? y then S (common_prefix a' b') else 0%nat
  | _, _ => 0%nat
  end.

(** The bytes shared from offset [c] on, within the first [max], and the
    invariant of the loops of [memlcp]: the [c] bytes behind are shared
    and the answer is [c] more than what is shared from [c] on. *)
Definition memlcp_rest (p1 p2 : list Z) (max c : nat) : nat :=
  common_prefix (firstn (max - c) (skipn c p1)) (firstn (max - c) (skipn c p2)).

Definition memlcp_inv (p1 p2 : list Z) (max c : nat) : Prop :=
  (c <= max)%nat /\
  common_prefix (firstn max p1) (firstn max p2) = (c + memlcp_rest p1 p2 max c)%nat.

(** * The write-ahead log on disk

    Specification-level definitions, used to state the properties of the
    log: the layout of a log file, the content of the files after the I/O
    of a run, and the invariants of the engine that the proofs carry.
    They are not part of the engine. *)

(** The bytes of one log record as [wal_vi128_decode] takes them apart:
    the two lengths as varints, the key, the value, and the CRC32C of the
    key in four bytes. *)
Definition wal_bytes (key : list Z) (vlen : Z) (val : list Z) : list Z :=
  vi128_encode_u32 (Z.of_nat (length key)) ++ vi128_encode_u32 vlen ++
  key ++ val ++ le_bytes 4 (kv_crc32c key).

(** A record that such bytes stand for: the lengths fit 32 bits, the value
    area has [vlen & SST_VLEN_MASK] bytes, and the key is made of bytes. *)
Definition wal_record_ok (r : kv) : Prop :=
  0 <= kv_vlen r < 2^32 /\
  kv_klen r + Z.land (kv_vlen r) SST_VLEN_MASK < 2^32 /\
  Z.of_nat (length (kv_val r)) = Z.land (kv_vlen r) SST_VLEN_MASK /\
  Forall (fun b => 0 <= b < 256) (kv_key r).

(** What a log file holds behind its header: records, and runs of zero
    bytes (the padding of a write to whole pages). *)
Inductive wal_item : Type :=
| WalPad (n : nat)
| WalRec (r : kv).

Definition wal_item_bytes (it : wal_item) : list Z :=
  match it with
  | WalPad n => repeat 0 n
  | WalRec r => wal_bytes (kv_key r) (kv_vlen r) (kv_val r)
  end.

Definition wal_items_bytes (items : list wal_item) : list Z :=
  flat_map wal_item_bytes items.

Definition wal_items_records (items : list wal_item) : list kv :=
  flat_map (fun it => match it with WalRec r => [r] | WalPad _ => [] end) items.

Definition wal_item_ok (it : wal_item) : Prop :=
  match it with
  | WalPad _ => True
  | WalRec r => wal_record_ok r
  end.

(** One record applied by the replay loop: what [wormhole_merge] with
    [xdb_recover_update_func] does to the memtable, to [ctx.mtsz] and to
    [nkeys]. *)
Definition replay_step (st : replay_state) (r : kv) : replay_state :=
  let oldsz := match mt_get (kv_key r) (rp_mt st) with
               | Some r0 => sst_kv_size r0
               | None => 0
               end in
  Replay (mt_set r (rp_mt st))
         (u64 (rp_mtsz st + u64 (sst_kv_size r - oldsz)))
         (rp_nkeys st + 1).

(** Records put into a memtable one after the other. *)
Definition mt_replay (rs : list kv) (m : memtable) : memtable :=
  fold_left (fun m r => mt_set r m) rs m.

(** ** Files, as the writes of the log leave them

    The two log files are byte strings; the events of the I/O log act on
    them as the system calls do: a write puts its bytes at its offset
    (extending the file), [ftruncate (fd, 0)] empties the file, syncs and
    waits change nothing. *)

(** [pwrite] of [data] at [off]: a gap between the end of the file and
    [off] reads as zeros. *)
Definition disk_write (file : list Z) (off : Z) (data : list Z) : list Z :=
  let o := Z.to_nat off in
  firstn o file ++ repeat 0 (o - length file) ++ data ++ skipn (o + length data) file.

(** The content of the file behind [f] after one more event. *)
Definition disk_apply (f : fd) (file : list Z) (e : io_event) : list Z :=
  match e with
  | EvWrite f' off data | EvPwrite f' off data =>
      if fd_eqb f' f then disk_write file off data else file
  | EvTruncate f' => if fd_eqb f' f then [] else file
  | _ => file
  end.

(** The content of the file behind [f] once every operation of the log
    has completed, from the content [file]. *)
Definition disk_after (f : fd) (log : list io_event) (file : list Z) : list Z :=
  fold_left (disk_apply f) log file.

(** A record that the log can take: its bytes fit a write buffer. *)
Definition wal_record_fits (r : kv) : Prop :=
  wal_record_ok r /\ kv_klen r + Z.land (kv_vlen r) SST_VLEN_MASK + 14 <= WAL_BLKSZ.

(** The log of a store since it was opened on empty files, while no
    compaction has run: what the current file holds, followed by the
    buffer, is the header and the appended records in order, with padding
    between them; the file ends where the next write goes, on a page
    boundary; the buffer is within its block. *)
Definition wal_disk_ok (w : wal) : Prop :=
  let f := fst (wal_fds w) in
  let disk := disk_after f (wal_log w) [] in
  wal_ring_fd w = f /\
  Z.of_nat (length disk) = wal_woff w /\
  wal_woff w mod 4096 = 0 /\
  wal_bufoff w <= WAL_BLKSZ /\
  0 <= wal_maxsz w < 2^62 /\
  wal_woff w + (if wal_bufoff w =? 0 then 0 else WAL_BLKSZ) <= wal_maxsz w + 2 * WAL_BLKSZ /\
  exists items,
    Forall wal_item_ok items /\
    wal_items_records items = log_appends (wal_log w) /\
    disk ++ wal_buf w = le_bytes 8 (wal_version w) ++ wal_items_bytes items.

(** The operations of a client that stays within the documented limits,
    without read-modify-write: a put of a record of at most 65500 bytes, a
    delete of a key of at most 65500 bytes, reads and syncs. *)
Definition op_plain (o : op) : Prop :=
  match o with
  | OpPut r => kv_legal r /\ Forall (fun b => 0 <= b < 256) (kv_key r)
  | OpDel k => Z.of_nat (length k) <= 65500 /\ Forall (fun b => 0 <= b < 256) k
  | OpGet _ | OpProbe _ | OpSync => True
  | OpMerge _ _ | OpComp _ _ => False
  end.

(** An event that changes no file and appends no record. *)
Definition ev_quiet (e : io_event) : bool :=
  match e with
  | EvFsync _ | EvIoWait | EvUpdateFd _ | EvFdatasync _ => true
  | _ => false
  end.

(** The engine since it was opened on empty log files over the SSTable
    version [z], while no compaction has run: view 0 with its records in
    [mt1], which are the appended records put one after the other; the
    log on [wal1], [wal2] empty. *)
Definition xdb_plain_inv (z : msstv) (x : xdb) : Prop :=
  x_mt_view x = 0%nat /\ x_mt2 x = [] /\ x_z x = z /\
  wal_disk_ok (x_wal x) /\ wal_fds (x_wal x) = (Wal1, Wal2) /\
  wal_version (x_wal x) = msstz_version z /\
  disk_after Wal2 (wal_log (x_wal x)) [] = [] /\
  x_mt1 x = mt_replay (log_appends (wal_log (x_wal x))) [] /\
  x_mtsz x = u64 (mt_size (x_mt1 x)).

Definition sys_plain_inv (z : msstv) (s : sys) : Prop :=
  xdb_plain_inv z (s_x s) /\ s_ref s = XdbRef 0 z /\ s_pc s = CompIdle.

(** ** Keys that an iteration has not reached yet *)

(** The key [k] lies ahead in the iterator: a stream still holds a record
    of it. *)
Definition miter_ahead (m : miter) (k : list Z) : Prop :=
  exists s r, In s (mi_mh m) /\ In r (ms_iter s) /\ kv_key r = k.

(** ** The writes of a run *)

(** The records that a turn of the client hands to the engine: the copy
    of the record that is put, the tombstone of a deletion. *)
Definition op_records (o : op) : list kv :=
  match o with
  | OpPut r => [xdb_dup_kv r]
  | OpDel k => [xdb_new_ts k]
  | _ => []
  end.


(** ** The log file across compactions *)

(** The current log file with the records [rs] in it: what the file
    holds, followed by the buffer, is the version header and the records
    [rs] in order, with padding between them; the file ends where the next
    write goes, on a page boundary; the buffer is within its block.  The
    last line bounds the write offset by the number of records, so that it
    stays far from the end of the 64-bit range. *)
Definition wal_file_ok (w : wal) (rs : list kv) : Prop :=
  let f := fst (wal_fds w) in
  let disk := disk_after f (wal_log w) [] in
  wal_ring_fd w = f /\ Z.of_nat (length disk) = wal_woff w /\
  wal_woff w mod 4096 = 0 /\ wal_bufoff w <= WAL_BLKSZ /\
  (exists items, Forall wal_item_ok items /\
     wal_items_records items = rs /\
     disk ++ wal_buf w = le_bytes 8 (wal_version w) ++ wal_items_bytes items) /\
  wal_woff w + (if wal_bufoff w =? 0 then 0 else WAL_BLKSZ)
    <= WAL_BLKSZ * (1 + Z.of_nat (length rs)).

(** The bytes of the log as the engine has produced them: what the
    current file holds once every submitted write has completed, followed
    by the write buffer. *)
Definition wal_image (w : wal) : list Z :=
  disk_after (fst (wal_fds w)) (wal_log w) [] ++ wal_buf w.

(** The engine of [ex_reinsert_x] with the log as [wal_switch] leaves it
    at the start of a compaction: the other file is current, and the
    buffer holds the header of version 2. *)
Definition ex_reinsert_w : xdb :=
  x_set_wal ex_reinsert_x (fst (wal_switch (x_wal ex_x0) 2)).

(** The turns of a run with compactions: puts of legal records,
    deletions, reads, syncs, and the steps of the compaction thread. *)
Definition op_durable (o : op) : Prop :=
  match o with
  | OpPut r => kv_legal r /\ Forall (fun b => 0 <= b < 256) (kv_key r)
  | OpDel k => Z.of_nat (length k) <= 65500 /\ Forall (fun b => 0 <= b < 256) k
  | OpGet _ | OpProbe _ | OpSync | OpComp _ _ => True
  | OpMerge _ _ => False
  end.

(** The records of the table under compaction that the reinsertion may
    still append to the log. *)
Definition comp_pending (x : xdb) (pc : comp_pc) : nat :=
  match pc with
  | CompRotated l | CompTablesDone l => length (comp_imt x l)
  | _ => 0%nat
  end.

(** The engine after [n] turns of such a run from a store opened on empty
    log files over a version numbered [v0]: the WMT is the replay of the
    records of the current log file; the version of the log is the one of
    the SSTable store (one ahead between the switch of the log and the
    end of [msstz_comp]); the other file is empty while no compaction
    runs. *)
Definition durable_inv (v0 : Z) (n : nat) (s : sys) : Prop :=
  let x := s_x s in
  let w := x_wal x in
  sys_inv s /\
  Forall wal_record_fits (x_mt1 x) /\ Forall wal_record_fits (x_mt2 x) /\
  (wal_fds w = (Wal1, Wal2) \/ wal_fds w = (Wal2, Wal1) /\ 0 < wal_version w) /\
  wal_version w =
    msstz_version (x_z x) + (match s_pc s with CompRotated _ => 1 | _ => 0 end) /\
  (s_pc s = CompIdle -> disk_after (snd (wal_fds w)) (wal_log w) [] = []) /\
  v0 <= msstz_version (x_z x) /\ wal_version w <= v0 + Z.of_nat n /\
  exists rs,
    wal_file_ok w rs /\ x_wmt x = mt_replay rs [] /\
    (length rs + comp_pending x (s_pc s) <= n)%nat.

(** ** What the file holds while records wait in the buffer *)

(** The current log file is empty, or it is the version header followed
    by whole records and padding, and these records are the first of
    those appended so far: a write never ends inside a record. *)
Definition wal_disk_prefix (w : wal) : Prop :=
  let disk := disk_after (fst (wal_fds w)) (wal_log w) [] in
  disk = [] \/
  exists items tail,
    Forall wal_item_ok items /\
    disk = le_bytes 8 (wal_version w) ++ wal_items_bytes items /\
    log_appends (wal_log w) = wal_items_records items ++ tail.

(** ** The log of a compaction with the client's turns between its steps *)

(** A turn of the client. *)
Definition op_client (o : op) : bool :=
  match o with
  | OpComp _ _ => false
  | _ => true
  end.

(** The turns of one compaction: the seven steps of [xdb_do_comp], with
    turns of the client between them.  [ds i] holds the choices of the
    SSTable engine that step [i] is run with; the second step,
    [msstz_comp], is the one that reads them. *)
Definition comp_op (ds : nat -> list bool * list (list Z)) (i : nat) : op :=
  OpComp (fst (ds i)) (snd (ds i)).

Definition comp_turns (ds : nat -> list bool * list (list Z))
    (c1 c2 c3 c4 c5 c6 : list op) : list op :=
  comp_op ds 1 :: c1 ++ comp_op ds 2 :: c2 ++ comp_op ds 3 :: c3 ++
  comp_op ds 4 :: c4 ++ comp_op ds 5 :: c5 ++ comp_op ds 6 :: c6 ++
  [comp_op ds 7].

(** What a turn of the client can add to the offsets of the log: the
    record that it appends with the padding of one flush, or the padding
    of the flush of a sync.  A merge appends a record with the merged
    key, whose value counts with at most 65535 bytes. *)
Definition op_cost (o : op) : Z :=
  match o with
  | OpPut r => wal_cost r
  | OpDel k => wal_cost (xdb_new_ts k)
  | OpMerge k _ => Z.of_nat (length k) + 140000
  | OpSync => 4096
  | OpGet _ | OpProbe _ | OpComp _ _ => 0
  end.

Definition ops_cost (ops : list op) : Z :=
  fold_right (fun o acc => op_cost o + acc) 0 ops.

(** The events while [f] is the current file: appends to the buffer,
    writes and fsyncs submitted for [f], and waits for the ring. *)
Definition ev_during (f : fd) (e : io_event) : bool :=
  match e with
  | EvIoWait => true
  | _ => ev_on f e
  end.

(** Every record appended in [evs] is followed by a write to [f]. *)
Definition appends_written (f : fd) (evs : list io_event) : Prop :=
  forall a r b, evs = a ++ EvAppend r :: b -> exists off data, In (EvWrite f off data) b.

(** Every write to [f] in [evs] is followed by an fsync of [f]. *)
Definition writes_fsynced (f : fd) (evs : list io_event) : Prop :=
  forall a off data b, evs = a ++ EvWrite f off data :: b -> In (EvFsync f) b.

(** Whether the last append of a log has no write to [f] behind it, and
    whether the last write to [f] has no fsync of [f] behind it. *)
Definition pend_write (f : fd) (st : bool) (e : io_event) : bool :=
  match e with
  | EvAppend _ => true
  | EvWrite g _ _ => if fd_eqb g f then false else st
  | _ => st
  end.

Definition pend_sync (f : fd) (st : bool) (e : io_event) : bool :=
  match e with
  | EvWrite g _ _ => if fd_eqb g f then true else st
  | EvFsync g => if fd_eqb g f then false else st
  | _ => st
  end.

Definition log_unwritten (f : fd) (evs : list io_event) : bool :=
  fold_left (pend_write f) evs false.

Definition log_unsynced (f : fd) (evs : list io_event) : bool :=
  fold_left (pend_sync f) evs false.

(** The log between the switch to the file [new] and the truncation of
    [old], with the events [evs] since the switch: the ring is on [new],
    the offsets are in order and below [bound], an empty buffer means
    that every append has been written, and equal offsets mean that every
    write has its fsync. *)
Definition wal_comp_inv (new old : fd) (bound : Z) (evs : list io_event) (w : wal) : Prop :=
  wal_ring_fd w = new /\ wal_fds w = (new, old) /\
  0 <= wal_soff w <= wal_woff w /\
  wal_woff w + wal_bufoff w <= bound /\
  forallb (ev_during new) evs = true /\
  (wal_bufoff w = 0 -> log_unwritten new evs = false) /\
  (wal_woff w = wal_soff w -> log_unsynced new evs = false).

(** What the turns of the client leave alone: the view, the SSTable
    version, the limits, and the table that is not the WMT. *)
Definition client_frame (x x' : xdb) : Prop :=
  x_mt_view x' = x_mt_view x /\ x_z x' = x_z x /\
  x_max_rejsz x' = x_max_rejsz x /\
  x_mt x' (mt_other (mp_wmt (mt_views (x_mt_view x)))) =
    x_mt x (mt_other (mp_wmt (mt_views (x_mt_view x)))).

(** A compaction that rejects the only partition, with turns of the
    client between its steps: the probes that the two [qsbr_wait] calls
    wait for, a put of the key 2 before the reinsertion, and a sync
    between the reinsertion and the [wal_flush_sync] of the compaction. *)
Definition ex_comp_turns : list op :=
  comp_turns (fun _ => ([true], [])) [OpProbe []] [OpPut ex_r2] [OpSync] []
             [OpProbe []] [].


(** * Properties *)

(** ** Machine words *)

Lemma u32_range z : 0 <= u32 z < 2^32.
Proof. unfold u32. apply Z.mod_pos_bound. lia. Qed.

Lemma u64_range z : 0 <= u64 z < 2^64.
Proof. unfold u64. apply Z.mod_pos_bound. lia. Qed.

Lemma u32_small z : 0 <= z < 2^32 -> u32 z = z.
Proof. intros. unfold u32. apply Z.mod_small. lia. Qed.

Lemma u64_small z : 0 <= z < 2^64 -> u64 z = z.
Proof. intros. unfold u64. apply Z.mod_small. lia. Qed.

Lemma u64_add_diff a new old : u64 (u64 a + u64 (new - old)) = u64 (a + new - old).
Proof.
  unfold u64. rewrite <- Zplus_mod. f_equal. lia.
Qed.

Lemma u64_add_r a b : u64 (u64 a + b) = u64 (a + b).
Proof. unfold u64. apply Zplus_mod_idemp_l. Qed.

Lemma u64_idem a : u64 (u64 a) = u64 a.
Proof. unfold u64. apply Zmod_mod. Qed.

(** ** Records *)

Lemma land_mask_small v : 0 <= v < 0x10000 -> Z.land v SST_VLEN_MASK = v.
Proof.
  intros Hv. unfold SST_VLEN_MASK.
  change 0xffff with (Z.ones 16). rewrite Z.land_ones by lia.
  apply Z.mod_small. lia.
Qed.

Lemma land_mask_range v : 0 <= Z.land v SST_VLEN_MASK < 0x10000.
Proof.
  unfold SST_VLEN_MASK. change 0xffff with (Z.ones 16).
  rewrite Z.land_ones by lia. apply Z.mod_pos_bound. lia.
Qed.

Lemma xdb_dup_kv_id r : kv_wf r -> xdb_dup_kv r = r.
Proof.
  intros [_ Hl]. destruct r as [k v a]; unfold xdb_dup_kv; simpl in *.
  f_equal. rewrite <- Hl, Nat2Z.id. apply firstn_all.
Qed.

Lemma xdb_dup_kv_key r : kv_key (xdb_dup_kv r) = kv_key r.
Proof. reflexivity. Qed.

Lemma xdb_dup_kv_size r : sst_kv_size (xdb_dup_kv r) = sst_kv_size r.
Proof. reflexivity. Qed.

Lemma xdb_dup_kv_idem r : xdb_dup_kv (xdb_dup_kv r) = xdb_dup_kv r.
Proof.
  destruct r as [k v a]; unfold xdb_dup_kv; simpl. f_equal.
  rewrite firstn_firstn. f_equal. lia.
Qed.

Lemma sst_kv_size_pos r : 0 < sst_kv_size r.
Proof.
  unfold sst_kv_size, KV_HDR, kv_klen.
  pose proof (land_mask_range (kv_vlen r)). lia.
Qed.

(** ** The key order *)

Lemma kref_compare_lex k1 k2 : kref_compare k1 k2 = lex_compare k1 k2.
Proof.
  revert k2. induction k1 as [|x a IH]; intros [|y b]; try reflexivity.
  specialize (IH b). unfold kref_compare in *. simpl.
  destruct (x ?= y); try reflexivity. exact IH.
Qed.

Lemma lex_compare_eq a b : lex_compare a b = Eq <-> a = b.
Proof.
  revert b. induction a as [|x a IH]; intros [|y b]; simpl; split; try congruence.
  - destruct (x ?= y) eqn:E; try discriminate.
    intros H. apply Z.compare_eq in E. apply IH in H. congruence.
  - intros H. inversion H; subst. rewrite Z.compare_refl. apply IH. reflexivity.
Qed.

Lemma lex_compare_antisym a b : lex_compare b a = CompOpp (lex_compare a b).
Proof.
  revert b. induction a as [|x a IH]; intros [|y b]; simpl; try reflexivity.
  rewrite (Z.compare_antisym x y). destruct (x ?= y); simpl; auto.
Qed.

Lemma lex_compare_trans a b c :
  lex_compare a b = Lt -> lex_compare b c = Lt -> lex_compare a c = Lt.
Proof.
  revert b c. induction a as [|x a IH]; intros [|y b] [|z c]; simpl; try congruence.
  destruct (x ?= y) eqn:Exy; try discriminate.
  - apply Z.compare_eq in Exy. subst y.
    destruct (x ?= z); try congruence. intros. eapply IH; eauto.
  - intros _. destruct (y ?= z) eqn:Eyz; try discriminate.
    + apply Z.compare_eq in Eyz. subst z. rewrite Exy. reflexivity.
    + intros _. rewrite Z.compare_lt_iff in *.
      assert (x < z) by lia. rewrite (proj2 (Z.compare_lt_iff x z)); auto.
Qed.

Lemma kref_compare_eq k1 k2 : kref_compare k1 k2 = Eq <-> k1 = k2.
Proof. rewrite kref_compare_lex. apply lex_compare_eq. Qed.

Lemma kref_compare_refl k : kref_compare k k = Eq.
Proof. apply kref_compare_eq. reflexivity. Qed.

Lemma kref_compare_antisym k1 k2 : kref_compare k2 k1 = CompOpp (kref_compare k1 k2).
Proof. rewrite !kref_compare_lex. apply lex_compare_antisym. Qed.

Lemma kref_compare_lt_trans a b c :
  kref_compare a b = Lt -> kref_compare b c = Lt -> kref_compare a c = Lt.
Proof. rewrite !kref_compare_lex. apply lex_compare_trans. Qed.

Lemma kref_compare_gt_lt a b : kref_compare a b = Gt <-> kref_compare b a = Lt.
Proof.
  rewrite (kref_compare_antisym a b). destruct (kref_compare a b); simpl; split; congruence.
Qed.

Lemma kref_compare_lt_irrefl a : kref_compare a a <> Lt.
Proof. rewrite kref_compare_refl. discriminate. Qed.

Lemma key_lt_le_trans a b c : key_lt a b -> key_le b c -> key_lt a c.
Proof.
  unfold key_lt, key_le. intros Hab Hbc.
  destruct (kref_compare b c) eqn:E; try congruence.
  - apply kref_compare_eq in E. subst. exact Hab.
  - eapply kref_compare_lt_trans; eauto.
Qed.

Lemma key_le_lt_trans a b c : key_le a b -> key_lt b c -> key_lt a c.
Proof.
  unfold key_lt, key_le. intros Hab Hbc.
  destruct (kref_compare a b) eqn:E; try congruence.
  - apply kref_compare_eq in E. subst. exact Hbc.
  - eapply kref_compare_lt_trans; eauto.
Qed.

Lemma key_le_trans a b c : key_le a b -> key_le b c -> key_le a c.
Proof.
  intros Hab Hbc. unfold key_le in *.
  destruct (kref_compare a b) eqn:E; try congruence.
  - apply kref_compare_eq in E. subst. exact Hbc.
  - assert (key_lt a c) by (eapply key_lt_le_trans; eauto).
    unfold key_lt in *. congruence.
Qed.

Lemma key_lt_le a b : key_lt a b -> key_le a b.
Proof. unfold key_lt, key_le. congruence. Qed.

Lemma key_le_refl a : key_le a a.
Proof. unfold key_le. rewrite kref_compare_refl. discriminate. Qed.

Lemma key_lt_not_le a b : key_lt a b -> ~ key_le b a.
Proof.
  unfold key_lt, key_le. intros H. apply kref_compare_gt_lt in H. congruence.
Qed.

Lemma key_le_nil a : key_le [] a.
Proof. unfold key_le. rewrite kref_compare_lex. destruct a; simpl; discriminate. Qed.

Lemma memcmp_lex_prefix k1 k2 :
  length k1 = length k2 -> memcmp k1 k2 (length k1) = lex_compare k1 k2.
Proof.
  revert k2. induction k1 as [|x a IH]; intros [|y b]; simpl; try discriminate; auto.
  intros H. destruct (x ?= y); auto.
Qed.

Lemma kref_match_eq k1 k2 : kref_match k1 k2 = true <-> k1 = k2.
Proof.
  unfold kref_match. rewrite andb_true_iff, Nat.eqb_eq. split.
  - intros [Hl Hm]. rewrite memcmp_lex_prefix in Hm by exact Hl.
    destruct (lex_compare k1 k2) eqn:E; try discriminate.
    apply lex_compare_eq. exact E.
  - intros ->. split; auto. rewrite memcmp_lex_prefix by reflexivity.
    rewrite (proj2 (lex_compare_eq k2 k2)); auto.
Qed.

Lemma kref_match_refl k : kref_match k k = true.
Proof. apply kref_match_eq. reflexivity. Qed.

Lemma kref_match_neq k1 k2 : k1 <> k2 -> kref_match k1 k2 = false.
Proof.
  intros H. destruct (kref_match k1 k2) eqn:E; auto.
  apply kref_match_eq in E. contradiction.
Qed.


(** ** The memtable *)

Lemma keys_above_spec k m :
  keys_above k m = true <-> Forall (fun r => key_lt k (kv_key r)) m.
Proof.
  unfold keys_above. rewrite forallb_forall, List.Forall_forall.
  split; intros H r Hr; specialize (H r Hr); unfold key_lt in *.
  - destruct (kref_compare k (kv_key r)); congruence.
  - rewrite H. reflexivity.
Qed.

Lemma mt_sorted_nil : mt_sorted [].
Proof. reflexivity. Qed.

Lemma mt_sorted_cons r m :
  mt_sorted (r :: m) <-> Forall (fun r' => key_lt (kv_key r) (kv_key r')) m /\ mt_sorted m.
Proof.
  unfold mt_sorted. simpl. rewrite andb_true_iff, keys_above_spec. reflexivity.
Qed.

Lemma mt_sorted_tail r m : mt_sorted (r :: m) -> mt_sorted m.
Proof. intros H. apply mt_sorted_cons in H. tauto. Qed.

Lemma mt_sorted_app_r a b : mt_sorted (a ++ b) -> mt_sorted b.
Proof.
  induction a as [|r a IH]; simpl; auto.
  intros H. apply IH. eapply mt_sorted_tail; eauto.
Qed.

Lemma mt_get_some_key k m r : mt_get k m = Some r -> kv_key r = k.
Proof.
  induction m as [|r0 m IH]; simpl; try discriminate.
  destruct (kref_match k (kv_key r0)) eqn:E.
  - intros H. inversion H; subst. apply kref_match_eq in E. auto.
  - exact IH.
Qed.

Lemma mt_get_some_in k m r : mt_get k m = Some r -> In r m.
Proof.
  induction m as [|r0 m IH]; simpl; try discriminate.
  destruct (kref_match k (kv_key r0)).
  - intros H. inversion H; subst. auto.
  - intros H. right. auto.
Qed.

Lemma mt_get_none_above k m :
  Forall (fun r => key_lt k (kv_key r)) m -> mt_get k m = None.
Proof.
  induction 1 as [|r m Hr _ IH]; simpl; auto.
  rewrite kref_match_neq; auto.
  intros ->. unfold key_lt in Hr. rewrite kref_compare_refl in Hr. discriminate.
Qed.

Lemma mt_get_in_sorted m r :
  mt_sorted m -> In r m -> mt_get (kv_key r) m = Some r.
Proof.
  induction m as [|r0 m IH]; simpl; [tauto|].
  intros Hs [->|Hin].
  - rewrite kref_match_refl. reflexivity.
  - apply mt_sorted_cons in Hs. destruct Hs as [Hab Hs].
    rewrite kref_match_neq; auto.
    intros Heq. rewrite List.Forall_forall in Hab. specialize (Hab r Hin).
    unfold key_lt in Hab. rewrite Heq, kref_compare_refl in Hab. discriminate.
Qed.

Lemma mt_get_set_eq new m : mt_get (kv_key new) (mt_set new m) = Some new.
Proof.
  induction m as [|r m IH]; simpl.
  - rewrite kref_match_refl. reflexivity.
  - destruct (kref_compare (kv_key new) (kv_key r)) eqn:E; simpl.
    + rewrite kref_match_refl. reflexivity.
    + rewrite kref_match_refl. reflexivity.
    + rewrite kref_match_neq; auto.
      intros Heq. rewrite Heq, kref_compare_refl in E. discriminate.
Qed.

Lemma mt_get_set_ne k new m :
  k <> kv_key new -> mt_get k (mt_set new m) = mt_get k m.
Proof.
  intros Hne. induction m as [|r m IH]; simpl.
  - rewrite kref_match_neq; auto.
  - destruct (kref_compare (kv_key new) (kv_key r)) eqn:E; simpl.
    + apply kref_compare_eq in E.
      rewrite !kref_match_neq; auto. congruence.
    + rewrite (kref_match_neq k (kv_key new)); auto.
    + rewrite IH. reflexivity.
Qed.

Lemma mt_get_set k new m :
  mt_get k (mt_set new m) = if kref_match k (kv_key new) then Some new else mt_get k m.
Proof.
  destruct (kref_match k (kv_key new)) eqn:E.
  - apply kref_match_eq in E. subst. apply mt_get_set_eq.
  - apply mt_get_set_ne. intros ->. rewrite kref_match_refl in E. discriminate.
Qed.

Lemma mt_set_forall (P : kv -> Prop) new m :
  P new -> Forall P m -> Forall P (mt_set new m).
Proof.
  intros Hn. induction 1 as [|r m Hr Hm IH]; simpl.
  - constructor; auto.
  - destruct (kref_compare (kv_key new) (kv_key r)); constructor; auto.
Qed.

Lemma mt_set_sorted new m : mt_sorted m -> mt_sorted (mt_set new m).
Proof.
  induction m as [|r m IH]; simpl; intros Hs.
  - apply mt_sorted_cons. split; [constructor | apply mt_sorted_nil].
  - pose proof Hs as Hs0. apply mt_sorted_cons in Hs. destruct Hs as [Hab Hs].
    destruct (kref_compare (kv_key new) (kv_key r)) eqn:E.
    + apply kref_compare_eq in E. apply mt_sorted_cons. rewrite E. auto.
    + apply mt_sorted_cons. split; auto.
      constructor; auto.
      eapply List.Forall_impl; [|exact Hab]. simpl. intros r' Hr'.
      unfold key_lt in *. eapply kref_compare_lt_trans; eauto.
    + apply mt_sorted_cons. split; auto.
      apply mt_set_forall; auto.
      apply kref_compare_gt_lt in E. exact E.
Qed.

Lemma mt_size_set new m :
  mt_sorted m ->
  mt_size (mt_set new m) =
    mt_size m + sst_kv_size new -
      match mt_get (kv_key new) m with Some r0 => sst_kv_size r0 | None => 0 end.
Proof.
  induction m as [|r m IH]; simpl; intros Hs.
  - lia.
  - pose proof Hs as Hs0. apply mt_sorted_cons in Hs. destruct Hs as [Hab Hs].
    destruct (kref_compare (kv_key new) (kv_key r)) eqn:E; simpl.
    + apply kref_compare_eq in E. rewrite E, kref_match_refl. lia.
    + rewrite kref_match_neq.
      2:{ intros Heq. rewrite Heq, kref_compare_refl in E. discriminate. }
      rewrite mt_get_none_above; [lia|].
      eapply List.Forall_impl; [|exact Hab]. simpl. intros r' Hr'.
      unfold key_lt in *. eapply kref_compare_lt_trans; eauto.
    + rewrite kref_match_neq.
      2:{ intros Heq. rewrite Heq, kref_compare_refl in E. discriminate. }
      rewrite IH by auto. lia.
Qed.

Lemma mt_update_set k new m :
  mt_sorted m -> kv_key new = k -> (exists r0, mt_get k m = Some r0) ->
  mt_update k new m = mt_set new m.
Proof.
  intros Hs Hk. subst k. induction m as [|r m IH]; simpl.
  - intros [r0 H]. discriminate.
  - pose proof Hs as Hs0. apply mt_sorted_cons in Hs. destruct Hs as [Hab Hs].
    destruct (kref_match (kv_key new) (kv_key r)) eqn:E.
    + intros _. apply kref_match_eq in E. rewrite E, kref_compare_refl. reflexivity.
    + intros Hex. destruct (kref_compare (kv_key new) (kv_key r)) eqn:Ec.
      * apply kref_compare_eq in Ec. rewrite Ec, kref_match_refl in E. discriminate.
      * exfalso. destruct Hex as [r0 Hr0].
        rewrite mt_get_none_above in Hr0; [discriminate|].
        eapply List.Forall_impl; [|exact Hab]. simpl. intros r' Hr'.
        unfold key_lt in *. eapply kref_compare_lt_trans; eauto.
      * f_equal. apply IH; auto.
Qed.

Lemma mt_set_stable new m :
  kv_stable new -> Forall kv_stable m -> Forall kv_stable (mt_set new m).
Proof. apply mt_set_forall. Qed.

(** *** [wormhole_merge] with a callback that stores a record under the
    key of the lookup *)

Lemma wormhole_merge_new {S : Type} (m : memtable) k
    (uf : option kv -> S -> merge_ret * S) (s : S) new s' :
  mt_sorted m -> kv_key new = k ->
  uf (mt_get k m) s = (RetNew new, s') ->
  wormhole_merge m k uf s = (true, mt_set new m, s').
Proof.
  intros Hs Hk Huf. unfold wormhole_merge.
  destruct (mt_get k m) as [kv0|] eqn:Eg; rewrite Huf.
  - rewrite mt_update_set; eauto.
  - reflexivity.
Qed.

Lemma wormhole_merge_keep {S : Type} (m : memtable) k
    (uf : option kv -> S -> merge_ret * S) (s : S) r s' :
  (r = RetNull \/ r = RetSame) ->
  uf (mt_get k m) s = (r, s') ->
  wormhole_merge m k uf s = (true, m, s').
Proof.
  intros Hr Huf. unfold wormhole_merge.
  destruct (mt_get k m) as [kv0|] eqn:Eg; rewrite Huf;
    destruct Hr as [-> | ->]; reflexivity.
Qed.

Lemma wormhole_merge_true {S : Type} (m : memtable) k
    (uf : option kv -> S -> merge_ret * S) (s : S) :
  fst (fst (wormhole_merge m k uf s)) = true.
Proof.
  unfold wormhole_merge.
  destruct (mt_get k m) as [kv0|]; destruct (uf _ s) as [[| |now|new] s']; reflexivity.
Qed.

(** *** Iterators *)

Lemma iter_seek_split m k :
  mt_sorted m ->
  exists pre, m = pre ++ iter_seek m k /\
    Forall (fun r => key_lt (kv_key r) k) pre /\
    Forall (fun r => key_le k (kv_key r)) (iter_seek m k).
Proof.
  induction m as [|r m IH]; simpl; intros Hs.
  - exists []. repeat split; constructor.
  - pose proof Hs as Hs0. apply mt_sorted_cons in Hs. destruct Hs as [Hab Hs].
    destruct (kref_compare (kv_key r) k) eqn:E.
    + exists []. repeat split; [constructor|].
      apply kref_compare_eq in E. subst k.
      constructor; [apply key_le_refl|].
      eapply List.Forall_impl; [|exact Hab]. simpl. intros; apply key_lt_le; auto.
    + destruct (IH Hs) as (pre & Hm & Hpre & Hsuf).
      exists (r :: pre). repeat split; auto.
      simpl. congruence.
    + exists []. repeat split; [constructor|].
      apply kref_compare_gt_lt in E.
      constructor; [apply key_lt_le; exact E|].
      eapply List.Forall_impl; [|exact Hab]. simpl. intros r' Hr'.
      apply key_lt_le. unfold key_lt in *. eapply kref_compare_lt_trans; eauto.
Qed.

Lemma iter_seek_sorted m k : mt_sorted m -> mt_sorted (iter_seek m k).
Proof.
  intros Hs. destruct (iter_seek_split m k Hs) as (pre & Hm & _ & _).
  rewrite Hm in Hs. eapply mt_sorted_app_r; eauto.
Qed.

Lemma iter_seek_nil_key m : iter_seek m [] = m.
Proof.
  destruct m as [|r m]; simpl; auto.
  rewrite kref_compare_lex. destruct (kv_key r); reflexivity.
Qed.


(** ** Decoding a WAL record *)

Lemma rd_ok mem p b : rd mem p = Ok b -> (p < length mem)%nat.
Proof.
  unfold rd. destruct (mem !! p) eqn:E; try discriminate.
  intros _. eapply lookup_lt_Some; eauto.
Qed.

Lemma rd_in_bounds mem p : (p < length mem)%nat -> exists b, rd mem p = Ok b.
Proof.
  intros H. unfold rd. destruct (lookup_lt_is_Some_2 mem p H) as [b Hb].
  rewrite Hb. eauto.
Qed.

(** The counting loop stays inside the buffer. *)
Lemma count_loop_in_bounds n mem p c :
  (p + n <= length mem)%nat -> exists c', count_loop n mem p c = Ok c'.
Proof.
  revert p c. induction n as [|n IH]; intros p c H; simpl; eauto.
  destruct (rd_in_bounds mem p) as [b Hb]; [lia|]. rewrite Hb. simpl.
  apply IH. lia.
Qed.

Lemma vi128_decode_loop_ptr n mem src shift r q v :
  vi128_decode_loop n mem src shift r = Ok (Some q, v) ->
  (src < q <= length mem)%nat /\ (q <= src + n)%nat.
Proof.
  revert src shift r. induction n as [|n IH]; intros src shift r; simpl; try discriminate.
  destruct (rd mem src) as [b| | |] eqn:Eb; simpl; try discriminate.
  apply rd_ok in Eb.
  destruct (Z.land b 128 =? 0).
  - intros H. inversion H; subst. lia.
  - intros H. apply IH in H. lia.
Qed.

Ltac dcase c := destruct c eqn:?; cbv beta iota; try discriminate.

(** On success the returned pointer is within the buffer, and so is the
    record. *)
Lemma wal_vi128_decode_success mem ptr wk q :
  wal_vi128_decode mem ptr = Ok (Some (wk, q)) ->
  (ptr < q <= length mem)%nat /\
  (ptr < wk_ptr wk)%nat /\
  Z.of_nat (wk_ptr wk) + wk_kvlen wk + 4 = Z.of_nat q /\
  wk_hash32 wk = kv_crc32c (firstn (Z.to_nat (wk_len wk)) (skipn (wk_ptr wk) mem)).
Proof.
  unfold wal_vi128_decode, vi128_decode_u32.
  destruct (count_loop _ mem ptr 0) as [c| | |]; cbn [obind]; try discriminate.
  dcase (c <? 2)%nat.
  destruct (vi128_decode_loop 5 mem ptr 0 0) as [[p1 klen]| | |] eqn:E1;
    cbn [obind]; try discriminate.
  destruct p1 as [p1|]; cbn [obind]; try discriminate.
  destruct (vi128_decode_loop 5 mem p1 0 0) as [[p2 vlen]| | |] eqn:E2;
    cbn [obind]; try discriminate.
  destruct p2 as [p2|]; try discriminate.
  apply vi128_decode_loop_ptr in E1. apply vi128_decode_loop_ptr in E2.
  set (kvlen := u32 (klen + Z.land vlen SST_VLEN_MASK)).
  pose proof (u32_range (klen + Z.land vlen SST_VLEN_MASK)) as Hkv. fold kvlen in Hkv.
  dcase (Z.of_nat (length mem) <? Z.of_nat p2 + kvlen + 4).
  unfold rd_bytes.
  dcase (Z.of_nat p2 + klen <=? Z.of_nat (length mem)); cbn [obind]; try discriminate.
  dcase (Z.of_nat (p2 + Z.to_nat kvlen) + 4 <=? Z.of_nat (length mem));
    cbn [obind]; try discriminate.
  match goal with |- context [negb ?c] => dcase c end; cbn [negb]; try discriminate.
  intros H. inversion H; subst; cbn [wk_ptr wk_kvlen wk_hash32 wk_len]. clear H.
  repeat match goal with H : (_ <? _) = false |- _ => apply Z.ltb_ge in H end.
  repeat match goal with H : (_ =? _) = true |- _ => apply Z.eqb_eq in H end.
  repeat split; lia.
Qed.

(** ** Calls that return or fault *)

Lemma returns_or_faults_bind {A B} (m : outcome A) (f : A -> outcome B) :
  returns_or_faults m -> (forall a, returns_or_faults (f a)) ->
  returns_or_faults (obind m f).
Proof. destruct m; simpl; auto. Qed.

Lemma rd_returns_or_faults mem p : returns_or_faults (rd mem p).
Proof. unfold rd. destruct (mem !! p); exact I. Qed.

Lemma count_loop_returns_or_faults n mem p c : returns_or_faults (count_loop n mem p c).
Proof.
  revert p c. induction n as [|n IH]; intros p c; simpl; [exact I|].
  apply returns_or_faults_bind; [apply rd_returns_or_faults | intros; apply IH].
Qed.

Lemma vi128_decode_loop_returns_or_faults n mem src shift r :
  returns_or_faults (vi128_decode_loop n mem src shift r).
Proof.
  revert src shift r. induction n as [|n IH]; intros src shift r; simpl; [exact I|].
  apply returns_or_faults_bind; [apply rd_returns_or_faults|].
  intros b. destruct (Z.land b 128 =? 0); [exact I | apply IH].
Qed.

Lemma vi128_decode_u32_returns_or_faults mem src :
  returns_or_faults (vi128_decode_u32 mem src).
Proof.
  unfold vi128_decode_u32.
  destruct src; [apply vi128_decode_loop_returns_or_faults | exact I].
Qed.

Lemma rd_bytes_returns_or_faults mem p n : returns_or_faults (rd_bytes mem p n).
Proof. unfold rd_bytes. destruct (_ <=? _); exact I. Qed.

Lemma wal_vi128_decode_returns_or_faults mem ptr :
  returns_or_faults (wal_vi128_decode mem ptr).
Proof.
  unfold wal_vi128_decode.
  apply returns_or_faults_bind; [apply count_loop_returns_or_faults|].
  intros c. destruct (c <? 2)%nat; [exact I|].
  apply returns_or_faults_bind; [apply vi128_decode_u32_returns_or_faults|].
  intros [p1 klen].
  apply returns_or_faults_bind; [apply vi128_decode_u32_returns_or_faults|].
  intros [[p2|] vlen]; [|exact I].
  destruct (_ <? _); [exact I|].
  apply returns_or_faults_bind; [apply rd_bytes_returns_or_faults|].
  intros key.
  apply returns_or_faults_bind; [apply rd_bytes_returns_or_faults|].
  intros sum2b. destruct (negb _); exact I.
Qed.

(** ** Replaying a WAL file *)

Lemma skip_zeros_ge fuel mem iter : (iter <= skip_zeros fuel mem iter)%nat.
Proof.
  revert iter. induction fuel as [|f IH]; intros iter; simpl; auto.
  destruct (mem !! iter) as [[| |]|]; auto.
  specialize (IH (S iter)). lia.
Qed.

Lemma recover_loop_returns_or_faults fuel mem iter st :
  returns_or_faults (recover_loop fuel mem iter st).
Proof.
  revert iter st. induction fuel as [|fuel IH]; intros iter st; simpl; [exact I|].
  destruct (iter <? length mem)%nat; [|exact I].
  apply returns_or_faults_bind; [apply wal_vi128_decode_returns_or_faults|].
  intros [[wk q]|]; [|exact I].
  pose proof (wormhole_merge_true (rp_mt st) (kv_key (wal_kv_record mem wk))
                xdb_recover_update_func (wal_kv_record mem wk, rp_mtsz st)) as Ht.
  destruct (wormhole_merge _ _ _ _) as [[s m] [nk mtsz]]. simpl in Ht. subst s.
  apply IH.
Qed.

(** [xdb_recover_fd] returns, or the process is killed by a memory fault. *)
Lemma xdb_recover_fd_returns_or_faults x f file :
  returns_or_faults (xdb_recover_fd x f file).
Proof.
  unfold xdb_recover_fd. destruct (length file =? 0)%nat; [exact I|].
  apply returns_or_faults_bind; [apply recover_loop_returns_or_faults|].
  intros [iter st]. exact I.
Qed.

(** The replay loop does not depend on its fuel once the fuel covers the
    bytes that are left: the loop of the source ends by itself. *)
Lemma recover_loop_fuel fuel1 fuel2 mem iter st :
  (length mem - iter < fuel1)%nat -> (length mem - iter < fuel2)%nat ->
  recover_loop fuel1 mem iter st = recover_loop fuel2 mem iter st.
Proof.
  revert fuel2 iter st. induction fuel1 as [|fuel1 IH]; intros fuel2 iter st H1 H2; [lia|].
  destruct fuel2 as [|fuel2]; [lia|]. simpl.
  destruct (iter <? length mem)%nat eqn:Ei; [|reflexivity].
  apply Nat.ltb_lt in Ei.
  destruct (wal_vi128_decode mem iter) as [[[wk q]|]|f| |] eqn:E; cbn [obind]; try reflexivity.
  apply wal_vi128_decode_success in E. destruct E as (Hq & _).
  destruct (wormhole_merge _ _ _ _) as [[s m] [nk mtsz]].
  destruct s; [|reflexivity].
  pose proof (skip_zeros_ge (length mem) mem q).
  apply IH; lia.
Qed.

(** ** WAL recovery: the decoder on hostile bytes *)

(** C10 (code defect).  The claim is that [wal_vi128_decode] never reads
    outside [ptr, end) and returns NULL on every malformed record.  On a
    buffer that starts with five continuation bytes the first
    [vi128_decode_u32] returns NULL and the second dereferences it; on a
    record that declares [klen = 0xFFFFFFFF] and [vlen = 1] the sum
    [klen + vlen] wraps to 0 in [u32], the range check passes, and the CRC is
    computed over [klen] bytes, past the end of the buffer. *)
Theorem wal_vi128_decode_faults :
  wal_vi128_decode ex_buf_long_varint 0 = Fault NullDeref /\
  wal_vi128_decode ex_buf_huge_klen 0 = Fault OutOfBounds.
Proof. split; vm_compute; reflexivity. Qed.

(** C9 (code defect).  The claim is that replay halts at the first record
    whose declared lengths overflow the rest of the file.  For such a
    record with [klen = 0xFFFFFFFF] and [vlen = 1], [xdb_recover_fd] does not
    halt: the decoder reads past the end of the mapped file (the defect of
    C10), whatever the engine state. *)
Theorem xdb_recover_fd_overflowing_record_faults x f :
  xdb_recover_fd x f ex_file_huge_klen = Fault OutOfBounds.
Proof.
  unfold xdb_recover_fd.
  change (length ex_file_huge_klen =? 0)%nat with false. cbv beta iota.
  change (skip_zeros (length ex_file_huge_klen) ex_file_huge_klen 8) with 8%nat.
  change (length ex_file_huge_klen) with 18%nat.
  cbn [recover_loop].
  change (8 <? length ex_file_huge_klen)%nat with true. cbv beta iota.
  replace (wal_vi128_decode ex_file_huge_klen 8) with (@Fault (option (wal_kv * nat)) OutOfBounds)
    by (vm_compute; reflexivity).
  reflexivity.
Qed.

(** ** WAL recovery: the choice between the two files *)

Lemma wal_file_version_nonzero file :
  wal_file_version file <> 0 -> (8 < length file)%nat.
Proof.
  unfold wal_file_version. destruct (8 <? length file)%nat eqn:E.
  - intros _. apply Nat.ltb_lt. exact E.
  - congruence.
Qed.

(** A file that carries a version is not empty, so its replay writes its
    line to the log. *)
Lemma xdb_recover_fd_log x f file r x1 l :
  (8 < length file)%nat ->
  xdb_recover_fd x f file = Ok (r, x1, l) ->
  exists nkeys, l = [LogRecover f (Z.of_nat (length file)) r nkeys].
Proof.
  intros Hlen. unfold xdb_recover_fd.
  destruct (length file =? 0)%nat eqn:E; [apply Nat.eqb_eq in E; lia|].
  destruct (recover_loop _ _ _ _) as [[iter st]| | |]; cbn [obind]; try discriminate.
  intros H. inversion H; subst. eauto.
Qed.

Lemma wal_select_fds w vs0 vs1 :
  wal_fds (wal_select w vs0 vs1) =
    if vs0 <? vs1 then (snd (wal_fds w), fst (wal_fds w)) else wal_fds w.
Proof.
  unfold wal_select. destruct (wal_fds w) as [a b]. destruct (vs0 <? vs1); reflexivity.
Qed.

Lemma xdb_recover_fd_wal x f file r x1 l :
  xdb_recover_fd x f file = Ok (r, x1, l) -> x_wal x1 = x_wal x.
Proof.
  unfold xdb_recover_fd. destruct (length file =? 0)%nat.
  - intros H. inversion H; subst. reflexivity.
  - destruct (recover_loop _ _ _ _) as [[iter st]| | |]; cbn [obind]; try discriminate.
    intros H. inversion H; subst. reflexivity.
Qed.

(** C8, as stated, fails: with the same non-zero version in both files the
    recovery leaves through [debug_die]; no file is replayed and nothing is
    returned. *)
Lemma xdb_wal_recover_equal_versions_counterexample :
  wal_file_version (ex_files_equal Wal1) = 5 /\
  wal_file_version (ex_files_equal Wal2) = 5 /\
  xdb_wal_recover ex_x0 ex_files_equal [] [] = Died /\
  ~ (exists x' lines, xdb_wal_recover ex_x0 ex_files_equal [] [] = Ok (x', lines)).
Proof.
  assert (H : xdb_wal_recover ex_x0 ex_files_equal [] [] = Died)
    by (vm_compute; reflexivity).
  repeat split; try (vm_compute; reflexivity); auto.
  intros (x' & lines & Hx). rewrite H in Hx. discriminate.
Qed.

(** C8, amended.  When both WAL files carry a non-zero version header:
    if the versions are equal the recovery exits through [debug_die];
    otherwise the file with the strictly greater version becomes the current
    one ([fds[0]]), the older file is replayed first and the newer one after
    it, on the state that the first replay left, and the replayed memtable
    goes to the SSTables through [msstz_comp]. *)
Theorem xdb_wal_recover_two_versions x files decide splits :
  let fd0 := fst (wal_fds (x_wal x)) in
  let fd1 := snd (wal_fds (x_wal x)) in
  let vs0 := wal_file_version (files fd0) in
  let vs1 := wal_file_version (files fd1) in
  vs0 <> 0 -> vs1 <> 0 ->
  (vs0 = vs1 -> xdb_wal_recover x files decide splits = Died) /\
  (vs0 <> vs1 ->
   let newer := if vs0 <? vs1 then fd1 else fd0 in
   let older := if vs0 <? vs1 then fd0 else fd1 in
   let xs := x_set_wal x (wal_select (x_wal x) vs0 vs1) in
   wal_fds (x_wal xs) = (newer, older) /\
   forall r1 x1 l1 r0 x2 l0,
     xdb_recover_fd xs older (files older) = Ok (r1, x1, l1) ->
     xdb_recover_fd x1 newer (files newer) = Ok (r0, x2, l0) ->
     exists x',
       xdb_wal_recover x files decide splits = Ok (x', l1 ++ l0) /\
       wal_fds (x_wal x') = (newer, older) /\
       wal_version (x_wal x') = msstz_version (x_z x') /\
       x_z x' = fst (msstz_comp (x_z x2) (x_mt1 x2) 0 decide splits) /\
       (exists n1 k1, l1 = [LogRecover older n1 r1 k1]) /\
       (exists n0 k0, l0 = [LogRecover newer n0 r0 k0])).
Proof.
  intros fd0 fd1 vs0 vs1 Hv0 Hv1.
  assert (Htwo : negb (vs0 =? 0) && negb (vs1 =? 0) = true).
  { apply andb_true_iff. split; apply negb_true_iff, Z.eqb_neq; assumption. }
  split.
  - intros Heq. unfold xdb_wal_recover.
    fold fd0 fd1 vs0 vs1. rewrite Htwo.
    destruct (wal_fds (wal_select (x_wal x) vs0 vs1)) as [a b].
    rewrite (proj2 (Z.eqb_eq vs0 vs1) Heq). reflexivity.
  - intros Hne newer older xs.
    assert (Hsel : wal_fds (wal_select (x_wal x) vs0 vs1) = (newer, older)).
    { unfold newer, older. rewrite wal_select_fds.
      unfold fd0, fd1. destruct (wal_fds (x_wal x)) as [a b], (vs0 <? vs1); reflexivity. }
    assert (Hfds : wal_fds (x_wal xs) = (newer, older)) by exact Hsel.
    split; [exact Hfds|].
    intros r1 x1 l1 r0 x2 l0 H1 H0.
    unfold xdb_wal_recover. fold fd0 fd1 vs0 vs1. rewrite Htwo.
    rewrite Hsel.
    rewrite (proj2 (Z.eqb_neq vs0 vs1) Hne).
    change (x_set_wal x (wal_select (x_wal x) vs0 vs1)) with xs.
    rewrite H1. cbn [obind]. rewrite H0. cbn [obind].
    destruct (msstz_comp (x_z x2) (x_mt1 x2) 0 decide splits) as [z oldv] eqn:Ez.
    cbn [obind]. eexists. split; [reflexivity|].
    pose proof (xdb_recover_fd_wal _ _ _ _ _ _ H1) as Hw1.
    pose proof (xdb_recover_fd_wal _ _ _ _ _ _ H0) as Hw0.
    assert (Hnewer : (8 < length (files newer))%nat).
    { unfold newer. destruct (vs0 <? vs1); apply wal_file_version_nonzero; assumption. }
    assert (Holder : (8 < length (files older))%nat).
    { unfold older. destruct (vs0 <? vs1); apply wal_file_version_nonzero; assumption. }
    destruct (xdb_recover_fd_log _ _ _ _ _ _ Holder H1) as [k1 Hl1].
    destruct (xdb_recover_fd_log _ _ _ _ _ _ Hnewer H0) as [k0 Hl0].
    repeat split; eauto.
    cbn. rewrite Hw0, Hw1. exact Hfds.
Qed.

(** The amended claim at [wal1] of version 5 and [wal2] of version 6: [wal2]
    is selected, [wal1] is replayed first. *)
Lemma xdb_wal_recover_two_versions_witness :
  wal_file_version (ex_files_newer2 Wal1) <> 0 /\
  wal_file_version (ex_files_newer2 Wal2) <> 0 /\
  exists x',
    xdb_wal_recover ex_x0 ex_files_newer2 [] [] =
      Ok (x', [LogRecover Wal1 25 25 2; LogRecover Wal2 16 16 1]) /\
    wal_fds (x_wal x') = (Wal2, Wal1).
Proof.
  assert (H0 : wal_file_version (ex_files_newer2 Wal1) <> 0) by (vm_compute; discriminate).
  assert (H1 : wal_file_version (ex_files_newer2 Wal2) <> 0) by (vm_compute; discriminate).
  split; [exact H0|]. split; [exact H1|].
  destruct (xdb_wal_recover_two_versions ex_x0 ex_files_newer2 [] [] H0 H1) as [_ H].
  assert (Hne : wal_file_version (ex_files_newer2 (fst (wal_fds (x_wal ex_x0)))) <>
                wal_file_version (ex_files_newer2 (snd (wal_fds (x_wal ex_x0)))))
    by (vm_compute; discriminate).
  destruct (H Hne) as [_ Hrun]. clear H.
  destruct (xdb_recover_fd
              (x_set_wal ex_x0 (wal_select (x_wal ex_x0)
                 (wal_file_version (ex_files_newer2 (fst (wal_fds (x_wal ex_x0)))))
                 (wal_file_version (ex_files_newer2 (snd (wal_fds (x_wal ex_x0)))))))
              Wal1 (ex_files_newer2 Wal1)) as [[[r1 x1] l1]| | |] eqn:E1;
    try (vm_compute in E1; discriminate).
  destruct (xdb_recover_fd x1 Wal2 (ex_files_newer2 Wal2)) as [[[r0 x2] l0]| | |] eqn:E0;
    try (vm_compute in E1; inversion E1; subst; vm_compute in E0; discriminate).
  destruct (Hrun r1 x1 l1 r0 x2 l0 E1 E0) as (x' & Hx & Hf & _).
  exists x'. split; [|exact Hf].
  rewrite Hx. vm_compute in E1. inversion E1; subst.
  vm_compute in E0. inversion E0; subst. reflexivity.
Defined.


(** ** The fields of the engine state *)

Lemma mt_id_eq_dec (i j : mt_id) : {i = j} + {i <> j}.
Proof. decide equality. Qed.

Lemma x_mt_set_same x i m : x_mt (x_set_mt x i m) i = m.
Proof. destruct i; reflexivity. Qed.

Lemma x_mt_set_other x i j m : i <> j -> x_mt (x_set_mt x i m) j = x_mt x j.
Proof. destruct i, j; try contradiction; reflexivity. Qed.

Lemma x_set_mt_id x i : x_set_mt x i (x_mt x i) = x.
Proof. destruct x, i; reflexivity. Qed.

Lemma x_mt_set_wal x w i : x_mt (x_set_wal x w) i = x_mt x i.
Proof. destruct i; reflexivity. Qed.

Lemma x_mt_set_mtsz x n i : x_mt (x_set_mtsz x n) i = x_mt x i.
Proof. destruct i; reflexivity. Qed.

Lemma x_mt_set_view x v i : x_mt (x_set_view x v) i = x_mt x i.
Proof. destruct i; reflexivity. Qed.

Lemma x_mt_set_z x z i : x_mt (x_set_z x z) i = x_mt x i.
Proof. destruct i; reflexivity. Qed.

Lemma x_mtsz_set_mt x i m : x_mtsz (x_set_mt x i m) = x_mtsz x.
Proof. destruct i; reflexivity. Qed.

Lemma x_wal_set_mt x i m : x_wal (x_set_mt x i m) = x_wal x.
Proof. destruct i; reflexivity. Qed.

Lemma x_view_set_mt x i m : x_mt_view (x_set_mt x i m) = x_mt_view x.
Proof. destruct i; reflexivity. Qed.

Lemma x_z_set_mt x i m : x_z (x_set_mt x i m) = x_z x.
Proof. destruct i; reflexivity. Qed.

Lemma x_max_mtsz_set_mt x i m : x_max_mtsz (x_set_mt x i m) = x_max_mtsz x.
Proof. destruct i; reflexivity. Qed.

Lemma x_max_rejsz_set_mt x i m : x_max_rejsz (x_set_mt x i m) = x_max_rejsz x.
Proof. destruct i; reflexivity. Qed.

Create Rewrite HintDb xdb_fields.
#[export] Hint Rewrite x_mt_set_same x_mt_set_wal x_mt_set_mtsz x_mt_set_view x_mt_set_z
  x_mtsz_set_mt x_wal_set_mt x_view_set_mt x_z_set_mt x_max_mtsz_set_mt
  x_max_rejsz_set_mt : xdb_fields.

(** ** The log of appended records *)

Lemma log_appends_app l1 l2 : log_appends (l1 ++ l2) = log_appends l1 ++ log_appends l2.
Proof. unfold log_appends. apply flat_map_app. Qed.

Lemma wal_flush_appends w : log_appends (wal_log (wal_flush w)) = log_appends (wal_log w).
Proof.
  unfold wal_flush. destruct (wal_bufoff w =? 0); [reflexivity|].
  cbv zeta. match goal with |- context [if ?c then _ else _] => destruct c end;
    cbn; rewrite ?log_appends_app; cbn; rewrite ?app_nil_r; reflexivity.
Qed.

Lemma wal_append_appends w r :
  log_appends (wal_log (wal_append w r)) = log_appends (wal_log w) ++ [r].
Proof.
  unfold wal_append. cbv zeta.
  destruct (WAL_BLKSZ <? _); cbn; rewrite log_appends_app; cbn;
    rewrite ?wal_flush_appends; reflexivity.
Qed.

(** ** The reinsertion of rejected keys *)

Lemma reinsert_func_merge x wid curr :
  mt_sorted (x_mt x wid) ->
  exists m x1,
    wormhole_merge (x_mt x wid) (kv_key curr) xdb_mt_reinsert_func (x, curr)
      = (true, m, (x1, curr)) /\
    x_set_mt x1 wid m = reinsert_one wid x curr.
Proof.
  intros Hs. unfold reinsert_one.
  destruct (mt_get (kv_key curr) (x_mt x wid)) as [r0|] eqn:Eg.
  - exists (x_mt x wid), x. split.
    + eapply wormhole_merge_keep; [right; reflexivity|]. rewrite Eg. reflexivity.
    + apply x_set_mt_id.
  - eexists _, _. split.
    + eapply wormhole_merge_new; [exact Hs | |].
      2:{ rewrite Eg. cbn. reflexivity. }
      reflexivity.
    + reflexivity.
Qed.

Lemma reinsert_one_sorted wid x curr :
  mt_sorted (x_mt x wid) -> mt_sorted (x_mt (reinsert_one wid x curr) wid).
Proof.
  intros Hs. unfold reinsert_one. destruct (mt_get _ _); auto.
  autorewrite with xdb_fields. apply mt_set_sorted. exact Hs.
Qed.

Lemma reinsert_one_other wid x curr j :
  wid <> j -> x_mt (reinsert_one wid x curr) j = x_mt x j.
Proof.
  intros Hne. unfold reinsert_one. destruct (mt_get _ _); auto.
  rewrite x_mt_set_other by auto. autorewrite with xdb_fields. reflexivity.
Qed.

Lemma fold_reinsert_sorted wid L x :
  mt_sorted (x_mt x wid) -> mt_sorted (x_mt (fold_left (reinsert_one wid) L x) wid).
Proof.
  revert x. induction L as [|c L IH]; intros x Hs; simpl; auto.
  apply IH. apply reinsert_one_sorted. exact Hs.
Qed.

Lemma fold_reinsert_other wid L x j :
  wid <> j -> x_mt (fold_left (reinsert_one wid) L x) j = x_mt x j.
Proof.
  intros Hne. revert x. induction L as [|c L IH]; intros x; simpl; auto.
  rewrite IH. apply reinsert_one_other. exact Hne.
Qed.

Lemma reinsert_range_spec wid it endp x :
  mt_sorted (x_mt x wid) ->
  match endp with Some n => (n <= length it)%nat | None => True end ->
  reinsert_range it endp wid x =
    Ok (fold_left (reinsert_one wid)
          (firstn (length it - match endp with Some n => n | None => 0%nat end) it) x).
Proof.
  revert x. induction it as [|curr rest IH]; intros x Hs Hn.
  - destruct endp; reflexivity.
  - cbn [reinsert_range].
    destruct endp as [n|].
    + destruct (Nat.eqb n (length (curr :: rest))) eqn:En.
      * apply Nat.eqb_eq in En. subst n. rewrite Nat.sub_diag. reflexivity.
      * apply Nat.eqb_neq in En. cbn [length] in *.
        destruct (reinsert_func_merge x wid curr Hs) as (m & x1 & Hm & Hx).
        rewrite Hm. rewrite Hx.
        rewrite IH; [| apply reinsert_one_sorted; exact Hs | lia].
        replace (S (length rest) - n)%nat with (S (length rest - n)) by lia.
        reflexivity.
    + destruct (reinsert_func_merge x wid curr Hs) as (m & x1 & Hm & Hx).
      rewrite Hm. rewrite Hx.
      rewrite IH; [| apply reinsert_one_sorted; exact Hs | exact I].
      cbn [length]. rewrite !Nat.sub_0_r. rewrite !firstn_all.
      change (curr :: rest) with ([curr] ++ rest).
      rewrite firstn_all2 by (cbn; lia). reflexivity.
Qed.

(** *** The walk between two anchors *)

Lemma iter_seek_all_ge m k :
  Forall (fun r => key_le k (kv_key r)) m -> iter_seek m k = m.
Proof.
  destruct m as [|r m]; [reflexivity|].
  intros H. inversion H as [|? ? Hr _]; subst. cbn.
  unfold key_le in Hr. rewrite (kref_compare_antisym k (kv_key r)).
  destruct (kref_compare k (kv_key r)); cbn; congruence.
Qed.

Lemma iter_seek_length m k : (length (iter_seek m k) <= length m)%nat.
Proof.
  induction m as [|r m IH]; cbn; [lia|].
  destruct (kref_compare (kv_key r) k); cbn; lia.
Qed.

Lemma sorted_tail_ge r m :
  mt_sorted (r :: m) -> Forall (fun r' => key_le (kv_key r) (kv_key r')) m.
Proof.
  intros H. apply mt_sorted_cons in H. destruct H as [H _].
  eapply List.Forall_impl; [|exact H]. intros; apply key_lt_le; assumption.
Qed.

Lemma filter_none {A} (f : A -> bool) l :
  Forall (fun a => f a = false) l -> List.filter f l = [].
Proof.
  induction 1 as [|a l Ha _ IH]; cbn; [reflexivity|]. rewrite Ha. exact IH.
Qed.

Lemma filter_all {A} (f : A -> bool) l :
  Forall (fun a => f a = true) l -> List.filter f l = l.
Proof.
  induction 1 as [|a l Ha _ IH]; cbn; [reflexivity|]. rewrite Ha, IH. reflexivity.
Qed.

Lemma key_in_range_some a z k :
  key_in_range a (Some z) k = true <-> key_le a k /\ key_lt k z.
Proof.
  unfold key_in_range, key_le, key_lt.
  destruct (kref_compare a k), (kref_compare k z); split; intros H;
    try discriminate; try (split; congruence); destruct H; congruence.
Qed.

Lemma key_in_range_none a k : key_in_range a None k = true <-> key_le a k.
Proof.
  unfold key_in_range, key_le.
  destruct (kref_compare a k); split; intros H; try discriminate; congruence.
Qed.

(** The records between the positions of two seeks are the records of the
    partition. *)
Lemma seek_range_filter m a z :
  mt_sorted m -> key_lt a z ->
  firstn (length (iter_seek m a) - length (iter_seek m z)) (iter_seek m a) =
    List.filter (fun r => key_in_range a (Some z) (kv_key r)) m.
Proof.
  intros Hs Haz. induction m as [|r m IH]; [reflexivity|].
  pose proof (sorted_tail_ge _ _ Hs) as Hge.
  specialize (IH (mt_sorted_tail _ _ Hs)).
  cbn [iter_seek List.filter].
  destruct (kref_compare (kv_key r) a) eqn:Era.
  - (* r = a *)
    apply kref_compare_eq in Era. rewrite Era in *.
    rewrite Haz.
    assert (Hin : key_in_range a (Some z) a = true).
    { apply key_in_range_some. split; [apply key_le_refl | exact Haz]. }
    rewrite Hin.
    pose proof (iter_seek_length m z).
    replace (length (r :: m) - length (iter_seek m z))%nat
      with (S (length m - length (iter_seek m z))) by (cbn; lia).
    cbn [firstn]. f_equal.
    rewrite (iter_seek_all_ge m a) in IH by exact Hge. exact IH.
  - (* r < a *)
    assert (Hrz : kref_compare (kv_key r) z = Lt)
      by (eapply kref_compare_lt_trans; eauto).
    rewrite Hrz.
    assert (Hin : key_in_range a (Some z) (kv_key r) = false).
    { destruct (key_in_range a (Some z) (kv_key r)) eqn:E; [|reflexivity].
      apply key_in_range_some in E. destruct E as [E _].
      exfalso. exact (key_lt_not_le _ _ Era E). }
    rewrite Hin. exact IH.
  - (* a < r *)
    apply kref_compare_gt_lt in Era.
    assert (Hge' : Forall (fun r' => key_le a (kv_key r')) m).
    { eapply List.Forall_impl; [|exact Hge]. cbn. intros r' Hr'.
      eapply key_le_trans; [apply key_lt_le; exact Era | exact Hr']. }
    rewrite (iter_seek_all_ge m a) in IH by exact Hge'.
    destruct (kref_compare (kv_key r) z) eqn:Erz.
    + (* r = z *)
      rewrite Nat.sub_diag. cbn [firstn].
      apply kref_compare_eq in Erz.
      assert (Hin : key_in_range a (Some z) (kv_key r) = false).
      { destruct (key_in_range a (Some z) (kv_key r)) eqn:E; [|reflexivity].
        apply key_in_range_some in E. destruct E as [_ E].
        unfold key_lt in E. rewrite Erz, kref_compare_refl in E. discriminate. }
      rewrite Hin. symmetry. apply filter_none.
      eapply List.Forall_impl; [|exact Hge]. cbn. intros r' Hr'.
      destruct (key_in_range a (Some z) (kv_key r')) eqn:E; [|reflexivity].
      apply key_in_range_some in E. destruct E as [_ E].
      exfalso. rewrite Erz in Hr'. exact (key_lt_not_le _ _ E Hr').
    + (* r < z *)
      assert (Hin : key_in_range a (Some z) (kv_key r) = true).
      { apply key_in_range_some. split; [apply key_lt_le; exact Era | exact Erz]. }
      rewrite Hin.
      pose proof (iter_seek_length m z).
      replace (length (r :: m) - length (iter_seek m z))%nat
        with (S (length m - length (iter_seek m z))) by (cbn; lia).
      cbn [firstn]. f_equal. exact IH.
    + (* z < r *)
      rewrite Nat.sub_diag. cbn [firstn].
      apply kref_compare_gt_lt in Erz.
      assert (Hin : key_in_range a (Some z) (kv_key r) = false).
      { destruct (key_in_range a (Some z) (kv_key r)) eqn:E; [|reflexivity].
        apply key_in_range_some in E. destruct E as [_ E].
        exfalso. eapply key_lt_not_le; [exact E|]. apply key_lt_le. exact Erz. }
      rewrite Hin. symmetry. apply filter_none.
      eapply List.Forall_impl; [|exact Hge]. cbn. intros r' Hr'.
      destruct (key_in_range a (Some z) (kv_key r')) eqn:E; [|reflexivity].
      apply key_in_range_some in E. destruct E as [_ E].
      exfalso. eapply key_lt_not_le; [exact E|].
      eapply key_le_trans; [apply key_lt_le; exact Erz | exact Hr'].
Qed.

Lemma seek_all_filter m a :
  mt_sorted m ->
  iter_seek m a = List.filter (fun r => key_in_range a None (kv_key r)) m.
Proof.
  intros Hs. induction m as [|r m IH]; [reflexivity|].
  pose proof (sorted_tail_ge _ _ Hs) as Hge.
  specialize (IH (mt_sorted_tail _ _ Hs)).
  cbn [iter_seek List.filter].
  destruct (kref_compare (kv_key r) a) eqn:Era.
  - apply kref_compare_eq in Era. rewrite Era in *.
    rewrite (proj2 (key_in_range_none a a) (key_le_refl a)).
    f_equal. symmetry. apply filter_all.
    eapply List.Forall_impl; [|exact Hge]. cbn. intros r' Hr'.
    apply key_in_range_none. exact Hr'.
  - assert (Hin : key_in_range a None (kv_key r) = false).
    { destruct (key_in_range a None (kv_key r)) eqn:E; [|reflexivity].
      apply key_in_range_none in E. exfalso. exact (key_lt_not_le _ _ Era E). }
    rewrite Hin. exact IH.
  - apply kref_compare_gt_lt in Era.
    rewrite (proj2 (key_in_range_none a (kv_key r)) (key_lt_le _ _ Era)).
    f_equal. symmetry. apply filter_all.
    eapply List.Forall_impl; [|exact Hge]. cbn. intros r' Hr'.
    apply key_in_range_none.
    eapply key_le_trans; [apply key_lt_le; exact Era | exact Hr'].
Qed.

Lemma seek_length_mono m a z :
  mt_sorted m -> key_lt a z ->
  (length (iter_seek m z) <= length (iter_seek m a))%nat.
Proof.
  intros Hs Haz. induction m as [|r m IH]; [cbn; lia|].
  specialize (IH (mt_sorted_tail _ _ Hs)).
  cbn [iter_seek].
  destruct (kref_compare (kv_key r) a) eqn:Era.
  - destruct (kref_compare (kv_key r) z); cbn; try lia.
    pose proof (iter_seek_length m z). lia.
  - assert (Hrz : kref_compare (kv_key r) z = Lt)
      by (eapply kref_compare_lt_trans; eauto).
    rewrite Hrz. exact IH.
  - destruct (kref_compare (kv_key r) z); cbn; try lia.
    pose proof (iter_seek_length m z). lia.
Qed.

(** [xdb_reinsert_rejected] walks over [rej_records], in that order. *)
Lemma reinsert_anchors_spec anchors imt wid x :
  mt_sorted imt -> mt_sorted anchors -> mt_sorted (x_mt x wid) ->
  reinsert_anchors anchors imt wid x =
    Ok (fold_left (reinsert_one wid) (rej_records anchors imt) x).
Proof.
  intros Hi. revert x. induction anchors as [|a rest IH]; intros x Ha Hs; [reflexivity|].
  cbn [reinsert_anchors rej_records].
  pose proof (mt_sorted_tail _ _ Ha) as Ha'.
  destruct (kv_vlen a =? 0).
  - cbn [app]. apply IH; assumption.
  - rewrite fold_left_app.
    destruct rest as [|kz rest'].
    + cbn [head option_map].
      rewrite reinsert_range_spec by (auto; exact I).
      cbn [obind]. rewrite Nat.sub_0_r, firstn_all.
      rewrite <- seek_all_filter by exact Hi.
      apply IH; auto. apply fold_reinsert_sorted. exact Hs.
    + cbn [head option_map].
      assert (Haz : key_lt (kv_key a) (kv_key kz)).
      { apply mt_sorted_cons in Ha. destruct Ha as [Hab _].
        inversion Hab; subst. assumption. }
      pose proof (seek_length_mono imt _ _ Hi Haz) as Hlen.
      pose proof (seek_range_filter imt _ _ Hi Haz) as Hr.
      destruct (iter_seek imt (kv_key kz)) as [|e es] eqn:Ez.
      * rewrite reinsert_range_spec by (auto; exact I).
        cbn [obind]. cbn [length] in Hr. rewrite Hr.
        apply IH; auto. apply fold_reinsert_sorted. exact Hs.
      * rewrite reinsert_range_spec by (auto; exact Hlen).
        cbn [obind]. rewrite Hr.
        apply IH; auto. apply fold_reinsert_sorted. exact Hs.
Qed.

(** *** Which records the walk meets *)

Lemma anchor_flag_above anchors k c :
  Forall (fun a => key_lt k (kv_key a)) anchors -> anchor_flag anchors k c = c.
Proof.
  destruct anchors as [|a rest]; [reflexivity|].
  intros H. inversion H as [|? ? Ha _]; subst. cbn.
  apply kref_compare_gt_lt in Ha. rewrite Ha. reflexivity.
Qed.

Lemma sorted_head_lt a rest :
  mt_sorted (a :: rest) -> Forall (fun b => key_lt (kv_key a) (kv_key b)) rest.
Proof. intros H. apply mt_sorted_cons in H. tauto. Qed.

Ltac rej_case :=
  match goal with
  | |- context [kv_vlen ?a =? 0] =>
      destruct (kv_vlen a =? 0); cbn [app negb In]; rewrite ?filter_In;
      repeat match goal with H : _ = _ |- _ => rewrite H end;
      cbn [negb]; intuition (try discriminate; auto)
  end.

Lemma rej_records_in anchors imt r :
  mt_sorted anchors ->
  In r (rej_records anchors imt) <->
  In r imt /\ part_rejected anchors (kv_key r) = true.
Proof.
  intros Ha. induction anchors as [|a rest IH].
  - cbn. unfold part_rejected. cbn. split; [tauto | intros [_ H]; discriminate].
  - specialize (IH (mt_sorted_tail _ _ Ha)).
    pose proof (sorted_head_lt _ _ Ha) as Hlt.
    cbn [rej_records]. rewrite in_app_iff, IH. clear IH.
    destruct (kref_compare (kv_key a) (kv_key r)) eqn:Eak.
    3:{ (* k < a *)
      assert (Hrest : part_rejected rest (kv_key r) = false).
      { unfold part_rejected. rewrite anchor_flag_above; [reflexivity|].
        eapply List.Forall_impl; [|exact Hlt]. cbn. intros b Hb.
        apply kref_compare_gt_lt in Eak.
        unfold key_lt in *. eapply kref_compare_lt_trans; eauto. }
      assert (Hin : forall oz, key_in_range (kv_key a) oz (kv_key r) = false).
      { intros oz. unfold key_in_range. rewrite Eak. reflexivity. }
      assert (Hrej : part_rejected (a :: rest) (kv_key r) = false).
      { unfold part_rejected. cbn [anchor_flag]. rewrite Eak. reflexivity. }
      specialize (Hin (option_map kv_key (head rest))).
      rej_case. }
    all: destruct rest as [|b rest']; cbn [head option_map].
    1,3: assert (Hin : key_in_range (kv_key a) None (kv_key r) = true)
           by (unfold key_in_range; rewrite Eak; reflexivity);
         assert (Hrest : part_rejected [] (kv_key r) = false) by reflexivity;
         assert (Hrej : part_rejected [a] (kv_key r) = negb (kv_vlen a =? 0))
           by (unfold part_rejected; cbn [anchor_flag]; rewrite Eak; reflexivity);
         rewrite Hrej, Hrest; clear Hrej Hrest;
         destruct (kv_vlen a =? 0); cbn [app negb In]; rewrite ?filter_In, ?Hin;
         intuition (try discriminate; auto).
    all: destruct (kref_compare (kv_key b) (kv_key r)) eqn:Ebk.
    all: assert (Hin : key_in_range (kv_key a) (Some (kv_key b)) (kv_key r) =
                       match kref_compare (kv_key b) (kv_key r) with Gt => true | _ => false end)
           by (unfold key_in_range; rewrite Eak;
               rewrite (kref_compare_antisym (kv_key b) (kv_key r)), Ebk; reflexivity).
    all: assert (Hrej : part_rejected (a :: b :: rest') (kv_key r) =
                        match kref_compare (kv_key b) (kv_key r) with
                        | Gt => negb (kv_vlen a =? 0)
                        | _ => part_rejected (b :: rest') (kv_key r) end)
           by (unfold part_rejected; cbn [anchor_flag]; rewrite Eak, Ebk; reflexivity).
    all: assert (Hrest : match kref_compare (kv_key b) (kv_key r) with
                         | Gt => part_rejected (b :: rest') (kv_key r) = false
                         | _ => True end)
           by (rewrite Ebk; try exact I; unfold part_rejected; cbn [anchor_flag];
               rewrite Ebk; reflexivity).
    all: rewrite Hrej; rewrite Ebk in *; clear Hrej.
    all: destruct (kv_vlen a =? 0); cbn [app negb In]; rewrite ?filter_In, ?Hin;
         rewrite ?Hrest; intuition (try discriminate; auto).
Qed.

Lemma filter_sorted (f : kv -> bool) m : mt_sorted m -> mt_sorted (List.filter f m).
Proof.
  induction m as [|r m IH]; [auto|].
  intros Hs. apply mt_sorted_cons in Hs. destruct Hs as [Hlt Hs].
  cbn. destruct (f r); [|auto].
  apply mt_sorted_cons. split; [|auto].
  rewrite List.Forall_forall in *. intros r' Hr'. apply filter_In in Hr'.
  apply Hlt. tauto.
Qed.

Lemma sorted_app a b :
  mt_sorted a -> mt_sorted b ->
  (forall x y, In x a -> In y b -> key_lt (kv_key x) (kv_key y)) ->
  mt_sorted (a ++ b).
Proof.
  induction a as [|r a IH]; cbn [app]; [auto|].
  intros Ha Hb Hab. apply mt_sorted_cons in Ha. destruct Ha as [Hlt Ha].
  apply mt_sorted_cons. split.
  - apply Forall_app. split; [exact Hlt|].
    rewrite List.Forall_forall. intros y Hy. apply Hab; [left; reflexivity | exact Hy].
  - apply IH; auto. intros x y Hx Hy. apply Hab; [right; exact Hx | exact Hy].
Qed.

Lemma sorted_nodup_keys m : mt_sorted m -> List.NoDup (map kv_key m).
Proof.
  induction m as [|r m IH]; cbn; [constructor|].
  intros Hs. apply mt_sorted_cons in Hs. destruct Hs as [Hlt Hs].
  constructor; [|auto].
  intros Hin. apply in_map_iff in Hin. destruct Hin as [r' [Hk Hr']].
  rewrite List.Forall_forall in Hlt. specialize (Hlt r' Hr').
  unfold key_lt in Hlt. rewrite Hk, kref_compare_refl in Hlt. discriminate.
Qed.

Lemma part_rejected_lower a rest k :
  part_rejected (a :: rest) k = true -> key_le (kv_key a) k.
Proof.
  unfold part_rejected, key_le. cbn [anchor_flag].
  destruct (kref_compare (kv_key a) k); try discriminate; intros; discriminate.
Qed.

Lemma rej_records_sorted anchors imt :
  mt_sorted anchors -> mt_sorted imt -> mt_sorted (rej_records anchors imt).
Proof.
  intros Ha Hi. induction anchors as [|a rest IH]; [reflexivity|].
  pose proof (mt_sorted_tail _ _ Ha) as Hrest. specialize (IH Hrest).
  cbn [rej_records]. apply sorted_app; auto.
  - destruct (kv_vlen a =? 0); [reflexivity | apply filter_sorted; exact Hi].
  - intros x y Hx Hy.
    destruct rest as [|b rest']; [destruct Hy|].
    apply (rej_records_in _ _ _ Hrest) in Hy. destruct Hy as [_ Hy].
    apply part_rejected_lower in Hy.
    destruct (kv_vlen a =? 0); [destruct Hx|].
    apply filter_In in Hx. destruct Hx as [_ Hx]. cbn in Hx.
    apply key_in_range_some in Hx. destruct Hx as [_ Hx].
    eapply key_lt_le_trans; eauto.
Qed.

(** *** The effect of the whole walk *)

Lemma reinsert_one_get wid x c k :
  mt_get k (x_mt (reinsert_one wid x c) wid) =
    match mt_get k (x_mt x wid) with
    | Some r0 => Some r0
    | None => if kref_match k (kv_key c) then Some (xdb_dup_kv c) else None
    end.
Proof.
  unfold reinsert_one. destruct (mt_get (kv_key c) (x_mt x wid)) eqn:E.
  - destruct (mt_get k (x_mt x wid)) eqn:Ek; [reflexivity|].
    destruct (kref_match k (kv_key c)) eqn:Em; [|reflexivity].
    apply kref_match_eq in Em. subst. congruence.
  - autorewrite with xdb_fields. rewrite mt_get_set, xdb_dup_kv_key.
    destruct (kref_match k (kv_key c)) eqn:Em.
    + apply kref_match_eq in Em. subst. rewrite E. reflexivity.
    + destruct (mt_get k (x_mt x wid)); reflexivity.
Qed.

Lemma reinsert_one_absent wid x c r :
  kv_key r <> kv_key c ->
  mt_absent (x_mt (reinsert_one wid x c) wid) r = mt_absent (x_mt x wid) r.
Proof.
  intros Hne. unfold mt_absent. rewrite reinsert_one_get.
  rewrite kref_match_neq by exact Hne. destruct (mt_get _ _); reflexivity.
Qed.

Lemma mt_size_app a b : mt_size (a ++ b) = mt_size a + mt_size b.
Proof. unfold mt_size. induction a as [|r a IH]; cbn; [reflexivity|]. rewrite IH. lia. Qed.

Lemma reinsert_one_effects wid x c :
  u64 (x_mtsz x) = x_mtsz x ->
  let x1 := reinsert_one wid x c in
  let ins := if mt_absent (x_mt x wid) c then [xdb_dup_kv c] else [] in
  x_mtsz x1 = u64 (x_mtsz x + mt_size ins) /\
  log_appends (wal_log (x_wal x1)) = log_appends (wal_log (x_wal x)) ++ ins.
Proof.
  intros Hm. cbv zeta. unfold reinsert_one, mt_absent.
  destruct (mt_get (kv_key c) (x_mt x wid)).
  - cbn. rewrite Z.add_0_r, app_nil_r. split; [symmetry; exact Hm | reflexivity].
  - autorewrite with xdb_fields. cbn [x_mtsz x_set_mtsz x_set_wal x_wal mt_size fold_right].
    rewrite Z.add_0_r, wal_append_appends. split; reflexivity.
Qed.

Lemma fold_reinsert_spec wid L x :
  List.NoDup (map kv_key L) -> u64 (x_mtsz x) = x_mtsz x ->
  let x' := fold_left (reinsert_one wid) L x in
  let ins := map xdb_dup_kv (List.filter (mt_absent (x_mt x wid)) L) in
  (forall k, mt_get k (x_mt x' wid) =
     match mt_get k (x_mt x wid) with
     | Some r0 => Some r0
     | None => option_map xdb_dup_kv (find (fun r => kref_match k (kv_key r)) L)
     end) /\
  x_mtsz x' = u64 (x_mtsz x + mt_size ins) /\
  log_appends (wal_log (x_wal x')) = log_appends (wal_log (x_wal x)) ++ ins.
Proof.
  cbv zeta. revert x. induction L as [|c L IH]; intros x Hnd Hm.
  - cbn. rewrite Z.add_0_r, app_nil_r. repeat split; auto.
    intros k. destruct (mt_get _ _); reflexivity.
  - inversion Hnd as [|? ? Hc Hnd']; subst.
    destruct (reinsert_one_effects wid x c Hm) as [Hsz1 Hlog1].
    assert (Hm1 : u64 (x_mtsz (reinsert_one wid x c)) = x_mtsz (reinsert_one wid x c)).
    { rewrite Hsz1. apply u64_idem. }
    destruct (IH (reinsert_one wid x c) Hnd' Hm1) as [Hget [Hsz Hlog]].
    assert (Hf : List.filter (mt_absent (x_mt (reinsert_one wid x c) wid)) L =
                 List.filter (mt_absent (x_mt x wid)) L).
    { apply filter_ext_in. intros r Hr. apply reinsert_one_absent.
      intros Heq. apply Hc. rewrite <- Heq. apply in_map. exact Hr. }
    rewrite Hf in Hsz, Hlog. cbn [fold_left List.filter find].
    split; [|split].
    + intros k. rewrite Hget, reinsert_one_get.
      destruct (mt_get k (x_mt x wid)); [reflexivity|].
      destruct (kref_match k (kv_key c)); reflexivity.
    + rewrite Hsz, Hsz1.
      destruct (mt_absent (x_mt x wid) c); cbn [map mt_size fold_right].
      * rewrite u64_add_r. f_equal. unfold mt_size. cbn. lia.
      * rewrite Z.add_0_r, Hm. reflexivity.
    + rewrite Hlog, Hlog1.
      destruct (mt_absent (x_mt x wid) c); cbn [map app];
        rewrite <- ?app_assoc, ?app_nil_r; reflexivity.
Qed.

Lemma find_rej_records anchors imt k :
  mt_sorted anchors -> mt_sorted imt ->
  find (fun r => kref_match k (kv_key r)) (rej_records anchors imt) =
    match mt_get k imt with
    | Some r => if part_rejected anchors k then Some r else None
    | None => None
    end.
Proof.
  intros Ha Hi.
  destruct (find _ _) as [r'|] eqn:Ef.
  - apply find_some in Ef. destruct Ef as [Hin Hm].
    apply kref_match_eq in Hm. subst k.
    apply (rej_records_in _ _ _ Ha) in Hin. destruct Hin as [Hin Hrej].
    rewrite (mt_get_in_sorted _ _ Hi Hin), Hrej. reflexivity.
  - destruct (mt_get k imt) as [r|] eqn:Eg; [|reflexivity].
    destruct (part_rejected anchors k) eqn:Er; [|reflexivity].
    pose proof (mt_get_some_key _ _ _ Eg) as Hk.
    pose proof (mt_get_some_in _ _ _ Eg) as Hin.
    assert (Hr : In r (rej_records anchors imt)).
    { apply rej_records_in; [exact Ha|]. rewrite Hk. auto. }
    pose proof (find_none _ _ Ef r Hr) as Hf. cbn in Hf.
    rewrite Hk, kref_match_refl in Hf. discriminate.
Qed.

Lemma reinserted_in anchors imt wmt c :
  mt_sorted anchors ->
  In c (reinserted anchors imt wmt) <->
  exists r, In r imt /\ part_rejected anchors (kv_key r) = true /\
            mt_get (kv_key r) wmt = None /\ c = xdb_dup_kv r.
Proof.
  intros Ha. unfold reinserted. rewrite in_map_iff. split.
  - intros [r [Hc Hr]]. apply filter_In in Hr. destruct Hr as [Hr Hab].
    apply (rej_records_in _ _ _ Ha) in Hr. destruct Hr as [Hin Hrej].
    exists r. repeat split; auto.
    unfold mt_absent in Hab. destruct (mt_get _ _); [discriminate | reflexivity].
  - intros [r [Hin [Hrej [Hg Hc]]]]. exists r. split; [auto|].
    apply filter_In. split.
    + apply rej_records_in; auto.
    + unfold mt_absent. rewrite Hg. reflexivity.
Qed.



(** ** The write path *)

Lemma ref_update_view x ref : ref_mt_view (xdb_ref_update_version x ref) = x_mt_view x.
Proof.
  unfold xdb_ref_update_version.
  destruct (Nat.eqb (x_mt_view x) (ref_mt_view ref)) eqn:E; [|reflexivity].
  apply Nat.eqb_eq in E. symmetry. exact E.
Qed.

Lemma ref_update_idem x ref :
  xdb_ref_update_version x (xdb_ref_update_version x ref) = xdb_ref_update_version x ref.
Proof.
  unfold xdb_ref_update_version at 1. rewrite ref_update_view, Nat.eqb_refl. reflexivity.
Qed.

Lemma xdb_update_spec x ref k newkv :
  xdb_mt_wal_full x = false -> kv_key newkv = k -> mt_sorted (x_wmt x) ->
  xdb_update x ref k newkv =
    Ok (true, xdb_update_result x newkv, xdb_ref_update_version x ref).
Proof.
  intros Hfull Hk Hs. unfold xdb_update. rewrite Hfull.
  cbn [xdb_update_loop]. cbv zeta.
  rewrite ref_update_view. cbn [ctx_newkv ctx_success].
  fold (x_wmt x).
  erewrite wormhole_merge_new; [| exact Hs | exact Hk |].
  2:{ unfold xdb_mt_update_func. cbn [ctx_mt_view ctx_newkv].
      rewrite Nat.eqb_refl. cbn [negb]. reflexivity. }
  cbn [ctx_success andb negb]. unfold xdb_update_result.
  rewrite Hk. reflexivity.
Qed.

Lemma xdb_update_full x ref k newkv :
  xdb_mt_wal_full x = true -> xdb_update x ref k newkv = Waits.
Proof. intros H. unfold xdb_update. rewrite H. reflexivity. Qed.

Lemma update_result_wmt x newkv :
  x_wmt (xdb_update_result x newkv) = mt_set newkv (x_wmt x).
Proof.
  unfold xdb_update_result, x_wmt. rewrite x_view_set_mt.
  cbn [x_mt_view x_set_wal x_set_mtsz]. autorewrite with xdb_fields. reflexivity.
Qed.

Lemma update_result_view x newkv : x_mt_view (xdb_update_result x newkv) = x_mt_view x.
Proof. unfold xdb_update_result. rewrite x_view_set_mt. reflexivity. Qed.

Lemma update_result_appends x newkv :
  log_appends (wal_log (x_wal (xdb_update_result x newkv))) =
    log_appends (wal_log (x_wal x)) ++ [newkv].
Proof.
  unfold xdb_update_result. rewrite x_wal_set_mt. cbn [x_wal x_set_wal].
  rewrite wal_append_appends. reflexivity.
Qed.

(** ** The public wrappers *)

(** [remixdb_put] turns down a request of more than 65500 bytes, and
    leaves the engine and the reference as they were. *)
Lemma remixdb_put_over_limit x ref key val :
  65500 < Z.of_nat (length key) + Z.of_nat (length val) < 2^32 ->
  remixdb_put x ref key val = Ok (false, x, ref).
Proof.
  intros H. unfold remixdb_put. cbv zeta. rewrite u32_small by lia.
  destruct (Z.ltb_spec 65500 (Z.of_nat (length key) + Z.of_nat (length val))); [reflexivity|lia].
Qed.

(** [remixdb_put] takes a request of up to 65500 bytes, when the writer
    does not have to wait for the compaction. *)
Lemma remixdb_put_within_limit x ref key val :
  Z.of_nat (length key) + Z.of_nat (length val) <= 65500 ->
  xdb_mt_wal_full x = false -> mt_sorted (x_wmt x) ->
  remixdb_put x ref key val =
    Ok (true, xdb_update_result x (kv_create key val), xdb_ref_update_version x ref).
Proof.
  intros H Hfull Hs. unfold remixdb_put. cbv zeta. rewrite u32_small by lia.
  destruct (Z.ltb_spec 65500 (Z.of_nat (length key) + Z.of_nat (length val))); [lia|].
  apply xdb_update_spec; auto.
Qed.

(** C7: [remixdb_del] has no check of the key length.  A deletion with a
    key of more than 65500 bytes returns true, leaves a tombstone in the
    WMT and appends it to the WAL. *)
Theorem remixdb_del_no_length_check x ref key :
  65500 < Z.of_nat (length key) ->
  xdb_mt_wal_full x = false -> mt_sorted (x_wmt x) ->
  exists x' ref',
    remixdb_del x ref key = Ok (true, x', ref') /\
    mt_get key (x_wmt x') = Some (xdb_new_ts key) /\
    log_appends (wal_log (x_wal x')) =
      log_appends (wal_log (x_wal x)) ++ [xdb_new_ts key] /\
    x' <> x.
Proof.
  intros Hlen Hfull Hs.
  exists (xdb_update_result x (xdb_new_ts key)), (xdb_ref_update_version x ref).
  split; [apply xdb_update_spec; auto|].
  split; [rewrite update_result_wmt; apply (mt_get_set_eq (xdb_new_ts key))|].
  split; [apply update_result_appends|].
  intros Heq. pose proof (update_result_appends x (xdb_new_ts key)) as H.
  rewrite Heq in H. apply (f_equal (@length _)) in H.
  rewrite length_app in H. cbn in H. lia.
Qed.

Lemma remixdb_del_no_length_check_witness :
  exists x' ref',
    remixdb_del ex_x0 ex_ref0 ex_long_key = Ok (true, x', ref') /\
    mt_get ex_long_key (x_wmt x') = Some (xdb_new_ts ex_long_key) /\
    log_appends (wal_log (x_wal x')) =
      log_appends (wal_log (x_wal ex_x0)) ++ [xdb_new_ts ex_long_key] /\
    x' <> ex_x0.
Proof.
  apply (remixdb_del_no_length_check ex_x0 ex_ref0 ex_long_key).
  - vm_compute. reflexivity.
  - reflexivity.
  - reflexivity.
Defined.


(** ** The table compaction *)

Lemma comp_data_get (rej : list Z -> bool) imt d0 k :
  mt_sorted imt ->
  mt_get k (fold_left (fun acc r => if rej (kv_key r) then acc else mt_set r acc) imt d0) =
    if rej k then mt_get k d0
    else match mt_get k imt with
         | Some r => Some r
         | None => mt_get k d0
         end.
Proof.
  revert d0. induction imt as [|c imt IH]; intros d0 Hs.
  - cbn. destruct (rej k); reflexivity.
  - apply mt_sorted_cons in Hs. destruct Hs as [Hlt Hs].
    cbn [fold_left mt_get]. rewrite (IH _ Hs).
    destruct (kref_match k (kv_key c)) eqn:Em.
    + apply kref_match_eq in Em. subst k.
      rewrite (mt_get_none_above _ _ Hlt).
      destruct (rej (kv_key c)); [reflexivity|]. apply mt_get_set_eq.
    + assert (Hne : k <> kv_key c).
      { intros ->. rewrite kref_match_refl in Em. discriminate. }
      destruct (rej (kv_key c)); [reflexivity|].
      rewrite (mt_get_set_ne _ _ _ Hne). reflexivity.
Qed.

Lemma mark_anchors_keys anchors flags :
  map kv_key (mark_anchors anchors flags) = map kv_key anchors.
Proof.
  revert flags. induction anchors as [|a rest IH]; intros flags; cbn; [reflexivity|].
  rewrite IH. reflexivity.
Qed.

Lemma sorted_by_keys m m' : map kv_key m = map kv_key m' -> mt_sorted m -> mt_sorted m'.
Proof.
  revert m'. induction m as [|r m IH]; intros [|r' m'] Hk Hs; try discriminate; auto.
  cbn in Hk. injection Hk as Hr Hm.
  apply mt_sorted_cons in Hs. destruct Hs as [Hlt Hs].
  apply mt_sorted_cons. split; [|eauto].
  rewrite List.Forall_forall in *. intros b Hb.
  apply (in_map kv_key) in Hb. rewrite <- Hm in Hb. apply in_map_iff in Hb.
  destruct Hb as [b0 [Hb0 Hin]]. rewrite <- Hr, <- Hb0. apply Hlt. exact Hin.
Qed.

Lemma mark_anchors_sorted anchors flags :
  mt_sorted anchors -> mt_sorted (mark_anchors anchors flags).
Proof. apply sorted_by_keys. symmetry. apply mark_anchors_keys. Qed.

Lemma split_anchors_sorted splits anchors :
  mt_sorted anchors -> mt_sorted (fold_left split_anchor splits anchors).
Proof.
  revert anchors. induction splits as [|k splits IH]; intros anchors Hs; cbn; auto.
  apply IH. apply mt_set_sorted. exact Hs.
Qed.

Lemma msstz_comp_spec z imt max_rejsz decide splits :
  mt_sorted imt -> mt_sorted (v_anchors z) ->
  let '(z', oldv) := msstz_comp z imt max_rejsz decide splits in
  v_data oldv = v_data z /\
  mt_sorted (v_anchors oldv) /\ mt_sorted (v_anchors z') /\
  v_version z' = v_version z + 1 /\
  forall k,
    mt_get k (v_data z') =
      if part_rejected (v_anchors oldv) k then mt_get k (v_data z)
      else match mt_get k imt with
           | Some r => Some r
           | None => mt_get k (v_data z)
           end.
Proof.
  intros Hi Ha. unfold msstz_comp. cbv zeta. cbn [v_data v_anchors v_version].
  split; [reflexivity|]. split.
  { destruct (_ <=? _); apply mark_anchors_sorted; exact Ha. }
  split.
  { apply split_anchors_sorted. apply mark_anchors_sorted. exact Ha. }
  split; [reflexivity|].
  intros k. apply (comp_data_get (part_rejected _)). exact Hi.
Qed.

(** ** Engine states that differ in the WAL only *)

Lemma same_tables_refl x : same_tables x x.
Proof. unfold same_tables. tauto. Qed.

Lemma same_tables_set_wal x w : same_tables x (x_set_wal x w).
Proof. unfold same_tables. cbn. tauto. Qed.

Lemma same_tables_eq x x' :
  same_tables x x' -> x' = x_set_wal x (x_wal x').
Proof.
  unfold same_tables. destruct x, x'. cbn. intros (-> & -> & -> & -> & -> & -> & ->).
  reflexivity.
Qed.

Lemma same_tables_inv x x' ref pc :
  same_tables x x' -> sys_inv (Sys x ref pc) -> sys_inv (Sys x' ref pc).
Proof.
  intros H. rewrite (same_tables_eq _ _ H). destruct x. intros Hi. exact Hi.
Qed.

Lemma same_tables_vis x x' ref pc k :
  same_tables x x' -> vis (Sys x' ref pc) k = vis (Sys x ref pc) k.
Proof.
  intros H. rewrite (same_tables_eq _ _ H). destruct x. reflexivity.
Qed.

Lemma same_tables_wmt x x' : same_tables x x' -> x_wmt x' = x_wmt x.
Proof. intros H. rewrite (same_tables_eq _ _ H). destruct x. reflexivity. Qed.

(** ** The invariant of the engine *)

Lemma update_result_mt x newkv i :
  x_mt (xdb_update_result x newkv) i =
    if mt_id_eq_dec i (mp_wmt (mt_views (x_mt_view x)))
    then mt_set newkv (x_mt x i) else x_mt x i.
Proof.
  unfold xdb_update_result. destruct (mt_id_eq_dec _ _) as [->|Hne].
  - autorewrite with xdb_fields. reflexivity.
  - rewrite x_mt_set_other by congruence. autorewrite with xdb_fields. reflexivity.
Qed.

Lemma update_result_z x newkv : x_z (xdb_update_result x newkv) = x_z x.
Proof. unfold xdb_update_result. rewrite x_z_set_mt. reflexivity. Qed.

Lemma update_result_mtsz x newkv :
  mt_sorted (x_wmt x) -> x_mtsz x = u64 (mt_size (x_wmt x)) ->
  x_mtsz (xdb_update_result x newkv) = u64 (mt_size (mt_set newkv (x_wmt x))).
Proof.
  intros Hs Hsz. unfold xdb_update_result. rewrite x_mtsz_set_mt.
  cbn [x_mtsz x_set_wal x_set_mtsz]. rewrite Hsz. fold (x_wmt x).
  rewrite u64_add_diff, (mt_size_set _ _ Hs). reflexivity.
Qed.

Lemma x_mt_all (P : memtable -> Prop) x :
  (P (x_mt1 x) /\ P (x_mt2 x)) <-> forall i, P (x_mt x i).
Proof.
  split.
  - intros [H1 H2] [|]; assumption.
  - intros H. split; [apply (H MT1) | apply (H MT2)].
Qed.

Lemma update_result_tables (P : memtable -> Prop) x newkv :
  (forall m, P m -> P (mt_set newkv m)) ->
  (forall i, P (x_mt x i)) -> forall i, P (x_mt (xdb_update_result x newkv) i).
Proof.
  intros Hset H i. rewrite update_result_mt. destruct (mt_id_eq_dec _ _); auto.
Qed.

Lemma view_comp_imt v :
  view_comp v -> mp_imt (mt_views v) = Some (mt_other (mp_wmt (mt_views v))).
Proof. intros [-> | ->]; reflexivity. Qed.

Lemma mt_other_ne i : mt_other i <> i.
Proof. destruct i; discriminate. Qed.

Lemma ref_inv_update x ref pc :
  ref_inv x ref pc -> ref_inv x (xdb_ref_update_version x ref) pc.
Proof.
  unfold xdb_ref_update_version.
  destruct (Nat.eqb (x_mt_view x) (ref_mt_view ref)) eqn:E; [auto|].
  apply Nat.eqb_neq in E.
  destruct pc; cbn; intros H; auto; destruct H; congruence.
Qed.

Lemma ref_inv_same x x' ref pc :
  x_mt_view x' = x_mt_view x -> x_z x' = x_z x ->
  ref_inv x ref pc -> ref_inv x' ref pc.
Proof. intros Hv Hz. unfold ref_inv. rewrite Hv, Hz. auto. Qed.

Lemma comp_imt_update x l newkv :
  cl_v_comp l = x_mt_view x -> view_comp (x_mt_view x) ->
  comp_imt (xdb_update_result x newkv) l = comp_imt x l.
Proof.
  intros Hl Hv. unfold comp_imt. rewrite Hl, (view_comp_imt _ Hv).
  rewrite update_result_mt. destruct (mt_id_eq_dec _ _) as [E|_]; [|reflexivity].
  exfalso. exact (mt_other_ne _ E).
Qed.

Lemma comp_wmt_update x l newkv :
  cl_v_comp l = x_mt_view x ->
  comp_wmt (xdb_update_result x newkv) l = mt_set newkv (comp_wmt x l).
Proof.
  intros Hl. unfold comp_wmt. rewrite Hl, update_result_mt.
  destruct (mt_id_eq_dec _ _) as [_|E]; [reflexivity | congruence].
Qed.

Lemma comp_rel_update x l newkv :
  cl_v_comp l = x_mt_view x -> view_comp (x_mt_view x) ->
  comp_rel x l -> comp_rel (xdb_update_result x newkv) l.
Proof.
  intros Hl Hv [Ha H]. split; [exact Ha|]. intros k.
  rewrite update_result_z, comp_imt_update by assumption. apply H.
Qed.

Lemma comp_reinserted_update x l newkv :
  cl_v_comp l = x_mt_view x -> view_comp (x_mt_view x) ->
  comp_reinserted x l -> comp_reinserted (xdb_update_result x newkv) l.
Proof.
  intros Hl Hv H k r Hk Hrej.
  rewrite comp_imt_update in Hk by assumption.
  rewrite comp_wmt_update by assumption. rewrite mt_get_set.
  destruct (kref_match k (kv_key newkv)); [discriminate|]. eapply H; eauto.
Qed.

Lemma pc_inv_update x pc newkv :
  pc_inv x pc -> pc_inv (xdb_update_result x newkv) pc.
Proof.
  destruct pc as [|l|l|l|l|l|l]; cbn [pc_inv]; rewrite ?update_result_view.
  1,7: intros [Hv He]; split; [exact Hv|];
       rewrite update_result_mt; destruct (mt_id_eq_dec _ _) as [E|_]; [|exact He];
       exfalso; exact (mt_other_ne _ E).
  - auto.
  - intros (Hl & Hv & Hr). auto using comp_rel_update.
  - intros (Hl & Hv & Hr & Hi). auto using comp_rel_update, comp_reinserted_update.
  - intros (Hl & Hv & Hr & Hi). auto using comp_rel_update, comp_reinserted_update.
  - auto.
Qed.

Lemma update_inv x ref pc newkv :
  sys_inv (Sys x ref pc) -> kv_stable newkv ->
  sys_inv (Sys (xdb_update_result x newkv) (xdb_ref_update_version x ref) pc).
Proof.
  intros (Hs1 & Hs2 & Hst1 & Hst2 & Hsz & Ha & Hpc & Href) Hnew.
  cbn [s_x s_pc s_ref] in *.
  pose proof (proj1 (x_mt_all mt_sorted x) (conj Hs1 Hs2)) as Hs.
  pose proof (proj1 (x_mt_all (Forall kv_stable) x) (conj Hst1 Hst2)) as Hst.
  destruct (proj2 (x_mt_all mt_sorted (xdb_update_result x newkv))
              (update_result_tables _ x newkv (mt_set_sorted newkv) Hs)) as [A1 A2].
  destruct (proj2 (x_mt_all (Forall kv_stable) (xdb_update_result x newkv))
              (update_result_tables _ x newkv
                 (fun m => mt_set_stable newkv m Hnew) Hst)) as [B1 B2].
  unfold sys_inv. cbn [s_x s_pc s_ref].
  repeat split; try assumption.
  - rewrite update_result_wmt. apply update_result_mtsz; [apply Hs | exact Hsz].
  - rewrite update_result_z. exact Ha.
  - apply pc_inv_update. exact Hpc.
  - apply (ref_inv_same x); [apply update_result_view | apply update_result_z|].
    apply ref_inv_update. exact Href.
Qed.

(** ** What a client reads *)

Lemma views_imt_ne v i : mp_imt (mt_views v) = Some i -> i <> mp_wmt (mt_views v).
Proof.
  destruct v as [|[|[|v]]]; cbn; intros H; try discriminate;
    injection H as <-; discriminate.
Qed.

Lemma vis_lookup_update x ref newkv k :
  ref_mt_view ref = x_mt_view x ->
  vis_lookup (xdb_update_result x newkv) ref k =
    if kref_match k (kv_key newkv) then Some newkv else vis_lookup x ref k.
Proof.
  intros Hv. unfold vis_lookup, ref_wmt, ref_imt. rewrite Hv.
  rewrite update_result_mt.
  destruct (mt_id_eq_dec _ _) as [_|E]; [|congruence].
  rewrite mt_get_set.
  destruct (kref_match k (kv_key newkv)); [reflexivity|].
  destruct (mp_imt (mt_views (x_mt_view x))) as [i|] eqn:Ei; cbn [option_map]; [|reflexivity].
  rewrite update_result_mt.
  destruct (mt_id_eq_dec _ _) as [E|_]; [|reflexivity].
  exfalso. exact (views_imt_ne _ _ Ei E).
Qed.

Lemma vis_update x ref pc newkv k :
  vis (Sys (xdb_update_result x newkv) (xdb_ref_update_version x ref) pc) k =
    if kref_match k (kv_key newkv) then Some newkv else vis (Sys x ref pc) k.
Proof.
  unfold vis. cbn [s_x s_ref].
  assert (Hr : xdb_ref_update_version (xdb_update_result x newkv)
                 (xdb_ref_update_version x ref) = xdb_ref_update_version x ref).
  { unfold xdb_ref_update_version at 1.
    rewrite update_result_view, ref_update_view, Nat.eqb_refl. reflexivity. }
  rewrite Hr. apply vis_lookup_update. apply ref_update_view.
Qed.

Lemma vis_ref_update x ref pc k :
  vis (Sys x (xdb_ref_update_version x ref) pc) k = vis (Sys x ref pc) k.
Proof. unfold vis. cbn [s_x s_ref]. rewrite ref_update_idem. reflexivity. Qed.

Lemma land_ts_small v : 0 <= v < SST_VLEN_TS -> Z.land v SST_VLEN_TS = 0.
Proof.
  intros H. unfold SST_VLEN_TS in *.
  apply Z.bits_inj'. intros n Hn. rewrite Z.land_spec, Z.bits_0.
  destruct (Z.eq_dec n 16) as [->|Hne].
  - rewrite (Z.bits_above_log2 v 16); [reflexivity | lia |].
    destruct (Z.eq_dec v 0) as [->|Hv]; [cbn; lia|].
    apply Z.log2_lt_pow2; lia.
  - change 65536 with (2^16). rewrite (Z.pow2_bits_false 16 n) by lia.
    apply andb_false_r.
Qed.

(** A read returns the record that [vis_lookup] finds, when the record is
    a value of less than 65536 bytes; and nothing when it is a tombstone. *)
Lemma xdb_get_value x ref k r :
  vis_lookup x (xdb_ref_update_version x ref) k = Some r ->
  0 <= kv_vlen r < SST_VLEN_TS ->
  fst (xdb_get x ref k) = Some r /\ fst (xdb_probe x ref k) = true.
Proof.
  intros Hv Hlen. unfold xdb_get, xdb_probe, vis_lookup in *. cbv zeta.
  set (ref' := xdb_ref_update_version x ref) in *.
  assert (Hts : (kv_vlen r =? SST_VLEN_TS) = false) by (apply Z.eqb_neq; lia).
  assert (Hsst : sst_is_ts r = false).
  { unfold sst_is_ts. rewrite (land_ts_small _ Hlen). reflexivity. }
  unfold wormhole_inpr.
  destruct (mt_get k (ref_wmt x ref')) as [r1|].
  { injection Hv as ->. cbn. rewrite Hts. split; reflexivity. }
  destruct (ref_imt x ref') as [imt|].
  - destruct (mt_get k imt) as [r1|].
    { injection Hv as ->. cbn. rewrite Hts. split; reflexivity. }
    cbn. unfold msstv_get_ts, msstv_probe_ts. rewrite Hv, Hsst. split; reflexivity.
  - cbn. unfold msstv_get_ts, msstv_probe_ts. rewrite Hv, Hsst. split; reflexivity.
Qed.

Lemma xdb_get_tombstone x ref k r :
  vis_lookup x (xdb_ref_update_version x ref) k = Some r ->
  kv_vlen r = SST_VLEN_TS ->
  fst (xdb_get x ref k) = None /\ fst (xdb_probe x ref k) = false.
Proof.
  intros Hv Hlen. unfold xdb_get, xdb_probe, vis_lookup in *. cbv zeta.
  set (ref' := xdb_ref_update_version x ref) in *.
  assert (Hts : (kv_vlen r =? SST_VLEN_TS) = true) by (apply Z.eqb_eq; exact Hlen).
  assert (Hsst : sst_is_ts r = true).
  { unfold sst_is_ts. rewrite Hlen. reflexivity. }
  unfold wormhole_inpr.
  destruct (mt_get k (ref_wmt x ref')) as [r1|].
  { injection Hv as ->. cbn. rewrite Hts. split; reflexivity. }
  destruct (ref_imt x ref') as [imt|].
  - destruct (mt_get k imt) as [r1|].
    { injection Hv as ->. cbn. rewrite Hts. split; reflexivity. }
    cbn. unfold msstv_get_ts, msstv_probe_ts. rewrite Hv, Hsst. split; reflexivity.
  - cbn. unfold msstv_get_ts, msstv_probe_ts. rewrite Hv, Hsst. split; reflexivity.
Qed.

(** ** Read-modify-write ([xdb_merge]) *)

Ltac rmw_simpl :=
  cbn [rmw_mt_ctx ctx_newkv ctx_success rmw_oldkv rmw_merged ctx_mt_view
       rmw_set_view andb negb orb obind fst snd].

Lemma loop1_absent fuel uf x ref ctx k :
  mt_get k (x_wmt x) = None ->
  exists ctx',
    xdb_merge_loop1 (S fuel) uf x ref ctx k =
      Ok (true, x, xdb_ref_update_version x ref, ctx') /\
    rmw_merged ctx' = rmw_merged ctx.
Proof.
  intros Eg. cbn [xdb_merge_loop1]. cbv zeta. rewrite ref_update_view.
  fold (x_wmt x). unfold wormhole_merge. rewrite Eg.
  unfold xdb_merge_merge_func1. rmw_simpl.
  unfold x_wmt. rewrite x_set_mt_id. eexists. split; reflexivity.
Qed.

Lemma loop1_null fuel uf x ref ctx k r0 :
  mt_get k (x_wmt x) = Some r0 -> uf (Some r0) = URetNull ->
  ctx_success (rmw_mt_ctx ctx) = false ->
  xdb_merge_loop1 fuel uf x ref ctx k = Waits.
Proof.
  intros Eg Euf. revert ref ctx.
  induction fuel as [|fuel IH]; intros ref ctx Hc; [reflexivity|].
  cbn [xdb_merge_loop1]. cbv zeta. rewrite ref_update_view.
  fold (x_wmt x). unfold wormhole_merge. rewrite Eg.
  unfold xdb_merge_merge_func1, xdb_merge_merge_func. rmw_simpl. rewrite Euf.
  rmw_simpl. rewrite Hc. rmw_simpl.
  unfold x_wmt. rewrite x_set_mt_id. apply IH. reflexivity.
Qed.

Lemma loop1_same fuel uf x ref ctx k r0 :
  mt_get k (x_wmt x) = Some r0 -> uf (Some r0) = URetSame ->
  x_mtsz x = u64 (x_mtsz x) ->
  exists x' ctx',
    xdb_merge_loop1 (S fuel) uf x ref ctx k =
      Ok (true, x', xdb_ref_update_version x ref, ctx') /\
    rmw_merged ctx' = true /\ same_tables x x'.
Proof.
  intros Eg Euf Hsz. cbn [xdb_merge_loop1]. cbv zeta. rewrite ref_update_view.
  fold (x_wmt x). unfold wormhole_merge. rewrite Eg.
  unfold xdb_merge_merge_func1, xdb_merge_merge_func. rmw_simpl. rewrite Euf.
  unfold xdb_mt_update_func. rmw_simpl. rewrite Nat.eqb_refl. rmw_simpl.
  eexists _, _. split; [reflexivity|]. split; [reflexivity|].
  unfold same_tables, x_wmt. rewrite Z.sub_diag.
  destruct x as [v sz w m1 m2 a b z]. cbn in Hsz |- *.
  destruct (mp_wmt (mt_views v)); cbn; repeat split; try reflexivity;
    rewrite Z.add_0_r; symmetry; exact Hsz.
Qed.

Lemma loop1_new fuel uf x ref ctx k r0 new :
  mt_get k (x_wmt x) = Some r0 -> uf (Some r0) = URetNew new -> kv_key new = k ->
  mt_sorted (x_wmt x) ->
  exists ctx',
    xdb_merge_loop1 (S fuel) uf x ref ctx k =
      Ok (true, xdb_update_result x (xdb_dup_kv new), xdb_ref_update_version x ref, ctx') /\
    rmw_merged ctx' = true.
Proof.
  intros Eg Euf Hk Hs. cbn [xdb_merge_loop1]. cbv zeta. rewrite ref_update_view.
  fold (x_wmt x). unfold wormhole_merge. rewrite Eg.
  unfold xdb_merge_merge_func1, xdb_merge_merge_func. rmw_simpl. rewrite Euf.
  unfold xdb_mt_update_func. rmw_simpl. rewrite Nat.eqb_refl. rmw_simpl.
  rewrite (mt_update_set k (xdb_dup_kv new) (x_wmt x));
    [| exact Hs | rewrite xdb_dup_kv_key; exact Hk | eauto].
  eexists. split.
  - unfold xdb_update_result. rewrite xdb_dup_kv_key, Hk. fold (x_wmt x). rewrite Eg.
    reflexivity.
  - reflexivity.
Qed.

Lemma loop2_keep fuel uf x ref ctx k :
  mt_get k (x_wmt x) = None ->
  (uf (xdb_merge_get_old x (xdb_ref_update_version x ref) k) = URetNull \/
   xdb_merge_get_old x (xdb_ref_update_version x ref) k = None /\ uf None = URetSame) ->
  xdb_merge_loop2 (S fuel) uf x ref ctx k = Ok (true, x, xdb_ref_update_version x ref).
Proof.
  intros Eg Huf. cbn [xdb_merge_loop2]. cbv zeta. rewrite ref_update_view.
  fold (x_wmt x). unfold wormhole_merge. rewrite Eg.
  unfold xdb_merge_merge_func. rmw_simpl.
  unfold x_wmt.
  destruct Huf as [Huf | [Hold Huf]].
  - rewrite Huf. rmw_simpl. rewrite x_set_mt_id. reflexivity.
  - rewrite Hold, Huf. rmw_simpl. rewrite x_set_mt_id. reflexivity.
Qed.

Lemma loop2_new fuel uf x ref ctx k new :
  mt_get k (x_wmt x) = None ->
  uf (xdb_merge_get_old x (xdb_ref_update_version x ref) k) = URetNew new ->
  kv_key new = k -> mt_sorted (x_wmt x) ->
  xdb_merge_loop2 (S fuel) uf x ref ctx k =
    Ok (true, xdb_update_result x (xdb_dup_kv new), xdb_ref_update_version x ref).
Proof.
  intros Eg Huf Hk Hs. cbn [xdb_merge_loop2]. cbv zeta. rewrite ref_update_view.
  fold (x_wmt x). unfold wormhole_merge. rewrite Eg.
  unfold xdb_merge_merge_func. rmw_simpl. rewrite Huf.
  unfold xdb_mt_update_func. rmw_simpl. rewrite Nat.eqb_refl. rmw_simpl.
  unfold xdb_update_result. rewrite xdb_dup_kv_key, Hk. fold (x_wmt x). rewrite Eg.
  reflexivity.
Qed.


Lemma x_set_mtsz_id x : x_set_mtsz x (x_mtsz x) = x.
Proof. destruct x. reflexivity. Qed.

Lemma kv_rewrite_key r vlen val : kv_key (kv_rewrite r vlen val) = kv_key r.
Proof. reflexivity. Qed.

Lemma kv_rewrite_stable r vlen val : kv_stable (kv_rewrite r vlen val).
Proof.
  unfold kv_stable, xdb_dup_kv, kv_rewrite. cbn [kv_key kv_vlen kv_val]. f_equal.
  apply firstn_all2. rewrite length_firstn. lia.
Qed.

(** The key is in the WMT and the user's function updates the record in
    place: the record of the WMT is the rewritten one, it goes to the log,
    and [mtsz] stays as it is. *)
Lemma loop1_in_place fuel uf x ref ctx k r0 vlen val :
  mt_get k (x_wmt x) = Some r0 -> uf (Some r0) = URetInPlace vlen val ->
  mt_sorted (x_wmt x) -> 0 <= x_mtsz x < 2^64 ->
  exists ctx',
    xdb_merge_loop1 (S fuel) uf x ref ctx k =
      Ok (true, x_set_mtsz (xdb_update_result x (kv_rewrite r0 vlen val)) (x_mtsz x),
          xdb_ref_update_version x ref, ctx') /\
    rmw_merged ctx' = true.
Proof.
  intros Eg Euf Hs Hsz. cbn [xdb_merge_loop1]. cbv zeta. rewrite ref_update_view.
  fold (x_wmt x). unfold wormhole_merge. rewrite Eg.
  unfold xdb_merge_merge_func1, xdb_merge_merge_func. rmw_simpl. rewrite Euf.
  unfold xdb_mt_update_func. rmw_simpl. rewrite Nat.eqb_refl. rmw_simpl.
  pose proof (mt_get_some_key _ _ _ Eg) as Hk.
  rewrite (mt_update_set k (kv_rewrite r0 vlen val) (x_wmt x));
    [| exact Hs | rewrite kv_rewrite_key; exact Hk | eauto].
  match goal with
  | |- exists _, Ok (_, ?X, _, _) = _ /\ _ =>
      assert (E : X = x_set_mtsz (xdb_update_result x (kv_rewrite r0 vlen val)) (x_mtsz x))
  end.
  { unfold xdb_update_result. rewrite kv_rewrite_key, Hk. fold (x_wmt x). rewrite Eg.
    rewrite Z.sub_diag.
    replace (u64 (x_mtsz x + u64 0)) with (x_mtsz x)
      by (change (u64 0) with 0; rewrite Z.add_0_r, u64_small; [reflexivity | exact Hsz]).
    destruct x as [v sz w m1 m2 a b z]. unfold x_wmt, x_set_mt, x_set_wal, x_set_mtsz.
    cbn [x_mt_view x_mtsz x_wal x_mt1 x_mt2 x_max_mtsz x_max_rejsz x_z x_mt].
    destruct (mp_wmt (mt_views v)); reflexivity. }
  rewrite E. eexists. split; reflexivity.
Qed.

(** The key is not in the WMT and the user's function hands back the copy
    that was fetched from the IMT or from the SSTable version: the WMT
    takes the pointer, and [xdb_merge] frees it. *)
Lemma loop2_hand_back fuel uf x ref ctx k r :
  mt_get k (x_wmt x) = None ->
  xdb_merge_get_old x (xdb_ref_update_version x ref) k = Some r ->
  (uf (Some r) = URetSame \/ exists vlen val, uf (Some r) = URetInPlace vlen val) ->
  xdb_merge_loop2 (S fuel) uf x ref ctx k = Fault UseAfterFree.
Proof.
  intros Eg Hold Huf. cbn [xdb_merge_loop2]. cbv zeta. rewrite ref_update_view.
  fold (x_wmt x). unfold wormhole_merge. rewrite Eg.
  unfold xdb_merge_merge_func. rmw_simpl. rewrite Hold.
  destruct Huf as [Huf | (vlen & val & Huf)]; rewrite Huf;
    unfold xdb_mt_update_func; rmw_simpl; rewrite Nat.eqb_refl; rmw_simpl; reflexivity.
Qed.

Lemma loop2_keep_null fuel uf x ref ctx k :
  mt_get k (x_wmt x) = None ->
  xdb_merge_get_old x (xdb_ref_update_version x ref) k = None ->
  (uf None = URetSame \/ exists vlen val, uf None = URetInPlace vlen val) ->
  xdb_merge_loop2 (S fuel) uf x ref ctx k = Ok (true, x, xdb_ref_update_version x ref).
Proof.
  intros Eg Hold Huf. cbn [xdb_merge_loop2]. cbv zeta. rewrite ref_update_view.
  fold (x_wmt x). unfold wormhole_merge. rewrite Eg.
  unfold xdb_merge_merge_func. rmw_simpl. unfold x_wmt. rewrite Hold.
  destruct Huf as [Huf | (vlen & val & Huf)]; rewrite Huf; rmw_simpl;
    rewrite x_set_mt_id; reflexivity.
Qed.

(** What a merge comes to: it waits for ever (the key is in the WMT and the
    function returns NULL); or it leaves a freed record in the WMT; or it
    returns, and then either the tables are as they were, or a record with
    the merged key has been put into the WMT, where [mtsz] may be anything
    (an update in place is not counted). *)
Lemma xdb_merge_spec x ref k uf :
  xdb_mt_wal_full x = false -> mt_sorted (x_wmt x) -> 0 <= x_mtsz x < 2^64 ->
  (forall old new, uf old = URetNew new -> kv_key new = k) ->
  xdb_merge 2 x ref k uf = Waits \/
  xdb_merge 2 x ref k uf = Fault UseAfterFree \/
  exists x',
    xdb_merge 2 x ref k uf = Ok (true, x', xdb_ref_update_version x ref) /\
    (same_tables x x' \/
     exists new m, kv_key new = k /\ kv_stable new /\ 0 <= m < 2^64 /\
                   x' = x_set_mtsz (xdb_update_result x new) m).
Proof.
  intros Hfull Hs Hsz Hkey.
  assert (Hsz' : x_mtsz x = u64 (x_mtsz x)) by (symmetry; apply u64_small; exact Hsz).
  unfold xdb_merge. rewrite Hfull.
  set (ctx0 := RmwCtx (MergeCtx (Kv [] 0 []) 0 false) None false false).
  destruct (mt_get k (x_wmt x)) as [r0|] eqn:Eg.
  - destruct (uf (Some r0)) as [| |vlen val|new] eqn:Euf.
    + left. rewrite (loop1_null 2 uf x ref ctx0 k r0 Eg Euf); reflexivity.
    + right. right. destruct (loop1_same 1 uf x ref ctx0 k r0 Eg Euf Hsz')
        as (x' & ctx' & Hrun & Hm & Hsame').
      exists x'. rewrite Hrun. rmw_simpl. rewrite Hm. rmw_simpl. auto.
    + right. right.
      destruct (loop1_in_place 1 uf x ref ctx0 k r0 vlen val Eg Euf Hs Hsz)
        as (ctx' & Hrun & Hm).
      eexists. rewrite Hrun. rmw_simpl. rewrite Hm. rmw_simpl.
      split; [reflexivity|]. right. exists (kv_rewrite r0 vlen val), (x_mtsz x).
      rewrite kv_rewrite_key. split; [eapply mt_get_some_key; eauto|].
      split; [apply kv_rewrite_stable|]. split; [exact Hsz | reflexivity].
    + right. right. pose proof (Hkey _ _ Euf) as Hk.
      destruct (loop1_new 1 uf x ref ctx0 k r0 new Eg Euf Hk Hs) as (ctx' & Hrun & Hm).
      eexists. rewrite Hrun. rmw_simpl. rewrite Hm. rmw_simpl.
      split; [reflexivity|]. right.
      exists (xdb_dup_kv new), (x_mtsz (xdb_update_result x (xdb_dup_kv new))).
      rewrite xdb_dup_kv_key. split; [exact Hk|]. split; [apply xdb_dup_kv_idem|].
      split; [|rewrite x_set_mtsz_id; reflexivity].
      unfold xdb_update_result. rewrite x_mtsz_set_mt. cbn [x_mtsz x_set_wal x_set_mtsz].
      apply u64_range.
  - destruct (loop1_absent 1 uf x ref ctx0 k Eg) as (ctx' & Hrun & Hm).
    rewrite Hrun. rmw_simpl. rewrite Hm. rmw_simpl.
    set (ref' := xdb_ref_update_version x ref) in *.
    assert (Hidem : xdb_ref_update_version x ref' = ref') by apply ref_update_idem.
    destruct (xdb_merge_get_old x ref' k) as [r|] eqn:Eold.
    + destruct (uf (Some r)) as [| |vlen val|new] eqn:Euf.
      * right. right. exists x.
        rewrite loop2_keep; [| exact Eg | rewrite Hidem, Eold; auto].
        rewrite Hidem. split; [reflexivity|]. left. apply same_tables_refl.
      * right. left. apply (loop2_hand_back 1 uf x ref' _ k r Eg);
          [rewrite Hidem; exact Eold | auto].
      * right. left. apply (loop2_hand_back 1 uf x ref' _ k r Eg);
          [rewrite Hidem; exact Eold | eauto].
      * right. right. pose proof (Hkey _ _ Euf) as Hk.
        eexists. rewrite (loop2_new 1 uf x ref' _ k new Eg);
          [| rewrite Hidem, Eold; exact Euf | exact Hk | exact Hs].
        rewrite Hidem. split; [reflexivity|]. right.
        exists (xdb_dup_kv new), (x_mtsz (xdb_update_result x (xdb_dup_kv new))).
        rewrite xdb_dup_kv_key. split; [exact Hk|]. split; [apply xdb_dup_kv_idem|].
        split; [|rewrite x_set_mtsz_id; reflexivity].
        unfold xdb_update_result. rewrite x_mtsz_set_mt. cbn [x_mtsz x_set_wal x_set_mtsz].
        apply u64_range.
    + destruct (uf None) as [| |vlen val|new] eqn:Euf.
      * right. right. exists x.
        rewrite loop2_keep; [| exact Eg | rewrite Hidem, Eold; auto].
        rewrite Hidem. split; [reflexivity|]. left. apply same_tables_refl.
      * right. right. exists x.
        rewrite loop2_keep_null; [| exact Eg | rewrite Hidem; exact Eold | auto].
        rewrite Hidem. split; [reflexivity|]. left. apply same_tables_refl.
      * right. right. exists x.
        rewrite loop2_keep_null; [| exact Eg | rewrite Hidem; exact Eold | eauto].
        rewrite Hidem. split; [reflexivity|]. left. apply same_tables_refl.
      * right. right. pose proof (Hkey _ _ Euf) as Hk.
        eexists. rewrite (loop2_new 1 uf x ref' _ k new Eg);
          [| rewrite Hidem, Eold; exact Euf | exact Hk | exact Hs].
        rewrite Hidem. split; [reflexivity|]. right.
        exists (xdb_dup_kv new), (x_mtsz (xdb_update_result x (xdb_dup_kv new))).
        rewrite xdb_dup_kv_key. split; [exact Hk|]. split; [apply xdb_dup_kv_idem|].
        split; [|rewrite x_set_mtsz_id; reflexivity].
        unfold xdb_update_result. rewrite x_mtsz_set_mt. cbn [x_mtsz x_set_wal x_set_mtsz].
        apply u64_range.
Qed.

(** ** The steps of the compaction *)

Lemma comp_rotate_fields x :
  let '(x', l) := comp_rotate x in
  x_mt_view x' = mp_next (mt_views (x_mt_view x)) /\
  cl_v_comp l = mp_next (mt_views (x_mt_view x)) /\
  x_mtsz x' = 0 /\ x_mt1 x' = x_mt1 x /\ x_mt2 x' = x_mt2 x /\ x_z x' = x_z x /\
  cl_mtsz0 l = x_mtsz x.
Proof.
  unfold comp_rotate. cbv zeta.
  destruct (wal_switch _ _) as [w walsz0]. cbn. tauto.
Qed.

Lemma rotate_inv x ref :
  sys_inv (Sys x ref CompIdle) ->
  let '(x', l) := comp_rotate x in
  sys_inv (Sys x' ref (CompRotated l)) /\
  x_mtsz x' = 0 /\ x_wmt x' = [] /\
  forall k, vis (Sys x' ref (CompRotated l)) k = vis (Sys x ref CompIdle) k.
Proof.
  intros (Hs1 & Hs2 & Hst1 & Hst2 & Hsz & Ha & Hpc & Href).
  cbn [s_x s_pc s_ref pc_inv ref_inv] in *.
  pose proof (comp_rotate_fields x) as Hf.
  destruct (comp_rotate x) as [x' l].
  destruct Hf as (Hv & Hl & Hm & H1 & H2 & Hz & _).
  destruct Hpc as [Hn He]. destruct Href as [Hrv Hrz].
  unfold sys_inv, vis, vis_lookup, xdb_ref_update_version, ref_wmt, ref_imt, x_wmt in *.
  cbn [s_x s_pc s_ref pc_inv ref_inv xdb_ref_all ref_mt_view ref_v].
  rewrite Hv, Hl, Hm, H1, H2, Hz, Hrv.
  destruct x as [v sz w m1 m2 a b z], x' as [v' sz' w' m1' m2' a' b' z'].
  cbn [x_mt_view x_mtsz x_mt1 x_mt2 x_z x_mt] in *. subst v' sz' m1' m2' z'.
  rewrite Hrz.
  destruct Hn as [Hv0 | Hv0]; rewrite Hv0 in *; cbn in He, Hsz |- *; subst;
    (split; [repeat split; auto; try (right; reflexivity); try (left; reflexivity); discriminate|]);
    (split; [reflexivity|]); (split; [reflexivity|]);
    intros k; rewrite ?Hrv; cbn; rewrite ?Hrz; reflexivity.
Qed.

Lemma tables_inv x ref l decide splits :
  sys_inv (Sys x ref (CompRotated l)) -> ref_mt_view ref = cl_v_comp l ->
  let '(x', l1) := comp_tables x l decide splits in
  sys_inv (Sys x' ref (CompTablesDone l1)) /\
  same_tables x (x_set_z x' (x_z x)) /\
  forall k, vis (Sys x' ref (CompTablesDone l1)) k = vis (Sys x ref (CompRotated l)) k.
Proof.
  intros (Hs1 & Hs2 & Hst1 & Hst2 & Hsz & Ha & Hpc & Href) Hq.
  cbn [s_x s_pc s_ref pc_inv ref_inv] in *.
  destruct Hpc as [Hl Hv].
  assert (Hrv : ref_mt_view ref = x_mt_view x) by congruence.
  specialize (Href Hrv).
  unfold comp_tables. cbv zeta.
  pose proof (proj1 (x_mt_all mt_sorted x) (conj Hs1 Hs2)) as Hs.
  set (imt := match mp_imt (mt_views (cl_v_comp l)) with
              | Some i => x_mt x i | None => [] end).
  assert (Hi : mt_sorted imt).
  { unfold imt. destruct (mp_imt _); [apply Hs | reflexivity]. }
  pose proof (msstz_comp_spec (x_z x) imt (x_max_rejsz x) decide splits Hi Ha) as Hc.
  destruct (msstz_comp (x_z x) imt (x_max_rejsz x) decide splits) as [z' oldv].
  destruct Hc as (Hold & Hao & Haz & _ & Hget).
  split; [|split].
  - unfold sys_inv. cbn [s_x s_pc s_ref pc_inv ref_inv cl_v_comp cl_oldv cl_anchors].
    assert (Hrel : comp_rel (x_set_z x z')
                     (CompLocals (cl_v_comp l) (cl_walsz0 l) (cl_mtsz0 l) oldv
                                 (msstv_anchors oldv))).
    { unfold comp_rel, comp_imt, msstv_anchors.
      cbn [cl_v_comp cl_oldv cl_anchors]. split; [exact Hao|].
      intros k. cbn [x_z x_set_z]. rewrite Hget, Hold. unfold imt.
      destruct (mp_imt _); [rewrite x_mt_set_z|]; reflexivity. }
    destruct x as [v sz w m1 m2 a b z].
    cbn [x_mt1 x_mt2 x_mtsz x_mt_view x_z x_set_z x_wal x_max_mtsz x_max_rejsz] in *.
    repeat split; auto; try congruence; apply Hrel.
  - destruct x. unfold same_tables. cbn. tauto.
  - intros k. unfold vis, vis_lookup, xdb_ref_update_version. cbn [s_x s_ref].
    destruct x as [v sz w m1 m2 a b z].
    cbn [x_mt1 x_mt2 x_mtsz x_mt_view x_z x_set_z x_wal x_max_mtsz x_max_rejsz] in *.
    rewrite Hrv, Nat.eqb_refl. reflexivity.
Qed.

Lemma u64_add_r' a b : u64 (a + u64 b) = u64 (a + b).
Proof. rewrite Z.add_comm, u64_add_r, Z.add_comm. reflexivity. Qed.

Lemma reinsert_one_update x c :
  mt_get (kv_key c) (x_wmt x) = None ->
  same_tables (xdb_update_result x (xdb_dup_kv c))
              (reinsert_one (mp_wmt (mt_views (x_mt_view x))) x c).
Proof.
  intros Eg. unfold reinsert_one, xdb_update_result. fold (x_wmt x).
  rewrite xdb_dup_kv_key, Eg, Z.sub_0_r, u64_add_r'.
  destruct x as [v sz w m1 m2 a b z]. unfold same_tables, x_wmt.
  cbn [x_mt_view]. destruct (mp_wmt (mt_views v)); cbn; tauto.
Qed.

Lemma reinsert_one_view wid x c : x_mt_view (reinsert_one wid x c) = x_mt_view x.
Proof.
  unfold reinsert_one. destruct (mt_get _ _); [reflexivity|].
  rewrite x_view_set_mt. reflexivity.
Qed.

Lemma reinsert_one_z wid x c : x_z (reinsert_one wid x c) = x_z x.
Proof.
  unfold reinsert_one. destruct (mt_get _ _); [reflexivity|].
  rewrite x_z_set_mt. reflexivity.
Qed.

Lemma fold_reinsert_view wid L x :
  x_mt_view (fold_left (reinsert_one wid) L x) = x_mt_view x.
Proof.
  revert x. induction L as [|c L IH]; intros x; cbn; [reflexivity|].
  rewrite IH. apply reinsert_one_view.
Qed.

Lemma fold_reinsert_z wid L x : x_z (fold_left (reinsert_one wid) L x) = x_z x.
Proof.
  revert x. induction L as [|c L IH]; intros x; cbn; [reflexivity|].
  rewrite IH. apply reinsert_one_z.
Qed.

Lemma ref_update_same x ref :
  ref_mt_view ref = x_mt_view x -> xdb_ref_update_version x ref = ref.
Proof.
  intros H. unfold xdb_ref_update_version. rewrite H, Nat.eqb_refl. reflexivity.
Qed.

Lemma reinsert_one_inv x ref l c :
  sys_inv (Sys x ref (CompTablesDone l)) ->
  sys_inv (Sys (reinsert_one (mp_wmt (mt_views (x_mt_view x))) x c) ref (CompTablesDone l)).
Proof.
  intros Hinv. unfold reinsert_one at 1. fold (x_wmt x).
  destruct (mt_get (kv_key c) (x_wmt x)) eqn:Eg; [exact Hinv|].
  pose proof (reinsert_one_update x c Eg) as Hsame.
  unfold reinsert_one in Hsame. fold (x_wmt x) in Hsame. rewrite Eg in Hsame.
  eapply same_tables_inv; [exact Hsame|].
  assert (Href : ref_mt_view ref = x_mt_view x).
  { destruct Hinv as (_ & _ & _ & _ & _ & _ & _ & Href). apply Href. }
  rewrite <- (ref_update_same x ref Href).
  apply update_inv; [exact Hinv | apply xdb_dup_kv_idem].
Qed.

Lemma fold_reinsert_inv L x ref l :
  sys_inv (Sys x ref (CompTablesDone l)) ->
  sys_inv (Sys (fold_left (reinsert_one (mp_wmt (mt_views (x_mt_view x)))) L x)
               ref (CompTablesDone l)).
Proof.
  revert x. induction L as [|c L IH]; intros x Hinv; cbn [fold_left]; [exact Hinv|].
  pose proof (reinsert_one_inv x ref l c Hinv) as H1.
  specialize (IH _ H1). rewrite reinsert_one_view in IH. exact IH.
Qed.

Lemma stable_in m r : Forall kv_stable m -> In r m -> xdb_dup_kv r = r.
Proof. intros H Hin. rewrite List.Forall_forall in H. apply H. exact Hin. Qed.

Lemma reinsert_inv x ref l :
  sys_inv (Sys x ref (CompTablesDone l)) ->
  exists x',
    comp_reinsert x l = Ok x' /\
    sys_inv (Sys x' ref (CompReinserted l)) /\
    x_mt_view x' = x_mt_view x /\
    forall k, vis (Sys x' ref (CompReinserted l)) k = vis (Sys x ref (CompTablesDone l)) k.
Proof.
  intros Hinv.
  pose proof Hinv as (Hs1 & Hs2 & Hst1 & Hst2 & Hsz & Ha & Hpc & Href).
  cbn [s_x s_pc s_ref pc_inv ref_inv] in *.
  destruct Hpc as (Hl & Hv & Hrel). destruct Href as [Hrv Hrz].
  pose proof (proj1 (x_mt_all mt_sorted x) (conj Hs1 Hs2)) as Hs.
  pose proof (proj1 (x_mt_all (Forall kv_stable) x) (conj Hst1 Hst2)) as Hst.
  set (wid := mp_wmt (mt_views (x_mt_view x))).
  set (iid := mt_other wid).
  assert (Hne : wid <> iid) by (intros E; exact (mt_other_ne wid (eq_sym E))).
  destruct Hrel as [Hanc Hrel].
  set (L := rej_records (cl_anchors l) (x_mt x iid)).
  set (x' := fold_left (reinsert_one wid) L x).
  assert (Hrun : comp_reinsert x l = Ok x').
  { unfold comp_reinsert. rewrite Hl, (view_comp_imt _ Hv).
    unfold xdb_reinsert_rejected. apply reinsert_anchors_spec; auto. }
  assert (Hinv' : sys_inv (Sys x' ref (CompTablesDone l))).
  { apply fold_reinsert_inv. exact Hinv. }
  assert (Hview : x_mt_view x' = x_mt_view x) by apply fold_reinsert_view.
  assert (Himt : x_mt x' iid = x_mt x iid) by (apply fold_reinsert_other; exact Hne).
  assert (Hm : u64 (x_mtsz x) = x_mtsz x) by (rewrite Hsz; apply u64_idem).
  pose proof (rej_records_sorted _ _ Hanc (Hs iid)) as HLs.
  destruct (fold_reinsert_spec wid L x (sorted_nodup_keys _ HLs) Hm) as [Hget _].
  fold x' in Hget.
  assert (Hget' : forall k,
            mt_get k (x_mt x' wid) =
              match mt_get k (x_mt x wid) with
              | Some r0 => Some r0
              | None =>
                  match mt_get k (x_mt x iid) with
                  | Some r => if part_rejected (cl_anchors l) k then Some r else None
                  | None => None
                  end
              end).
  { intros k. rewrite Hget. unfold L. rewrite find_rej_records by auto.
    destruct (mt_get k (x_mt x wid)); [reflexivity|].
    destruct (mt_get k (x_mt x iid)) as [r|] eqn:Ei; [|reflexivity].
    destruct (part_rejected (cl_anchors l) k); [|reflexivity].
    cbn. rewrite (stable_in _ _ (Hst iid) (mt_get_some_in _ _ _ Ei)). reflexivity. }
  exists x'. split; [exact Hrun|]. split; [|split; [exact Hview|]].
  - destruct Hinv' as (A1 & A2 & A3 & A4 & A5 & A6 & A7 & A8).
    unfold sys_inv. cbn [s_x s_pc s_ref pc_inv ref_inv] in *.
    destruct A7 as (B1 & B2 & B3 & B4). destruct A8 as [C1 C2].
    split; [exact A1|]. split; [exact A2|]. split; [exact A3|]. split; [exact A4|].
    split; [exact A5|]. split; [exact A6|].
    split; [|split; assumption].
    split; [exact B1|]. split; [exact B2|]. split; [split; [exact B3 | exact B4]|].
    intros k r Hk Hrej. unfold comp_imt, comp_wmt in *.
    rewrite Hl, (view_comp_imt _ Hv) in Hk. rewrite Hl.
    fold wid in Hk |- *. fold iid in Hk. rewrite Himt in Hk.
    rewrite Hget', Hk, Hrej. destruct (mt_get k (x_mt x wid)); discriminate.
  - intros k. unfold vis. cbn [s_x s_ref].
    rewrite !ref_update_same by congruence.
    unfold vis_lookup, ref_wmt, ref_imt. rewrite Hrv, (view_comp_imt _ Hv).
    fold wid. fold iid. cbn [option_map]. rewrite Himt, Hget'.
    destruct (mt_get k (x_mt x wid)); [reflexivity|].
    destruct (mt_get k (x_mt x iid)); [|reflexivity].
    destruct (part_rejected (cl_anchors l) k); reflexivity.
Qed.

Lemma rotate_back_inv x ref l :
  sys_inv (Sys x ref (CompSynced l)) ->
  sys_inv (Sys (comp_rotate_back x l) ref (CompSwitched l)) /\
  x_wmt (comp_rotate_back x l) = x_wmt x /\
  x_mtsz (comp_rotate_back x l) = x_mtsz x /\
  forall k, vis (Sys (comp_rotate_back x l) ref (CompSwitched l)) k =
            vis (Sys x ref (CompSynced l)) k.
Proof.
  intros (Hs1 & Hs2 & Hst1 & Hst2 & Hsz & Ha & Hpc & Href).
  cbn [s_x s_pc s_ref pc_inv ref_inv] in *.
  destruct Hpc as (Hl & Hv & [Hanc Hrel] & Hre). destruct Href as [Hrv Hrz].
  unfold comp_rotate_back, sys_inv, vis, vis_lookup, xdb_ref_update_version,
    ref_wmt, ref_imt, x_wmt, comp_rel, comp_reinserted, comp_imt, comp_wmt in *.
  cbn [s_x s_pc s_ref pc_inv ref_inv xdb_ref_all ref_mt_view ref_v].
  rewrite Hl in *. rewrite Hrv in *.
  destruct x as [v sz w m1 m2 a b z].
  cbn [x_mt1 x_mt2 x_mtsz x_mt_view x_z x_set_view x_wal x_max_mtsz x_max_rejsz] in *.
  destruct Hv as [Hv0 | Hv0]; rewrite Hv0 in *; cbn in Hsz, Hrel, Hre |- *;
    (split; [repeat split; auto; try (right; reflexivity); try (left; reflexivity); discriminate|]);
    (split; [reflexivity|]); (split; [reflexivity|]);
    intros k; rewrite ?Hrv; cbn; rewrite Hrz, Hrel.
  - destruct (mt_get k m2) eqn:Ew; [reflexivity|].
    destruct (mt_get k m1) eqn:Ei;
      destruct (part_rejected (cl_anchors l) k) eqn:Er; try reflexivity.
    exfalso. eapply Hre; eauto.
  - destruct (mt_get k m1) eqn:Ew; [reflexivity|].
    destruct (mt_get k m2) eqn:Ei;
      destruct (part_rejected (cl_anchors l) k) eqn:Er; try reflexivity.
    exfalso. eapply Hre; eauto.
Qed.

Lemma clean_inv x ref l :
  sys_inv (Sys x ref (CompSwitched l)) -> ref_mt_view ref = x_mt_view x ->
  sys_inv (Sys (comp_clean x l) ref (CompCleaned l)) /\
  x_wmt (comp_clean x l) = x_wmt x /\
  x_mtsz (comp_clean x l) = x_mtsz x /\
  forall k, vis (Sys (comp_clean x l) ref (CompCleaned l)) k =
            vis (Sys x ref (CompSwitched l)) k.
Proof.
  intros (Hs1 & Hs2 & Hst1 & Hst2 & Hsz & Ha & Hpc & Href) Hrv.
  cbn [s_x s_pc s_ref pc_inv ref_inv] in *.
  destruct Hpc as (Hl & Hv). specialize (Href Hrv).
  unfold comp_clean, sys_inv, vis, vis_lookup, xdb_ref_update_version,
    ref_wmt, ref_imt, x_wmt, wormhole_clean in *.
  cbn [s_x s_pc s_ref pc_inv ref_inv xdb_ref_all ref_mt_view ref_v].
  destruct x as [v sz w m1 m2 a b z].
  cbn [x_mt1 x_mt2 x_mtsz x_mt_view x_z x_set_view x_wal x_max_mtsz x_max_rejsz] in *.
  rewrite Hrv.
  destruct Hv as [Hv0 | Hv0]; rewrite Hv0 in *; cbn in Hl; subst v; cbn in Hsz |- *;
    (split; [repeat split; auto; try (right; reflexivity); try (left; reflexivity);
             try apply Forall_nil; constructor|]);
    (split; [reflexivity|]); (split; [reflexivity|]);
    intros k; rewrite ?Hrv; cbn; reflexivity.
Qed.

Lemma finish_inv x ref l :
  sys_inv (Sys x ref (CompCleaned l)) ->
  sys_inv (Sys (comp_finish x) ref CompIdle) /\
  same_tables x (comp_finish x).
Proof.
  intros Hinv. assert (Hsame : same_tables x (comp_finish x)).
  { unfold comp_finish. cbv zeta. apply same_tables_set_wal. }
  split; [|exact Hsame].
  apply (same_tables_inv x); [exact Hsame | exact Hinv].
Qed.

Lemma flush_sync_inv x ref l :
  sys_inv (Sys x ref (CompReinserted l)) ->
  sys_inv (Sys (comp_flush_sync x) ref (CompSynced l)) /\
  same_tables x (comp_flush_sync x).
Proof.
  intros Hinv. assert (Hsame : same_tables x (comp_flush_sync x)).
  { unfold comp_flush_sync. apply same_tables_set_wal. }
  split; [|exact Hsame].
  apply (same_tables_inv x); [exact Hsame | exact Hinv].
Qed.

(** ** Every turn keeps the invariant *)

Lemma vis_pc x ref pc pc' k : vis (Sys x ref pc') k = vis (Sys x ref pc) k.
Proof. reflexivity. Qed.

Lemma sys_inv_wmt_sorted s : sys_inv s -> mt_sorted (x_wmt (s_x s)).
Proof.
  intros (Hs1 & Hs2 & _). unfold x_wmt.
  apply (proj1 (x_mt_all mt_sorted (s_x s)) (conj Hs1 Hs2)).
Qed.

Lemma sys_inv_mtsz s : sys_inv s -> x_mtsz (s_x s) = u64 (mt_size (x_wmt (s_x s))).
Proof. intros (_ & _ & _ & _ & H & _). exact H. Qed.

Lemma xdb_new_ts_stable k : kv_stable (xdb_new_ts k).
Proof. reflexivity. Qed.

Lemma comp_step_inv decide splits s s' :
  sys_inv s -> sys_step (OpComp decide splits) s = Ok s' ->
  sys_inv s' /\ forall k, vis s' k = vis s k.
Proof.
  destruct s as [x ref pc]. intros Hinv. cbn [sys_step s_x s_ref s_pc].
  unfold comp_step.
  destruct pc as [|l|l|l|l|l|l].
  - pose proof (rotate_inv x ref Hinv) as H.
    destruct (comp_rotate x) as [x1 l]. cbn [obind fst snd].
    intros [= <-]. destruct H as (H1 & _ & _ & H2). auto.
  - destruct (Nat.eqb (ref_mt_view ref) (cl_v_comp l)) eqn:Eq; [|discriminate].
    apply Nat.eqb_eq in Eq.
    pose proof (tables_inv x ref l decide splits Hinv Eq) as H.
    destruct (comp_tables x l decide splits) as [x1 l1]. cbn [obind fst snd].
    intros [= <-]. destruct H as (H1 & _ & H2). auto.
  - destruct (reinsert_inv x ref l Hinv) as (x1 & Hrun & H1 & _ & H2).
    rewrite Hrun. cbn [obind fst snd]. intros [= <-]. auto.
  - cbn [obind fst snd]. intros [= <-].
    destruct (flush_sync_inv x ref l Hinv) as [H1 H2]. split; [exact H1|].
    intros k. rewrite (vis_pc _ _ (CompReinserted l)). apply same_tables_vis. exact H2.
  - cbn [obind fst snd]. intros [= <-].
    destruct (rotate_back_inv x ref l Hinv) as (H1 & _ & _ & H2). auto.
  - destruct (Nat.eqb (ref_mt_view ref) (mp_next (mt_views (cl_v_comp l)))) eqn:Eq;
      [|discriminate].
    apply Nat.eqb_eq in Eq. cbn [obind fst snd]. intros [= <-].
    assert (Hrv : ref_mt_view ref = x_mt_view x).
    { destruct Hinv as (_ & _ & _ & _ & _ & _ & [Hv _] & _). cbn in Hv. congruence. }
    destruct (clean_inv x ref l Hinv Hrv) as (H1 & _ & _ & H2). auto.
  - cbn [obind fst snd]. intros [= <-].
    destruct (finish_inv x ref l Hinv) as [H1 H2]. split; [exact H1|].
    intros k. rewrite (vis_pc _ _ (CompCleaned l)). apply same_tables_vis. exact H2.
Qed.

Lemma snd_xdb_get x ref k : snd (xdb_get x ref k) = xdb_ref_update_version x ref.
Proof.
  unfold xdb_get. cbv zeta. destruct (wormhole_inpr _ _ _) as [f1 r1].
  destruct f1; [reflexivity|]. destruct (ref_imt _ _); [|reflexivity].
  destruct (wormhole_inpr _ _ _) as [f2 r2]. destruct f2; reflexivity.
Qed.

Lemma snd_xdb_probe x ref k : snd (xdb_probe x ref k) = xdb_ref_update_version x ref.
Proof.
  unfold xdb_probe. cbv zeta. destruct (wormhole_inpr _ _ _) as [f1 r1].
  destruct f1; [reflexivity|]. destruct (ref_imt _ _); [|reflexivity].
  destruct (wormhole_inpr _ _ _) as [f2 r2]. destruct f2; reflexivity.
Qed.


(** A turn that is no merge keeps [sys_inv], the count of bytes included. *)
Lemma sys_step_inv o s s' :
  sys_inv s -> (forall k uf, o <> OpMerge k uf) -> sys_step o s = Ok s' -> sys_inv s'.
Proof.
  intros Hinv Hno. destruct s as [x ref pc].
  pose proof (sys_inv_wmt_sorted _ Hinv) as Hs.
  pose proof (sys_inv_mtsz _ Hinv) as Hsz. cbn [s_x] in Hs, Hsz.
  destruct o as [r|k|k uf|k|k| |decide splits]; cbn [sys_step s_x s_ref s_pc].
  - unfold xdb_put. destruct (xdb_mt_wal_full x) eqn:Ef.
    + rewrite xdb_update_full by exact Ef. discriminate.
    + rewrite xdb_update_spec by (auto using xdb_dup_kv_key).
      cbn [obind fst snd]. intros [= <-]. apply update_inv; [exact Hinv|].
      apply xdb_dup_kv_idem.
  - unfold xdb_del. destruct (xdb_mt_wal_full x) eqn:Ef.
    + rewrite xdb_update_full by exact Ef. discriminate.
    + rewrite xdb_update_spec by auto.
      cbn [obind fst snd]. intros [= <-]. apply update_inv; [exact Hinv|].
      apply xdb_new_ts_stable.
  - exfalso. exact (Hno k uf eq_refl).
  - intros [= <-]. unfold xdb_get. cbv zeta.
    destruct (wormhole_inpr _ _ _) as [f1 r1].
    assert (Hgoal : sys_inv (Sys x (xdb_ref_update_version x ref) pc)).
    { destruct Hinv as (A1 & A2 & A3 & A4 & A5 & A6 & A7 & A8).
      unfold sys_inv. cbn [s_x s_pc s_ref] in *. repeat split; auto.
      apply ref_inv_update. exact A8. }
    destruct f1; [exact Hgoal|].
    destruct (ref_imt _ _); [|exact Hgoal].
    destruct (wormhole_inpr _ _ _) as [f2 r2]. destruct f2; exact Hgoal.
  - intros [= <-]. unfold xdb_probe. cbv zeta.
    destruct (wormhole_inpr _ _ _) as [f1 r1].
    assert (Hgoal : sys_inv (Sys x (xdb_ref_update_version x ref) pc)).
    { destruct Hinv as (A1 & A2 & A3 & A4 & A5 & A6 & A7 & A8).
      unfold sys_inv. cbn [s_x s_pc s_ref] in *. repeat split; auto.
      apply ref_inv_update. exact A8. }
    destruct f1; [exact Hgoal|].
    destruct (ref_imt _ _); [|exact Hgoal].
    destruct (wormhole_inpr _ _ _) as [f2 r2]. destruct f2; exact Hgoal.
  - intros [= <-]. apply (same_tables_inv x); [|exact Hinv].
    unfold xdb_sync. apply same_tables_set_wal.
  - intros H. exact (proj1 (comp_step_inv decide splits _ _ Hinv H)).
Qed.

Lemma sys_run_inv ops s s' :
  sys_inv s -> Forall (fun o => forall k uf, o <> OpMerge k uf) ops ->
  sys_run ops s = Ok s' -> sys_inv s'.
Proof.
  revert s. induction ops as [|o ops IH]; intros s Hinv Hno; cbn [sys_run].
  - intros [= <-]. exact Hinv.
  - inversion Hno as [|? ? Ho Hrest]; subst.
    destruct (sys_step o s) as [s1| | |] eqn:E; cbn [obind]; try discriminate.
    apply IH; [|exact Hrest]. eapply sys_step_inv; eauto.
Qed.

(** ** The shape of the engine, which every turn keeps

    A merge whose function changes the length of a record in place leaves
    [mtsz] behind; everything else of [sys_inv] holds on. *)

Lemma sys_inv_shape s : sys_inv s -> sys_shape s.
Proof.
  intros (A1 & A2 & A3 & A4 & A5 & A6 & A7 & A8).
  unfold sys_shape. repeat split; try assumption; rewrite A5; apply u64_range.
Qed.

Lemma sys_shape_wmt_sorted s : sys_shape s -> mt_sorted (x_wmt (s_x s)).
Proof.
  intros (Hs1 & Hs2 & _). unfold x_wmt.
  apply (proj1 (x_mt_all mt_sorted (s_x s)) (conj Hs1 Hs2)).
Qed.

Lemma sys_shape_mtsz s : sys_shape s -> 0 <= x_mtsz (s_x s) < 2^64.
Proof. intros (_ & _ & _ & _ & H & _). exact H. Qed.

Lemma same_tables_shape x x' ref pc :
  same_tables x x' -> sys_shape (Sys x ref pc) -> sys_shape (Sys x' ref pc).
Proof.
  intros H. rewrite (same_tables_eq _ _ H). destruct x. intros Hi. exact Hi.
Qed.

Lemma set_mtsz_shape x ref pc m :
  0 <= m < 2^64 -> sys_shape (Sys x ref pc) -> sys_shape (Sys (x_set_mtsz x m) ref pc).
Proof.
  intros Hm. destruct x as [v sz w m1 m2 a b z].
  intros (A1 & A2 & A3 & A4 & A5 & A6 & A7 & A8).
  unfold sys_shape. cbn [s_x s_pc s_ref x_set_mtsz x_mt1 x_mt2 x_mtsz x_z] in *.
  split; [exact A1|]. split; [exact A2|]. split; [exact A3|]. split; [exact A4|].
  split; [exact Hm|]. split; [exact A6|]. split; [exact A7 | exact A8].
Qed.

Lemma vis_set_mtsz x ref pc m k :
  vis (Sys (x_set_mtsz x m) ref pc) k = vis (Sys x ref pc) k.
Proof. destruct x. reflexivity. Qed.

Lemma update_shape x ref pc newkv :
  sys_shape (Sys x ref pc) -> kv_stable newkv ->
  sys_shape (Sys (xdb_update_result x newkv) (xdb_ref_update_version x ref) pc).
Proof.
  intros (Hs1 & Hs2 & Hst1 & Hst2 & Hsz & Ha & Hpc & Href) Hnew.
  cbn [s_x s_pc s_ref] in *.
  pose proof (proj1 (x_mt_all mt_sorted x) (conj Hs1 Hs2)) as Hs.
  pose proof (proj1 (x_mt_all (Forall kv_stable) x) (conj Hst1 Hst2)) as Hst.
  destruct (proj2 (x_mt_all mt_sorted (xdb_update_result x newkv))
              (update_result_tables _ x newkv (mt_set_sorted newkv) Hs)) as [A1 A2].
  destruct (proj2 (x_mt_all (Forall kv_stable) (xdb_update_result x newkv))
              (update_result_tables _ x newkv
                 (fun m => mt_set_stable newkv m Hnew) Hst)) as [B1 B2].
  unfold sys_shape. cbn [s_x s_pc s_ref].
  split; [exact A1|]. split; [exact A2|]. split; [exact B1|]. split; [exact B2|].
  split.
  { unfold xdb_update_result. rewrite x_mtsz_set_mt. cbn [x_mtsz x_set_wal x_set_mtsz].
    apply u64_range. }
  split; [rewrite update_result_z; exact Ha|].
  split; [apply pc_inv_update; exact Hpc|].
  apply (ref_inv_same x); [apply update_result_view | apply update_result_z|].
  apply ref_inv_update. exact Href.
Qed.

Lemma rotate_shape x ref :
  sys_shape (Sys x ref CompIdle) ->
  let '(x', l) := comp_rotate x in
  sys_shape (Sys x' ref (CompRotated l)) /\
  forall k, vis (Sys x' ref (CompRotated l)) k = vis (Sys x ref CompIdle) k.
Proof.
  intros (Hs1 & Hs2 & Hst1 & Hst2 & Hsz & Ha & Hpc & Href).
  cbn [s_x s_pc s_ref pc_inv ref_inv] in *.
  pose proof (comp_rotate_fields x) as Hf.
  destruct (comp_rotate x) as [x' l].
  destruct Hf as (Hv & Hl & Hm & H1 & H2 & Hz & _).
  destruct Hpc as [Hn He]. destruct Href as [Hrv Hrz].
  unfold sys_shape, vis, vis_lookup, xdb_ref_update_version, ref_wmt, ref_imt, x_wmt in *.
  cbn [s_x s_pc s_ref pc_inv ref_inv xdb_ref_all ref_mt_view ref_v].
  rewrite Hv, Hl, Hm, H1, H2, Hz, Hrv.
  destruct x as [v sz w m1 m2 a b z], x' as [v' sz' w' m1' m2' a' b' z'].
  cbn [x_mt_view x_mtsz x_mt1 x_mt2 x_z x_mt] in *. subst v' sz' m1' m2' z'.
  rewrite Hrz.
  destruct Hn as [Hv0 | Hv0]; rewrite Hv0 in *; cbn in He |- *; subst;
    (split; [repeat split; auto; try (right; reflexivity); try (left; reflexivity);
             try lia; discriminate|]);
    intros k; rewrite ?Hrv; cbn; rewrite ?Hrz; reflexivity.
Qed.

Lemma tables_shape x ref l decide splits :
  sys_shape (Sys x ref (CompRotated l)) -> ref_mt_view ref = cl_v_comp l ->
  let '(x', l1) := comp_tables x l decide splits in
  sys_shape (Sys x' ref (CompTablesDone l1)) /\
  forall k, vis (Sys x' ref (CompTablesDone l1)) k = vis (Sys x ref (CompRotated l)) k.
Proof.
  intros (Hs1 & Hs2 & Hst1 & Hst2 & Hsz & Ha & Hpc & Href) Hq.
  cbn [s_x s_pc s_ref pc_inv ref_inv] in *.
  destruct Hpc as [Hl Hv].
  assert (Hrv : ref_mt_view ref = x_mt_view x) by congruence.
  specialize (Href Hrv).
  unfold comp_tables. cbv zeta.
  pose proof (proj1 (x_mt_all mt_sorted x) (conj Hs1 Hs2)) as Hs.
  set (imt := match mp_imt (mt_views (cl_v_comp l)) with
              | Some i => x_mt x i | None => [] end).
  assert (Hi : mt_sorted imt).
  { unfold imt. destruct (mp_imt _); [apply Hs | reflexivity]. }
  pose proof (msstz_comp_spec (x_z x) imt (x_max_rejsz x) decide splits Hi Ha) as Hc.
  destruct (msstz_comp (x_z x) imt (x_max_rejsz x) decide splits) as [z' oldv].
  destruct Hc as (Hold & Hao & Haz & _ & Hget).
  split.
  - unfold sys_shape. cbn [s_x s_pc s_ref pc_inv ref_inv cl_v_comp cl_oldv cl_anchors].
    assert (Hrel : comp_rel (x_set_z x z')
                     (CompLocals (cl_v_comp l) (cl_walsz0 l) (cl_mtsz0 l) oldv
                                 (msstv_anchors oldv))).
    { unfold comp_rel, comp_imt, msstv_anchors.
      cbn [cl_v_comp cl_oldv cl_anchors]. split; [exact Hao|].
      intros k. cbn [x_z x_set_z]. rewrite Hget, Hold. unfold imt.
      destruct (mp_imt _); [rewrite x_mt_set_z|]; reflexivity. }
    destruct x as [v sz w m1 m2 a b z].
    cbn [x_mt1 x_mt2 x_mtsz x_mt_view x_z x_set_z x_wal x_max_mtsz x_max_rejsz] in *.
    repeat split; auto; try congruence; try lia; apply Hrel.
  - intros k. unfold vis, vis_lookup, xdb_ref_update_version. cbn [s_x s_ref].
    destruct x as [v sz w m1 m2 a b z].
    cbn [x_mt1 x_mt2 x_mtsz x_mt_view x_z x_set_z x_wal x_max_mtsz x_max_rejsz] in *.
    rewrite Hrv, Nat.eqb_refl. reflexivity.
Qed.

Lemma reinsert_one_shape x ref l c :
  sys_shape (Sys x ref (CompTablesDone l)) ->
  sys_shape (Sys (reinsert_one (mp_wmt (mt_views (x_mt_view x))) x c) ref (CompTablesDone l)).
Proof.
  intros Hinv. unfold reinsert_one at 1. fold (x_wmt x).
  destruct (mt_get (kv_key c) (x_wmt x)) eqn:Eg; [exact Hinv|].
  pose proof (reinsert_one_update x c Eg) as Hsame.
  unfold reinsert_one in Hsame. fold (x_wmt x) in Hsame. rewrite Eg in Hsame.
  eapply same_tables_shape; [exact Hsame|].
  assert (Href : ref_mt_view ref = x_mt_view x).
  { destruct Hinv as (_ & _ & _ & _ & _ & _ & _ & Href). apply Href. }
  rewrite <- (ref_update_same x ref Href).
  apply update_shape; [exact Hinv | apply xdb_dup_kv_idem].
Qed.

Lemma fold_reinsert_shape L x ref l :
  sys_shape (Sys x ref (CompTablesDone l)) ->
  sys_shape (Sys (fold_left (reinsert_one (mp_wmt (mt_views (x_mt_view x)))) L x)
                 ref (CompTablesDone l)).
Proof.
  revert x. induction L as [|c L IH]; intros x Hinv; cbn [fold_left]; [exact Hinv|].
  pose proof (reinsert_one_shape x ref l c Hinv) as H1.
  specialize (IH _ H1). rewrite reinsert_one_view in IH. exact IH.
Qed.

Lemma reinsert_shape x ref l :
  sys_shape (Sys x ref (CompTablesDone l)) ->
  exists x',
    comp_reinsert x l = Ok x' /\
    sys_shape (Sys x' ref (CompReinserted l)) /\
    x_mt_view x' = x_mt_view x /\
    forall k, vis (Sys x' ref (CompReinserted l)) k = vis (Sys x ref (CompTablesDone l)) k.
Proof.
  intros Hinv.
  pose proof Hinv as (Hs1 & Hs2 & Hst1 & Hst2 & Hsz & Ha & Hpc & Href).
  cbn [s_x s_pc s_ref pc_inv ref_inv] in *.
  destruct Hpc as (Hl & Hv & Hrel). destruct Href as [Hrv Hrz].
  pose proof (proj1 (x_mt_all mt_sorted x) (conj Hs1 Hs2)) as Hs.
  pose proof (proj1 (x_mt_all (Forall kv_stable) x) (conj Hst1 Hst2)) as Hst.
  set (wid := mp_wmt (mt_views (x_mt_view x))).
  set (iid := mt_other wid).
  assert (Hne : wid <> iid) by (intros E; exact (mt_other_ne wid (eq_sym E))).
  destruct Hrel as [Hanc Hrel].
  set (L := rej_records (cl_anchors l) (x_mt x iid)).
  set (x' := fold_left (reinsert_one wid) L x).
  assert (Hrun : comp_reinsert x l = Ok x').
  { unfold comp_reinsert. rewrite Hl, (view_comp_imt _ Hv).
    unfold xdb_reinsert_rejected. apply reinsert_anchors_spec; auto. }
  assert (Hinv' : sys_shape (Sys x' ref (CompTablesDone l))).
  { apply fold_reinsert_shape. exact Hinv. }
  assert (Hview : x_mt_view x' = x_mt_view x) by apply fold_reinsert_view.
  assert (Himt : x_mt x' iid = x_mt x iid) by (apply fold_reinsert_other; exact Hne).
  assert (Hm : u64 (x_mtsz x) = x_mtsz x) by (apply u64_small; exact Hsz).
  pose proof (rej_records_sorted _ _ Hanc (Hs iid)) as HLs.
  destruct (fold_reinsert_spec wid L x (sorted_nodup_keys _ HLs) Hm) as [Hget _].
  fold x' in Hget.
  assert (Hget' : forall k,
            mt_get k (x_mt x' wid) =
              match mt_get k (x_mt x wid) with
              | Some r0 => Some r0
              | None =>
                  match mt_get k (x_mt x iid) with
                  | Some r => if part_rejected (cl_anchors l) k then Some r else None
                  | None => None
                  end
              end).
  { intros k. rewrite Hget. unfold L. rewrite find_rej_records by auto.
    destruct (mt_get k (x_mt x wid)); [reflexivity|].
    destruct (mt_get k (x_mt x iid)) as [r|] eqn:Ei; [|reflexivity].
    destruct (part_rejected (cl_anchors l) k); [|reflexivity].
    cbn. rewrite (stable_in _ _ (Hst iid) (mt_get_some_in _ _ _ Ei)). reflexivity. }
  exists x'. split; [exact Hrun|]. split; [|split; [exact Hview|]].
  - destruct Hinv' as (A1 & A2 & A3 & A4 & A5 & A6 & A7 & A8).
    unfold sys_shape. cbn [s_x s_pc s_ref pc_inv ref_inv] in *.
    destruct A7 as (B1 & B2 & B3 & B4). destruct A8 as [C1 C2].
    split; [exact A1|]. split; [exact A2|]. split; [exact A3|]. split; [exact A4|].
    split; [exact A5|]. split; [exact A6|].
    split; [|split; assumption].
    split; [exact B1|]. split; [exact B2|]. split; [split; [exact B3 | exact B4]|].
    intros k r Hk Hrej. unfold comp_imt, comp_wmt in *.
    rewrite Hl, (view_comp_imt _ Hv) in Hk. rewrite Hl.
    fold wid in Hk |- *. fold iid in Hk. rewrite Himt in Hk.
    rewrite Hget', Hk, Hrej. destruct (mt_get k (x_mt x wid)); discriminate.
  - intros k. unfold vis. cbn [s_x s_ref].
    rewrite !ref_update_same by congruence.
    unfold vis_lookup, ref_wmt, ref_imt. rewrite Hrv, (view_comp_imt _ Hv).
    fold wid. fold iid. cbn [option_map]. rewrite Himt, Hget'.
    destruct (mt_get k (x_mt x wid)); [reflexivity|].
    destruct (mt_get k (x_mt x iid)); [|reflexivity].
    destruct (part_rejected (cl_anchors l) k); reflexivity.
Qed.

Lemma rotate_back_shape x ref l :
  sys_shape (Sys x ref (CompSynced l)) ->
  sys_shape (Sys (comp_rotate_back x l) ref (CompSwitched l)) /\
  forall k, vis (Sys (comp_rotate_back x l) ref (CompSwitched l)) k =
            vis (Sys x ref (CompSynced l)) k.
Proof.
  intros (Hs1 & Hs2 & Hst1 & Hst2 & Hsz & Ha & Hpc & Href).
  cbn [s_x s_pc s_ref pc_inv ref_inv] in *.
  destruct Hpc as (Hl & Hv & [Hanc Hrel] & Hre). destruct Href as [Hrv Hrz].
  unfold comp_rotate_back, sys_shape, vis, vis_lookup, xdb_ref_update_version,
    ref_wmt, ref_imt, x_wmt, comp_rel, comp_reinserted, comp_imt, comp_wmt in *.
  cbn [s_x s_pc s_ref pc_inv ref_inv xdb_ref_all ref_mt_view ref_v].
  rewrite Hl in *. rewrite Hrv in *.
  destruct x as [v sz w m1 m2 a b z].
  cbn [x_mt1 x_mt2 x_mtsz x_mt_view x_z x_set_view x_wal x_max_mtsz x_max_rejsz] in *.
  destruct Hv as [Hv0 | Hv0]; rewrite Hv0 in *; cbn in Hrel, Hre |- *;
    (split; [repeat split; auto; try (right; reflexivity); try (left; reflexivity);
             try lia; discriminate|]);
    intros k; rewrite ?Hrv; cbn; rewrite Hrz, Hrel.
  - destruct (mt_get k m2) eqn:Ew; [reflexivity|].
    destruct (mt_get k m1) eqn:Ei;
      destruct (part_rejected (cl_anchors l) k) eqn:Er; try reflexivity.
    exfalso. eapply Hre; eauto.
  - destruct (mt_get k m1) eqn:Ew; [reflexivity|].
    destruct (mt_get k m2) eqn:Ei;
      destruct (part_rejected (cl_anchors l) k) eqn:Er; try reflexivity.
    exfalso. eapply Hre; eauto.
Qed.

Lemma clean_shape x ref l :
  sys_shape (Sys x ref (CompSwitched l)) -> ref_mt_view ref = x_mt_view x ->
  sys_shape (Sys (comp_clean x l) ref (CompCleaned l)) /\
  forall k, vis (Sys (comp_clean x l) ref (CompCleaned l)) k =
            vis (Sys x ref (CompSwitched l)) k.
Proof.
  intros (Hs1 & Hs2 & Hst1 & Hst2 & Hsz & Ha & Hpc & Href) Hrv.
  cbn [s_x s_pc s_ref pc_inv ref_inv] in *.
  destruct Hpc as (Hl & Hv). specialize (Href Hrv).
  unfold comp_clean, sys_shape, vis, vis_lookup, xdb_ref_update_version,
    ref_wmt, ref_imt, x_wmt, wormhole_clean in *.
  cbn [s_x s_pc s_ref pc_inv ref_inv xdb_ref_all ref_mt_view ref_v].
  destruct x as [v sz w m1 m2 a b z].
  cbn [x_mt1 x_mt2 x_mtsz x_mt_view x_z x_set_view x_wal x_max_mtsz x_max_rejsz] in *.
  rewrite Hrv.
  destruct Hv as [Hv0 | Hv0]; rewrite Hv0 in *; cbn in Hl; subst v; cbn;
    (split; [repeat split; auto; try (right; reflexivity); try (left; reflexivity);
             try apply Forall_nil; try lia; constructor|]);
    intros k; rewrite ?Hrv; cbn; reflexivity.
Qed.

Lemma comp_step_shape decide splits s s' :
  sys_shape s -> sys_step (OpComp decide splits) s = Ok s' ->
  sys_shape s' /\ forall k, vis s' k = vis s k.
Proof.
  destruct s as [x ref pc]. intros Hinv. cbn [sys_step s_x s_ref s_pc].
  unfold comp_step.
  destruct pc as [|l|l|l|l|l|l].
  - pose proof (rotate_shape x ref Hinv) as H.
    destruct (comp_rotate x) as [x1 l]. cbn [obind fst snd].
    intros [= <-]. exact H.
  - destruct (Nat.eqb (ref_mt_view ref) (cl_v_comp l)) eqn:Eq; [|discriminate].
    apply Nat.eqb_eq in Eq.
    pose proof (tables_shape x ref l decide splits Hinv Eq) as H.
    destruct (comp_tables x l decide splits) as [x1 l1]. cbn [obind fst snd].
    intros [= <-]. exact H.
  - destruct (reinsert_shape x ref l Hinv) as (x1 & Hrun & H1 & _ & H2).
    rewrite Hrun. cbn [obind fst snd]. intros [= <-]. auto.
  - cbn [obind fst snd]. intros [= <-].
    assert (Hsame : same_tables x (comp_flush_sync x)).
    { unfold comp_flush_sync. apply same_tables_set_wal. }
    split; [apply (same_tables_shape x); [exact Hsame | exact Hinv]|].
    intros k. rewrite (vis_pc _ _ (CompReinserted l)). apply same_tables_vis. exact Hsame.
  - cbn [obind fst snd]. intros [= <-].
    exact (rotate_back_shape x ref l Hinv).
  - destruct (Nat.eqb (ref_mt_view ref) (mp_next (mt_views (cl_v_comp l)))) eqn:Eq;
      [|discriminate].
    apply Nat.eqb_eq in Eq. cbn [obind fst snd]. intros [= <-].
    assert (Hrv : ref_mt_view ref = x_mt_view x).
    { destruct Hinv as (_ & _ & _ & _ & _ & _ & [Hv _] & _). cbn in Hv. congruence. }
    exact (clean_shape x ref l Hinv Hrv).
  - cbn [obind fst snd]. intros [= <-].
    assert (Hsame : same_tables x (comp_finish x)).
    { unfold comp_finish. cbv zeta. apply same_tables_set_wal. }
    split; [apply (same_tables_shape x); [exact Hsame | exact Hinv]|].
    intros k. rewrite (vis_pc _ _ (CompCleaned l)). apply same_tables_vis. exact Hsame.
Qed.

Lemma ref_update_shape x ref pc :
  sys_shape (Sys x ref pc) -> sys_shape (Sys x (xdb_ref_update_version x ref) pc).
Proof.
  intros (A1 & A2 & A3 & A4 & A5 & A6 & A7 & A8).
  unfold sys_shape. cbn [s_x s_pc s_ref] in *.
  split; [exact A1|]. split; [exact A2|]. split; [exact A3|]. split; [exact A4|].
  split; [exact A5|]. split; [exact A6|]. split; [exact A7|].
  apply ref_inv_update. exact A8.
Qed.

(** Every turn of a run keeps the shape of the engine, whatever the merge
    functions return. *)
Lemma sys_step_shape o s s' :
  sys_shape s -> op_ok s o -> sys_step o s = Ok s' -> sys_shape s'.
Proof.
  intros Hinv Hok. destruct s as [x ref pc].
  pose proof (sys_shape_wmt_sorted _ Hinv) as Hs.
  pose proof (sys_shape_mtsz _ Hinv) as Hsz. cbn [s_x] in Hs, Hsz.
  destruct o as [r|k|k uf|k|k| |decide splits]; cbn [sys_step s_x s_ref s_pc].
  - unfold xdb_put. destruct (xdb_mt_wal_full x) eqn:Ef.
    + rewrite xdb_update_full by exact Ef. discriminate.
    + rewrite xdb_update_spec by (auto using xdb_dup_kv_key).
      cbn [obind fst snd]. intros [= <-]. apply update_shape; [exact Hinv|].
      apply xdb_dup_kv_idem.
  - unfold xdb_del. destruct (xdb_mt_wal_full x) eqn:Ef.
    + rewrite xdb_update_full by exact Ef. discriminate.
    + rewrite xdb_update_spec by auto.
      cbn [obind fst snd]. intros [= <-]. apply update_shape; [exact Hinv|].
      apply xdb_new_ts_stable.
  - destruct (xdb_mt_wal_full x) eqn:Ef.
    + unfold xdb_merge. rewrite Ef. discriminate.
    + destruct (xdb_merge_spec x ref k uf Ef Hs Hsz Hok)
        as [Hw | [Hw | (x' & Hrun & Hx)]]; rewrite ?Hw, ?Hrun; try discriminate.
      cbn [obind fst snd]. intros [= <-].
      destruct Hx as [Hsame | (new & m & Hk & Hst & Hm & ->)].
      * apply (same_tables_shape x); [exact Hsame|].
        apply ref_update_shape. exact Hinv.
      * apply set_mtsz_shape; [exact Hm|]. apply update_shape; assumption.
  - intros [= <-]. rewrite snd_xdb_get. apply ref_update_shape. exact Hinv.
  - intros [= <-]. rewrite snd_xdb_probe. apply ref_update_shape. exact Hinv.
  - intros [= <-]. apply (same_tables_shape x); [|exact Hinv].
    unfold xdb_sync. apply same_tables_set_wal.
  - intros H. exact (proj1 (comp_step_shape decide splits _ _ Hinv H)).
Qed.

(** A turn that does not write a key leaves what a read of the key sees. *)
Lemma sys_step_vis o s s' k :
  sys_shape s -> op_ok s o -> ~ op_writes o k -> sys_step o s = Ok s' ->
  vis s' k = vis s k.
Proof.
  intros Hinv Hok Hnw. destruct s as [x ref pc].
  pose proof (sys_shape_wmt_sorted _ Hinv) as Hs.
  pose proof (sys_shape_mtsz _ Hinv) as Hsz. cbn [s_x] in Hs, Hsz.
  destruct o as [r|k0|k0 uf|k0|k0| |decide splits];
    cbn [sys_step s_x s_ref s_pc op_writes] in *.
  - unfold xdb_put. destruct (xdb_mt_wal_full x) eqn:Ef.
    + rewrite xdb_update_full by exact Ef. discriminate.
    + rewrite xdb_update_spec by (auto using xdb_dup_kv_key).
      cbn [obind fst snd]. intros [= <-]. rewrite vis_update, xdb_dup_kv_key.
      rewrite kref_match_neq by congruence. reflexivity.
  - unfold xdb_del. destruct (xdb_mt_wal_full x) eqn:Ef.
    + rewrite xdb_update_full by exact Ef. discriminate.
    + rewrite xdb_update_spec by auto.
      cbn [obind fst snd]. intros [= <-]. rewrite vis_update.
      cbn [xdb_new_ts kv_key]. rewrite kref_match_neq by congruence. reflexivity.
  - destruct (xdb_mt_wal_full x) eqn:Ef.
    + unfold xdb_merge. rewrite Ef. discriminate.
    + destruct (xdb_merge_spec x ref k0 uf Ef Hs Hsz Hok)
        as [Hw | [Hw | (x' & Hrun & Hx)]]; rewrite ?Hw, ?Hrun; try discriminate.
      cbn [obind fst snd]. intros [= <-].
      destruct Hx as [Hsame | (new & m & Hk & Hst & Hm & ->)].
      * rewrite (same_tables_vis x x' _ _ _ Hsame). apply vis_ref_update.
      * rewrite vis_set_mtsz, vis_update, Hk.
        rewrite kref_match_neq by congruence. reflexivity.
  - intros [= <-]. rewrite snd_xdb_get. apply vis_ref_update.
  - intros [= <-]. rewrite snd_xdb_probe. apply vis_ref_update.
  - intros [= <-]. apply same_tables_vis. unfold xdb_sync. apply same_tables_set_wal.
  - intros H. exact (proj2 (comp_step_shape decide splits _ _ Hinv H) k).
Qed.

Lemma sys_run_shape ops s s' :
  sys_shape s -> run_ok ops s -> sys_run ops s = Ok s' -> sys_shape s'.
Proof.
  revert s. induction ops as [|o ops IH]; intros s Hinv Hok; cbn [sys_run].
  - intros [= <-]. exact Hinv.
  - cbn [run_ok] in Hok. destruct Hok as [Ho Hrest].
    destruct (sys_step o s) as [s1| | |] eqn:E; cbn [obind]; try discriminate.
    apply IH; [|exact Hrest]. eapply sys_step_shape; eauto.
Qed.

Lemma sys_run_vis ops s s' k :
  sys_shape s -> run_ok ops s -> Forall (fun o => ~ op_writes o k) ops ->
  sys_run ops s = Ok s' -> vis s' k = vis s k.
Proof.
  revert s. induction ops as [|o ops IH]; intros s Hinv Hok Hnw; cbn [sys_run].
  - intros [= <-]. reflexivity.
  - cbn [run_ok] in Hok. destruct Hok as [Ho Hrest].
    inversion Hnw as [|? ? Hno Hnw']; subst.
    destruct (sys_step o s) as [s1| | |] eqn:E; cbn [obind]; try discriminate.
    intros Hrun. rewrite (IH s1); auto.
    + eapply sys_step_vis; eauto.
    + eapply sys_step_shape; eauto.
Qed.


(** ** Recovery keeps the invariant *)

Lemma vi128_decode_loop_nonneg n mem src shift r q v :
  0 <= r -> vi128_decode_loop n mem src shift r = Ok (q, v) -> 0 <= v.
Proof.
  revert src shift r. induction n as [|n IH]; intros src shift r Hr; cbn.
  - intros [= _ <-]. lia.
  - destruct (rd mem src) as [b| | |]; cbn [obind]; try discriminate.
    assert (H0 : 0 <= Z.lor r (u32 (Z.shiftl (Z.land b 127) shift))).
    { apply Z.lor_nonneg. split; [exact Hr|]. apply u32_range. }
    destruct (Z.land b 128 =? 0).
    + intros [= _ <-]. exact H0.
    + apply IH. exact H0.
Qed.

Lemma wal_vi128_decode_fields mem ptr wk q :
  wal_vi128_decode mem ptr = Ok (Some (wk, q)) ->
  0 <= wk_len wk /\
  wk_kvlen wk = u32 (wk_len wk + Z.land (wk_vlen wk) SST_VLEN_MASK).
Proof.
  unfold wal_vi128_decode, vi128_decode_u32.
  destruct (count_loop _ mem ptr 0) as [c| | |]; cbn [obind]; try discriminate.
  dcase (c <? 2)%nat.
  destruct (vi128_decode_loop 5 mem ptr 0 0) as [[p1 klen]| | |] eqn:E1;
    cbn [obind]; try discriminate.
  destruct p1 as [p1|]; cbn [obind]; try discriminate.
  destruct (vi128_decode_loop 5 mem p1 0 0) as [[p2 vlen]| | |] eqn:E2;
    cbn [obind]; try discriminate.
  destruct p2 as [p2|]; try discriminate.
  apply vi128_decode_loop_nonneg in E1; [|lia].
  dcase (Z.of_nat (length mem) <? Z.of_nat p2 + u32 (klen + Z.land vlen SST_VLEN_MASK) + 4).
  destruct (rd_bytes mem p2 klen) as [key| | |]; cbn [obind]; try discriminate.
  destruct (rd_bytes mem _ 4) as [sb| | |]; cbn [obind]; try discriminate.
  dcase (negb (kv_crc32c key =? le_value sb)).
  intros [= <- <-]. cbn. split; [exact E1 | reflexivity].
Qed.

Lemma u32_le z : 0 <= z -> u32 z <= z.
Proof. intros H. unfold u32. apply Z.mod_le; lia. Qed.

Lemma wal_kv_record_stable mem ptr wk q :
  wal_vi128_decode mem ptr = Ok (Some (wk, q)) -> kv_stable (wal_kv_record mem wk).
Proof.
  intros H. apply wal_vi128_decode_fields in H. destruct H as [Hk Hkv].
  unfold kv_stable, xdb_dup_kv, wal_kv_record. cbn [kv_key kv_vlen kv_val]. f_equal.
  apply firstn_all2. rewrite length_firstn.
  pose proof (land_mask_range (wk_vlen wk)) as Hm.
  assert (wk_kvlen wk <= wk_len wk + Z.land (wk_vlen wk) SST_VLEN_MASK).
  { rewrite Hkv. apply u32_le. lia. }
  lia.
Qed.

Lemma recover_loop_inv fuel mem iter st iter' st' :
  mt_sorted (rp_mt st) -> Forall kv_stable (rp_mt st) ->
  rp_mtsz st = u64 (mt_size (rp_mt st)) ->
  recover_loop fuel mem iter st = Ok (iter', st') ->
  mt_sorted (rp_mt st') /\ Forall kv_stable (rp_mt st') /\
  rp_mtsz st' = u64 (mt_size (rp_mt st')).
Proof.
  revert iter st. induction fuel as [|fuel IH]; intros iter st Hs Hst Hsz; cbn [recover_loop].
  - intros [= _ <-]. auto.
  - destruct (iter <? length mem)%nat; [|intros [= _ <-]; auto].
    destruct (wal_vi128_decode mem iter) as [[[wk iter1]|]| | |] eqn:Ed;
      cbn [obind]; try discriminate; [|intros [= _ <-]; auto].
    cbv zeta.
    pose proof (wal_kv_record_stable _ _ _ _ Ed) as Hnew.
    set (newkv := wal_kv_record mem wk) in *.
    rewrite (wormhole_merge_new (rp_mt st) (kv_key newkv) xdb_recover_update_func
               (newkv, rp_mtsz st) newkv
               (newkv, u64 (rp_mtsz st +
                  u64 (sst_kv_size newkv -
                       match mt_get (kv_key newkv) (rp_mt st) with
                       | Some r0 => sst_kv_size r0 | None => 0 end))));
      [| exact Hs | reflexivity | reflexivity].
    apply IH; cbn [rp_mt rp_mtsz].
    + apply mt_set_sorted. exact Hs.
    + apply mt_set_stable; assumption.
    + rewrite Hsz, u64_add_diff, (mt_size_set _ _ Hs). reflexivity.
Qed.

Lemma xdb_recover_fd_inv x f file r x1 l :
  mt_sorted (x_mt1 x) -> Forall kv_stable (x_mt1 x) ->
  x_mtsz x = u64 (mt_size (x_mt1 x)) ->
  xdb_recover_fd x f file = Ok (r, x1, l) ->
  mt_sorted (x_mt1 x1) /\ Forall kv_stable (x_mt1 x1) /\
  x_mtsz x1 = u64 (mt_size (x_mt1 x1)) /\
  x_mt2 x1 = x_mt2 x /\ x_mt_view x1 = x_mt_view x /\ x_z x1 = x_z x /\
  x_max_rejsz x1 = x_max_rejsz x.
Proof.
  intros Hs Hst Hsz. unfold xdb_recover_fd. cbv zeta.
  destruct (Nat.eqb (length file) 0).
  - intros [= _ <- _]. tauto.
  - destruct (recover_loop _ _ _ _) as [[iter st]| | |] eqn:El; cbn [obind]; try discriminate.
    intros [= _ <- _].
    apply recover_loop_inv in El; cbn [rp_mt rp_mtsz]; auto.
    destruct x. cbn in *. tauto.
Qed.

Lemma recover_inv_sys x : recover_inv x -> sys_inv (Sys x (xdb_ref_all x) CompIdle).
Proof.
  intros (Hv & Hs & Hst & H2 & Hsz & Ha).
  unfold sys_inv. cbn [s_x s_ref s_pc pc_inv ref_inv xdb_ref_all ref_mt_view ref_v].
  unfold x_wmt. rewrite Hv, H2. cbn.
  repeat split; auto; try constructor; reflexivity.
Qed.

Lemma recover_inv_set_wal x w : recover_inv x -> recover_inv (x_set_wal x w).
Proof. destruct x. exact (fun H => H). Qed.

Lemma recover_inv_fd x f file r x1 l :
  recover_inv x -> xdb_recover_fd x f file = Ok (r, x1, l) -> recover_inv x1.
Proof.
  intros (Hv & Hs & Hst & H2 & Hsz & Ha) Hrun.
  destruct (xdb_recover_fd_inv _ _ _ _ _ _ Hs Hst Hsz Hrun)
    as (A1 & A2 & A3 & A4 & A5 & A6 & _).
  unfold recover_inv. rewrite A4, A5, A6. tauto.
Qed.

Lemma xdb_wal_recover_inv x files decide splits x' lines :
  recover_inv x ->
  xdb_wal_recover x files decide splits = Ok (x', lines) ->
  recover_inv x'.
Proof.
  intros Hinv. unfold xdb_wal_recover. cbv zeta.
  set (vs0 := wal_file_version _). set (vs1 := wal_file_version _).
  pose proof (recover_inv_set_wal x (wal_select (x_wal x) vs0 vs1) Hinv) as H0.
  set (xs := x_set_wal x (wal_select (x_wal x) vs0 vs1)) in *.
  destruct (wal_fds (wal_select (x_wal x) vs0 vs1)) as [fd0 fd1].
  match goal with
  | |- (let* r := ?m in _) = _ -> _ =>
      assert (Hm : forall x4 l4, m = Ok (x4, l4) -> recover_inv x4)
  end.
  { intros x4 l4.
    destruct (negb (vs0 =? 0) && negb (vs1 =? 0)).
    - destruct (vs0 =? vs1); [discriminate|].
      destruct (xdb_recover_fd xs fd1 (files fd1)) as [[[r1 x1] l1]| | |] eqn:E1;
        cbn [obind]; try discriminate.
      pose proof (recover_inv_fd _ _ _ _ _ _ H0 E1) as H1.
      destruct (xdb_recover_fd x1 fd0 (files fd0)) as [[[r0 x2] l0]| | |] eqn:E0;
        cbn [obind]; try discriminate.
      pose proof (recover_inv_fd _ _ _ _ _ _ H1 E0) as H2.
      destruct H2 as (Hv & Hs & Hst & Hm2 & Hsz & Ha).
      pose proof (msstz_comp_spec (x_z x2) (x_mt1 x2) 0 decide splits Hs Ha) as Hc.
      destruct (msstz_comp (x_z x2) (x_mt1 x2) 0 decide splits) as [z oldv].
      destruct Hc as (_ & _ & Haz & _).
      intros [= <- _]. destruct x2. cbn in *.
      unfold recover_inv. cbn. repeat split; auto; constructor.
    - destruct (xdb_recover_fd xs fd0 (files fd0)) as [[[r0 x1] l0]| | |] eqn:E0;
        cbn [obind]; try discriminate.
      pose proof (recover_inv_fd _ _ _ _ _ _ H0 E0) as H1.
      match goal with
      | |- (let* w2 := ?mw in _) = _ -> _ =>
          destruct mw as [w2| | |]; cbn [obind]; try discriminate
      end.
      intros [= <- _]. apply recover_inv_set_wal. exact H1. }
  match goal with
  | |- (let* r := ?m in _) = _ -> _ =>
      destruct m as [[x4 l4]| | |]; cbn [obind]; try discriminate
  end.
  intros [= <- _]. apply recover_inv_set_wal. eapply Hm. reflexivity.
Qed.

Lemma open_state_inv z max_mtsz maxsz :
  mt_sorted (v_anchors z) -> recover_inv (xdb_open_state z max_mtsz maxsz).
Proof.
  intros Ha. unfold recover_inv, xdb_open_state. cbn.
  repeat split; auto; constructor.
Qed.

(** ** Reachable states *)

(** The store that [xdb_open] hands out meets [sys_inv], the count of
    bytes included. *)
Lemma open_inv z max_mtsz maxsz files decide splits x1 lines :
  mt_sorted (v_anchors z) ->
  xdb_wal_recover (xdb_open_state z max_mtsz maxsz) files decide splits = Ok (x1, lines) ->
  sys_inv (Sys x1 (xdb_ref_all x1) CompIdle).
Proof.
  intros Ha Hrec.
  apply recover_inv_sys. eapply xdb_wal_recover_inv; [|exact Hrec].
  apply open_state_inv. exact Ha.
Qed.

(** Every state that a run reaches has the shape of [sys_shape]. *)
Lemma reachable_shape s : reachable s -> sys_shape s.
Proof.
  intros (z & a & b & files & decide & splits & x1 & lines & ops & Ha & Hrec & Hok & Hrun).
  eapply sys_run_shape; [|exact Hok|exact Hrun].
  apply sys_inv_shape. eapply open_inv; eauto.
Qed.

Lemma kv_legal_stable r : kv_legal r -> 0 <= kv_vlen r < SST_VLEN_TS /\ xdb_dup_kv r = r.
Proof.
  intros [[Hv Hlen] Hsum]. unfold kv_klen in Hsum.
  assert (Hk : 0 <= Z.of_nat (length (kv_key r))) by lia.
  assert (Hr : 0 <= kv_vlen r < SST_VLEN_TS) by (unfold SST_VLEN_TS; lia).
  split; [exact Hr|].
  unfold xdb_dup_kv. rewrite <- Hlen, Nat2Z.id, firstn_all. destruct r; reflexivity.
Qed.

Lemma put_then_vis x ref pc r x' ref' :
  sys_shape (Sys x ref pc) -> xdb_put x ref r = Ok (true, x', ref') ->
  sys_shape (Sys x' ref' pc) /\ vis (Sys x' ref' pc) (kv_key r) = Some (xdb_dup_kv r).
Proof.
  intros Hinv. pose proof (sys_shape_wmt_sorted _ Hinv) as Hs. cbn [s_x] in Hs.
  unfold xdb_put. destruct (xdb_mt_wal_full x) eqn:Ef.
  - rewrite xdb_update_full by exact Ef. discriminate.
  - rewrite xdb_update_spec by (auto using xdb_dup_kv_key).
    intros [= <- <-]. split.
    + apply update_shape; [exact Hinv | apply xdb_dup_kv_idem].
    + rewrite vis_update, xdb_dup_kv_key, kref_match_refl. reflexivity.
Qed.

Lemma del_then_vis x ref pc k x' ref' :
  sys_shape (Sys x ref pc) -> xdb_del x ref k = Ok (true, x', ref') ->
  sys_shape (Sys x' ref' pc) /\ vis (Sys x' ref' pc) k = Some (xdb_new_ts k).
Proof.
  intros Hinv. pose proof (sys_shape_wmt_sorted _ Hinv) as Hs. cbn [s_x] in Hs.
  unfold xdb_del. destruct (xdb_mt_wal_full x) eqn:Ef.
  - rewrite xdb_update_full by exact Ef. discriminate.
  - rewrite xdb_update_spec by auto.
    intros [= <- <-]. split.
    + apply update_shape; [exact Hinv | apply xdb_new_ts_stable].
    + rewrite vis_update. cbn [xdb_new_ts kv_key]. rewrite kref_match_refl. reflexivity.
Qed.

(** C1: in every state that a run reaches from [xdb_open], a put of a
    legal record that returns true, followed by any turns of the client
    and of the compaction thread that do not write the key, is read back
    by [xdb_get] as that very record, whichever of the WMT, the IMT and
    the SSTable version holds it by then. *)
Theorem put_get_roundtrip s r x' ref' ops s' :
  reachable s -> kv_legal r ->
  xdb_put (s_x s) (s_ref s) r = Ok (true, x', ref') ->
  run_ok ops (Sys x' ref' (s_pc s)) ->
  Forall (fun o => ~ op_writes o (kv_key r)) ops ->
  sys_run ops (Sys x' ref' (s_pc s)) = Ok s' ->
  fst (xdb_get (s_x s') (s_ref s') (kv_key r)) = Some r /\
  fst (xdb_probe (s_x s') (s_ref s') (kv_key r)) = true.
Proof.
  intros Hreach Hlegal Hput Hok Hnw Hrun.
  pose proof (reachable_shape _ Hreach) as Hinv. destruct s as [x ref pc].
  cbn [s_x s_ref s_pc] in *.
  destruct (put_then_vis _ _ _ _ _ _ Hinv Hput) as [Hinv1 Hvis1].
  pose proof (sys_run_vis _ _ _ _ Hinv1 Hok Hnw Hrun) as Hvis.
  rewrite Hvis1 in Hvis. destruct (kv_legal_stable _ Hlegal) as [Hlen Hst].
  rewrite Hst in Hvis. unfold vis in Hvis.
  apply xdb_get_value; assumption.
Qed.

Lemma put_get_roundtrip_witness :
  (fst (xdb_get (s_x ex_after_put_comp) (s_ref ex_after_put_comp) [1]) = Some ex_r1 /\
   fst (xdb_probe (s_x ex_after_put_comp) (s_ref ex_after_put_comp) [1]) = true) /\
  x_mt1 (s_x ex_after_put_comp) = [] /\ x_mt2 (s_x ex_after_put_comp) = [] /\
  v_data (x_z (s_x ex_after_put_comp)) = [ex_r1].
Proof.
  split; [|vm_compute; auto].
  apply (put_get_roundtrip ex_open ex_r1 (s_x ex_after_put) (s_ref ex_after_put) ex_comp).
  - exists ex_z0, 4194304, 8388608, (fun _ => []), [], [], (s_x ex_open), [], [].
    vm_compute. auto.
  - vm_compute. repeat split; discriminate.
  - vm_compute. reflexivity.
  - vm_compute. tauto.
  - repeat constructor; cbn; auto.
  - vm_compute. reflexivity.
Defined.

(** C2: in every state that a run reaches from [xdb_open], after a put of
    a legal record and, later, a deletion of its key that both return
    true, and then any turns that do not write the key, [xdb_probe]
    returns false and [xdb_get] returns nothing: the tombstone is not
    handed out, whichever of the WMT, the IMT and the SSTable version
    holds it by then. *)
Theorem put_del_probe s r x1 ref1 ops1 s2 x3 ref3 ops s' :
  reachable s -> kv_legal r ->
  xdb_put (s_x s) (s_ref s) r = Ok (true, x1, ref1) ->
  run_ok ops1 (Sys x1 ref1 (s_pc s)) ->
  sys_run ops1 (Sys x1 ref1 (s_pc s)) = Ok s2 ->
  xdb_del (s_x s2) (s_ref s2) (kv_key r) = Ok (true, x3, ref3) ->
  run_ok ops (Sys x3 ref3 (s_pc s2)) ->
  Forall (fun o => ~ op_writes o (kv_key r)) ops ->
  sys_run ops (Sys x3 ref3 (s_pc s2)) = Ok s' ->
  fst (xdb_probe (s_x s') (s_ref s') (kv_key r)) = false /\
  fst (xdb_get (s_x s') (s_ref s') (kv_key r)) = None.
Proof.
  intros Hreach Hlegal Hput Hok1 Hrun1 Hdel Hok Hnw Hrun.
  pose proof (reachable_shape _ Hreach) as Hinv. destruct s as [x ref pc].
  cbn [s_x s_ref s_pc] in *.
  destruct (put_then_vis _ _ _ _ _ _ Hinv Hput) as [Hinv1 _].
  pose proof (sys_run_shape _ _ _ Hinv1 Hok1 Hrun1) as Hinv2.
  destruct s2 as [x2 ref2 pc2]. cbn [s_x s_ref s_pc] in *.
  destruct (del_then_vis _ _ _ _ _ _ Hinv2 Hdel) as [Hinv3 Hvis3].
  pose proof (sys_run_vis _ _ _ _ Hinv3 Hok Hnw Hrun) as Hvis.
  rewrite Hvis3 in Hvis. unfold vis in Hvis.
  destruct (xdb_get_tombstone _ _ _ _ Hvis eq_refl) as [Hg Hp]. auto.
Qed.

Lemma put_del_probe_witness :
  (fst (xdb_probe (s_x ex_after_del_comp) (s_ref ex_after_del_comp) [1]) = false /\
   fst (xdb_get (s_x ex_after_del_comp) (s_ref ex_after_del_comp) [1]) = None) /\
  x_mt1 (s_x ex_after_del_comp) = [] /\ x_mt2 (s_x ex_after_del_comp) = [] /\
  v_data (x_z (s_x ex_after_del_comp)) = [xdb_new_ts [1]].
Proof.
  split; [|vm_compute; auto].
  apply (put_del_probe ex_open ex_r1 (s_x ex_after_put) (s_ref ex_after_put) []
           ex_after_put (s_x ex_after_del) (s_ref ex_after_del) ex_comp).
  - exists ex_z0, 4194304, 8388608, (fun _ => []), [], [], (s_x ex_open), [], [].
    vm_compute. auto.
  - vm_compute. repeat split; discriminate.
  - vm_compute. reflexivity.
  - exact I.
  - vm_compute. reflexivity.
  - vm_compute. reflexivity.
  - vm_compute. tauto.
  - repeat constructor; cbn; auto.
  - vm_compute. reflexivity.
Defined.

Lemma mt_size_nonneg m : 0 <= mt_size m.
Proof.
  unfold mt_size. induction m as [|r m IH]; cbn [fold_right]; [lia|].
  pose proof (sst_kv_size_pos r). lia.
Qed.

(** ** The byte count after a merge that updates in place *)

(** C6: [mtsz] after a merge whose function updates the record in place.
    The store holds the one record 1 -> (10, 11), and its [mtsz], 19, is
    the size of the WMT.  A merge of the key 1 whose function shortens the
    value in place to one byte and hands the record back returns; the WMT
    then holds the shortened record, whose size is 18, the record has been
    appended to the log, and [mtsz] is still 19: [xdb_merge_merge_func]
    passes the pointer on as [newkv], and [xdb_mt_update_func] takes the
    new and the old size from the same record. *)
Theorem xdb_merge_in_place_stale_mtsz :
  x_mtsz (s_x ex_after_put) = u64 (mt_size (x_wmt (s_x ex_after_put))) /\
  exists s',
    sys_step (OpMerge [1] ex_uf_shrink) ex_after_put = Ok s' /\
    x_wmt (s_x s') = [Kv [1] 1 [7]] /\
    mt_size (x_wmt (s_x s')) = 18 /\
    log_appends (wal_log (x_wal (s_x s'))) = [ex_r1; Kv [1] 1 [7]] /\
    x_mtsz (s_x s') = 19 /\
    x_mtsz (s_x s') <> u64 (mt_size (x_wmt (s_x s'))).
Proof.
  split; [vm_compute; reflexivity|].
  eexists. split; [vm_compute; reflexivity|].
  cbn [s_x]. repeat split; try (vm_compute; reflexivity).
  vm_compute. discriminate.
Qed.


(** ** The order of the I/O of a compaction *)

Lemma bits_round_up_12 v :
  0 <= v < 2^63 ->
  v <= bits_round_up v 12 < v + 4096 /\ (0 < v -> 0 < bits_round_up v 12).
Proof.
  intros Hv. unfold bits_round_up.
  change (Z.shiftl 1 12) with 4096.
  rewrite (u64_small (v + 4096 - 1)) by lia.
  rewrite Z.shiftr_div_pow2, Z.shiftl_mul_pow2 by lia.
  change (2^12) with 4096.
  pose proof (Z.div_mod (v + 4096 - 1) 4096 ltac:(lia)) as Hd.
  pose proof (Z.mod_pos_bound (v + 4096 - 1) 4096 ltac:(lia)) as Hm.
  rewrite u64_small by lia. lia.
Qed.

Lemma fd_eqb_refl f : fd_eqb f f = true.
Proof. destruct f; reflexivity. Qed.

Lemma vi128_encode_cases_length n v : length (vi128_encode_cases n v) = n.
Proof.
  revert v. induction n as [|n IH]; intros v; [reflexivity|].
  destruct n as [|n]; [reflexivity|].
  change (length (vi128_encode_cases (S (S n)) v))
    with (S (length (vi128_encode_cases (S n) (Z.shiftr v 7)))).
  rewrite IH. reflexivity.
Qed.

Lemma vi128_encode_length v : (1 <= length (vi128_encode_u32 v) <= 5)%nat.
Proof.
  unfold vi128_encode_u32. rewrite vi128_encode_cases_length.
  unfold vi128_estimate_u32.
  repeat match goal with |- context [if ?c then _ else _] => destruct c end; lia.
Qed.

Lemma wal_record_bytes_length r :
  0 < Z.of_nat (length (wal_record_bytes r)) <= wal_cost r - 4096.
Proof.
  unfold wal_record_bytes, sst_kv_vi128_encode, wal_cost, sst_kv_size, KV_HDR, kv_klen.
  rewrite !length_app, length_firstn.
  pose proof (vi128_encode_length (Z.of_nat (length (kv_key r)))).
  pose proof (vi128_encode_length (kv_vlen r)).
  pose proof (land_mask_range (kv_vlen r)).
  change (length (le_bytes 4 (kv_crc32c (kv_key r)))) with 4%nat.
  lia.
Qed.

Lemma wal_flush_comp new old bound w :
  wal_during_comp new old bound w -> bound + 4096 <= 2^63 ->
  wal_ring_fd (wal_flush w) = new /\ wal_fds (wal_flush w) = (new, old) /\
  wal_buf (wal_flush w) = [] /\
  0 <= wal_soff (wal_flush w) <= wal_woff (wal_flush w) /\
  wal_woff w < wal_woff (wal_flush w) < wal_woff w + wal_bufoff w + 4096 /\
  exists off data,
    (wal_log (wal_flush w) = wal_log w ++ [EvWrite new off data] /\
     wal_soff (wal_flush w) <> wal_woff (wal_flush w)) \/
    (wal_log (wal_flush w) = wal_log w ++ [EvWrite new off data; EvFsync new] /\
     wal_soff (wal_flush w) = wal_woff (wal_flush w)).
Proof.
  intros (Hr & Hf & Hb & Hs & Hbound) Hlim. unfold wal_flush.
  destruct (Z.eqb_spec (wal_bufoff w) 0) as [E|_]; [lia|]. cbv zeta.
  destruct (bits_round_up_12 (wal_bufoff w) ltac:(lia)) as [Hru Hpos].
  specialize (Hpos Hb).
  set (wsize := bits_round_up (wal_bufoff w) 12) in *.
  cbn [wring_submit wal_woff wal_soff wal_log wal_ring_fd wal_fds wal_buf
       wal_write_user wal_write_nbytes wal_version wal_maxsz wal_inflight].
  rewrite (u64_small (wal_woff w + wsize)) by lia.
  rewrite Hr.
  destruct (XDB_SYNC_SIZE <=? u64 (wal_woff w + wsize - wal_soff w)) eqn:Esync.
  - cbn. repeat split; try lia; auto.
    eexists _, _. right. rewrite <- app_assoc. split; reflexivity.
  - cbn. repeat split; try lia; auto.
    eexists _, _. left. split; [reflexivity | lia].
Qed.

Lemma wal_append_comp new old bound w r :
  wal_during_comp new old bound w -> bound + wal_cost r + 4096 <= 2^63 ->
  wal_during_comp new old (bound + wal_cost r) (wal_append w r) /\
  exists evs,
    wal_log (wal_append w r) = wal_log w ++ evs /\ forallb (ev_on new) evs = true.
Proof.
  intros HW Hlim. pose proof (wal_record_bytes_length r) as Hlen.
  pose proof (sst_kv_size_pos r) as Hsz.
  assert (Hc : 4096 < wal_cost r) by (unfold wal_cost; lia).
  unfold wal_append. cbv zeta.
  destruct (WAL_BLKSZ <? sst_kv_vi128_estimate r + 4 + wal_bufoff w).
  - destruct (wal_flush_comp new old bound w HW ltac:(lia))
      as (Hr & Hf & Hb & Hs & Hw & off & data & Hlog).
    destruct HW as (_ & _ & Hb0 & Hs0 & Hbound).
    split.
    + unfold wal_during_comp, wal_emit, wal_bufoff.
      cbn [wal_woff wal_soff wal_log wal_ring_fd wal_fds wal_buf].
      rewrite Hb. cbn [app]. repeat split; auto; try lia.
    + unfold wal_emit. cbn [wal_log].
      destruct Hlog as [[-> _] | [-> _]]; rewrite <- app_assoc;
        eexists; (split; [reflexivity|]); cbn; rewrite !fd_eqb_refl; reflexivity.
  - destruct HW as (Hr & Hf & Hb0 & Hs0 & Hbound).
    split.
    + unfold wal_during_comp, wal_emit, wal_bufoff in *.
      cbn [wal_woff wal_soff wal_log wal_ring_fd wal_fds wal_buf].
      rewrite length_app. repeat split; auto; try lia.
    + unfold wal_emit. cbn [wal_log]. eexists. split; reflexivity.
Qed.

Lemma wal_flush_sync_comp new old bound w :
  wal_during_comp new old bound w -> bound + 4096 <= 2^63 ->
  wal_fds (wal_flush_sync w) = (new, old) /\ wal_buf (wal_flush_sync w) = [] /\
  exists off data,
    wal_log (wal_flush_sync w) = wal_log w ++ [EvWrite new off data; EvFsync new].
Proof.
  intros HW Hlim.
  destruct (wal_flush_comp new old bound w HW Hlim)
    as (Hr & Hf & Hb & Hs & Hw & off & data & Hlog).
  unfold wal_flush_sync. cbv zeta.
  destruct Hlog as [[Hl Hne] | [Hl He]].
  - destruct (Z.eqb_spec (wal_woff (wal_flush w)) (wal_soff (wal_flush w))) as [E|_];
      [congruence|].
    cbn. rewrite Hl, Hr, <- app_assoc. repeat split; auto.
    eexists _, _. reflexivity.
  - destruct (Z.eqb_spec (wal_woff (wal_flush w)) (wal_soff (wal_flush w))) as [_|E];
      [|congruence].
    repeat split; auto. eexists _, _. exact Hl.
Qed.

Lemma wal_during_comp_mono new old bound bound' w :
  bound <= bound' -> wal_during_comp new old bound w -> wal_during_comp new old bound' w.
Proof. unfold wal_during_comp. intros Hle (A & B & C & D & E). repeat split; auto; lia. Qed.

Lemma wal_cost_pos r : 0 < wal_cost r.
Proof. unfold wal_cost. pose proof (sst_kv_size_pos r). lia. Qed.

Lemma wal_costs_nonneg m : 0 <= wal_costs m.
Proof.
  unfold wal_costs. induction m as [|r m IH]; cbn [fold_right]; [lia|].
  pose proof (wal_cost_pos r). lia.
Qed.

Lemma wal_costs_app a b : wal_costs (a ++ b) = wal_costs a + wal_costs b.
Proof. unfold wal_costs. induction a as [|r a IH]; cbn; [reflexivity|]. rewrite IH. lia. Qed.

Lemma wal_costs_incl l m :
  List.NoDup l -> incl l m -> wal_costs l <= wal_costs m.
Proof.
  revert m. induction l as [|a l IH]; intros m Hnd Hin.
  - apply wal_costs_nonneg.
  - inversion Hnd as [|? ? Ha Hnd']; subst.
    assert (Ham : In a m) by (apply Hin; left; reflexivity).
    apply in_split in Ham. destruct Ham as (m1 & m2 & ->).
    assert (Hl : incl l (m1 ++ m2)).
    { intros b Hb. assert (Hbm : In b (m1 ++ a :: m2)) by (apply Hin; right; exact Hb).
      apply in_app_iff in Hbm. apply in_app_iff.
      destruct Hbm as [H|[H|H]]; auto. subst b. contradiction. }
    specialize (IH _ Hnd' Hl).
    rewrite wal_costs_app in *. change (wal_costs (a :: l)) with (wal_cost a + wal_costs l).
    change (wal_costs (a :: m2)) with (wal_cost a + wal_costs m2). lia.
Qed.

Lemma wal_cost_dup r : wal_cost (xdb_dup_kv r) = wal_cost r.
Proof. unfold wal_cost. rewrite xdb_dup_kv_size. reflexivity. Qed.

Lemma forallb_app_true {A} (f : A -> bool) a b :
  forallb f a = true -> forallb f b = true -> forallb f (a ++ b) = true.
Proof. intros Ha Hb. rewrite forallb_app, Ha, Hb. reflexivity. Qed.

Lemma fold_reinsert_wal new old wid L x bound :
  wal_during_comp new old bound (x_wal x) ->
  bound + wal_costs L + 4096 <= 2^63 ->
  wal_during_comp new old (bound + wal_costs L)
                  (x_wal (fold_left (reinsert_one wid) L x)) /\
  exists evs,
    wal_log (x_wal (fold_left (reinsert_one wid) L x)) = wal_log (x_wal x) ++ evs /\
    forallb (ev_on new) evs = true.
Proof.
  revert x bound. induction L as [|c L IH]; intros x bound HW Hlim.
  - cbn. rewrite Z.add_0_r. split; [exact HW|]. exists []. rewrite app_nil_r. auto.
  - change (wal_costs (c :: L)) with (wal_cost c + wal_costs L) in *.
    pose proof (wal_costs_nonneg L) as HL. pose proof (wal_cost_pos c) as Hc.
    cbn [fold_left].
    assert (H1 : wal_during_comp new old (bound + wal_cost c)
                   (x_wal (reinsert_one wid x c)) /\
                 exists evs, wal_log (x_wal (reinsert_one wid x c)) =
                               wal_log (x_wal x) ++ evs /\
                             forallb (ev_on new) evs = true).
    { unfold reinsert_one. destruct (mt_get _ _).
      - split; [eapply wal_during_comp_mono; [|exact HW]; lia|].
        exists []. rewrite app_nil_r. auto.
      - rewrite x_wal_set_mt. cbn [x_wal x_set_wal].
        rewrite <- (wal_cost_dup c).
        apply wal_append_comp; [exact HW|]. rewrite wal_cost_dup. lia. }
    destruct H1 as [HW1 (evs1 & Hl1 & Hf1)].
    destruct (IH _ _ HW1 ltac:(lia)) as [HW2 (evs2 & Hl2 & Hf2)].
    split.
    + replace (bound + (wal_cost c + wal_costs L))
        with (bound + wal_cost c + wal_costs L) by lia. exact HW2.
    + exists (evs1 ++ evs2). rewrite Hl2, Hl1, <- app_assoc.
      split; [reflexivity|]. apply forallb_app_true; assumption.
Qed.

Lemma wal_flush_gen w :
  wal_fds (wal_flush w) = wal_fds w /\
  exists evs, wal_log (wal_flush w) = wal_log w ++ evs /\
              forallb ev_not_truncate evs = true.
Proof.
  unfold wal_flush. destruct (wal_bufoff w =? 0).
  - split; [reflexivity|]. exists []. rewrite app_nil_r. auto.
  - cbv zeta. destruct (XDB_SYNC_SIZE <=? _); cbn; (split; [reflexivity|]);
      rewrite <- ?app_assoc; eexists; split; reflexivity.
Qed.

Lemma wal_flush_sync_wait_gen w :
  wal_fds (wal_flush_sync_wait w) = wal_fds w /\
  exists evs, wal_log (wal_flush_sync_wait w) = wal_log w ++ evs /\
              forallb ev_not_truncate evs = true.
Proof.
  destruct (wal_flush_gen w) as [Hf (evs & Hl & He)].
  unfold wal_flush_sync_wait, wal_io_complete, wal_flush_sync. cbv zeta.
  destruct (wal_woff (wal_flush w) =? wal_soff (wal_flush w)); cbn;
    rewrite Hf, Hl, <- ?app_assoc; (split; [reflexivity|]);
    eexists; (split; [reflexivity|]); rewrite forallb_app, He; reflexivity.
Qed.

Lemma wal_switch_comp w v :
  wal_during_comp (snd (wal_fds w)) (fst (wal_fds w)) 8 (fst (wal_switch w v)) /\
  exists pre,
    wal_log (fst (wal_switch w v)) = wal_log w ++ pre ++ [EvUpdateFd (snd (wal_fds w))] /\
    forallb ev_not_truncate pre = true.
Proof.
  destruct (wal_flush_sync_wait_gen w) as [Hf (evs & Hl & He)].
  unfold wal_switch. cbv zeta. rewrite Hf.
  destruct (wal_fds w) as [fd0 fd1]. cbn [fst snd].
  split.
  - unfold wal_during_comp, wal_bufoff. cbn. repeat split; lia.
  - exists evs. cbn [wal_log]. rewrite Hl, <- app_assoc. auto.
Qed.


Lemma comp_rotate_tables x ref decide splits :
  sys_shape (Sys x ref CompIdle) ->
  exists x1 l1 x2 l2 ref1,
    comp_rotate x = (x1, l1) /\ comp_tables x1 l1 decide splits = (x2, l2) /\
    sys_shape (Sys x2 ref1 (CompTablesDone l2)) /\
    x_wal x2 = fst (wal_switch (x_wal x) (msstz_version (x_z x) + 1)) /\
    comp_imt x2 l2 = x_wmt x /\ comp_wmt x2 l2 = [] /\
    cl_anchors l2 =
      msstv_anchors (snd (msstz_comp (x_z x) (x_wmt x) (x_max_rejsz x) decide splits)).
Proof.
  intros Hinv.
  pose proof (rotate_shape x ref Hinv) as H1.
  destruct (comp_rotate x) as [x1 l1] eqn:E1.
  destruct H1 as (Hinv1 & _).
  apply ref_update_shape in Hinv1.
  set (ref1 := xdb_ref_update_version x1 ref) in *.
  assert (Hq : ref_mt_view ref1 = cl_v_comp l1).
  { unfold ref1. rewrite ref_update_view.
    destruct Hinv1 as (_ & _ & _ & _ & _ & _ & [Hl _] & _). symmetry. exact Hl. }
  pose proof (tables_shape x1 ref1 l1 decide splits Hinv1 Hq) as H2.
  destruct (comp_tables x1 l1 decide splits) as [x2 l2] eqn:E2.
  destruct H2 as (Hinv2 & _).
  exists x1, l1, x2, l2, ref1. split; [reflexivity|]. split; [exact E2|].
  split; [exact Hinv2|]. clear Hinv1 Hinv2 Hq. clearbody ref1.
  destruct Hinv as (_ & _ & _ & _ & _ & _ & [Hn He] & _). cbn [s_x] in Hn, He.
  unfold comp_rotate in E1. unfold comp_tables in E2. cbv zeta in E1, E2.
  destruct (wal_switch (x_wal (x_set_view x (mp_next (mt_views (x_mt_view x)))))
              (msstz_version (x_z (x_set_view x (mp_next (mt_views (x_mt_view x))))) + 1))
    as [w walsz0] eqn:Ew.
  injection E1 as <- <-. cbn [cl_v_comp cl_walsz0 cl_mtsz0] in E2.
  destruct x as [v sz w0 m1 m2 a b z].
  unfold x_wmt, comp_imt, comp_wmt, x_set_mtsz, x_set_wal, x_set_view, x_set_z in *.
  cbn [x_mt_view x_mtsz x_mt1 x_mt2 x_z x_wal x_max_mtsz x_max_rejsz] in *.
  destruct Hn as [-> | ->];
    cbn [mt_views mp_next mp_imt mp_wmt x_mt mt_other] in E2, He |- *;
    match type of E2 with
    | context [msstz_comp ?a1 ?a2 ?a3 ?a4 ?a5] =>
        destruct (msstz_comp a1 a2 a3 a4 a5) as [z' oldv] eqn:Ec
    end;
    cbn [x_mt_view x_mtsz x_mt1 x_mt2 x_z x_wal x_max_mtsz x_max_rejsz] in Ec, He;
    injection E2 as <- <-;
    cbn [x_mt_view x_mtsz x_mt1 x_mt2 x_z x_wal x_max_mtsz x_max_rejsz x_mt
         cl_v_comp cl_anchors mt_views mp_imt mp_wmt mp_next];
    rewrite Ew, Ec; cbn [fst snd]; repeat split; auto.
Qed.

Lemma comp_reinsert_fold x ref l :
  sys_shape (Sys x ref (CompTablesDone l)) ->
  comp_reinsert x l =
    Ok (fold_left (reinsert_one (mp_wmt (mt_views (cl_v_comp l))))
                  (rej_records (cl_anchors l) (comp_imt x l)) x).
Proof.
  intros (Hs1 & Hs2 & _ & _ & _ & _ & Hpc & _).
  cbn [s_x s_pc s_ref pc_inv] in *. destruct Hpc as (Hl & Hv & [Hanc _]).
  pose proof (proj1 (x_mt_all mt_sorted x) (conj Hs1 Hs2)) as Hs.
  unfold comp_reinsert, comp_imt. rewrite Hl, (view_comp_imt _ Hv).
  unfold xdb_reinsert_rejected. apply reinsert_anchors_spec; auto.
Qed.

Lemma rej_records_costs anchors imt :
  mt_sorted anchors -> mt_sorted imt ->
  wal_costs (rej_records anchors imt) <= wal_costs imt.
Proof.
  intros Ha Hi. apply wal_costs_incl.
  - eapply NoDup_map_inv. apply sorted_nodup_keys. apply rej_records_sorted; assumption.
  - intros r Hr. apply (rej_records_in _ _ _ Ha) in Hr. tauto.
Qed.

Lemma comp_finish_wal x :
  wal_log (x_wal (comp_finish x)) =
    wal_log (x_wal x) ++
    [EvIoWait; EvTruncate (snd (wal_fds (x_wal x))); EvFdatasync (snd (wal_fds (x_wal x)))] /\
  wal_buf (x_wal (comp_finish x)) = wal_buf (x_wal x) /\
  wal_inflight (x_wal (comp_finish x)) = [].
Proof.
  unfold comp_finish, wal_io_complete, wring_flush, wal_emit. cbv zeta.
  cbn. rewrite <- !app_assoc. auto.
Qed.

Lemma comp_clean_wal x l : x_wal (comp_clean x l) = x_wal x.
Proof.
  unfold comp_clean. destruct (mp_imt _); [|reflexivity]. apply x_wal_set_mt.
Qed.

(** X21: a compaction that no turn of the client interrupts (both
    [qsbr_wait] return at once), from a state that a run reaches from
    [xdb_open] with the compaction thread idle: [xdb_do_comp] returns, and
    in the log of its I/O the truncation and the fdatasync of the retired
    WAL file are the last two events; they come after the wait for the
    ring ([wal_io_complete]), which comes after the fsync of the new WAL
    file, which comes after the write of the buffer and after every append
    of a rejected record.  No truncation is issued before.  (The bound on
    the WMT keeps the 64-bit offsets of the WAL from wrapping.) *)
Theorem xdb_do_comp_wal_order s decide splits :
  reachable s -> s_pc s = CompIdle ->
  wal_costs (x_wmt (s_x s)) < 2^62 ->
  exists x' pre mid off data,
    xdb_do_comp (s_x s) decide splits = Ok x' /\
    wal_log (x_wal x') =
      wal_log (x_wal (s_x s)) ++ pre ++
      [EvUpdateFd (snd (wal_fds (x_wal (s_x s))))] ++ mid ++
      [EvWrite (snd (wal_fds (x_wal (s_x s)))) off data;
       EvFsync (snd (wal_fds (x_wal (s_x s))));
       EvIoWait;
       EvTruncate (fst (wal_fds (x_wal (s_x s))));
       EvFdatasync (fst (wal_fds (x_wal (s_x s))))] /\
    forallb ev_not_truncate pre = true /\
    forallb (ev_on (snd (wal_fds (x_wal (s_x s))))) mid = true /\
    log_appends mid =
      reinserted
        (msstv_anchors
           (snd (msstz_comp (x_z (s_x s)) (x_wmt (s_x s)) (x_max_rejsz (s_x s))
                            decide splits)))
        (x_wmt (s_x s)) [] /\
    wal_buf (x_wal x') = [] /\ wal_inflight (x_wal x') = [].
Proof.
  intros Hreach Hpc Hbound. pose proof (reachable_shape _ Hreach) as Hinv.
  destruct s as [x ref pc]. cbn [s_x s_pc] in *. subst pc.
  destruct (comp_rotate_tables x ref decide splits Hinv)
    as (x1 & l1 & x2 & l2 & ref1 & E1 & E2 & Hinv2 & Hwal2 & Himt & Hwmt & Hanc).
  set (new := snd (wal_fds (x_wal x))) in *.
  set (old := fst (wal_fds (x_wal x))) in *.
  destruct (wal_switch_comp (x_wal x) (msstz_version (x_z x) + 1))
    as [HW2 (pre & Hlog2 & Hpre)].
  rewrite <- Hwal2 in HW2, Hlog2. fold new in HW2, Hlog2. fold old in HW2.
  pose proof (comp_reinsert_fold x2 ref1 l2 Hinv2) as E3.
  set (wid := mp_wmt (mt_views (cl_v_comp l2))) in *.
  set (L := rej_records (cl_anchors l2) (comp_imt x2 l2)) in *.
  set (x3 := fold_left (reinsert_one wid) L x2) in *.
  assert (Hsorted : mt_sorted (cl_anchors l2) /\ mt_sorted (x_wmt x)).
  { destruct Hinv2 as (_ & _ & _ & _ & _ & _ & (_ & _ & [Ha _]) & _).
    split; [exact Ha|]. apply (sys_shape_wmt_sorted _ Hinv). }
  destruct Hsorted as [Hsa Hsi].
  assert (HL : wal_costs L <= wal_costs (x_wmt x)).
  { unfold L. rewrite Himt. apply rej_records_costs; assumption. }
  destruct (fold_reinsert_wal new old wid L x2 8 HW2 ltac:(lia))
    as [HW3 (mid & Hlog3 & Hmid)].
  fold x3 in HW3, Hlog3.
  destruct (wal_flush_sync_comp new old _ (x_wal x3) HW3 ltac:(lia))
    as (Hf4 & Hb4 & off & data & Hlog4).
  assert (Happ : log_appends mid = reinserted (cl_anchors l2) (x_wmt x) []).
  { assert (Hm : u64 (x_mtsz x2) = x_mtsz x2).
    { apply u64_small. exact (sys_shape_mtsz _ Hinv2). }
    assert (HLs : mt_sorted L).
    { unfold L. rewrite Himt. apply rej_records_sorted; assumption. }
    destruct (fold_reinsert_spec wid L x2 (sorted_nodup_keys _ HLs) Hm) as (_ & _ & Hla).
    fold x3 in Hla. rewrite Hlog3, log_appends_app in Hla.
    apply app_inv_head in Hla. rewrite Hla.
    unfold reinserted, L, wid. unfold comp_wmt in Hwmt. rewrite Hwmt, Himt. reflexivity. }
  destruct (comp_finish_wal
              (comp_clean (comp_rotate_back (comp_flush_sync x3) l2) l2))
    as (Hlog7 & Hb7 & Hi7).
  rewrite comp_clean_wal in Hlog7, Hb7.
  change (x_wal (comp_rotate_back (comp_flush_sync x3) l2))
    with (wal_flush_sync (x_wal x3)) in Hlog7, Hb7.
  rewrite Hf4, Hlog4, Hlog3, Hlog2 in Hlog7. cbn [snd] in Hlog7.
  eexists _, pre, mid, off, data.
  split.
  { unfold xdb_do_comp. cbv zeta. cbn [comp_step obind]. rewrite E1.
    cbn [comp_step obind]. rewrite E2. cbn [comp_step obind]. rewrite E3.
    cbn [comp_step obind fst]. reflexivity. }
  split.
  { rewrite Hlog7. rewrite <- !app_assoc. reflexivity. }
  repeat split; auto.
  - rewrite <- Hanc. exact Happ.
  - rewrite Hb7. exact Hb4.
Qed.

Lemma xdb_do_comp_wal_order_witness :
  exists x' pre mid off data,
    xdb_do_comp (s_x ex_after_put) [true] [] = Ok x' /\
    wal_log (x_wal x') =
      wal_log (x_wal (s_x ex_after_put)) ++ pre ++ [EvUpdateFd Wal2] ++ mid ++
      [EvWrite Wal2 off data; EvFsync Wal2; EvIoWait; EvTruncate Wal1; EvFdatasync Wal1] /\
    log_appends mid = [ex_r1].
Proof.
  destruct (xdb_do_comp_wal_order ex_after_put [true] [])
    as (x' & pre & mid & off & data & H1 & H2 & _ & _ & H5 & _).
  - exists ex_z0, 4194304, 8388608, (fun _ => []), [], [], (s_x ex_open), [], [OpPut ex_r1].
    vm_compute. auto.
  - reflexivity.
  - vm_compute. reflexivity.
  - exists x', pre, mid, off, data. split; [exact H1|]. split; [exact H2|]. exact H5.
Defined.


(** ** The merging iterator *)

(** *** The order of the heap *)

Lemma should_swap_false p c : miter_should_swap p c = false -> stream_le p c.
Proof.
  unfold miter_should_swap, stream_le.
  destruct (ms_kref p) as [kp|]; [|discriminate].
  destruct (ms_kref c) as [kc|]; [|auto].
  destruct (kref_compare kp kc) eqn:E; try discriminate.
  - intros H. apply Nat.ltb_ge in H. right. split; [apply kref_compare_eq; exact E | exact H].
  - intros _. left. exact E.
Qed.

Lemma should_swap_true p c : miter_should_swap p c = true -> stream_le c p.
Proof.
  unfold miter_should_swap, stream_le.
  destruct (ms_kref p) as [kp|]; [|destruct (ms_kref c); auto].
  destruct (ms_kref c) as [kc|]; [|discriminate].
  destruct (kref_compare kp kc) eqn:E; try discriminate.
  - intros H. apply Nat.ltb_lt in H. right.
    split; [symmetry; apply kref_compare_eq; exact E | lia].
  - intros _. left. apply kref_compare_gt_lt. exact E.
Qed.

Lemma stream_le_trans a b c : stream_le a b -> stream_le b c -> stream_le a c.
Proof.
  unfold stream_le.
  destruct (ms_kref a) as [ka|], (ms_kref b) as [kb|], (ms_kref c) as [kc|];
    try tauto.
  intros [H1|[-> H1]] [H2|[-> H2]].
  - left. unfold key_lt in *. eapply kref_compare_lt_trans; eauto.
  - left. exact H1.
  - left. exact H2.
  - right. split; [reflexivity | lia].
Qed.

Lemma stream_le_none p c : ms_kref p = None -> stream_le p c -> ms_kref c = None.
Proof. unfold stream_le. intros ->. destruct (ms_kref c); tauto. Qed.

(** *** One step of the heap, for the two or three streams of the engine *)

Lemma downheap_2 a b k :
  mi_mh (miter_downheap 2 (Miter [a; b] k) 1) =
    if miter_should_swap a b then [b; a] else [a; b].
Proof. cbn. destruct (miter_should_swap a b); reflexivity. Qed.

Lemma downheap_3 a b c k :
  mi_mh (miter_downheap 3 (Miter [a; b; c] k) 1) =
    if miter_should_swap b c
    then if miter_should_swap a c then [c; b; a] else [a; b; c]
    else if miter_should_swap a b then [b; a; c] else [a; b; c].
Proof.
  cbn. destruct (miter_should_swap b c); cbn.
  - destruct (miter_should_swap a c); reflexivity.
  - destruct (miter_should_swap a b); reflexivity.
Qed.

Lemma downheap_2_kref0 a b k : mi_kref0 (miter_downheap 2 (Miter [a; b] k) 1) = k.
Proof. cbn. destruct (miter_should_swap a b); reflexivity. Qed.

Lemma downheap_3_kref0 a b c k : mi_kref0 (miter_downheap 3 (Miter [a; b; c] k) 1) = k.
Proof.
  cbn. destruct (miter_should_swap b c); cbn.
  - destruct (miter_should_swap a c); reflexivity.
  - destruct (miter_should_swap a b); reflexivity.
Qed.

Lemma perm3_cba {A} (a b c : A) : Permutation [c; b; a] [a; b; c].
Proof.
  apply (perm_trans (l' := [b; c; a])); [apply perm_swap|].
  apply (perm_trans (l' := [b; a; c])); [apply perm_skip; apply perm_swap|].
  apply perm_swap.
Qed.

(** The heap after [miter_downheap (miter, 1)]: the same streams, the
    first not behind any other. *)
Lemma downheap_root a rest k :
  (length rest = 1 \/ length rest = 2)%nat ->
  let m' := miter_downheap (S (length rest)) (Miter (a :: rest) k) 1 in
  Permutation (mi_mh m') (a :: rest) /\ heap_root_min m' /\ mi_kref0 m' = k.
Proof.
  intros Hlen. cbv zeta.
  destruct rest as [|b [|c [|d rest]]]; cbn [length] in Hlen; try lia.
  - change (S (length [b])) with 2%nat.
    split; [|split; [|apply downheap_2_kref0]].
    + rewrite downheap_2. destruct (miter_should_swap a b);
        [apply perm_swap | apply Permutation_refl].
    + unfold heap_root_min. rewrite downheap_2.
      destruct (miter_should_swap a b) eqn:E; repeat constructor.
      * apply should_swap_true. exact E.
      * apply should_swap_false. exact E.
  - change (S (length [b; c])) with 3%nat.
    split; [|split; [|apply downheap_3_kref0]].
    + rewrite downheap_3.
      destruct (miter_should_swap b c), (miter_should_swap a c), (miter_should_swap a b);
        first [apply Permutation_refl | apply perm_swap | apply perm3_cba].
    + unfold heap_root_min. rewrite downheap_3.
      destruct (miter_should_swap b c) eqn:Ebc.
      * apply should_swap_true in Ebc.
        destruct (miter_should_swap a c) eqn:Eac;
          [apply should_swap_true in Eac | apply should_swap_false in Eac];
          repeat constructor; eauto using stream_le_trans.
      * apply should_swap_false in Ebc.
        destruct (miter_should_swap a b) eqn:Eab;
          [apply should_swap_true in Eab | apply should_swap_false in Eab];
          repeat constructor; eauto using stream_le_trans.
Qed.

Lemma stream_le_to_none p c : ms_kref c = None -> stream_le p c.
Proof. unfold stream_le. intros ->. destruct (ms_kref p); exact I. Qed.

Lemma upheap_2 a b k :
  mi_mh (miter_upheap 2 (Miter [a; b] k) 2) =
    match ms_kref b with
    | None => [a; b]
    | Some _ => if miter_should_swap a b then [b; a] else [a; b]
    end /\
  mi_kref0 (miter_upheap 2 (Miter [a; b] k) 2) = k.
Proof.
  cbn. destruct (ms_kref b); [|auto]. destruct (miter_should_swap a b); auto.
Qed.

Lemma upheap_3 a b c k :
  mi_mh (miter_upheap 3 (Miter [a; b; c] k) 3) =
    match ms_kref c with
    | None => [a; b; c]
    | Some _ => if miter_should_swap a c then [c; b; a] else [a; b; c]
    end /\
  mi_kref0 (miter_upheap 3 (Miter [a; b; c] k) 3) = k.
Proof.
  cbn. destruct (ms_kref c); [|auto]. destruct (miter_should_swap a c); auto.
Qed.

Lemma upheap_2_of_3 a b c k :
  mi_mh (miter_upheap 2 (Miter [a; b; c] k) 2) =
    match ms_kref b with
    | None => [a; b; c]
    | Some _ => if miter_should_swap a b then [b; a; c] else [a; b; c]
    end /\
  mi_kref0 (miter_upheap 2 (Miter [a; b; c] k) 2) = k.
Proof.
  cbn. destruct (ms_kref b); [|auto]. destruct (miter_should_swap a b); auto.
Qed.

Lemma miter_eta m : m = Miter (mi_mh m) (mi_kref0 m).
Proof. destruct m; reflexivity. Qed.

(** The heap after the second loop of [miter_seek]. *)
Lemma seek_upheaps_root mh k :
  (length mh = 2 \/ length mh = 3)%nat ->
  let m' := miter_seek_upheaps (length mh - 1) (Miter mh k) 2 in
  Permutation (mi_mh m') mh /\ heap_root_min m' /\ mi_kref0 m' = k.
Proof.
  intros Hlen. cbv zeta.
  destruct mh as [|a [|b [|c [|d rest]]]]; cbn [length] in Hlen; try lia.
  - cbn [length Nat.sub miter_seek_upheaps].
    destruct (upheap_2 a b k) as [Hm Hk]. unfold heap_root_min. rewrite Hm, Hk.
    destruct (ms_kref b) eqn:Eb.
    + destruct (miter_should_swap a b) eqn:E;
        [apply should_swap_true in E | apply should_swap_false in E];
        repeat split; repeat constructor; auto.
    + repeat split; repeat constructor; auto using stream_le_to_none.
  - cbn [length Nat.sub miter_seek_upheaps].
    destruct (upheap_2_of_3 a b c k) as [Hm Hk].
    rewrite (miter_eta (miter_upheap 2 (Miter [a; b; c] k) 2)), Hm, Hk.
    assert (H2 : exists a' b', (a' = a /\ b' = b \/ a' = b /\ b' = a) /\ stream_le a' b' /\
              match ms_kref b with
              | Some _ => if miter_should_swap a b then [b; a; c] else [a; b; c]
              | None => [a; b; c]
              end = [a'; b'; c]).
    { destruct (ms_kref b) eqn:Eb.
      - destruct (miter_should_swap a b) eqn:E;
          [apply should_swap_true in E | apply should_swap_false in E].
        + exists b, a. auto.
        + exists a, b. auto.
      - exists a, b. auto using stream_le_to_none. }
    destruct H2 as (a' & b' & Hab & Hle & ->).
    destruct (upheap_3 a' b' c k) as [Hm3 Hk3].
    unfold heap_root_min. rewrite Hm3, Hk3.
    assert (Hp : Permutation [a'; b'; c] [a; b; c]).
    { destruct Hab as [[-> ->] | [-> ->]]; [apply Permutation_refl | apply perm_swap]. }
    destruct (ms_kref c) eqn:Ec.
    + destruct (miter_should_swap a' c) eqn:E;
        [apply should_swap_true in E | apply should_swap_false in E].
      * split; [|split; [|reflexivity]].
        -- eapply perm_trans; [apply perm3_cba | exact Hp].
        -- repeat constructor; eauto using stream_le_trans.
      * split; [exact Hp|]. split; [|reflexivity]. repeat constructor; auto.
    + split; [exact Hp|]. split; [|reflexivity].
      repeat constructor; auto using stream_le_to_none.
Qed.

(** *** Streams and cuts *)

Lemma stream_skip_id s : stream_id (miter_stream_skip s) = stream_id s.
Proof. reflexivity. Qed.

Lemma stream_skip_fixed s : stream_fixed (miter_stream_skip s).
Proof. reflexivity. Qed.

Lemma stream_skip_iter s : ms_iter (miter_stream_skip s) = tail (ms_iter s).
Proof. reflexivity. Qed.

Lemma stream_fixed_head s k :
  stream_fixed s -> ms_kref s = Some k ->
  exists r rest, ms_iter s = r :: rest /\ kv_key r = k.
Proof.
  unfold stream_fixed. intros -> H. destruct (ms_iter s) as [|r rest]; [discriminate|].
  injection H as <-. eauto.
Qed.

Lemma stream_at_seek x s key :
  mt_sorted (stream_map x (ms_src s)) ->
  stream_at x false key
    (miter_stream_fix (MiterStream (ms_kref s) (ms_src s)
                         (iter_seek (stream_map x (ms_src s)) key)
                         (ms_rank s) (ms_unique s))).
Proof.
  intros Hs. destruct (iter_seek_split _ key Hs) as (pre & Hm & Hp & Hi).
  exists pre. cbn. auto.
Qed.

Lemma stream_at_skip x s k r rest :
  mt_sorted (stream_map x (ms_src s)) ->
  stream_at x false k s -> ms_iter s = r :: rest -> kv_key r = k ->
  stream_at x true k (miter_stream_skip s).
Proof.
  intros Hs (pre & Hm & Hp & Hi) Hit Hk. rewrite Hit in *.
  exists (pre ++ [r]). rewrite stream_skip_iter, Hit. cbn [tail miter_stream_skip ms_src
    miter_stream_fix].
  split; [rewrite <- app_assoc; exact Hm|]. split.
  - apply Forall_app. split.
    + eapply List.Forall_impl; [|exact Hp]. intros a Ha. apply key_lt_le. exact Ha.
    + constructor; [|constructor]. rewrite Hk. apply key_le_refl.
  - rewrite Hm in Hs. apply mt_sorted_app_r in Hs. apply mt_sorted_cons in Hs.
    rewrite <- Hk. tauto.
Qed.

Lemma stream_at_strict x s k :
  mt_sorted (stream_map x (ms_src s)) ->
  stream_at x false k s ->
  (forall r rest, ms_iter s = r :: rest -> kv_key r <> k) ->
  stream_at x true k s.
Proof.
  intros Hs (pre & Hm & Hp & Hi) Hne. exists pre. split; [exact Hm|]. split.
  - eapply List.Forall_impl; [|exact Hp]. intros a Ha. apply key_lt_le. exact Ha.
  - destruct (ms_iter s) as [|r rest] eqn:Hit; [constructor|].
    specialize (Hne r rest eq_refl).
    rewrite Hm in Hs. apply mt_sorted_app_r in Hs. apply mt_sorted_cons in Hs.
    destruct Hs as [Hlt _]. inversion Hi as [|? ? Hr _]; subst.
    assert (Hrk : key_lt k (kv_key r)).
    { unfold key_le, key_lt in *. destruct (kref_compare k (kv_key r)) eqn:E; try congruence.
      apply kref_compare_eq in E. congruence. }
    constructor; [exact Hrk|].
    eapply List.Forall_impl; [|exact Hlt]. intros a Ha. cbn in Ha.
    unfold key_lt in *. eapply kref_compare_lt_trans; eauto.
Qed.

Lemma stream_at_realign x s strict c k :
  stream_at x strict c s ->
  (if strict then key_lt c k else key_le c k) ->
  Forall (fun r => key_le k (kv_key r)) (ms_iter s) ->
  stream_at x false k s.
Proof.
  intros (pre & Hm & Hp & Hi) Hck Hall. exists pre. split; [exact Hm|].
  split; [|exact Hall].
  eapply List.Forall_impl; [|exact Hp]. intros a Ha. cbn in Ha.
  destruct strict.
  - eapply key_le_lt_trans; eauto.
  - eapply key_lt_le_trans; eauto.
Qed.

Lemma stream_at_keys x s strict c :
  stream_at x strict c s ->
  Forall (fun r => if strict then key_lt c (kv_key r) else key_le c (kv_key r)) (ms_iter s).
Proof. intros (pre & _ & _ & Hi). exact Hi. Qed.

(** The record of [k] in the map of a stream that stands at the cut [k]:
    the record under the iterator when it has the key [k], none
    otherwise. *)
Lemma stream_at_get x s k :
  mt_sorted (stream_map x (ms_src s)) ->
  stream_at x false k s ->
  mt_get k (stream_map x (ms_src s)) =
    match ms_iter s with
    | r :: _ => if kref_match k (kv_key r) then Some r else None
    | [] => None
    end.
Proof.
  intros Hs (pre & Hm & Hp & Hi). rewrite Hm in *.
  assert (Hpre : forall l, mt_get k (pre ++ l) = mt_get k l).
  { intros l. clear Hm Hs. induction Hp as [|a pre Ha _ IH]; [reflexivity|].
    cbn. rewrite kref_match_neq; [exact IH|].
    intros ->. unfold key_lt in Ha. rewrite kref_compare_refl in Ha. discriminate. }
  rewrite Hpre. apply mt_sorted_app_r in Hs.
  destruct (ms_iter s) as [|r rest]; [reflexivity|].
  cbn. destruct (kref_match k (kv_key r)) eqn:E; [reflexivity|].
  apply mt_get_none_above. apply mt_sorted_cons in Hs. destruct Hs as [Hlt _].
  inversion Hi as [|? ? Hr _]; subst.
  assert (Hrk : key_lt k (kv_key r)).
  { unfold key_le, key_lt in *. destruct (kref_compare k (kv_key r)) eqn:Ec; try congruence.
    apply kref_compare_eq in Ec. subst. rewrite kref_match_refl in E. discriminate. }
  eapply List.Forall_impl; [|exact Hlt]. intros a Ha. cbn in Ha.
  unfold key_lt in *. eapply kref_compare_lt_trans; eauto.
Qed.


(** *** The streams of the engine's iterator *)

Lemma fresh_ids u x ref :
  map stream_id (mi_mh (xdb_iter_miter_ref u x ref (Miter [] []))) =
    (SrcSst (ref_v ref), 0%nat, u) ::
    match mp_imt (mt_views (ref_mt_view ref)) with
    | Some i => [(SrcMt i, 1%nat, true);
                 (SrcMt (mp_wmt (mt_views (ref_mt_view ref))), 2%nat, true)]
    | None => [(SrcMt (mp_wmt (mt_views (ref_mt_view ref))), 1%nat, true)]
    end.
Proof.
  unfold xdb_iter_miter_ref. cbv zeta.
  destruct (mp_imt (mt_views (ref_mt_view ref))); reflexivity.
Qed.

Lemma miter_for_length u x ref m :
  miter_for u x ref m -> (length (mi_mh m) = 2 \/ length (mi_mh m) = 3)%nat.
Proof.
  intros (Hp & _). apply Permutation_length in Hp.
  rewrite fresh_ids, !length_map in Hp. rewrite Hp.
  destruct (mp_imt _); cbn; auto.
Qed.

Lemma miter_for_ranks u x ref m :
  miter_for u x ref m -> List.NoDup (map ms_rank (mi_mh m)).
Proof.
  intros (Hp & _).
  assert (Hr : Permutation (map ms_rank (mi_mh m))
                 (map (fun i => snd (fst i))
                      (map stream_id (mi_mh (xdb_iter_miter_ref u x ref (Miter [] [])))))).
  { replace (map ms_rank (mi_mh m))
      with (map (fun i => snd (fst i)) (map stream_id (mi_mh m)))
      by (rewrite map_map; reflexivity).
    apply Permutation_map. exact Hp. }
  eapply Permutation_NoDup; [apply Permutation_sym; exact Hr|].
  rewrite fresh_ids. destruct (mp_imt _); cbn; repeat constructor; cbn; intuition lia.
Qed.

Lemma remaining_perm l l' k k' :
  Permutation l l' -> miter_remaining (Miter l k) = miter_remaining (Miter l' k').
Proof.
  unfold miter_remaining. cbn [mi_mh].
  induction 1; cbn; try lia.
Qed.

Lemma miter_valid_root m :
  miter_valid m = true ->
  exists a rest k, mi_mh m = a :: rest /\ ms_kref a = Some k.
Proof.
  unfold miter_valid, mh_get. destruct (mi_mh m) as [|a rest]; cbn; [discriminate|].
  destruct (ms_kref a) as [k|] eqn:E; [|discriminate]. intros _. exists a, rest, k. auto.
Qed.

(** [miter_skip1] on a valid iterator: the first stream moves on by one
    record, and the heap is put in order again. *)
Lemma skip1_for u x ref m a rest :
  miter_for u x ref m -> mi_mh m = a :: rest -> ms_kref a <> None ->
  Permutation (mi_mh (miter_skip1 m)) (miter_stream_skip a :: rest) /\
  miter_for u x ref (miter_skip1 m) /\
  mi_kref0 (miter_skip1 m) = mi_kref0 m.
Proof.
  intros Hfor Hmh Hka.
  pose proof (miter_for_length _ _ _ _ Hfor) as Hlen.
  destruct Hfor as (Hp & Hfix & Hsort & _).
  unfold miter_skip1, miter_valid, mh_get, mh_set, mi_nway. rewrite Hmh in *. cbn [lookup].
  cbn [list_lookup]. destruct (ms_kref a) eqn:Eka; [|congruence].
  cbn [list_insert insert].
  assert (Hl : (length rest = 1 \/ length rest = 2)%nat) by (cbn in Hlen; lia).
  destruct (downheap_root (miter_stream_skip a) rest (mi_kref0 m) Hl) as (Hperm & Hmin & Hk0).
  cbn [length].
  split; [exact Hperm|]. split; [|exact Hk0].
  inversion Hfix as [|? ? Hfa Hfr]; subst. inversion Hsort as [|? ? Hsa Hsr]; subst.
  split; [|split; [|split; [|exact Hmin]]].
  - eapply perm_trans; [apply Permutation_map; exact Hperm|]. exact Hp.
  - eapply Permutation_Forall; [apply Permutation_sym; exact Hperm|].
    constructor; [apply stream_skip_fixed | exact Hfr].
  - eapply Permutation_Forall; [apply Permutation_sym; exact Hperm|].
    constructor; [exact Hsa | exact Hsr].
Qed.

(** *** [miter_skip_unique] *)

Lemma key_le_neq_lt a b : key_le a b -> a <> b -> key_lt a b.
Proof.
  unfold key_le, key_lt. intros Hle Hne.
  destruct (kref_compare a b) eqn:E; try congruence.
  apply kref_compare_eq in E. congruence.
Qed.

(** Below the first stream's key there is nothing left in any stream. *)
Lemma root_min_keys mh a rest k0 :
  mh = a :: rest -> Forall (stream_le a) rest -> ms_kref a = Some k0 ->
  Forall stream_fixed mh ->
  forall s r tl, In s mh -> ms_iter s = r :: tl -> key_le k0 (kv_key r).
Proof.
  intros -> Hmin Hka Hfix s r tl Hin Hit.
  rewrite List.Forall_forall in Hfix, Hmin.
  pose proof (Hfix s Hin) as Hfs. unfold stream_fixed in Hfs. rewrite Hit in Hfs. cbn in Hfs.
  destruct Hin as [<- | Hin].
  - rewrite Hka in Hfs. injection Hfs as ->. apply key_le_refl.
  - specialize (Hmin s Hin). unfold stream_le in Hmin. rewrite Hka, Hfs in Hmin.
    destruct Hmin as [Hlt | [-> _]]; [apply key_lt_le; exact Hlt | apply key_le_refl].
Qed.

(** When the first stream has no key, or a key above [k0], every stream
    that stood at [k0] or past it stands past it. *)
Lemma all_past_cut x mh a rest k0 :
  mh = a :: rest -> Forall (stream_le a) rest ->
  (ms_kref a = None \/ exists k1, ms_kref a = Some k1 /\ key_lt k0 k1) ->
  Forall stream_fixed mh ->
  Forall (fun s => mt_sorted (stream_map x (ms_src s))) mh ->
  Forall (fun s => stream_at x false k0 s \/ stream_at x true k0 s) mh ->
  Forall (stream_at x true k0) mh.
Proof.
  intros Hmh Hmin Htop Hfix Hsort Hat.
  rewrite List.Forall_forall in *. intros s Hs.
  destruct (Hat s Hs) as [Hf | Ht]; [|exact Ht].
  apply stream_at_strict; [apply Hsort; exact Hs | exact Hf |].
  intros r tl Hit Hk.
  pose proof (Hfix s Hs) as Hfs. unfold stream_fixed in Hfs. rewrite Hit in Hfs. cbn in Hfs.
  rewrite Hmh in Hs. destruct Hs as [<- | Hin].
  - destruct Htop as [Hn | (k1 & Hk1 & Hlt)]; [congruence|].
    rewrite Hk1 in Hfs. injection Hfs as ->. rewrite Hk in Hlt.
    unfold key_lt in Hlt. rewrite kref_compare_refl in Hlt. discriminate.
  - specialize (Hmin s Hin). unfold stream_le in Hmin. rewrite Hfs in Hmin.
    destruct Htop as [Hn | (k1 & Hk1 & Hlt)].
    + rewrite Hn in Hmin. exact Hmin.
    + rewrite Hk1 in Hmin. rewrite Hk in Hmin.
      destruct Hmin as [Hlt' | [-> _]].
      * exact (key_lt_not_le _ _ Hlt (key_lt_le _ _ Hlt')).
      * unfold key_lt in Hlt. rewrite kref_compare_refl in Hlt. discriminate.
Qed.

Lemma remaining_skip a rest k r tl :
  ms_iter a = r :: tl ->
  miter_remaining (Miter (a :: rest) k) =
    S (miter_remaining (Miter (miter_stream_skip a :: rest) k)).
Proof. intros H. unfold miter_remaining. cbn. rewrite H. reflexivity. Qed.

Lemma miter_keys_perm P l l' k k' :
  Permutation l l' -> miter_keys P (Miter l k) -> miter_keys P (Miter l' k').
Proof. unfold miter_keys. cbn. apply Permutation_Forall. Qed.

Lemma mh_get_1 m a rest : mi_mh m = a :: rest -> mh_get m 1 = Some a.
Proof. unfold mh_get. intros ->. reflexivity. Qed.

Lemma skip_unique_loop_spec u x ref k0 rank0 unique0 fuel :
  forall m a rest,
    miter_for u x ref m -> mi_kref0 m = k0 ->
    mi_mh m = a :: rest -> ms_kref a = Some k0 ->
    Forall (fun s => stream_at x false k0 s \/ stream_at x true k0 s) (mi_mh m) ->
    Forall (fun s => ms_rank s = rank0 -> stream_at x true k0 s) rest ->
    (miter_remaining m <= fuel)%nat ->
    let m' := miter_skip_unique_loop fuel m rank0 unique0 in
    miter_for u x ref m' /\ Forall (stream_at x true k0) (mi_mh m') /\
    (forall P, miter_keys P m -> miter_keys P m') /\
    (miter_remaining m' < miter_remaining m)%nat.
Proof.
  induction fuel as [|fuel IH]; intros m a rest Hfor Hk0 Hmh Hka Hat Hq Hfuel; cbv zeta.
  { exfalso. pose proof Hfor as (_ & Hfix & _). rewrite Hmh in Hfix.
    pose proof (List.Forall_inv Hfix) as Hfa.
    destruct (stream_fixed_head a k0 Hfa Hka) as (r & tl & Hit & _).
    rewrite (miter_eta m), Hmh, (remaining_skip a rest _ r tl Hit) in Hfuel. lia. }
  pose proof Hfor as (_ & Hfix & Hsort & _).
  rewrite Hmh in Hfix, Hsort, Hat.
  pose proof (List.Forall_inv Hfix) as Hfa; pose proof (List.Forall_inv_tail Hfix) as Hfr. pose proof (List.Forall_inv Hsort) as Hsa; pose proof (List.Forall_inv_tail Hsort) as Hsr.
  pose proof (List.Forall_inv Hat) as Haa; pose proof (List.Forall_inv_tail Hat) as Har.
  destruct (stream_fixed_head a k0 Hfa Hka) as (r & tl & Hit & Hrk).
  assert (Hane : ms_kref a <> None) by congruence.
  destruct (skip1_for u x ref m a rest Hfor Hmh Hane) as (Hperm & Hfor1 & Hk1).
  set (m1 := miter_skip1 m) in *.
  (* the stream that moved on stands past [k0] *)
  assert (Ha' : stream_at x true k0 (miter_stream_skip a)).
  { destruct Haa as [Hf | Ht].
    - eapply stream_at_skip; eauto.
    - exfalso. apply stream_at_keys in Ht. rewrite Hit in Ht.
      pose proof (List.Forall_inv Ht) as Hlt. cbn in Hlt. rewrite Hrk in Hlt.
      unfold key_lt in Hlt. rewrite kref_compare_refl in Hlt. discriminate. }
  assert (Hat1 : Forall (fun s => stream_at x false k0 s \/ stream_at x true k0 s)
                        (mi_mh m1)).
  { eapply Permutation_Forall; [apply Permutation_sym; exact Hperm|].
    constructor; [right; exact Ha' | exact Har]. }
  assert (Hr1 : Forall (fun s => ms_rank s = rank0 -> stream_at x true k0 s) (mi_mh m1)).
  { eapply Permutation_Forall; [apply Permutation_sym; exact Hperm|].
    constructor; [intros _; exact Ha' | exact Hq]. }
  assert (Hrem : miter_remaining m = S (miter_remaining m1)).
  { rewrite (miter_eta m), Hmh, (remaining_skip a rest _ r tl Hit).
    f_equal. rewrite (miter_eta m1). apply remaining_perm. apply Permutation_sym. exact Hperm. }
  assert (Hkeys : forall P, miter_keys P m -> miter_keys P m1).
  { intros P HP. rewrite (miter_eta m1).
    eapply (miter_keys_perm P _ _ (mi_kref0 m)); [apply Permutation_sym; exact Hperm|].
    unfold miter_keys in *. rewrite Hmh in HP. cbn [mi_mh] in *.
    pose proof (List.Forall_inv HP) as HPa; pose proof (List.Forall_inv_tail HP) as HPr. constructor; [|exact HPr].
    cbn beta in HPa. rewrite stream_skip_iter, Hit. rewrite Hit in HPa.
    exact (List.Forall_inv_tail HPa). }
  (* the exits of the loop *)
  assert (Hexit : forall a1 rest1,
            mi_mh m1 = a1 :: rest1 ->
            (ms_kref a1 = None \/ exists k1, ms_kref a1 = Some k1 /\ key_lt k0 k1) ->
            miter_for u x ref m1 /\ Forall (stream_at x true k0) (mi_mh m1) /\
            (forall P, miter_keys P m -> miter_keys P m1) /\
            (miter_remaining m1 < miter_remaining m)%nat).
  { intros a1 rest1 Hmh1 Htop. split; [exact Hfor1|]. split; [|split; [exact Hkeys | lia]].
    destruct Hfor1 as (_ & Hfix1 & Hsort1 & Hmin1).
    unfold heap_root_min in Hmin1. rewrite Hmh1 in Hmin1.
    exact (all_past_cut x (mi_mh m1) a1 rest1 k0 Hmh1 Hmin1 Htop Hfix1 Hsort1 Hat1). }
  cbn [miter_skip_unique_loop]. fold m1.
  pose proof (miter_for_length _ _ _ _ Hfor1) as Hlen1.
  assert (Hex : exists a1 rest1, mi_mh m1 = a1 :: rest1).
  { destruct (mi_mh m1) as [|a1 rest1]; [cbn in Hlen1; lia | eauto]. }
  destruct Hex as (a1 & rest1 & Hmh1).
  rewrite (mh_get_1 m1 a1 rest1 Hmh1).
  rewrite Hmh1 in Hat1, Hr1.
  destruct (ms_kref a1) as [k1|] eqn:Eka1; [|apply (Hexit a1 rest1 Hmh1); auto].
  (* the first stream stands at [k0] or past it: its key is not below *)
  assert (Hle : key_le k0 k1).
  { pose proof (List.Forall_inv Hat1) as Hs1.
    destruct Hfor1 as (_ & Hfix1 & _). rewrite Hmh1 in Hfix1.
    pose proof (List.Forall_inv Hfix1) as Hf1.
    destruct (stream_fixed_head a1 k1 Hf1 Eka1) as (r1 & tl1 & Hit1 & Hrk1).
    destruct Hs1 as [Hs1 | Hs1]; apply stream_at_keys in Hs1; rewrite Hit1 in Hs1;
      pose proof (List.Forall_inv Hs1) as Hh; cbn in Hh; rewrite Hrk1 in Hh;
      [exact Hh | apply key_lt_le; exact Hh]. }
  destruct (unique0 && Nat.eqb (ms_rank a1) rank0) eqn:Euniq.
  { apply (Hexit a1 rest1 Hmh1). right. exists k1. split; [exact Eka1|].
    apply andb_true_iff in Euniq. destruct Euniq as [_ Er]. apply Nat.eqb_eq in Er.
    pose proof (List.Forall_inv Hr1) as Hs1. specialize (Hs1 Er).
    destruct Hfor1 as (_ & Hfix1 & _). rewrite Hmh1 in Hfix1.
    pose proof (List.Forall_inv Hfix1) as Hf1.
    destruct (stream_fixed_head a1 k1 Hf1 Eka1) as (r1 & tl1 & Hit1 & Hrk1).
    apply stream_at_keys in Hs1. rewrite Hit1 in Hs1.
    pose proof (List.Forall_inv Hs1) as Hh. cbn in Hh. rewrite Hrk1 in Hh. exact Hh. }
  rewrite Hk1, Hk0.
  destruct (kref_compare k0 k1) eqn:Ecmp.
  - (* the same key again: one more turn *)
    apply kref_compare_eq in Ecmp. subst k1.
    assert (Hq1 : Forall (fun s => ms_rank s = rank0 -> stream_at x true k0 s) rest1).
    { exact (List.Forall_inv_tail Hr1). }
    destruct (IH m1 a1 rest1 Hfor1 (eq_trans Hk1 Hk0) Hmh1 Eka1
                 ltac:(rewrite Hmh1; exact Hat1) Hq1 ltac:(lia))
      as (B1 & B2 & B3 & B4).
    split; [exact B1|]. split; [exact B2|]. split; [|lia].
    intros P HP. apply B3. apply Hkeys. exact HP.
  - apply (Hexit a1 rest1 Hmh1). right. exists k1. split; [exact Eka1 | exact Ecmp].
  - exfalso. apply Hle. exact Ecmp.
Qed.

Lemma sorted_iter_ge x s pre k0 r tl :
  mt_sorted (stream_map x (ms_src s)) ->
  stream_map x (ms_src s) = pre ++ ms_iter s ->
  ms_iter s = r :: tl -> key_le k0 (kv_key r) ->
  Forall (fun r' => key_le k0 (kv_key r')) (ms_iter s).
Proof.
  intros Hs Hm Hit Hle. rewrite Hm in Hs. apply mt_sorted_app_r in Hs.
  rewrite Hit in *. apply mt_sorted_cons in Hs. destruct Hs as [Hlt _].
  constructor; [exact Hle|].
  eapply List.Forall_impl; [|exact Hlt]. intros a Ha. cbn in Ha.
  eapply key_le_trans; [exact Hle | apply key_lt_le; exact Ha].
Qed.

(** When the iterator is valid, every stream stands at the key of the
    first one. *)
Lemma aligned_at_top u x ref m a rest k0 :
  miter_for u x ref m -> miter_aligned x m ->
  mi_mh m = a :: rest -> ms_kref a = Some k0 ->
  Forall (stream_at x false k0) (mi_mh m).
Proof.
  intros (_ & Hfix & Hsort & Hmin) (strict & c & Hal) Hmh Hka.
  unfold heap_root_min in Hmin. rewrite Hmh in Hmin.
  assert (Hck : if strict then key_lt c k0 else key_le c k0).
  { rewrite Hmh in Hal, Hfix.
    pose proof (List.Forall_inv Hal) as Ha. pose proof (List.Forall_inv Hfix) as Hfa.
    destruct (stream_fixed_head a k0 Hfa Hka) as (r & tl & Hit & Hrk).
    apply stream_at_keys in Ha. rewrite Hit in Ha.
    pose proof (List.Forall_inv Ha) as Hh. cbn in Hh. rewrite Hrk in Hh. exact Hh. }
  rewrite List.Forall_forall in *. intros s Hs.
  eapply stream_at_realign; [apply Hal; exact Hs | exact Hck |].
  destruct (ms_iter s) as [|r tl] eqn:Hit; [constructor|].
  destruct (Hal s Hs) as (pre & Hm & _ & _).
  rewrite <- Hit. eapply sorted_iter_ge; [apply Hsort; exact Hs | exact Hm | exact Hit |].
  eapply (root_min_keys (mi_mh m) a rest k0); eauto.
  - apply List.Forall_forall. exact Hmin.
  - apply List.Forall_forall. exact Hfix.
Qed.

(** [miter_skip_unique]: every stream is moved past the key that was on
    top, and nothing else is skipped. *)
Lemma skip_unique_spec u x ref m a rest k0 :
  miter_for u x ref m -> miter_aligned x m ->
  mi_mh m = a :: rest -> ms_kref a = Some k0 ->
  let m' := miter_skip_unique m in
  miter_for u x ref m' /\ Forall (stream_at x true k0) (mi_mh m') /\
  (forall P, miter_keys P m -> miter_keys P m') /\
  (miter_remaining m' < miter_remaining m)%nat.
Proof.
  intros Hfor Hal Hmh Hka. cbv zeta.
  pose proof (aligned_at_top _ _ _ _ _ _ _ Hfor Hal Hmh Hka) as Hat.
  unfold miter_skip_unique, miter_valid. rewrite (mh_get_1 m a rest Hmh), Hka.
  set (m0 := Miter (mi_mh m) k0).
  assert (Hfor0 : miter_for u x ref m0) by exact Hfor.
  assert (Hq : Forall (fun s => ms_rank s = ms_rank a -> stream_at x true k0 s) rest).
  { pose proof (miter_for_ranks _ _ _ _ Hfor) as Hnd. rewrite Hmh in Hnd. cbn in Hnd.
    inversion Hnd as [|? ? Hnin _]. apply List.Forall_forall. intros s Hs Hr.
    exfalso. apply Hnin. rewrite <- Hr. apply in_map. exact Hs. }
  assert (Hat0 : Forall (fun s => stream_at x false k0 s \/ stream_at x true k0 s)
                        (mi_mh m0)).
  { eapply List.Forall_impl; [|exact Hat]. intros s Hs. left. exact Hs. }
  destruct (skip_unique_loop_spec u x ref k0 (ms_rank a) (ms_unique a)
              (miter_remaining m) m0 a rest Hfor0 eq_refl Hmh Hka Hat0 Hq
              ltac:(apply Nat.le_refl))
    as (B1 & B2 & B3 & B4).
  split; [exact B1|]. split; [exact B2|]. split; [|exact B4].
  intros P HP. apply B3. exact HP.
Qed.


(** *** [xdb_iter_skip_ts] *)

Lemma kvref_root m r :
  miter_kvref m = Some r ->
  exists a rest tl, mi_mh m = a :: rest /\ ms_iter a = r :: tl.
Proof.
  unfold miter_kvref, mh_get. destruct (mi_mh m) as [|a rest]; cbn; [discriminate|].
  unfold iter_kvref. destruct (ms_iter a) as [|r' tl] eqn:E; cbn; [discriminate|].
  intros [= ->]. exists a, rest, tl. auto.
Qed.

Lemma kvref_kref u x ref m r a rest tl :
  miter_for u x ref m -> mi_mh m = a :: rest -> ms_iter a = r :: tl ->
  ms_kref a = Some (kv_key r).
Proof.
  intros (_ & Hfix & _) Hmh Hit. rewrite Hmh in Hfix.
  pose proof (List.Forall_inv Hfix) as Hfa. unfold stream_fixed in Hfa.
  rewrite Hfa, Hit. reflexivity.
Qed.

Lemma skip_ts_loop_spec u x ref fuel :
  forall m,
    miter_for u x ref m -> miter_aligned x m ->
    (miter_remaining m < fuel)%nat ->
    let m' := xdb_iter_skip_ts_loop fuel m in
    miter_for u x ref m' /\ miter_aligned x m' /\
    (forall P, miter_keys P m -> miter_keys P m') /\
    match miter_kvref m' with
    | Some r => kv_vlen r <> SST_VLEN_TS
    | None => True
    end.
Proof.
  induction fuel as [|fuel IH]; intros m Hfor Hal Hfuel; cbv zeta; [lia|].
  cbn [xdb_iter_skip_ts_loop].
  destruct (miter_kvref m) as [r|] eqn:Ekv.
  - destruct (Z.eqb_spec (kv_vlen r) SST_VLEN_TS) as [Ets | Ets]; cbn [negb].
    + destruct (kvref_root m r Ekv) as (a & rest & tl & Hmh & Hit).
      pose proof (kvref_kref _ _ _ _ _ _ _ _ Hfor Hmh Hit) as Hka.
      destruct (skip_unique_spec u x ref m a rest (kv_key r) Hfor Hal Hmh Hka)
        as (B1 & B2 & B3 & B4).
      assert (Hal1 : miter_aligned x (miter_skip_unique m)).
      { exists true, (kv_key r). exact B2. }
      destruct (IH (miter_skip_unique m) B1 Hal1 ltac:(lia)) as (C1 & C2 & C3 & C4).
      split; [exact C1|]. split; [exact C2|]. split; [|exact C4].
      intros P HP. apply C3. apply B3. exact HP.
    + rewrite Ekv. auto.
  - rewrite Ekv. auto.
Qed.

Lemma skip_ts_spec u x ref m :
  miter_for u x ref m -> miter_aligned x m ->
  let m' := xdb_iter_skip_ts m in
  miter_for u x ref m' /\ miter_aligned x m' /\
  (forall P, miter_keys P m -> miter_keys P m') /\
  match miter_kvref m' with
  | Some r => kv_vlen r <> SST_VLEN_TS
  | None => True
  end.
Proof.
  intros Hfor Hal. unfold xdb_iter_skip_ts. apply skip_ts_loop_spec; auto.
Qed.

(** *** The record on top is the one a point read finds *)

Lemma fresh_stream u x ref m i :
  miter_for u x ref m ->
  In i (map stream_id (mi_mh (xdb_iter_miter_ref u x ref (Miter [] [])))) ->
  exists s, In s (mi_mh m) /\ stream_id s = i.
Proof.
  intros (Hp & _) Hi. apply Permutation_sym in Hp.
  apply (Permutation_in _ Hp) in Hi. apply in_map_iff in Hi.
  destruct Hi as (s & Hs & Hin). eauto.
Qed.

Lemma stream_fresh u x ref m s :
  miter_for u x ref m -> In s (mi_mh m) ->
  In (stream_id s) (map stream_id (mi_mh (xdb_iter_miter_ref u x ref (Miter [] [])))).
Proof.
  intros (Hp & _) Hs. apply (Permutation_in _ Hp). apply in_map. exact Hs.
Qed.

(** A stream of higher rank than the first does not hold the key of the
    first. *)
Lemma higher_rank_none u x ref m a rest r tl s :
  miter_for u x ref m -> miter_aligned x m ->
  mi_mh m = a :: rest -> ms_iter a = r :: tl ->
  In s (mi_mh m) -> (ms_rank a < ms_rank s)%nat ->
  mt_get (kv_key r) (stream_map x (ms_src s)) = None.
Proof.
  intros Hfor Hal Hmh Hit Hs Hrank.
  pose proof (kvref_kref _ _ _ _ _ _ _ _ Hfor Hmh Hit) as Hka.
  pose proof (aligned_at_top _ _ _ _ _ _ _ Hfor Hal Hmh Hka) as Hat.
  destruct Hfor as (_ & Hfix & Hsort & Hmin).
  unfold heap_root_min in Hmin. rewrite Hmh in Hmin.
  rewrite List.Forall_forall in Hat, Hfix, Hsort, Hmin.
  rewrite (stream_at_get x s (kv_key r) (Hsort s Hs) (Hat s Hs)).
  destruct (ms_iter s) as [|r' tl'] eqn:His; [reflexivity|].
  destruct (kref_match (kv_key r) (kv_key r')) eqn:Em; [|reflexivity].
  exfalso. apply kref_match_eq in Em.
  rewrite Hmh in Hs. destruct Hs as [<- | Hin]; [lia|].
  specialize (Hmin s Hin). unfold stream_le in Hmin.
  pose proof (Hfix s ltac:(rewrite Hmh; right; exact Hin)) as Hfs.
  unfold stream_fixed in Hfs. rewrite His in Hfs. cbn in Hfs.
  rewrite Hka, Hfs, <- Em in Hmin.
  destruct Hmin as [Hlt | [_ Hle]]; [|lia].
  unfold key_lt in Hlt. rewrite kref_compare_refl in Hlt. discriminate.
Qed.

Lemma top_get u x ref m a rest r tl :
  miter_for u x ref m -> miter_aligned x m ->
  mi_mh m = a :: rest -> ms_iter a = r :: tl ->
  mt_get (kv_key r) (stream_map x (ms_src a)) = Some r.
Proof.
  intros Hfor Hal Hmh Hit.
  pose proof (kvref_kref _ _ _ _ _ _ _ _ Hfor Hmh Hit) as Hka.
  pose proof (aligned_at_top _ _ _ _ _ _ _ Hfor Hal Hmh Hka) as Hat.
  destruct Hfor as (_ & _ & Hsort & _).
  rewrite Hmh in Hat, Hsort.
  rewrite (stream_at_get x a (kv_key r) (List.Forall_inv Hsort) (List.Forall_inv Hat)).
  rewrite Hit, kref_match_refl. reflexivity.
Qed.

Lemma top_vis u x ref m r :
  miter_for u x ref m -> miter_aligned x m ->
  miter_kvref m = Some r ->
  vis_lookup x ref (kv_key r) = Some r.
Proof.
  intros Hfor Hal Hkv.
  destruct (kvref_root m r Hkv) as (a & rest & tl & Hmh & Hit).
  pose proof (top_get _ _ _ _ _ _ _ _ Hfor Hal Hmh Hit) as Htop.
  pose proof (fun s => higher_rank_none u x ref m a rest r tl s Hfor Hal Hmh Hit) as Hhigh.
  pose proof (stream_fresh u x ref m a Hfor ltac:(rewrite Hmh; left; reflexivity)) as Hida.
  pose proof (fun i => fresh_stream u x ref m i Hfor) as Hfresh.
  rewrite fresh_ids in Hida, Hfresh.
  unfold vis_lookup, ref_wmt, ref_imt.
  set (w := mp_wmt (mt_views (ref_mt_view ref))) in *.
  unfold stream_id in Hida.
  destruct (mp_imt (mt_views (ref_mt_view ref))) as [i|]; cbn [option_map].
  - destruct (Hfresh (SrcMt w, 2%nat, true) ltac:(cbn; auto)) as (sw & Hsw & Hidw).
    destruct (Hfresh (SrcMt i, 1%nat, true) ltac:(cbn; auto)) as (si & Hsi & Hidi).
    injection Hidw as Hw1 Hw2 _. injection Hidi as Hi1 Hi2 _.
    destruct Hida as [Hid | [Hid | [Hid | []]]]; injection Hid as Ha1 Ha2 _.
    + rewrite <- Ha1 in Htop. cbn [stream_map] in Htop.
      pose proof (Hhigh sw Hsw ltac:(lia)) as Hnw. rewrite Hw1 in Hnw. cbn in Hnw.
      pose proof (Hhigh si Hsi ltac:(lia)) as Hni. rewrite Hi1 in Hni. cbn in Hni.
      rewrite Hnw, Hni. exact Htop.
    + rewrite <- Ha1 in Htop. cbn [stream_map] in Htop.
      pose proof (Hhigh sw Hsw ltac:(lia)) as Hnw. rewrite Hw1 in Hnw. cbn in Hnw.
      rewrite Hnw, Htop. reflexivity.
    + rewrite <- Ha1 in Htop. cbn [stream_map] in Htop. rewrite Htop. reflexivity.
  - destruct (Hfresh (SrcMt w, 1%nat, true) ltac:(cbn; auto)) as (sw & Hsw & Hidw).
    injection Hidw as Hw1 Hw2 _.
    destruct Hida as [Hid | [Hid | []]]; injection Hid as Ha1 Ha2 _.
    + rewrite <- Ha1 in Htop. cbn [stream_map] in Htop.
      pose proof (Hhigh sw Hsw ltac:(lia)) as Hnw. rewrite Hw1 in Hnw. cbn in Hnw.
      rewrite Hnw. exact Htop.
    + rewrite <- Ha1 in Htop. cbn [stream_map] in Htop. rewrite Htop. reflexivity.
Qed.

(** *** [miter_seek] *)

Lemma seek_streams_ids x m key :
  map stream_id (mi_mh (miter_seek_streams x m key)) = map stream_id (mi_mh m).
Proof.
  unfold miter_seek_streams. cbn [mi_mh]. rewrite map_map. reflexivity.
Qed.

Lemma miter_seek_spec u x ref m key :
  Permutation (map stream_id (mi_mh m))
              (map stream_id (mi_mh (xdb_iter_miter_ref u x ref (Miter [] [])))) ->
  (forall i, mt_sorted (x_mt x i)) -> mt_sorted (v_data (ref_v ref)) ->
  let m' := miter_seek x m key in
  miter_for u x ref m' /\ Forall (stream_at x false key) (mi_mh m') /\
  miter_keys (key_le key) m'.
Proof.
  intros Hp Hmt Hv. cbv zeta. unfold miter_seek. cbv zeta.
  set (m1 := miter_seek_streams x m key).
  assert (Hsrc : forall s, In s (mi_mh m) -> mt_sorted (stream_map x (ms_src s))).
  { intros s Hs. apply (in_map stream_id) in Hs. apply (Permutation_in _ Hp) in Hs.
    rewrite fresh_ids in Hs. unfold stream_id in Hs.
    destruct (mp_imt _); cbn in Hs;
      repeat match goal with
             | H : _ \/ _ |- _ => destruct H as [H|H]
             | H : (_, _, _) = (_, _, _) |- _ => injection H as <- _ _
             | H : False |- _ => destruct H
             end; cbn; auto. }
  assert (H1 : Forall (fun s => stream_fixed s /\
                               mt_sorted (stream_map x (ms_src s)) /\
                               stream_at x false key s) (mi_mh m1)).
  { unfold m1, miter_seek_streams. cbn [mi_mh]. apply List.Forall_forall.
    intros s' Hs'. apply in_map_iff in Hs'. destruct Hs' as (s & <- & Hs).
    split; [reflexivity|]. split; [exact (Hsrc s Hs)|].
    apply stream_at_seek. exact (Hsrc s Hs). }
  assert (Hlen : (length (mi_mh m1) = 2 \/ length (mi_mh m1) = 3)%nat).
  { pose proof (Permutation_length Hp) as Hl. rewrite fresh_ids, !length_map in Hl.
    unfold m1, miter_seek_streams. cbn [mi_mh]. rewrite length_map, Hl.
    destruct (mp_imt _); cbn; auto. }
  destruct (seek_upheaps_root (mi_mh m1) (mi_kref0 m1) Hlen) as (Hperm & Hmin & _).
  rewrite <- (miter_eta m1) in Hperm, Hmin. unfold mi_nway.
  set (m2 := miter_seek_upheaps (length (mi_mh m1) - 1) m1 2) in *.
  pose proof (Permutation_Forall (Permutation_sym Hperm) H1) as H2.
  split; [|split].
  - split; [|split; [|split; [|exact Hmin]]].
    + eapply perm_trans; [apply Permutation_map; exact Hperm|].
      unfold m1. rewrite seek_streams_ids. exact Hp.
    + eapply List.Forall_impl; [|exact H2]. cbn. tauto.
    + eapply List.Forall_impl; [|exact H2]. cbn. tauto.
  - eapply List.Forall_impl; [|exact H2]. cbn. tauto.
  - unfold miter_keys. eapply List.Forall_impl; [|exact H2]. cbn.
    intros s (_ & _ & Hs). apply stream_at_keys in Hs. exact Hs.
Qed.

(** *** The records that an iteration hands out *)

Lemma miter_keys_and (P Q : list Z -> Prop) m :
  miter_keys P m -> miter_keys Q m -> miter_keys (fun k => P k /\ Q k) m.
Proof.
  unfold miter_keys. intros HP HQ. rewrite List.Forall_forall in *.
  intros s Hs. specialize (HP s Hs). specialize (HQ s Hs).
  rewrite List.Forall_forall in *. intros r Hr. split; auto.
Qed.

Lemma miter_keys_past x k0 m :
  Forall (stream_at x true k0) (mi_mh m) -> miter_keys (key_lt k0) m.
Proof.
  unfold miter_keys. intros H. eapply List.Forall_impl; [|exact H].
  intros s Hs. apply stream_at_keys in Hs. exact Hs.
Qed.

Lemma collect_spec u x ref n :
  forall m v (P : list Z -> Prop),
    miter_for u x ref m -> miter_aligned x m -> miter_keys P m ->
    match miter_kvref m with
    | Some r => kv_vlen r <> SST_VLEN_TS
    | None => True
    end ->
    keys_ascend (xdb_iter_collect n (XdbIter v m)) /\
    Forall (fun r => P (kv_key r) /\ kv_vlen r <> SST_VLEN_TS /\
                     vis_lookup x ref (kv_key r) = Some r)
           (xdb_iter_collect n (XdbIter v m)).
Proof.
  induction n as [|n IH]; intros m v P Hfor Hal HP Hts; cbn [xdb_iter_collect].
  { split; [exact I | constructor]. }
  unfold xdb_iter_next, xdb_iter_peek. cbn [it_miter].
  destruct (miter_kvref m) as [r|] eqn:Ekv; [|split; [exact I | constructor]].
  unfold xdb_iter_skip1. cbn [it_miter it_mt_view].
  destruct (kvref_root m r Ekv) as (a & rest & tl & Hmh & Hit).
  pose proof (kvref_kref _ _ _ _ _ _ _ _ Hfor Hmh Hit) as Hka.
  destruct (skip_unique_spec u x ref m a rest (kv_key r) Hfor Hal Hmh Hka)
    as (B1 & B2 & B3 & _).
  assert (Hal1 : miter_aligned x (miter_skip_unique m)).
  { exists true, (kv_key r). exact B2. }
  destruct (skip_ts_spec u x ref (miter_skip_unique m) B1 Hal1) as (C1 & C2 & C3 & C4).
  set (m' := xdb_iter_skip_ts (miter_skip_unique m)) in *.
  assert (HP' : miter_keys (fun k => key_lt (kv_key r) k /\ P k) m').
  { apply C3. apply miter_keys_and; [eapply miter_keys_past; exact B2 | apply B3; exact HP]. }
  destruct (IH m' v _ C1 C2 HP' C4) as [Hasc Hall].
  assert (Hr : P (kv_key r)).
  { unfold miter_keys in HP. rewrite Hmh in HP.
    pose proof (List.Forall_inv HP) as Ha. cbn beta in Ha. rewrite Hit in Ha.
    exact (List.Forall_inv Ha). }
  split.
  - cbn [keys_ascend]. split; [|exact Hasc].
    destruct (xdb_iter_collect n (XdbIter v m')) as [|r' ys']; [exact I|].
    pose proof (List.Forall_inv Hall) as Hr'. cbn beta in Hr'. tauto.
  - constructor.
    + split; [exact Hr|]. split; [exact Hts|]. exact (top_vis u x ref m r Hfor Hal Ekv).
    + eapply List.Forall_impl; [|exact Hall]. cbn beta. tauto.
Qed.

Lemma update_version_for u x ref it :
  xdb_iter_for u x ref it ->
  let it1 := fst (xdb_iter_update_version u x ref it) in
  let ref1 := snd (xdb_iter_update_version u x ref it) in
  Permutation (map stream_id (mi_mh (it_miter it1)))
              (map stream_id (mi_mh (xdb_iter_miter_ref u x ref1 (Miter [] [])))) /\
  (ref1 = ref \/ ref1 = xdb_ref_all x).
Proof.
  intros Hit. cbv zeta. unfold xdb_iter_update_version.
  destruct (Nat.eqb (ref_mt_view ref) (x_mt_view x)) eqn:E1; cbn [andb].
  - apply Nat.eqb_eq in E1.
    destruct (Nat.eqb (it_mt_view it) (ref_mt_view ref)) eqn:E2; cbn [fst snd].
    + apply Nat.eqb_eq in E2. split; [apply Hit; assumption | left; reflexivity].
    + split; [|left; apply ref_update_same; exact E1].
      cbn [it_miter]. rewrite !fresh_ids.
      unfold xdb_iter_miter_ref. cbv zeta.
      destruct (mp_imt _); apply Permutation_refl.
  - cbn [fst snd it_miter]. split.
    + rewrite !fresh_ids. unfold xdb_iter_miter_ref. cbv zeta.
      destruct (mp_imt _); apply Permutation_refl.
    + right. unfold xdb_ref_update_version.
      rewrite Nat.eqb_sym, E1. reflexivity.
Qed.

Lemma miter_keys_impl (P Q : list Z -> Prop) m :
  (forall k, P k -> Q k) -> miter_keys P m -> miter_keys Q m.
Proof.
  unfold miter_keys. intros HPQ H. eapply List.Forall_impl; [|exact H].
  intros s Hs. eapply List.Forall_impl; [|exact Hs]. intros r. apply HPQ.
Qed.

Lemma valid_kvref u x ref m :
  miter_for u x ref m -> miter_valid m = true -> exists r, miter_kvref m = Some r.
Proof.
  intros (_ & Hfix & _). unfold miter_valid, miter_kvref, mh_get.
  destruct (mi_mh m) as [|a rest]; cbn; [discriminate|].
  pose proof (List.Forall_inv Hfix) as Hfa. unfold stream_fixed in Hfa.
  rewrite Hfa. unfold iter_kref, iter_kvref.
  destruct (ms_iter a) as [|r tl]; cbn; [discriminate | eauto].
Qed.

Lemma top_key (P : list Z -> Prop) m r :
  miter_keys P m -> miter_kvref m = Some r -> P (kv_key r).
Proof.
  intros HP Ekv. destruct (kvref_root m r Ekv) as (a & rest & tl & Hmh & Hit).
  unfold miter_keys in HP. rewrite Hmh in HP.
  pose proof (List.Forall_inv HP) as Ha. cbn beta in Ha. rewrite Hit in Ha.
  exact (List.Forall_inv Ha).
Qed.

(** One [xdb_iter_skip1] from a record [r]: what is left has keys above
    that of [r], and the iterator rests on no tombstone. *)
Lemma skip1_spec u x ref m (P : list Z -> Prop) r :
  miter_for u x ref m -> miter_aligned x m -> miter_keys P m ->
  miter_kvref m = Some r ->
  let m' := xdb_iter_skip_ts (miter_skip_unique m) in
  miter_for u x ref m' /\ miter_aligned x m' /\
  miter_keys (fun k => key_lt (kv_key r) k /\ P k) m' /\
  match miter_kvref m' with
  | Some r' => kv_vlen r' <> SST_VLEN_TS
  | None => True
  end.
Proof.
  intros Hfor Hal HP Ekv. cbv zeta.
  destruct (kvref_root m r Ekv) as (a & rest & tl & Hmh & Hit).
  pose proof (kvref_kref _ _ _ _ _ _ _ _ Hfor Hmh Hit) as Hka.
  destruct (skip_unique_spec u x ref m a rest (kv_key r) Hfor Hal Hmh Hka)
    as (B1 & B2 & B3 & _).
  assert (Hal1 : miter_aligned x (miter_skip_unique m)).
  { exists true, (kv_key r). exact B2. }
  destruct (skip_ts_spec u x ref (miter_skip_unique m) B1 Hal1) as (C1 & C2 & C3 & C4).
  split; [exact C1|]. split; [exact C2|]. split; [|exact C4].
  apply C3. apply miter_keys_and; [eapply miter_keys_past; exact B2 | apply B3; exact HP].
Qed.

Lemma xdb_iter_skip_S it n :
  xdb_iter_skip it (S n) =
    if negb (miter_valid (it_miter (xdb_iter_skip1 it))) then xdb_iter_skip1 it
    else xdb_iter_skip (xdb_iter_skip1 it) n.
Proof. reflexivity. Qed.

(** [xdb_iter_skip] with a count that is not zero. *)
Lemma skip_spec u x ref n :
  forall m v (P : list Z -> Prop) r,
    miter_for u x ref m -> miter_aligned x m -> miter_keys P m ->
    miter_kvref m = Some r ->
    let m' := it_miter (xdb_iter_skip (XdbIter v m) (S n)) in
    miter_for u x ref m' /\ miter_aligned x m' /\
    miter_keys (fun k => key_lt (kv_key r) k /\ P k) m' /\
    match miter_kvref m' with
    | Some r' => kv_vlen r' <> SST_VLEN_TS
    | None => True
    end.
Proof.
  induction n as [|n IH]; intros m v P r Hfor Hal HP Ekv; cbv zeta;
    destruct (skip1_spec u x ref m P r Hfor Hal HP Ekv) as (C1 & C2 & C3 & C4);
    rewrite xdb_iter_skip_S; unfold xdb_iter_skip1; cbn [it_miter it_mt_view];
    set (m1 := xdb_iter_skip_ts (miter_skip_unique m)) in *.
  - cbn [xdb_iter_skip]. destruct (negb _); cbn [it_miter]; auto.
  - destruct (miter_valid m1) eqn:Ev; cbn [negb]; [|cbn [it_miter]; auto].
    destruct (valid_kvref u x ref m1 C1 Ev) as [r1 Er1].
    destruct (IH m1 v _ r1 C1 C2 C3 Er1) as (D1 & D2 & D3 & D4).
    split; [exact D1|]. split; [exact D2|]. split; [|exact D4].
    eapply miter_keys_impl; [|exact D3]. cbn beta. tauto.
Qed.

Lemma walk_spec u x ref ns :
  forall m v (P : list Z -> Prop),
    miter_for u x ref m -> miter_aligned x m -> miter_keys P m ->
    match miter_kvref m with
    | Some r => kv_vlen r <> SST_VLEN_TS
    | None => True
    end ->
    keys_ascend (xdb_iter_walk ns (XdbIter v m)) /\
    Forall (fun r => P (kv_key r) /\ kv_vlen r <> SST_VLEN_TS /\
                     vis_lookup x ref (kv_key r) = Some r)
           (xdb_iter_walk ns (XdbIter v m)).
Proof.
  induction ns as [|n ns IH]; intros m v P Hfor Hal HP Hts;
    cbn [xdb_iter_walk]; unfold xdb_iter_peek; cbn [it_miter];
    (destruct (miter_kvref m) as [r|] eqn:Ekv; [|split; [exact I | constructor]]);
    pose proof (top_key P m r HP Ekv) as Hr;
    pose proof (top_vis u x ref m r Hfor Hal Ekv) as Hvis.
  - split; [cbn; tauto | repeat constructor; auto].
  - destruct (skip_spec u x ref n m v P r Hfor Hal HP Ekv) as (C1 & C2 & C3 & C4).
    destruct (xdb_iter_skip (XdbIter v m) (S n)) as [v' m'] eqn:Es. cbn [it_miter] in *.
    destruct (IH m' v' _ C1 C2 C3 C4) as [Hasc Hall].
    split.
    + cbn [keys_ascend]. split; [|exact Hasc].
      destruct (xdb_iter_walk ns (XdbIter v' m')) as [|r' ys']; [exact I|].
      pose proof (List.Forall_inv Hall) as Hr'. cbn beta in Hr'. tauto.
    + constructor; [auto|].
      eapply List.Forall_impl; [|exact Hall]. cbn beta. tauto.
Qed.

Lemma keys_ascend_above k l :
  keys_ascend l ->
  match l with [] => True | r :: _ => key_lt k (kv_key r) end ->
  Forall (fun r => key_lt k (kv_key r)) l.
Proof.
  revert k. induction l as [|r l IH]; intros k Hasc Hk; [constructor|].
  cbn [keys_ascend] in Hasc. destruct Hasc as [Hh Ht].
  constructor; [exact Hk|].
  apply IH; [exact Ht|]. destruct l as [|r' l']; [exact I|].
  exact (kref_compare_lt_trans _ _ _ Hk Hh).
Qed.

(** Keys that go up strictly are pairwise distinct. *)
Lemma keys_ascend_nodup l : keys_ascend l -> List.NoDup (map kv_key l).
Proof.
  induction l as [|r l IH]; intros Hasc; cbn [map]; [constructor|].
  pose proof Hasc as Hasc0. cbn [keys_ascend] in Hasc. destruct Hasc as [Hh Ht].
  constructor; [|exact (IH Ht)].
  intros Hin. apply in_map_iff in Hin. destruct Hin as (r' & Heq & Hin).
  pose proof (keys_ascend_above (kv_key r) l Ht) as Hab.
  assert (Hall : Forall (fun r0 => key_lt (kv_key r) (kv_key r0)) l).
  { apply Hab. destruct l; [exact I | exact Hh]. }
  rewrite List.Forall_forall in Hall. specialize (Hall r' Hin).
  rewrite Heq in Hall. exact (kref_compare_lt_irrefl _ Hall).
Qed.

(** C3: the records that an iteration hands out on an engine that is not
    written meanwhile: a seek, and then either [n] calls of
    [xdb_iter_next], or reads of the record under the iterator with calls
    of [xdb_iter_skip] of any counts but zero in between.  Their keys go
    up strictly, so that no key comes twice; each is the record that the
    source of highest rank holds for its key (the WMT's, else the IMT's,
    else the SSTable version's); none is a tombstone; and none is below
    the key of the seek. *)
Theorem xdb_iter_yields u x ref it key n ns :
  (forall i, mt_sorted (x_mt x i)) ->
  mt_sorted (v_data (ref_v ref)) -> mt_sorted (v_data (x_z x)) ->
  xdb_iter_for u x ref it ->
  let it1 := fst (xdb_iter_seek u x ref it key) in
  let ref1 := snd (xdb_iter_seek u x ref it key) in
  forall ys, ys = xdb_iter_collect n it1 \/ ys = xdb_iter_walk ns it1 ->
    keys_ascend ys /\ List.NoDup (map kv_key ys) /\
    Forall (fun r => key_le key (kv_key r) /\ kv_vlen r <> SST_VLEN_TS /\
                     vis_lookup x ref1 (kv_key r) = Some r) ys.
Proof.
  intros Hmt Hv Hz Hit. cbv zeta. unfold xdb_iter_seek.
  destruct (update_version_for u x ref it Hit) as [Hp Href].
  destruct (xdb_iter_update_version u x ref it) as [it0 ref0]. cbn [fst snd] in *.
  assert (Hv0 : mt_sorted (v_data (ref_v ref0))).
  { destruct Href as [-> | ->]; [exact Hv | exact Hz]. }
  destruct (miter_seek_spec u x ref0 (it_miter it0) key Hp Hmt Hv0) as (A1 & A2 & A3).
  assert (Hal : miter_aligned x (miter_seek x (it_miter it0) key)).
  { exists false, key. exact A2. }
  destruct (skip_ts_spec u x ref0 _ A1 Hal) as (C1 & C2 & C3 & C4).
  intros ys Hys.
  assert (H : keys_ascend ys /\
              Forall (fun r => key_le key (kv_key r) /\ kv_vlen r <> SST_VLEN_TS /\
                               vis_lookup x ref0 (kv_key r) = Some r) ys).
  { destruct Hys as [-> | ->].
    - apply (collect_spec u x ref0 n _ _ (key_le key)); auto.
    - apply (walk_spec u x ref0 ns _ _ (key_le key)); auto. }
  destruct H as [Hasc Hall].
  split; [exact Hasc|]. split; [exact (keys_ascend_nodup ys Hasc) | exact Hall].
Qed.

Lemma xdb_iter_yields_witness :
  xdb_iter_walk [1%nat] (fst (xdb_iter_seek true ex_iter_x ex_iter_ref ex_iter [])) =
    [Kv [2] 1 [12]; Kv [4] 1 [34]] /\
  keys_ascend [Kv [2] 1 [12]; Kv [4] 1 [34]] /\
  List.NoDup (map kv_key [Kv [2] 1 [12]; Kv [4] 1 [34]]) /\
  Forall (fun r => key_le [] (kv_key r) /\ kv_vlen r <> SST_VLEN_TS /\
                   vis_lookup ex_iter_x
                     (snd (xdb_iter_seek true ex_iter_x ex_iter_ref ex_iter []))
                     (kv_key r) = Some r)
         [Kv [2] 1 [12]; Kv [4] 1 [34]].
Proof.
  split; [vm_compute; reflexivity|].
  apply (xdb_iter_yields true ex_iter_x ex_iter_ref ex_iter [] 0 [1%nat]).
  - intros [|]; reflexivity.
  - reflexivity.
  - reflexivity.
  - intros _ _. vm_compute. apply Permutation_refl.
  - right. vm_compute. reflexivity.
Defined.


(** * Varints ([vi128], lib.c) *)

Lemma rd_app mem0 b rest : rd (mem0 ++ b :: rest) (length mem0) = Ok b.
Proof.
  unfold rd. rewrite lookup_app_r by lia. rewrite Nat.sub_diag. reflexivity.
Qed.

Lemma app_cons_assoc {A} (l : list A) a l' : l ++ a :: l' = (l ++ [a]) ++ l'.
Proof. rewrite <- app_assoc. reflexivity. Qed.

(** The payload of a byte written with the continuation bit. *)
Lemma cont_byte_payload v : 0 <= v -> Z.land (Z.lor v 0x80 mod 256) 0x7f = Z.land v 0x7f.
Proof.
  intros Hv. apply Z.bits_inj'. intros n Hn.
  rewrite !Z.land_spec.
  destruct (Z.ltb_spec n 7) as [H7|H7].
  - change 256 with (2^8). rewrite Z.mod_pow2_bits_low by lia.
    rewrite Z.lor_spec. change 128 with (2^7). rewrite Z.pow2_bits_false by lia.
    rewrite orb_false_r. reflexivity.
  - change 127 with (Z.ones 7). rewrite Z.ones_spec_high by lia.
    rewrite !andb_false_r. reflexivity.
Qed.

Lemma cont_byte_flag v : 0 <= v -> Z.land (Z.lor v 0x80 mod 256) 0x80 = 0x80.
Proof.
  intros Hv. apply Z.bits_inj'. intros n Hn.
  rewrite Z.land_spec. change 128 with (2^7).
  destruct (Z.eq_dec n 7) as [->|Hne].
  - change 256 with (2^8). rewrite Z.mod_pow2_bits_low by lia.
    rewrite Z.lor_spec, Z.pow2_bits_true by lia. rewrite orb_true_r. reflexivity.
  - rewrite Z.pow2_bits_false by lia. apply andb_false_r.
Qed.

Lemma last_byte_payload v : 0 <= v < 128 -> Z.land (v mod 256) 0x7f = v /\ Z.land (v mod 256) 0x80 = 0.
Proof.
  intros Hv. rewrite Z.mod_small by lia. split.
  - change 127 with (Z.ones 7). rewrite Z.land_ones by lia. apply Z.mod_small. lia.
  - apply Z.bits_inj'. intros n Hn. rewrite Z.land_spec, Z.bits_0.
    change 128 with (2^7). destruct (Z.eq_dec n 7) as [->|Hne].
    + rewrite Z.pow2_bits_true by lia. rewrite andb_true_r.
      apply Z.bits_above_log2; [lia|].
      destruct (Z.eq_dec v 0) as [->|Hz]; [reflexivity|].
      apply Z.log2_lt_pow2; lia.
    + rewrite Z.pow2_bits_false by lia. apply andb_false_r.
Qed.

(** Seven bits at a time: the low group and the rest make the value. *)
Lemma split7 v shift :
  0 <= v -> 0 <= shift ->
  Z.lor (Z.shiftl (Z.land v 0x7f) shift) (Z.shiftl (Z.shiftr v 7) (shift + 7)) =
    Z.shiftl v shift.
Proof.
  intros Hv Hs.
  replace (Z.shiftl (Z.shiftr v 7) (shift + 7))
    with (Z.shiftl (Z.shiftl (Z.shiftr v 7) 7) shift)
    by (rewrite Z.shiftl_shiftl by lia; f_equal; lia).
  rewrite <- Z.shiftl_lor. f_equal.
  change 127 with (Z.ones 7).
  rewrite <- Z.ldiff_ones_r by lia.
  rewrite Z.lor_comm. apply Z.lor_ldiff_and.
Qed.

Lemma shiftl_group_bound v shift :
  0 <= v -> 0 <= shift ->
  0 <= Z.shiftl (Z.land v 0x7f) shift <= Z.shiftl v shift.
Proof.
  intros Hv Hs. rewrite !Z.shiftl_mul_pow2 by lia.
  change 127 with (Z.ones 7). rewrite Z.land_ones by lia.
  pose proof (Z.mod_pos_bound v (2^7) ltac:(lia)).
  pose proof (Z.mod_le v (2^7) Hv ltac:(lia)).
  assert (0 < 2 ^ shift) by (apply Z.pow_pos_nonneg; lia). nia.
Qed.

Lemma shiftr7_bound v shift :
  0 <= v -> 0 <= shift ->
  0 <= Z.shiftr v 7 /\ Z.shiftl (Z.shiftr v 7) (shift + 7) <= Z.shiftl v shift.
Proof.
  intros Hv Hs. split; [apply Z.shiftr_nonneg; lia|].
  rewrite Z.shiftr_div_pow2, !Z.shiftl_mul_pow2 by lia.
  rewrite Z.pow_add_r by lia.
  pose proof (Z.mul_div_le v (2^7) ltac:(lia)).
  assert (0 < 2 ^ shift) by (apply Z.pow_pos_nonneg; lia). nia.
Qed.

Lemma shiftr7_lt v n : 0 <= v < 2 ^ (7 * Z.of_nat (S (S n))) -> 0 <= Z.shiftr v 7 < 2 ^ (7 * Z.of_nat (S n)).
Proof.
  intros [H0 H1]. rewrite Z.shiftr_div_pow2 by lia. split; [apply Z.div_pos; lia|].
  apply Z.div_lt_upper_bound; [lia|]. rewrite <- Z.pow_add_r by lia.
  replace (7 + 7 * Z.of_nat (S n)) with (7 * Z.of_nat (S (S n))) by lia. exact H1.
Qed.

(** The decoding loop run on the bytes that the encoding [switch] writes
    from case [n] on. *)
Lemma vi128_decode_loop_encode n :
  forall fuel pre v rest shift r,
    (1 <= n <= fuel)%nat -> 0 <= v < 2 ^ (7 * Z.of_nat n) -> 0 <= shift ->
    Z.shiftl v shift < 2^32 ->
    vi128_decode_loop fuel (pre ++ vi128_encode_cases n v ++ rest) (length pre) shift r =
      Ok (Some (length pre + n)%nat, Z.lor r (Z.shiftl v shift)).
Proof.
  induction n as [|n IH]; intros fuel pre v rest shift r Hn Hv Hs Hb; [lia|].
  destruct fuel as [|fuel]; [lia|].
  destruct n as [|n].
  - cbn [vi128_encode_cases app vi128_decode_loop]. rewrite rd_app. cbn [obind].
    destruct (last_byte_payload v ltac:(cbn in Hv; lia)) as [-> ->].
    change (0 =? 0) with true. cbv iota.
    unfold u32. rewrite Z.mod_small.
    + rewrite Nat.add_1_r. reflexivity.
    + split; [apply Z.shiftl_nonneg; lia | exact Hb].
  - change (vi128_encode_cases (S (S n)) v)
      with ((Z.lor v 0x80) mod 256 :: vi128_encode_cases (S n) (Z.shiftr v 7)).
    cbn [app vi128_decode_loop]. rewrite rd_app. cbn [obind].
    rewrite cont_byte_payload, cont_byte_flag by lia.
    change (128 =? 0) with false. cbv iota.
    pose proof (shiftl_group_bound v shift ltac:(lia) Hs) as Hg.
    pose proof (shiftr7_bound v shift ltac:(lia) Hs) as [Hr0 Hr1].
    unfold u32. rewrite (Z.mod_small (Z.shiftl (Z.land v 127) shift)) by lia.
    rewrite app_cons_assoc.
    replace (S (length pre)) with (length (pre ++ [Z.lor v 128 mod 256]))
      by (rewrite length_app; cbn; lia).
    rewrite IH; [| lia | apply shiftr7_lt; exact Hv | lia | lia].
    rewrite <- Z.lor_assoc, split7 by lia.
    rewrite length_app. cbn [length]. do 3 f_equal. lia.
Qed.

Lemma vi128_decode_loop64_encode n :
  forall fuel pre v rest shift r,
    (1 <= n <= fuel)%nat -> 0 <= v < 2 ^ (7 * Z.of_nat n) -> 0 <= shift ->
    Z.shiftl v shift < 2^64 ->
    vi128_decode_loop64 fuel (pre ++ vi128_encode_cases n v ++ rest) (length pre) shift r =
      Ok (Some (length pre + n)%nat, Z.lor r (Z.shiftl v shift)).
Proof.
  induction n as [|n IH]; intros fuel pre v rest shift r Hn Hv Hs Hb; [lia|].
  destruct fuel as [|fuel]; [lia|].
  destruct n as [|n].
  - cbn [vi128_encode_cases app vi128_decode_loop64]. rewrite rd_app. cbn [obind].
    destruct (last_byte_payload v ltac:(cbn in Hv; lia)) as [-> ->].
    change (0 =? 0) with true. cbv iota.
    unfold u64. rewrite Z.mod_small.
    + rewrite Nat.add_1_r. reflexivity.
    + split; [apply Z.shiftl_nonneg; lia | exact Hb].
  - change (vi128_encode_cases (S (S n)) v)
      with ((Z.lor v 0x80) mod 256 :: vi128_encode_cases (S n) (Z.shiftr v 7)).
    cbn [app vi128_decode_loop64]. rewrite rd_app. cbn [obind].
    rewrite cont_byte_payload, cont_byte_flag by lia.
    change (128 =? 0) with false. cbv iota.
    pose proof (shiftl_group_bound v shift ltac:(lia) Hs) as Hg.
    pose proof (shiftr7_bound v shift ltac:(lia) Hs) as [Hr0 Hr1].
    unfold u64. rewrite (Z.mod_small (Z.shiftl (Z.land v 127) shift)) by lia.
    rewrite app_cons_assoc.
    replace (S (length pre)) with (length (pre ++ [Z.lor v 128 mod 256]))
      by (rewrite length_app; cbn; lia).
    rewrite IH; [| lia | apply shiftr7_lt; exact Hv | lia | lia].
    rewrite <- Z.lor_assoc, split7 by lia.
    rewrite length_app. cbn [length]. do 3 f_equal. lia.
Qed.

(** The two tables give, for a highest set bit [l], the number of 7-bit
    groups up to that bit. *)
Lemma vi128_t32_groups (l : nat) :
  (l < 32)%nat ->
  let n := nth (31 - l) vi128_t32 0%nat in
  (1 <= n <= 5)%nat /\ (7 * (n - 1) <= l < 7 * n)%nat.
Proof.
  intros Hl. do 32 (destruct l as [|l]; [vm_compute; lia|]). lia.
Qed.

Lemma vi128_t64_groups (l : nat) :
  (l < 64)%nat ->
  let n := nth (63 - l) vi128_t64 0%nat in
  (1 <= n <= 10)%nat /\ (7 * (n - 1) <= l < 7 * n)%nat.
Proof.
  intros Hl. do 64 (destruct l as [|l]; [vm_compute; lia|]). lia.
Qed.

Lemma clz_index w v :
  0 < v < 2 ^ w ->
  exists l : nat, (Z.of_nat l < w) /\ clz w v = (Z.to_nat (w - 1) - l)%nat /\
                  2 ^ Z.of_nat l <= v < 2 ^ (Z.of_nat l + 1).
Proof.
  intros [H0 H1]. exists (Z.to_nat (Z.log2 v)).
  pose proof (Z.log2_nonneg v) as Hl.
  assert (Hw : Z.log2 v < w) by (apply Z.log2_lt_pow2; lia).
  rewrite Z2Nat.id by lia. split; [exact Hw|]. split.
  - unfold clz. lia.
  - pose proof (Z.log2_spec v H0) as Hs. replace (Z.log2 v + 1) with (Z.succ (Z.log2 v)) by lia.
    exact Hs.
Qed.

Lemma groups_bounds (l n : nat) v :
  (1 <= n)%nat -> (7 * (n - 1) <= l < 7 * n)%nat ->
  2 ^ Z.of_nat l <= v < 2 ^ (Z.of_nat l + 1) ->
  2 ^ (7 * (Z.of_nat n - 1)) <= v < 2 ^ (7 * Z.of_nat n).
Proof.
  intros Hn Hl [Hlo Hhi]. split.
  - eapply Z.le_trans; [|exact Hlo]. apply Z.pow_le_mono_r; lia.
  - eapply Z.lt_le_trans; [exact Hhi|]. apply Z.pow_le_mono_r; lia.
Qed.

(** [vi128_estimate_u64]: between 1 and 10 bytes, and as many 7-bit groups
    as the value has, zero taking two. *)
Lemma vi128_estimate_u64_groups v :
  0 <= v < 2^64 ->
  let n := vi128_estimate_u64 v in
  (1 <= n <= 10)%nat /\ v < 2 ^ (7 * Z.of_nat n) /\
  (v <> 0 -> 2 ^ (7 * (Z.of_nat n - 1)) <= v).
Proof.
  intros Hv. cbv zeta. unfold vi128_estimate_u64.
  destruct (Z.eqb_spec v 0) as [->|Hz].
  - split; [lia|]. split; [reflexivity | congruence].
  - destruct (clz_index 64 v ltac:(lia)) as (l & Hl & -> & Hb).
    change (Z.to_nat (64 - 1)) with 63%nat.
    destruct (vi128_t64_groups l ltac:(lia)) as [Hn Hg].
    pose proof (groups_bounds l _ v (proj1 Hn) Hg Hb) as [G1 G2].
    split; [exact Hn|]. split; [exact G2 | intros _; exact G1].
Qed.

Lemma vi128_estimate_u32_tab_groups v :
  0 <= v < 2^32 ->
  let n := vi128_estimate_u32_tab v in
  (1 <= n <= 5)%nat /\ v < 2 ^ (7 * Z.of_nat n) /\
  (v <> 0 -> 2 ^ (7 * (Z.of_nat n - 1)) <= v).
Proof.
  intros Hv. cbv zeta. unfold vi128_estimate_u32_tab.
  destruct (Z.eqb_spec v 0) as [->|Hz].
  - split; [lia|]. split; [reflexivity | congruence].
  - destruct (clz_index 32 v ltac:(lia)) as (l & Hl & -> & Hb).
    change (Z.to_nat (32 - 1)) with 31%nat.
    destruct (vi128_t32_groups l ltac:(lia)) as [Hn Hg].
    pose proof (groups_bounds l _ v (proj1 Hn) Hg Hb) as [G1 G2].
    split; [exact Hn|]. split; [exact G2 | intros _; exact G1].
Qed.

(** The thresholds of [vi128_estimate_u32] are those of the table. *)
Lemma vi128_estimate_u32_tab_eq v :
  0 <= v < 2^32 -> vi128_estimate_u32 v = vi128_estimate_u32_tab v.
Proof.
  intros Hv.
  destruct (vi128_estimate_u32_tab_groups v Hv) as (Hn & Hhi & Hlo).
  unfold vi128_estimate_u32.
  destruct (Z.eqb_spec v 0) as [->|Hz]; [reflexivity|].
  specialize (Hlo Hz).
  remember (vi128_estimate_u32_tab v) as n eqn:En. clear En.
  assert (Hc : n = 1%nat \/ n = 2%nat \/ n = 3%nat \/ n = 4%nat \/ n = 5%nat) by lia.
  destruct Hc as [->|[->|[->|[->| ->]]]]; cbn in Hhi, Hlo;
    repeat match goal with
           | |- context [?a <? ?b] => destruct (Z.ltb_spec a b); try lia
           end; reflexivity.
Qed.

Lemma vi128_estimate_u32_groups v :
  0 <= v < 2^32 ->
  let n := vi128_estimate_u32 v in
  (1 <= n <= 5)%nat /\ v < 2 ^ (7 * Z.of_nat n) /\
  (v <> 0 -> 2 ^ (7 * (Z.of_nat n - 1)) <= v).
Proof.
  intros Hv. cbv zeta. rewrite vi128_estimate_u32_tab_eq by exact Hv.
  apply vi128_estimate_u32_tab_groups. exact Hv.
Qed.

Lemma vi128_decode_u32_encode pre v rest :
  0 <= v < 2^32 ->
  vi128_decode_u32 (pre ++ vi128_encode_u32 v ++ rest) (Some (length pre)) =
    Ok (Some (length pre + length (vi128_encode_u32 v))%nat, v).
Proof.
  intros Hv. destruct (vi128_estimate_u32_groups v Hv) as (Hn & Hhi & _).
  unfold vi128_decode_u32, vi128_encode_u32.
  rewrite vi128_decode_loop_encode; [| lia | lia | lia | rewrite Z.shiftl_0_r; lia].
  rewrite Z.shiftl_0_r, Z.lor_0_l, vi128_encode_cases_length by lia. reflexivity.
Qed.

(** X1: a 32-bit value written by [vi128_encode_u32] anywhere in a buffer
    is read back by [vi128_decode_u32]: the decoder returns the value and
    the pointer just past the bytes that the encoder wrote. *)
Theorem vi128_u32_roundtrip pre v rest :
  0 <= v < 2^32 ->
  vi128_decode_u32 (pre ++ vi128_encode_u32 v ++ rest) (Some (length pre)) =
    Ok (Some (length pre + length (vi128_encode_u32 v))%nat, v).
Proof. exact (vi128_decode_u32_encode pre v rest). Qed.

Lemma vi128_u32_roundtrip_witness :
  vi128_encode_u32 300 = [172; 2] /\
  vi128_decode_u32 ([7; 7] ++ vi128_encode_u32 300 ++ [9]) (Some 2%nat) =
    Ok (Some 4%nat, 300).
Proof.
  split; [reflexivity|].
  apply (vi128_u32_roundtrip [7; 7] 300 [9]). lia.
Defined.

(** X2: [vi128_encode_u32] writes exactly [vi128_estimate_u32 (v)] bytes,
    the entry of the source's table at [clz (v)]: between one and five,
    each a byte, and for a value other than zero the least number of
    7-bit groups that hold it.  Zero takes two bytes, 0x80 0x00. *)
Theorem vi128_estimate_u32_exact v :
  0 <= v < 2^32 ->
  let n := vi128_estimate_u32_tab v in
  length (vi128_encode_u32 v) = n /\ (1 <= n <= 5)%nat /\
  v < 2 ^ (7 * Z.of_nat n) /\
  (v <> 0 -> 2 ^ (7 * (Z.of_nat n - 1)) <= v) /\
  (v = 0 -> vi128_encode_u32 v = [0x80; 0]) /\
  Forall (fun b => 0 <= b < 256) (vi128_encode_u32 v).
Proof.
  intros Hv. cbv zeta.
  destruct (vi128_estimate_u32_tab_groups v Hv) as (Hn & Hhi & Hlo).
  rewrite <- vi128_estimate_u32_tab_eq in * by exact Hv.
  split; [unfold vi128_encode_u32; apply vi128_encode_cases_length; lia|].
  split; [exact Hn|]. split; [exact Hhi|]. split; [exact Hlo|].
  split; [intros ->; reflexivity|].
  unfold vi128_encode_u32. generalize (vi128_estimate_u32 v) as n. clear.
  intros n. revert v. induction n as [|n IH]; intros v; [constructor|].
  destruct n as [|n].
  - cbn. constructor; [|constructor]. apply Z.mod_pos_bound. lia.
  - change (vi128_encode_cases (S (S n)) v)
      with ((Z.lor v 0x80) mod 256 :: vi128_encode_cases (S n) (Z.shiftr v 7)).
    constructor; [apply Z.mod_pos_bound; lia | apply IH].
Qed.

Lemma vi128_estimate_u32_exact_witness :
  length (vi128_encode_u32 16384) = 3%nat /\ vi128_estimate_u32_tab 16384 = 3%nat /\
  2 ^ 14 <= 16384 < 2 ^ 21.
Proof.
  destruct (vi128_estimate_u32_exact 16384 ltac:(lia)) as (H1 & _ & H3 & H4 & _).
  split; [exact H1|]. split; [reflexivity|].
  split; [apply H4; discriminate | exact H3].
Defined.

(** X3: a 64-bit value written by [vi128_encode_u64] is read back by
    [vi128_decode_u64], which returns the value and the pointer just past
    the encoding; the encoding has [vi128_estimate_u64 (v)] bytes, between
    one and ten. *)
Theorem vi128_u64_roundtrip pre v rest :
  0 <= v < 2^64 ->
  let n := vi128_estimate_u64 v in
  length (vi128_encode_u64 v) = n /\ (1 <= n <= 10)%nat /\
  vi128_decode_u64 (pre ++ vi128_encode_u64 v ++ rest) (Some (length pre)) =
    Ok (Some (length pre + n)%nat, v).
Proof.
  intros Hv. cbv zeta. destruct (vi128_estimate_u64_groups v Hv) as (Hn & Hhi & _).
  unfold vi128_decode_u64, vi128_encode_u64.
  split; [apply vi128_encode_cases_length|]. split; [exact Hn|].
  rewrite vi128_decode_loop64_encode; [| lia | lia | lia | rewrite Z.shiftl_0_r; lia].
  rewrite Z.shiftl_0_r, Z.lor_0_l. reflexivity.
Qed.

Lemma vi128_u64_roundtrip_witness :
  length (vi128_encode_u64 (2^63 + 5)) = 10%nat /\
  vi128_decode_u64 ([1] ++ vi128_encode_u64 (2^63 + 5) ++ []) (Some 1%nat) =
    Ok (Some 11%nat, 2^63 + 5).
Proof.
  destruct (vi128_u64_roundtrip [1] (2^63 + 5) [] ltac:(lia)) as (H1 & _ & H3).
  split; [exact H1 | exact H3].
Defined.

(** * kv128 (kv.c) *)

Lemma rd_bytes_app a d rest :
  rd_bytes (a ++ d ++ rest) (length a) (Z.of_nat (length d)) = Ok d.
Proof.
  unfold rd_bytes. rewrite !length_app.
  destruct (Z.leb_spec (Z.of_nat (length a) + Z.of_nat (length d))
                       (Z.of_nat (length a + (length d + length rest)))) as [_|H]; [|lia].
  rewrite Nat2Z.id, drop_app_length, take_app_length. reflexivity.
Qed.

Lemma rd_bytes_all d : rd_bytes d 0 (Z.of_nat (length d)) = Ok d.
Proof.
  pose proof (rd_bytes_app [] d []) as H. cbn [app length] in H.
  rewrite app_nil_r in H. exact H.
Qed.

Lemma kv128_header_encode pre k v rest :
  0 <= k < 2^32 -> 0 <= v < 2^32 ->
  kv128_header (pre ++ vi128_encode_u32 k ++ vi128_encode_u32 v ++ rest) (length pre) =
    Ok (Some (length (pre ++ vi128_encode_u32 k ++ vi128_encode_u32 v)), k, v).
Proof.
  intros Hk Hv. unfold kv128_header.
  rewrite vi128_decode_u32_encode by exact Hk. cbn [obind].
  replace (pre ++ vi128_encode_u32 k ++ vi128_encode_u32 v ++ rest)
    with ((pre ++ vi128_encode_u32 k) ++ vi128_encode_u32 v ++ rest)
    by (rewrite <- app_assoc; reflexivity).
  rewrite <- length_app.
  rewrite vi128_decode_u32_encode by exact Hv. cbn [obind].
  rewrite <- length_app, <- app_assoc. reflexivity.
Qed.

Lemma copy_from_app a d rest :
  copy_from (a ++ d ++ rest) (Some (length a)) 0 (Z.of_nat (length d)) = Ok d.
Proof.
  unfold copy_from.
  destruct (Z.eqb_spec (Z.of_nat (length d)) 0) as [H0|H0].
  - destruct d; [reflexivity | cbn in H0; lia].
  - cbn [Z.to_nat]. rewrite Nat.add_0_r. apply rd_bytes_app.
Qed.

Lemma copy_from_app_off a k d rest :
  copy_from (a ++ k ++ d ++ rest) (Some (length a)) (Z.of_nat (length k))
            (Z.of_nat (length d)) = Ok d.
Proof.
  unfold copy_from.
  destruct (Z.eqb_spec (Z.of_nat (length d)) 0) as [H0|H0].
  - destruct d; [reflexivity | cbn in H0; lia].
  - rewrite Nat2Z.id, <- length_app, app_assoc. apply rd_bytes_app.
Qed.

Lemma u64_small' z : 0 <= z < 2^64 -> u64 z = z.
Proof. intros H. unfold u64. apply Z.mod_small. exact H. Qed.

Lemma kv128_sizes r :
  0 <= kv_vlen r ->
  Z.of_nat (vi128_estimate_u32 (kv_klen r)) +
    Z.of_nat (vi128_estimate_u32 (kv_vlen r)) + kv_klen r + kv_vlen r < 2^32 ->
  let hdr := vi128_encode_u32 (kv_klen r) ++ vi128_encode_u32 (kv_vlen r) in
  Z.of_nat (length hdr) + kv_klen r + kv_vlen r = kv128_estimate_kv r /\
  0 <= kv128_estimate_kv r < 2^32 /\ (2 <= length hdr <= 10)%nat /\
  kv_klen r < 2^32 /\ kv_vlen r < 2^32 /\ kv_klen r + kv_vlen r < 2^32.
Proof.
  intros Hv Hfit. cbv zeta. unfold kv128_estimate_kv.
  pose proof (vi128_encode_length (kv_klen r)) as H1.
  pose proof (vi128_encode_length (kv_vlen r)) as H2.
  unfold vi128_encode_u32 in *. rewrite length_app, !vi128_encode_cases_length in *.
  unfold kv_klen in *. rewrite u32_small by lia. lia.
Qed.

(** X4: a record whose kv128 encoding is shorter than 2^32 bytes (the
    two length prefixes, the key and the value together, so that neither
    the [u32] sum of [kv128_estimate_kv] nor the [u32] length of the
    [memcpy] wraps) and that [kv128_encode_kv] writes is read back by
    [kv128_decode_kv] as the same record; the encoder wrote
    [kv128_estimate_kv] bytes, and both [kv128_decode_kv] and
    [kv128_size] report that size. *)
Theorem kv128_roundtrip base pre r rest :
  0 <= kv_vlen r ->
  Z.of_nat (vi128_estimate_u32 (kv_klen r)) +
    Z.of_nat (vi128_estimate_u32 (kv_vlen r)) + kv_klen r + kv_vlen r < 2^32 ->
  Z.of_nat (length (kv_val r)) = kv_vlen r ->
  exists bytes,
    kv128_encode_kv r = Ok (bytes, kv128_estimate_kv r) /\
    Z.of_nat (length bytes) = kv128_estimate_kv r /\
    kv128_decode_kv base (pre ++ bytes ++ rest) (length pre) =
      Ok (r, kv128_estimate_kv r) /\
    kv128_size base (pre ++ bytes ++ rest) (length pre) = Ok (kv128_estimate_kv r).
Proof.
  intros Hv0 Hfit Hlen.
  destruct (kv128_sizes r Hv0 Hfit) as (Hsz & Hb32 & Hh & Hk & Hv1 & Hsum).
  assert (Hv : 0 <= kv_vlen r < 2^32) by lia.
  assert (Hb : 0 <= kv128_estimate_kv r < 2^64) by lia.
  set (e1 := vi128_encode_u32 (kv_klen r)) in *.
  set (e2 := vi128_encode_u32 (kv_vlen r)) in *.
  exists ((e1 ++ e2) ++ kv_data r).
  assert (Hd : Z.of_nat (length (kv_data r)) = kv_klen r + kv_vlen r).
  { unfold kv_data, kv_klen. rewrite length_app. lia. }
  assert (Hmem : pre ++ ((e1 ++ e2) ++ kv_data r) ++ rest =
                 pre ++ e1 ++ e2 ++ (kv_key r ++ kv_val r ++ rest)).
  { unfold kv_data. rewrite <- !app_assoc. reflexivity. }
  assert (Hmem2 : pre ++ ((e1 ++ e2) ++ kv_data r) ++ rest =
                  (pre ++ e1 ++ e2) ++ kv_key r ++ kv_val r ++ rest).
  { unfold kv_data. rewrite <- !app_assoc. reflexivity. }
  assert (Hhdr : kv128_header (pre ++ ((e1 ++ e2) ++ kv_data r) ++ rest) (length pre) =
                 Ok (Some (length (pre ++ e1 ++ e2)), kv_klen r, kv_vlen r)).
  { rewrite Hmem. apply kv128_header_encode; [unfold kv_klen in *; lia | exact Hv]. }
  assert (Hdiff : ptr_diff base (Some (length (pre ++ e1 ++ e2))) (length pre) =
                  Z.of_nat (length (e1 ++ e2))).
  { unfold ptr_diff. rewrite !length_app. rewrite u64_small'; [lia|].
    rewrite length_app in Hh. lia. }
  split; [|split; [|split]].
  - unfold kv128_encode_kv. fold e1 e2.
    rewrite (u32_small (kv_klen r + kv_vlen r)) by (unfold kv_klen in *; lia).
    rewrite <- Hd, rd_bytes_all. cbn [obind].
    rewrite Hsz, u64_small' by exact Hb. reflexivity.
  - rewrite length_app, Nat2Z.inj_add, Hd. lia.
  - unfold kv128_decode_kv. rewrite Hhdr. cbn [obind]. rewrite Hdiff, Hsz, u64_small' by exact Hb.
    rewrite Hmem2. unfold kv_klen at 1 2.
    rewrite (copy_from_app (pre ++ e1 ++ e2) (kv_key r)).
    cbn [obind]. rewrite <- Hlen.
    rewrite copy_from_app_off. cbn [obind]. rewrite Hlen. destruct r; reflexivity.
  - unfold kv128_size. rewrite Hhdr. cbn [obind].
    rewrite Hdiff, Hsz, u64_small' by exact Hb. reflexivity.
Qed.

Lemma kv128_roundtrip_witness :
  exists bytes,
    kv128_encode_kv (Kv [1; 2] 3 [7; 8; 9]) = Ok (bytes, 7) /\
    Z.of_nat (length bytes) = 7 /\
    kv128_decode_kv 4096 ([0] ++ bytes ++ [5]) 1 = Ok (Kv [1; 2] 3 [7; 8; 9], 7) /\
    kv128_size 4096 ([0] ++ bytes ++ [5]) 1 = Ok 7.
Proof.
  apply (kv128_roundtrip 4096 [0] (Kv [1; 2] 3 [7; 8; 9]) [5]).
  - cbn [kv_vlen]. lia.
  - reflexivity.
  - reflexivity.
Defined.

Lemma memcmp_firstn a b n : memcmp a (firstn n b) n = memcmp a b n.
Proof.
  revert a b. induction n as [|n IH]; intros a b; [destruct a; reflexivity|].
  destruct a as [|x a], b as [|y b]; cbn; try reflexivity.
  destruct (x ?= y); auto.
Qed.

Lemma memcmp_app_r a b tl n : (n <= length b)%nat -> memcmp a (b ++ tl) n = memcmp a b n.
Proof.
  revert a b. induction n as [|n IH]; intros a b Hn; [destruct a; reflexivity|].
  destruct b as [|y b]; [cbn in Hn; lia|].
  destruct a as [|x a]; cbn; [reflexivity|].
  destruct (x ?= y); auto. apply IH. cbn in Hn. lia.
Qed.

Lemma memcmp_at_key a key tl sk n :
  (n <= length key)%nat ->
  memcmp_at sk (a ++ key ++ tl) (Some (length a)) (Z.of_nat n) = Ok (memcmp sk key n).
Proof.
  intros Hn. unfold memcmp_at, copy_from.
  destruct (Z.eqb_spec (Z.of_nat n) 0) as [H0|H0]; cbn [obind].
  - destruct n; [destruct sk; reflexivity | lia].
  - cbn [Z.to_nat]. rewrite Nat.add_0_r.
    replace (a ++ key ++ tl) with (a ++ firstn n key ++ (skipn n key ++ tl))
      by (rewrite (app_assoc (firstn n key)), firstn_skipn; reflexivity).
    replace (Z.of_nat n) with (Z.of_nat (length (firstn n key))) at 1
      by (rewrite length_firstn; lia).
    rewrite rd_bytes_app. cbn [obind]. rewrite Nat2Z.id, memcmp_firstn. reflexivity.
Qed.

(** X5: comparing a key with a kv128-encoded record (the two length
    prefixes, the key, the value), without decoding the record into a
    [struct kv], gives what comparing it with the record's key gives:
    [kref_kv128_compare] (and [kv_kv128_compare]) is [kref_compare], and
    [kv_match_kv128] is [kref_match]. *)
Theorem kv128_compare_key sk pre r rest bytes :
  kv_klen r < 2^32 -> 0 <= kv_vlen r < 2^32 ->
  Z.of_nat (length (kv_val r)) = kv_vlen r ->
  bytes = (vi128_encode_u32 (kv_klen r) ++ vi128_encode_u32 (kv_vlen r)) ++ kv_data r ->
  kref_kv128_compare sk (pre ++ bytes ++ rest) (length pre) =
    Ok (kref_compare sk (kv_key r)) /\
  kv_match_kv128 sk (pre ++ bytes ++ rest) (length pre) =
    Ok (kref_match sk (kv_key r)).
Proof.
  intros Hk Hv Hlen ->.
  set (e1 := vi128_encode_u32 (kv_klen r)) in *.
  set (e2 := vi128_encode_u32 (kv_vlen r)) in *.
  assert (Hmem : pre ++ ((e1 ++ e2) ++ kv_data r) ++ rest =
                 pre ++ e1 ++ e2 ++ (kv_key r ++ kv_val r ++ rest)).
  { unfold kv_data. rewrite <- !app_assoc. reflexivity. }
  assert (Hmem2 : pre ++ ((e1 ++ e2) ++ kv_data r) ++ rest =
                  (pre ++ e1 ++ e2) ++ kv_key r ++ kv_val r ++ rest).
  { unfold kv_data. rewrite <- !app_assoc. reflexivity. }
  assert (Hhdr : kv128_header (pre ++ ((e1 ++ e2) ++ kv_data r) ++ rest) (length pre) =
                 Ok (Some (length (pre ++ e1 ++ e2)), kv_klen r, kv_vlen r)).
  { rewrite Hmem. apply kv128_header_encode; [unfold kv_klen in *; lia | exact Hv]. }
  split.
  - unfold kref_kv128_compare. rewrite Hhdr. cbn [obind]. rewrite Hmem2.
    unfold kv_klen, kref_compare, klen_compare. rewrite Nat2Z.id.
    destruct (Z.ltb_spec (Z.of_nat (length sk)) (Z.of_nat (length (kv_key r)))) as [Hlt|Hge].
    + rewrite memcmp_at_key by lia. cbn [obind].
      rewrite Nat.min_l by lia. destruct (memcmp _ _ _); reflexivity.
    + rewrite memcmp_at_key by lia. cbn [obind].
      rewrite Nat.min_r by lia. destruct (memcmp _ _ _); reflexivity.
  - unfold kv_match_kv128. rewrite Hhdr. cbn [obind]. rewrite Hmem2.
    unfold kv_klen, kref_match.
    destruct (Z.eqb_spec (Z.of_nat (length sk)) (Z.of_nat (length (kv_key r)))) as [He|Hne].
    + rewrite memcmp_at_key by lia. cbn [obind].
      apply Nat2Z.inj in He. rewrite He, Nat.eqb_refl.
      destruct (memcmp _ _ _); reflexivity.
    + destruct (Nat.eqb_spec (length sk) (length (kv_key r))) as [He|_]; [lia|].
      reflexivity.
Qed.

Lemma kv128_compare_key_witness :
  kref_kv128_compare [1; 1] ([0] ++ [2; 1; 1; 2; 9] ++ []) 1 = Ok Lt /\
  kv_match_kv128 [1; 1] ([0] ++ [2; 1; 1; 2; 9] ++ []) 1 = Ok false.
Proof.
  apply (kv128_compare_key [1; 1] [0] (Kv [1; 2] 1 [9]) [] [2; 1; 1; 2; 9]).
  - reflexivity.
  - cbn [kv_vlen]. lia.
  - reflexivity.
  - reflexivity.
Defined.


(** * Key order ([kref_compare], kv.c) *)

Lemma lex_compare_prefix a tl : tl <> [] -> lex_compare a (a ++ tl) = Lt.
Proof.
  intros Htl. induction a as [|x a IH]; cbn.
  - destruct tl; [contradiction | reflexivity].
  - rewrite Z.compare_refl. exact IH.
Qed.

(** X6: [kref_compare] orders keys as byte strings: it answers equal
    exactly on equal keys, which is also when [kref_match] answers true;
    swapping the arguments swaps the answer; less-than is transitive; and
    a key sorts before every proper extension of it. *)
Theorem kref_compare_order a b c tl :
  (kref_compare a b = Eq <-> a = b) /\
  (kref_match a b = true <-> kref_compare a b = Eq) /\
  kref_compare b a = CompOpp (kref_compare a b) /\
  (kref_compare a b = Lt -> kref_compare b c = Lt -> kref_compare a c = Lt) /\
  (tl <> [] -> kref_compare a (a ++ tl) = Lt).
Proof.
  split; [apply kref_compare_eq|].
  split; [rewrite kref_match_eq, kref_compare_eq; tauto|].
  split; [apply kref_compare_antisym|].
  split; [apply kref_compare_lt_trans|].
  intros Htl. rewrite kref_compare_lex. apply lex_compare_prefix. exact Htl.
Qed.

(** * [memlcp] (lib.c) *)

Lemma ctz_nonneg n x : 0 <= ctz n x.
Proof.
  revert x. induction n as [|n IH]; intros x; cbn [ctz]; [lia|].
  destruct (Z.testbit x 0); [lia|]. specialize (IH (Z.shiftr x 1)). lia.
Qed.

Lemma ctz_le n x i :
  0 <= i < Z.of_nat n -> Z.testbit x i = true -> ctz n x <= i.
Proof.
  revert x i. induction n as [|n IH]; intros x i Hi Hb; [lia|].
  cbn [ctz]. destruct (Z.testbit x 0) eqn:E0; [lia|].
  assert (Hi0 : i <> 0) by (intros ->; congruence).
  assert (Hb' : Z.testbit (Z.shiftr x 1) (i - 1) = true).
  { rewrite Z.shiftr_spec by lia. replace (i - 1 + 1) with i by lia. exact Hb. }
  specialize (IH (Z.shiftr x 1) (i - 1) ltac:(lia) Hb'). lia.
Qed.

Lemma ctz_double n x : ctz (S n) (2 * x) = 1 + ctz n x.
Proof.
  cbn [ctz]. rewrite Z.testbit_even_0.
  rewrite Z.shiftr_div_pow2 by lia. change (2 ^ 1) with 2.
  rewrite Z.mul_comm, Z.div_mul by lia. reflexivity.
Qed.

Lemma ctz_256 n x : ctz (8 + n) (256 * x) = 8 + ctz n x.
Proof.
  change (8 + n)%nat with (S (S (S (S (S (S (S (S n)))))))).
  replace (256 * x) with (2 * (2 * (2 * (2 * (2 * (2 * (2 * (2 * x)))))))) by lia.
  rewrite !ctz_double. lia.
Qed.

Lemma testbit_byte_cons b u n :
  0 <= b < 256 -> 0 <= n ->
  Z.testbit (b + 256 * u) n = if n <? 8 then Z.testbit b n else Z.testbit u (n - 8).
Proof.
  intros Hb Hn. destruct (Z.ltb_spec n 8) as [H8|H8].
  - rewrite <- (Z.mod_pow2_bits_low (b + 256 * u) 8 n) by lia.
    change (2 ^ 8) with 256.
    replace ((b + 256 * u) mod 256) with b; [reflexivity|].
    rewrite (Z.mul_comm 256 u), Z.mod_add by lia.
    rewrite Z.mod_small by lia. reflexivity.
  - replace n with ((n - 8) + 8) at 1 by lia.
    rewrite <- Z.div_pow2_bits by lia. change (2 ^ 8) with 256.
    replace ((b + 256 * u) / 256) with u; [reflexivity|].
    rewrite (Z.mul_comm 256 u), Z.div_add by lia.
    rewrite Z.div_small by lia. lia.
Qed.

Lemma byte_lxor a b : 0 <= a < 256 -> 0 <= b < 256 -> 0 <= Z.lxor a b < 256.
Proof.
  intros Ha Hb.
  assert (H0 : 0 <= Z.lxor a b) by (apply Z.lxor_nonneg; lia).
  split; [exact H0|].
  destruct (Z.eq_dec (Z.lxor a b) 0) as [->|Hne]; [lia|].
  change 256 with (2 ^ 8). apply Z.log2_lt_pow2; [lia|].
  pose proof (Z.log2_lxor a b ltac:(lia) ltac:(lia)) as Hl.
  assert (Z.log2 a < 8).
  { destruct (Z.eq_dec a 0) as [->|]; [cbn; lia|]. apply Z.log2_lt_pow2; lia. }
  assert (Z.log2 b < 8).
  { destruct (Z.eq_dec b 0) as [->|]; [cbn; lia|]. apply Z.log2_lt_pow2; lia. }
  lia.
Qed.

Lemma lxor_byte_cons a b u w :
  0 <= a < 256 -> 0 <= b < 256 ->
  Z.lxor (a + 256 * u) (b + 256 * w) = Z.lxor a b + 256 * Z.lxor u w.
Proof.
  intros Ha Hb. apply Z.bits_inj'. intros n Hn.
  rewrite Z.lxor_spec, !testbit_byte_cons by (auto using byte_lxor).
  destruct (n <? 8); rewrite Z.lxor_spec; reflexivity.
Qed.

Lemma le_value_nonneg bs : Forall (fun b => 0 <= b < 256) bs -> 0 <= le_value bs.
Proof.
  induction 1 as [|b bs Hb _ IH]; cbn [le_value]; lia.
Qed.

Lemma byte_set_bit e : 0 < e < 256 -> exists i, 0 <= i < 8 /\ Z.testbit e i = true.
Proof.
  intros He. exists (Z.log2 e). split.
  - split; [apply Z.log2_nonneg|]. apply Z.log2_lt_pow2; lia.
  - apply Z.bit_log2. lia.
Qed.

(** Two words loaded from byte strings: their exclusive-or is zero when
    the strings are equal, and otherwise its trailing zero bits, counted
    in bytes, are the common prefix. *)
Lemma word_diff a :
  forall b,
    length a = length b ->
    Forall (fun v => 0 <= v < 256) a -> Forall (fun v => 0 <= v < 256) b ->
    let x := Z.lxor (le_value a) (le_value b) in
    (x = 0 -> a = b) /\
    (x <> 0 ->
     Z.to_nat (Z.shiftr (ctz (8 * length a) x) 3) = common_prefix a b /\
     (common_prefix a b < length a)%nat).
Proof.
  induction a as [|x0 a IH]; intros [|y0 b] Hlen Ha Hb; cbn [length] in Hlen; try lia.
  - cbv zeta. split; [reflexivity | intros H; exfalso; apply H; reflexivity].
  - pose proof (List.Forall_inv Ha) as Hx0. pose proof (List.Forall_inv_tail Ha) as Ha'.
    pose proof (List.Forall_inv Hb) as Hy0. pose proof (List.Forall_inv_tail Hb) as Hb'.
    cbn beta in Hx0, Hy0.
    specialize (IH b ltac:(lia) Ha' Hb'). cbv zeta in IH. destruct IH as [IH1 IH2].
    cbv zeta. cbn [le_value common_prefix length].
    rewrite lxor_byte_cons by assumption.
    pose proof (le_value_nonneg a Ha') as HA. pose proof (le_value_nonneg b Hb') as HB.
    assert (HX : 0 <= Z.lxor (le_value a) (le_value b)) by (apply Z.lxor_nonneg; lia).
    destruct (Z.eqb_spec x0 y0) as [->|Hne].
    + rewrite Z.lxor_nilpotent, Z.add_0_l. split.
      * intros H0. f_equal. apply IH1. lia.
      * intros H0. destruct (IH2 ltac:(lia)) as [Hd Hlt].
        split; [|lia]. rewrite <- Hd.
        replace (8 * S (length a))%nat with (8 + 8 * length a)%nat by lia.
        rewrite ctz_256.
        pose proof (ctz_nonneg (8 * length a) (Z.lxor (le_value a) (le_value b))) as Hc.
        rewrite !Z.shiftr_div_pow2 by lia. change (2 ^ 3) with 8.
        replace (8 + ctz (8 * length a) (Z.lxor (le_value a) (le_value b)))
          with (ctz (8 * length a) (Z.lxor (le_value a) (le_value b)) + 1 * 8) by lia.
        rewrite Z.div_add by lia.
        assert (0 <= ctz (8 * length a) (Z.lxor (le_value a) (le_value b)) / 8)
          by (apply Z.div_pos; lia).
        lia.
    + pose proof (byte_lxor x0 y0 Hx0 Hy0) as He.
      assert (He0 : Z.lxor x0 y0 <> 0) by (rewrite Z.lxor_eq_0_iff; exact Hne).
      split; [lia|]. intros _. split; [|lia].
      destruct (byte_set_bit (Z.lxor x0 y0) ltac:(lia)) as (i & Hi & Hbit).
      assert (Hbx : Z.testbit (Z.lxor x0 y0 + 256 * Z.lxor (le_value a) (le_value b)) i = true).
      { rewrite testbit_byte_cons by lia.
        destruct (Z.ltb_spec i 8); [exact Hbit | lia]. }
      pose proof (ctz_le (8 * S (length a)) _ i ltac:(lia) Hbx) as Hc.
      pose proof (ctz_nonneg (8 * S (length a))
                    (Z.lxor x0 y0 + 256 * Z.lxor (le_value a) (le_value b))) as Hc0.
      rewrite Z.shiftr_div_pow2 by lia. change (2 ^ 3) with 8.
      rewrite Z.div_small by lia. reflexivity.
Qed.

Lemma land_mask8 m : 0 <= m < 2^32 -> Z.land m 0xFFFFFFF8 = 8 * (m / 8).
Proof.
  intros Hm. apply Z.bits_inj'. intros n Hn.
  change 0xFFFFFFF8 with (Z.ldiff (Z.ones 32) (Z.ones 3)).
  rewrite Z.land_spec, Z.ldiff_spec, !Z.testbit_ones_nonneg by lia.
  replace (8 * (m / 8)) with (Z.shiftl (Z.shiftr m 3) 3)
    by (rewrite Z.shiftl_mul_pow2, Z.shiftr_div_pow2 by lia; change (2 ^ 3) with 8; lia).
  destruct (Z.ltb_spec n 3) as [H3|H3]; destruct (Z.ltb_spec n 32) as [H32|H32];
    cbn [negb andb]; rewrite ?andb_true_r, ?andb_false_r; try lia.
  - rewrite Z.shiftl_spec_low by lia. reflexivity.
  - rewrite Z.shiftl_spec, Z.shiftr_spec by lia. replace (n - 3 + 3) with n by lia.
    reflexivity.
  - rewrite Z.shiftl_spec, Z.shiftr_spec by lia. replace (n - 3 + 3) with n by lia.
    symmetry. destruct (Z.eq_dec m 0) as [->|Hz]; [apply Z.bits_0|].
    apply Z.bits_above_log2; [lia|].
    assert (Z.log2 m < 32) by (apply Z.log2_lt_pow2; lia). lia.
Qed.

Lemma common_prefix_app_same a a2 b2 :
  common_prefix (a ++ a2) (a ++ b2) = (length a + common_prefix a2 b2)%nat.
Proof.
  induction a as [|x a IH]; cbn [app common_prefix length]; [reflexivity|].
  rewrite Z.eqb_refl, IH. reflexivity.
Qed.

Lemma common_prefix_app_diff a :
  forall b a2 b2,
    length a = length b -> (common_prefix a b < length a)%nat ->
    common_prefix (a ++ a2) (b ++ b2) = common_prefix a b.
Proof.
  induction a as [|x a IH]; intros [|y b] a2 b2 Hlen Hlt; cbn [length] in *; try lia.
  cbn [app common_prefix] in *. destruct (x =? y); [|reflexivity].
  f_equal. apply IH; lia.
Qed.

Lemma common_prefix_le a b : (common_prefix a b <= length a)%nat.
Proof.
  revert b. induction a as [|x a IH]; intros [|y b]; cbn; try lia.
  destruct (x =? y); [specialize (IH b)|]; lia.
Qed.

Lemma take_drop_split (p : list Z) clen k n :
  (clen + k <= n)%nat -> (n <= length p)%nat ->
  firstn (n - clen) (skipn clen p) =
    firstn k (skipn clen p) ++ firstn (n - (clen + k)) (skipn (clen + k) p).
Proof.
  intros Hk Hn.
  replace (n - clen)%nat with (k + (n - (clen + k)))%nat by lia.
  rewrite <- (firstn_skipn k (skipn clen p)) at 1.
  rewrite firstn_app, length_firstn, length_skipn.
  replace (k + (n - (clen + k)) - Init.Nat.min k (length p - clen))%nat
    with (n - (clen + k))%nat by lia.
  rewrite firstn_firstn. replace (Init.Nat.min (k + (n - (clen + k))) k) with k by lia.
  rewrite skipn_skipn. rewrite (Nat.add_comm k clen). reflexivity.
Qed.

Lemma take_word_length (p : list Z) clen k :
  (clen + k <= length p)%nat -> length (firstn k (skipn clen p)) = k.
Proof. intros H. rewrite length_firstn, length_skipn. lia. Qed.

Lemma Forall_take_drop (P : Z -> Prop) p k clen :
  Forall P p -> Forall P (firstn k (skipn clen p)).
Proof. intros H. apply Forall_take, Forall_drop. exact H. Qed.

(** What is left of the common prefix from offset [clen] on, within [n]. *)
Lemma word_step k (p1 p2 : list Z) n clen :
  (clen + k <= n)%nat -> (n <= length p1)%nat -> (n <= length p2)%nat ->
  Forall (fun v => 0 <= v < 256) p1 -> Forall (fun v => 0 <= v < 256) p2 ->
  let rest c := common_prefix (firstn (n - c) (skipn c p1)) (firstn (n - c) (skipn c p2)) in
  let x := Z.lxor (load_le k p1 clen) (load_le k p2 clen) in
  (x = 0 -> rest clen = (k + rest (clen + k))%nat) /\
  (x <> 0 -> rest clen = Z.to_nat (Z.shiftr (ctz (8 * k) x) 3)).
Proof.
  intros Hk H1 H2 B1 B2. cbv zeta. unfold load_le.
  set (a := firstn k (skipn clen p1)). set (b := firstn k (skipn clen p2)).
  assert (La : length a = k) by (apply take_word_length; lia).
  assert (Lb : length b = k) by (apply take_word_length; lia).
  destruct (word_diff a b ltac:(lia) (Forall_take_drop _ _ _ _ B1) (Forall_take_drop _ _ _ _ B2))
    as [W1 W2].
  rewrite (take_drop_split p1 clen k n Hk H1), (take_drop_split p2 clen k n Hk H2).
  fold a b. rewrite La in W2. split.
  - intros H0. rewrite <- (W1 H0), common_prefix_app_same, La. reflexivity.
  - intros H0. destruct (W2 H0) as [Hd Hlt].
    rewrite common_prefix_app_diff by lia. symmetry. exact Hd.
Qed.

Lemma take_drop_head (p : list Z) clen n :
  (clen < n)%nat -> (n <= length p)%nat ->
  firstn (n - clen) (skipn clen p) =
    nth clen p 0 :: firstn (n - S clen) (skipn (S clen) p).
Proof.
  revert clen n. induction p as [|x p IH]; intros clen n Hc Hn; cbn [length] in Hn; [lia|].
  destruct clen as [|clen].
  - destruct n as [|n]; [lia|]. cbn. rewrite Nat.sub_0_r. reflexivity.
  - destruct n as [|n]; [lia|]. cbn [skipn nth Nat.sub].
    apply (IH clen n); lia.
Qed.

Lemma memlcp_inv_0 p1 p2 max : memlcp_inv p1 p2 max 0.
Proof.
  unfold memlcp_inv, memlcp_rest. split; [lia|]. rewrite Nat.sub_0_r. reflexivity.
Qed.

Lemma memlcp_loop64_spec p1 p2 max max64 m fuel :
  (max <= length p1)%nat -> (max <= length p2)%nat ->
  Forall (fun v => 0 <= v < 256) p1 -> Forall (fun v => 0 <= v < 256) p2 ->
  forall clen q,
    clen = (8 * q)%nat -> max64 = (8 * m)%nat -> (max64 <= max)%nat ->
    (max64 - clen <= 8 * fuel)%nat -> memlcp_inv p1 p2 max clen ->
    match memlcp_loop64 fuel p1 p2 max64 clen with
    | (c, true) => c = common_prefix (firstn max p1) (firstn max p2)
    | (c, false) => memlcp_inv p1 p2 max c
    end.
Proof.
  intros H1 H2 B1 B2.
  induction fuel as [|fuel IH]; intros clen q Hq Hm Hle Hfuel Hinv;
    cbn [memlcp_loop64]; [exact Hinv|].
  destruct (Nat.ltb_spec clen max64) as [Hlt|Hge]; [|exact Hinv].
  assert (Hk : (clen + 8 <= max)%nat) by lia.
  destruct (word_step 8 p1 p2 max clen Hk H1 H2 B1 B2) as [W0 W1].
  change (8 * 8)%nat with 64%nat in W1.
  destruct Hinv as [Hc Ht]. unfold memlcp_inv, memlcp_rest in *.
  destruct (Z.eqb_spec (Z.lxor (load_le 8 p1 clen) (load_le 8 p2 clen)) 0) as [E|E];
    cbn [negb].
  - specialize (W0 E). apply (IH (clen + 8)%nat (S q)); lia.
  - rewrite Ht, (W1 E). reflexivity.
Qed.

Lemma memlcp_bytes_spec p1 p2 max fuel :
  (max <= length p1)%nat -> (max <= length p2)%nat ->
  forall clen, (max - clen <= fuel)%nat -> memlcp_inv p1 p2 max clen ->
               memlcp_bytes fuel p1 p2 max clen =
                 common_prefix (firstn max p1) (firstn max p2).
Proof.
  intros H1 H2.
  induction fuel as [|fuel IH]; intros clen Hfuel [Hc Ht]; cbn [memlcp_bytes].
  - assert (clen = max) by lia. subst clen. rewrite Ht. unfold memlcp_rest.
    rewrite Nat.sub_diag, !firstn_O. cbn [common_prefix]. lia.
  - destruct (Nat.ltb_spec clen max) as [Hlt|Hge]; cbn [andb].
    + unfold memlcp_rest in Ht.
      rewrite (take_drop_head p1 clen max Hlt H1), (take_drop_head p2 clen max Hlt H2) in Ht.
      cbn [common_prefix] in Ht.
      destruct (nth clen p1 0 =? nth clen p2 0).
      * apply IH; [lia|]. split; [lia|]. rewrite Ht. unfold memlcp_rest. lia.
      * lia.
    + assert (clen = max) by lia. subst clen. rewrite Ht. unfold memlcp_rest.
      rewrite Nat.sub_diag, !firstn_O. cbn [common_prefix]. lia.
Qed.

Lemma memlcp_total p1 p2 max :
  (max <= length p1)%nat -> (max <= length p2)%nat ->
  Forall (fun v => 0 <= v < 256) p1 -> Forall (fun v => 0 <= v < 256) p2 ->
  Z.of_nat max < 2^32 ->
  memlcp p1 p2 max = common_prefix (firstn max p1) (firstn max p2).
Proof.
  intros H1 H2 B1 B2 Hmax. unfold memlcp.
  rewrite land_mask8 by lia.
  pose proof (Z.mul_div_le (Z.of_nat max) 8 ltac:(lia)) as Hdiv.
  assert (Hq : 0 <= Z.of_nat max / 8) by (apply Z.div_pos; lia).
  pose proof (memlcp_loop64_spec p1 p2 max (Z.to_nat (8 * (Z.of_nat max / 8)))
                (Z.to_nat (Z.of_nat max / 8)) max H1 H2 B1 B2 0%nat 0%nat
                ltac:(lia) ltac:(lia) ltac:(lia) ltac:(lia) (memlcp_inv_0 p1 p2 max))
    as Hloop.
  destruct (memlcp_loop64 max p1 p2 _ 0) as [c [|]]; [exact Hloop|].
  destruct (Nat.leb_spec (c + 4) max) as [H4|H4].
  - destruct (word_step 4 p1 p2 max c H4 H1 H2 B1 B2) as [W0 W1].
    change (8 * 4)%nat with 32%nat in W1.
    destruct Hloop as [Hc Ht]. unfold memlcp_rest in *.
    destruct (Z.eqb_spec (Z.lxor (load_le 4 p1 c) (load_le 4 p2 c)) 0) as [E|E];
      cbn [negb].
    + apply memlcp_bytes_spec; [exact H1 | exact H2 | lia|].
      split; [lia|]. unfold memlcp_rest. rewrite Ht, (W0 E). lia.
    + rewrite Ht, (W1 E). reflexivity.
  - apply memlcp_bytes_spec; [exact H1 | exact H2 | lia | exact Hloop].
Qed.

Lemma common_prefix_agree a b :
  firstn (common_prefix a b) a = firstn (common_prefix a b) b.
Proof.
  revert b. induction a as [|x a IH]; intros [|y b]; cbn [common_prefix firstn]; try reflexivity.
  destruct (Z.eqb_spec x y) as [->|Hne]; [|reflexivity].
  cbn [firstn]. f_equal. apply IH.
Qed.

Lemma common_prefix_differ a b :
  (common_prefix a b < length a)%nat -> (common_prefix a b < length b)%nat ->
  nth (common_prefix a b) a 0 <> nth (common_prefix a b) b 0.
Proof.
  revert b. induction a as [|x a IH]; intros [|y b]; cbn [common_prefix length]; try lia.
  destruct (Z.eqb_spec x y) as [->|Hne]; cbn [nth]; [|intros _ _; exact Hne].
  intros Ha Hb. apply IH; lia.
Qed.

Lemma common_prefix_le_r a b : (common_prefix a b <= length b)%nat.
Proof.
  revert b. induction a as [|x a IH]; intros [|y b]; cbn; try lia.
  destruct (x =? y); [specialize (IH b)|]; lia.
Qed.

Lemma common_prefix_take m a b :
  (Nat.min (length a) (length b) <= m)%nat ->
  common_prefix (firstn m a) (firstn m b) = common_prefix a b.
Proof.
  revert a b. induction m as [|m IH]; intros [|x a] [|y b] Hm; cbn [length] in Hm;
    cbn [firstn common_prefix]; try reflexivity; try lia.
  destruct (x =? y); [|reflexivity]. f_equal. apply IH. lia.
Qed.

(** X7: [memlcp], which compares eight and then four bytes at a time and
    finds the first differing byte from the trailing zero bits of the
    exclusive-or, returns the length of the longest common prefix of the
    first [max] bytes of the two buffers: that many bytes agree, and
    the next byte, if it is among the first [max], differs. *)
Theorem memlcp_longest_common_prefix p1 p2 max :
  (max <= length p1)%nat -> (max <= length p2)%nat -> Z.of_nat max < 2^32 ->
  Forall (fun v => 0 <= v < 256) p1 -> Forall (fun v => 0 <= v < 256) p2 ->
  let r := memlcp p1 p2 max in
  r = common_prefix (firstn max p1) (firstn max p2) /\
  (r <= max)%nat /\ firstn r p1 = firstn r p2 /\
  ((r < max)%nat -> nth r p1 0 <> nth r p2 0).
Proof.
  intros H1 H2 Hmax B1 B2. cbv zeta.
  rewrite (memlcp_total p1 p2 max H1 H2 B1 B2 Hmax).
  set (a := firstn max p1). set (b := firstn max p2).
  assert (La : length a = max) by (unfold a; rewrite length_firstn; lia).
  assert (Lb : length b = max) by (unfold b; rewrite length_firstn; lia).
  pose proof (common_prefix_le a b) as Hle. rewrite La in Hle.
  pose proof (common_prefix_agree a b) as Hag.
  assert (Hd : (common_prefix a b < max)%nat ->
               nth (common_prefix a b) a 0 <> nth (common_prefix a b) b 0).
  { intros Hlt. apply common_prefix_differ; lia. }
  split; [reflexivity|]. split; [exact Hle|].
  remember (common_prefix a b) as r eqn:Er. clear Er.
  unfold a, b in Hag, Hd. rewrite !firstn_firstn in Hag.
  replace (Init.Nat.min r max) with r in Hag by lia.
  split; [exact Hag|]. intros Hlt. specialize (Hd Hlt).
  rewrite !nth_firstn in Hd.
  destruct (Nat.ltb_spec r max); [exact Hd | lia].
Qed.

Lemma memlcp_longest_common_prefix_witness :
  memlcp [1; 2; 3; 4; 5; 6; 7; 8; 9; 10; 11; 12; 13]
         [1; 2; 3; 4; 5; 6; 7; 8; 9; 10; 99; 12; 13] 13 = 10%nat /\
  nth 10 [1; 2; 3; 4; 5; 6; 7; 8; 9; 10; 11; 12; 13] 0 <>
  nth 10 [1; 2; 3; 4; 5; 6; 7; 8; 9; 10; 99; 12; 13] 0.
Proof.
  destruct (memlcp_longest_common_prefix
              [1; 2; 3; 4; 5; 6; 7; 8; 9; 10; 11; 12; 13]
              [1; 2; 3; 4; 5; 6; 7; 8; 9; 10; 99; 12; 13] 13)
    as (Hr & _ & _ & Hd).
  - cbn. lia.
  - cbn. lia.
  - reflexivity.
  - repeat constructor; lia.
  - repeat constructor; lia.
  - split; [exact Hr|]. apply Hd. rewrite Hr. cbn. lia.
Defined.

(** X8: [kref_lcp] (and [kv_key_lcp], [kref_kv_lcp]) is the number of
    leading bytes that the two keys share; [kv_key_lcp_skip], told a
    length [lcp0] that the keys do share, returns the same number. *)
Theorem kref_lcp_common_prefix k1 k2 lcp0 :
  Z.of_nat (length k1) < 2^32 -> Z.of_nat (length k2) < 2^32 ->
  Forall (fun v => 0 <= v < 256) k1 -> Forall (fun v => 0 <= v < 256) k2 ->
  kref_lcp k1 k2 = common_prefix k1 k2 /\
  ((lcp0 <= common_prefix k1 k2)%nat -> kv_key_lcp_skip k1 k2 lcp0 = common_prefix k1 k2).
Proof.
  intros L1 L2 B1 B2.
  assert (Hmin : (if (length k1 <? length k2)%nat then length k1 else length k2) =
                 Nat.min (length k1) (length k2)).
  { destruct (Nat.ltb_spec (length k1) (length k2)); lia. }
  split.
  - unfold kref_lcp. rewrite Hmin.
    rewrite memlcp_total by (auto; lia).
    apply common_prefix_take. lia.
  - intros Hl. unfold kv_key_lcp_skip. cbv zeta. rewrite Hmin.
    pose proof (common_prefix_le k1 k2) as Hc1.
    pose proof (common_prefix_le_r k1 k2) as Hc2.
    rewrite memlcp_total;
      [| rewrite length_skipn; lia | rewrite length_skipn; lia
       | apply Forall_drop; exact B1 | apply Forall_drop; exact B2 | lia].
    rewrite common_prefix_take by (rewrite !length_skipn; lia).
    assert (Hag : firstn lcp0 k1 = firstn lcp0 k2).
    { pose proof (common_prefix_agree k1 k2) as Hag.
      apply (f_equal (firstn lcp0)) in Hag. rewrite !firstn_firstn in Hag.
      replace (Init.Nat.min lcp0 (common_prefix k1 k2)) with lcp0 in Hag by lia.
      exact Hag. }
    replace (common_prefix k1 k2)
      with (common_prefix (firstn lcp0 k1 ++ skipn lcp0 k1) (firstn lcp0 k2 ++ skipn lcp0 k2))
      by (rewrite !firstn_skipn; reflexivity).
    rewrite Hag, common_prefix_app_same, length_firstn. lia.
Qed.

Lemma kref_lcp_common_prefix_witness :
  kref_lcp [7; 7; 7; 1] [7; 7; 7; 2; 5] = 3%nat /\
  kv_key_lcp_skip [7; 7; 7; 1] [7; 7; 7; 2; 5] 2 = 3%nat.
Proof.
  destruct (kref_lcp_common_prefix [7; 7; 7; 1] [7; 7; 7; 2; 5] 2) as [Ha Hb].
  - reflexivity.
  - reflexivity.
  - repeat constructor; lia.
  - repeat constructor; lia.
  - split; [exact Ha | apply Hb; cbn; lia].
Defined.

(** * [bits_round_up] (lib.c) *)

(** X9: [bits_round_up (v, power)], with which the WAL sizes its writes
    to whole pages, returns the least multiple of [2^power] that is not
    below [v], as long as [v + 2^power - 1] fits 64 bits; when it does not
    fit, the sum wraps and the result is 0. *)
Theorem bits_round_up_least_multiple v p :
  0 <= v < 2^64 -> 0 <= p < 64 ->
  let r := bits_round_up v p in
  (v + 2^p - 1 < 2^64 ->
   r mod 2^p = 0 /\ v <= r < v + 2^p /\
   (forall m, m mod 2^p = 0 -> v <= m -> r <= m)) /\
  (2^64 <= v + 2^p - 1 -> r = 0).
Proof.
  intros Hv Hp. cbv zeta. unfold bits_round_up.
  rewrite Z.shiftl_1_l.
  assert (Hpos : 0 < 2 ^ p) by (apply Z.pow_pos_nonneg; lia).
  assert (Hp64 : 2 ^ p < 2 ^ 64) by (apply Z.pow_lt_mono_r; lia).
  split.
  - intros Hfit.
    pose proof (Z.div_mod (v + 2 ^ p - 1) (2 ^ p) ltac:(lia)) as Hdm.
    pose proof (Z.mod_pos_bound (v + 2 ^ p - 1) (2 ^ p) Hpos) as Hmb.
    assert (Hq : 0 <= (v + 2 ^ p - 1) / 2 ^ p) by (apply Z.div_pos; lia).
    assert (Heq : u64 (Z.shiftl (Z.shiftr (u64 (v + 2 ^ p - 1)) p) p) =
                  (v + 2 ^ p - 1) / 2 ^ p * 2 ^ p).
    { unfold u64 at 2. rewrite (Z.mod_small (v + 2 ^ p - 1)) by lia.
      rewrite Z.shiftr_div_pow2, Z.shiftl_mul_pow2 by lia.
      apply u64_small'. lia. }
    rewrite Heq. clear Heq.
    set (q := (v + 2 ^ p - 1) / 2 ^ p) in *.
    set (t := (v + 2 ^ p - 1) mod 2 ^ p) in *.
    set (P := 2 ^ p) in *.
    assert (Hr : q * P = v + P - 1 - t) by lia.
    split; [apply Z.mod_mul; lia|]. split; [lia|].
    intros m Hm Hvm.
    apply Z.mod_divide in Hm; [|lia]. destruct Hm as [k ->].
    assert (q <= k); [|nia].
    destruct (Z.le_gt_cases q k) as [Hle|Hgt]; [exact Hle|].
    assert (k + 1 <= q) by lia.
    assert ((k + 1) * P <= q * P) by (apply Z.mul_le_mono_nonneg_r; lia).
    lia.
  - intros Hwrap.
    unfold u64 at 2.
    replace ((v + 2 ^ p - 1) mod 2 ^ 64) with (v + 2 ^ p - 1 - 2 ^ 64).
    + rewrite Z.shiftr_div_pow2 by lia. rewrite Z.div_small by lia.
      rewrite Z.shiftl_0_l. reflexivity.
    + apply Z.mod_unique with (q := 1); lia.
Qed.

Lemma bits_round_up_least_multiple_witness :
  bits_round_up 4097 12 = 8192 /\ bits_round_up (2^64 - 5) 12 = 0.
Proof.
  destruct (bits_round_up_least_multiple 4097 12 ltac:(lia) ltac:(lia)) as [H1 _].
  destruct (bits_round_up_least_multiple (2^64 - 5) 12 ltac:(lia) ltac:(lia)) as [_ H2].
  split; [reflexivity | apply H2; lia].
Defined.


(** * Records in the write-ahead log: what [wal_vi128_decode] accepts *)

Lemma lxor_lt_pow2 a b n :
  0 <= n -> 0 <= a < 2 ^ n -> 0 <= b < 2 ^ n -> 0 <= Z.lxor a b < 2 ^ n.
Proof.
  intros Hn Ha Hb.
  assert (H0 : 0 <= Z.lxor a b) by (apply Z.lxor_nonneg; lia).
  split; [exact H0|].
  destruct (Z.eq_dec (Z.lxor a b) 0) as [->|Hne]; [apply Z.pow_pos_nonneg; lia|].
  apply Z.log2_lt_pow2; [lia|].
  pose proof (Z.log2_lxor a b ltac:(lia) ltac:(lia)) as Hl.
  assert (Z.log2 a < n \/ a = 0).
  { destruct (Z.eq_dec a 0) as [->|]; [right; reflexivity|left]. apply Z.log2_lt_pow2; lia. }
  assert (Z.log2 b < n \/ b = 0).
  { destruct (Z.eq_dec b 0) as [->|]; [right; reflexivity|left]. apply Z.log2_lt_pow2; lia. }
  assert (n <> 0).
  { intros ->. change (2 ^ 0) with 1 in *. assert (a = 0) by lia. assert (b = 0) by lia.
    subst. apply Hne. reflexivity. }
  assert (Z.log2 0 = 0) by reflexivity.
  destruct H as [H| ->], H1 as [H1| ->]; lia.
Qed.

Lemma crc32c_bits_range n crc : 0 <= crc < 2^32 -> 0 <= crc32c_bits n crc < 2^32.
Proof.
  revert crc. induction n as [|n IH]; intros crc Hc; cbn [crc32c_bits]; [exact Hc|].
  apply IH.
  assert (Hs : 0 <= Z.shiftr crc 1 < 2^32).
  { rewrite Z.shiftr_div_pow2 by lia. change (2 ^ 1) with 2.
    split; [apply Z.div_pos; lia|]. apply Z.div_lt_upper_bound; lia. }
  destruct (Z.testbit crc 0); [|exact Hs].
  apply lxor_lt_pow2; [lia | exact Hs | unfold CRC32C_POLY; lia].
Qed.

Lemma crc32c_inc_range buf crc :
  Forall (fun b => 0 <= b < 256) buf -> 0 <= crc < 2^32 ->
  0 <= crc32c_inc buf crc < 2^32.
Proof.
  unfold crc32c_inc. intros Hb. revert crc.
  induction Hb as [|b buf Hb0 _ IH]; intros crc Hc; cbn [fold_left]; [exact Hc|].
  apply IH. unfold crc32c_u8. apply crc32c_bits_range.
  apply lxor_lt_pow2; lia.
Qed.

Lemma kv_crc32c_range buf :
  Forall (fun b => 0 <= b < 256) buf -> 0 <= kv_crc32c buf < 2^32.
Proof.
  intros Hb. unfold kv_crc32c. apply crc32c_inc_range; [exact Hb|].
  unfold KV_CRC32C_SEED. lia.
Qed.

Lemma le_value_le_bytes n c :
  0 <= c < 256 ^ Z.of_nat n -> le_value (le_bytes n c) = c.
Proof.
  revert c. induction n as [|n IH]; intros c Hc.
  - cbn in *. lia.
  - cbn [le_bytes le_value]. rewrite IH.
    + pose proof (Z.div_mod c 256 ltac:(lia)). lia.
    + rewrite Nat2Z.inj_succ, Z.pow_succ_r in Hc by lia.
      split; [apply Z.div_pos; lia|]. apply Z.div_lt_upper_bound; lia.
Qed.

Lemma length_le_bytes n c : length (le_bytes n c) = n.
Proof. revert c. induction n as [|n IH]; intros c; cbn; [reflexivity|]. rewrite IH. reflexivity. Qed.

Lemma count_loop_split n m mem p c :
  count_loop (n + m) mem p c =
    let* c1 := count_loop n mem p c in count_loop m mem (p + n) c1.
Proof.
  revert p c. induction n as [|n IH]; intros p c; cbn [count_loop Nat.add obind].
  - rewrite Nat.add_0_r. reflexivity.
  - destruct (rd mem p) as [b| | |]; cbn [obind]; try reflexivity.
    rewrite IH. replace (S p + n)%nat with (p + S n)%nat by lia. reflexivity.
Qed.

Lemma count_loop_ge n mem p c c' : count_loop n mem p c = Ok c' -> (c <= c')%nat.
Proof.
  revert p c. induction n as [|n IH]; intros p c; cbn [count_loop].
  - intros [= <-]. lia.
  - destruct (rd mem p) as [b| | |]; cbn [obind]; try discriminate.
    intros H. apply IH in H. destruct (Z.land b 128 =? 0); lia.
Qed.

(** The bytes of one varint hold one byte without the continuation bit. *)
Lemma count_loop_encode n :
  forall pre v rest c,
    (1 <= n)%nat -> 0 <= v < 2 ^ (7 * Z.of_nat n) ->
    count_loop n (pre ++ vi128_encode_cases n v ++ rest) (length pre) c = Ok (S c).
Proof.
  induction n as [|n IH]; intros pre v rest c Hn Hv; [lia|].
  destruct n as [|n].
  - cbn [vi128_encode_cases app count_loop]. rewrite rd_app. cbn [obind].
    destruct (last_byte_payload v ltac:(cbn in Hv; lia)) as [_ ->]. reflexivity.
  - change (vi128_encode_cases (S (S n)) v)
      with ((Z.lor v 0x80) mod 256 :: vi128_encode_cases (S n) (Z.shiftr v 7)).
    cbn [app]. change (count_loop (S (S n))) with (fun mem p count =>
      let* b := rd mem p in
      count_loop (S n) mem (S p) (if Z.land b 0x80 =? 0 then S count else count)).
    cbv beta. rewrite rd_app. cbn [obind].
    rewrite cont_byte_flag by lia. change (128 =? 0) with false. cbv iota.
    rewrite app_cons_assoc.
    replace (S (length pre)) with (length (pre ++ [Z.lor v 128 mod 256]))
      by (rewrite length_app; cbn; lia).
    apply IH; [lia | apply shiftr7_lt; exact Hv].
Qed.

Lemma wal_bytes_length key vlen val :
  length (wal_bytes key vlen val) =
    (length (vi128_encode_u32 (Z.of_nat (length key))) + length (vi128_encode_u32 vlen) +
     length key + length val + 4)%nat.
Proof. unfold wal_bytes. rewrite !length_app, length_le_bytes. lia. Qed.

Lemma wal_vi128_decode_layout pre r sum rest :
  wal_record_ok r -> length sum = 4%nat ->
  let bytes := vi128_encode_u32 (kv_klen r) ++ vi128_encode_u32 (kv_vlen r) ++
               kv_key r ++ kv_val r ++ sum in
  let mem := pre ++ bytes ++ rest in
  if kv_crc32c (kv_key r) =? le_value sum then
    exists wk,
      wal_vi128_decode mem (length pre) =
        Ok (Some (wk, (length pre + length bytes)%nat)) /\
      wal_kv_record mem wk = r /\ wk_hash32 wk = kv_crc32c (kv_key r)
  else wal_vi128_decode mem (length pre) = Ok None.
Proof.
  intros (Hv & Hsum & Hval & Hkey) Hsl. cbv zeta.
  destruct r as [key vlen val]. cbn [kv_key kv_vlen kv_val] in *. unfold kv_klen in *.
  cbn [kv_key] in *.
  set (klen := Z.of_nat (length key)) in *.
  set (n := Z.land vlen SST_VLEN_MASK) in *.
  assert (Hn : 0 <= n) by (unfold n; apply Z.land_nonneg; lia).
  assert (Hk : 0 <= klen < 2^32) by (unfold klen; lia).
  set (e1 := vi128_encode_u32 klen). set (e2 := vi128_encode_u32 vlen).
  set (crc := sum) in *.
  pose proof (vi128_encode_length klen) as Hh1. fold e1 in Hh1.
  pose proof (vi128_encode_length vlen) as Hh2. fold e2 in Hh2.
  assert (Hlen : length (e1 ++ e2 ++ key ++ val ++ crc) =
                 (length e1 + length e2 + length key + length val + 4)%nat).
  { rewrite !length_app. lia. }
  rewrite Hlen.
  remember (pre ++ (e1 ++ e2 ++ key ++ val ++ crc) ++ rest) as mem eqn:Hmem.
  assert (Hmlen : length mem =
                  (length pre + (length e1 + length e2 + length key + length val + 4)
                   + length rest)%nat).
  { rewrite Hmem, !length_app. lia. }
  assert (M1 : mem = pre ++ e1 ++ (e2 ++ key ++ val ++ crc ++ rest)).
  { rewrite Hmem, <- !app_assoc. reflexivity. }
  assert (M2 : mem = (pre ++ e1) ++ e2 ++ (key ++ val ++ crc ++ rest)).
  { rewrite Hmem, <- !app_assoc. reflexivity. }
  assert (M3 : mem = (pre ++ e1 ++ e2) ++ key ++ (val ++ crc ++ rest)).
  { rewrite Hmem, <- !app_assoc. reflexivity. }
  assert (M4 : mem = (pre ++ e1 ++ e2 ++ key) ++ val ++ (crc ++ rest)).
  { rewrite Hmem, <- !app_assoc. reflexivity. }
  assert (M5 : mem = (pre ++ e1 ++ e2 ++ key ++ val) ++ crc ++ rest).
  { rewrite Hmem, <- !app_assoc. reflexivity. }
  (* the count of the bytes that end a varint *)
  destruct (vi128_estimate_u32_groups klen Hk) as (G1 & G1' & _).
  destruct (vi128_estimate_u32_groups vlen Hv) as (G2 & G2' & _).
  assert (Hcount : exists c, count_loop (Nat.min (length mem - length pre) 10) mem
                               (length pre) 0 = Ok c /\ (2 <= c)%nat).
  { assert (L1 : length e1 = vi128_estimate_u32 klen)
      by (unfold e1, vi128_encode_u32; apply vi128_encode_cases_length).
    assert (L2 : length e2 = vi128_estimate_u32 vlen)
      by (unfold e2, vi128_encode_u32; apply vi128_encode_cases_length).
    assert (C1 : count_loop (length e1) mem (length pre) 0 = Ok 1%nat).
    { rewrite L1, M1. unfold e1, vi128_encode_u32. apply count_loop_encode; lia. }
    assert (C2 : count_loop (length e2) mem (length pre + length e1) 1 = Ok 2%nat).
    { rewrite <- length_app, L2, M2. unfold e2, vi128_encode_u32.
      apply count_loop_encode; lia. }
    set (s := Nat.min (length mem - length pre) 10).
    assert (Hs : s = (length e1 + (length e2 + (s - length e1 - length e2)))%nat)
      by (unfold s; lia).
    destruct (count_loop_in_bounds (s - length e1 - length e2) mem
                (length pre + length e1 + length e2) 2) as [c Hc].
    { unfold s. lia. }
    exists c. split; [|apply count_loop_ge in Hc; exact Hc].
    rewrite Hs, count_loop_split, C1. cbn [obind].
    rewrite count_loop_split, C2. cbn [obind]. exact Hc. }
  destruct Hcount as (c & Hc & Hc2).
  set (p := (length pre + length e1 + length e2)%nat).
  assert (D1 : vi128_decode_u32 mem (Some (length pre)) =
               Ok (Some (length pre + length e1)%nat, klen)).
  { rewrite M1. unfold e1. apply vi128_decode_u32_encode. exact Hk. }
  assert (D2 : vi128_decode_u32 mem (Some (length pre + length e1)%nat) =
               Ok (Some p, vlen)).
  { rewrite <- length_app, M2. unfold e2. rewrite vi128_decode_u32_encode by exact Hv.
    unfold p. rewrite length_app. reflexivity. }
  assert (R1 : rd_bytes mem p klen = Ok key).
  { rewrite M3. unfold klen.
    replace p with (length (pre ++ e1 ++ e2)) by (unfold p; rewrite !length_app; lia).
    apply rd_bytes_app. }
  assert (R2 : rd_bytes mem (p + Z.to_nat (klen + n)) 4 = Ok crc).
  { rewrite M5.
    replace (p + Z.to_nat (klen + n))%nat with (length (pre ++ e1 ++ e2 ++ key ++ val))
      by (unfold p, klen; rewrite !length_app; lia).
    replace 4 with (Z.of_nat (length crc)) by lia.
    apply rd_bytes_app. }
  assert (Hu : u32 (klen + n) = klen + n) by (unfold u32; apply Z.mod_small; lia).
  unfold wal_vi128_decode. rewrite Hc. cbn [obind].
  destruct (Nat.ltb_spec c 2) as [|_]; [lia|].
  rewrite D1. cbn [obind]. rewrite D2. cbn [obind]. fold n. rewrite Hu.
  destruct (Z.ltb_spec (Z.of_nat (length mem)) (Z.of_nat p + (klen + n) + 4)) as [Hbad|_].
  { unfold klen, p in Hbad. lia. }
  rewrite R1. cbn [obind]. rewrite R2. cbn [obind].
  destruct (kv_crc32c key =? le_value crc) eqn:Ecrc; cbn [negb]; [|reflexivity].
  eexists. split; [|split].
  - do 3 f_equal. unfold p, klen. lia.
  - unfold wal_kv_record. cbn [wk_len wk_ptr wk_vlen wk_kvlen].
    unfold klen. rewrite Nat2Z.id. f_equal.
    + replace p with (length (pre ++ e1 ++ e2)) by (unfold p; rewrite !length_app; lia).
      rewrite M3. rewrite drop_app_length, take_app_length. reflexivity.
    + replace (Z.of_nat (length key) + n - Z.of_nat (length key)) with (Z.of_nat (length val)) by lia.
      rewrite Nat2Z.id.
      replace (p + length key)%nat
        with (length (pre ++ e1 ++ e2 ++ key)) by (unfold p; rewrite !length_app; lia).
      rewrite M4. rewrite drop_app_length, take_app_length. reflexivity.
  - cbn [wk_hash32]. symmetry. apply Z.eqb_eq. exact Ecrc.
Qed.

Lemma wal_vi128_decode_record pre r rest :
  wal_record_ok r ->
  let mem := pre ++ wal_bytes (kv_key r) (kv_vlen r) (kv_val r) ++ rest in
  exists wk,
    wal_vi128_decode mem (length pre) =
      Ok (Some (wk, (length pre + length (wal_bytes (kv_key r) (kv_vlen r) (kv_val r)))%nat)) /\
    wal_kv_record mem wk = r.
Proof.
  intros Hok. cbv zeta.
  pose proof (wal_vi128_decode_layout pre r (le_bytes 4 (kv_crc32c (kv_key r))) rest Hok
                (length_le_bytes 4 _)) as H.
  cbv zeta in H.
  destruct Hok as (_ & _ & _ & Hkey).
  rewrite le_value_le_bytes in H
    by (change (256 ^ Z.of_nat 4) with (2^32); apply kv_crc32c_range; exact Hkey).
  rewrite Z.eqb_refl in H. destruct H as (wk & H1 & H2 & _).
  exists wk. split; [exact H1 | exact H2].
Qed.

(** X10: [wal_vi128_decode] accepts a record laid out as two varint
    lengths, the key, [vlen & 0xFFFF] value bytes and a 4-byte checksum,
    wherever it stands in the buffer: when the checksum is the CRC32C of
    the key it returns the pointer just past the record, and the fields
    it fills give back the key, the raw [vlen] and the value; when the
    checksum is anything else it returns NULL. *)
Theorem wal_vi128_decode_accepts pre r sum rest :
  wal_record_ok r -> length sum = 4%nat ->
  let bytes := vi128_encode_u32 (kv_klen r) ++ vi128_encode_u32 (kv_vlen r) ++
               kv_key r ++ kv_val r ++ sum in
  let mem := pre ++ bytes ++ rest in
  (le_value sum = kv_crc32c (kv_key r) ->
   exists wk,
     wal_vi128_decode mem (length pre) =
       Ok (Some (wk, (length pre + length bytes)%nat)) /\
     wal_kv_record mem wk = r /\ wk_hash32 wk = kv_crc32c (kv_key r)) /\
  (le_value sum <> kv_crc32c (kv_key r) ->
   wal_vi128_decode mem (length pre) = Ok None).
Proof.
  intros Hok Hsl. cbv zeta.
  pose proof (wal_vi128_decode_layout pre r sum rest Hok Hsl) as H. cbv zeta in H.
  split; intros Hs.
  - rewrite Hs, Z.eqb_refl in H. exact H.
  - destruct (Z.eqb_spec (kv_crc32c (kv_key r)) (le_value sum)) as [E|E]; [congruence | exact H].
Qed.

Lemma wal_vi128_decode_accepts_witness :
  (exists wk,
     wal_vi128_decode ([9] ++ ([1; 2; 7; 5; 6] ++ le_bytes 4 (kv_crc32c [7])) ++ [0; 0]) 1 =
       Ok (Some (wk, 10%nat)) /\
     wal_kv_record ([9] ++ ([1; 2; 7; 5; 6] ++ le_bytes 4 (kv_crc32c [7])) ++ [0; 0]) wk =
       Kv [7] 2 [5; 6] /\
     wk_hash32 wk = kv_crc32c [7]) /\
  wal_vi128_decode ([9] ++ ([1; 2; 7; 5; 6] ++ [0; 0; 0; 0]) ++ [0; 0]) 1 = Ok None.
Proof.
  assert (Hok : wal_record_ok (Kv [7] 2 [5; 6])).
  { unfold wal_record_ok. cbn [kv_key kv_vlen kv_val].
    split; [lia|]. split; [reflexivity|]. split; [reflexivity|].
    repeat constructor; lia. }
  split.
  - apply (wal_vi128_decode_accepts [9] (Kv [7] 2 [5; 6]) (le_bytes 4 (kv_crc32c [7])) [0; 0]
             Hok eq_refl).
    vm_compute. reflexivity.
  - apply (wal_vi128_decode_accepts [9] (Kv [7] 2 [5; 6]) [0; 0; 0; 0] [0; 0] Hok eq_refl).
    vm_compute. discriminate.
Defined.

(** * Replay of a log file ([xdb_recover_fd]) *)

Lemma skip_zeros_fuel fuel1 fuel2 mem iter :
  (length mem - iter <= fuel1)%nat -> (length mem - iter <= fuel2)%nat ->
  skip_zeros fuel1 mem iter = skip_zeros fuel2 mem iter.
Proof.
  revert fuel2 iter. induction fuel1 as [|f1 IH]; intros fuel2 iter H1 H2.
  - destruct fuel2 as [|f2]; [reflexivity|]. cbn [skip_zeros].
    rewrite lookup_ge_None_2 by lia. reflexivity.
  - destruct fuel2 as [|f2]; cbn [skip_zeros].
    + rewrite lookup_ge_None_2 by lia. reflexivity.
    + destruct (mem !! iter) as [b|] eqn:E; [|reflexivity].
      apply lookup_lt_Some in E.
      destruct b; try reflexivity. apply IH; lia.
Qed.

Lemma skip_zeros_stop fuel mem iter :
  (forall b, mem !! iter = Some b -> b <> 0) -> skip_zeros fuel mem iter = iter.
Proof.
  intros H. destruct fuel as [|f]; [reflexivity|]. cbn [skip_zeros].
  destruct (mem !! iter) as [b|] eqn:E; [|reflexivity].
  specialize (H b eq_refl). destruct b; try reflexivity. congruence.
Qed.

Lemma skip_zeros_pad n :
  forall fuel pre rest,
    (n <= fuel)%nat ->
    skip_zeros fuel (pre ++ repeat 0 n ++ rest) (length pre) =
      skip_zeros (fuel - n) (pre ++ repeat 0 n ++ rest) (length pre + n).
Proof.
  induction n as [|n IH]; intros fuel pre rest Hf.
  - rewrite Nat.sub_0_r, Nat.add_0_r. reflexivity.
  - destruct fuel as [|fuel]; [lia|]. cbn [skip_zeros repeat app].
    rewrite lookup_app_r by lia. rewrite Nat.sub_diag. cbn [lookup list_lookup].
    rewrite app_cons_assoc.
    replace (S (length pre)) with (length (pre ++ [0])) by (rewrite length_app; cbn; lia).
    rewrite IH by lia. rewrite length_app. cbn [length Nat.sub].
    f_equal. lia.
Qed.

Lemma vi128_encode_head v :
  0 <= v < 2^32 -> exists b tl, vi128_encode_u32 v = b :: tl /\ b <> 0.
Proof.
  intros Hv. unfold vi128_encode_u32.
  destruct (vi128_estimate_u32_groups v Hv) as (Hn & _ & Hlo).
  remember (vi128_estimate_u32 v) as n eqn:En.
  destruct n as [|[|n]]; [lia| |].
  - exists (v mod 256), []. split; [reflexivity|].
    assert (v <> 0).
    { intros ->. cbn in En. discriminate. }
    specialize (Hlo H). cbn in Hlo.
    unfold vi128_estimate_u32 in En.
    destruct (v =? 0); [discriminate|].
    destruct (Z.ltb_spec v (2^7)).
    + rewrite Z.mod_small by lia. exact H.
    + repeat match type of En with
             | context [if ?c then _ else _] => destruct c; try discriminate
             end.
  - exists (Z.lor v 0x80 mod 256), (vi128_encode_cases (S n) (Z.shiftr v 7)).
    split; [reflexivity|]. intros H0.
    pose proof (cont_byte_flag v ltac:(lia)) as Hf. rewrite H0 in Hf. discriminate.
Qed.

Lemma wal_bytes_head r :
  wal_record_ok r ->
  exists b tl, wal_bytes (kv_key r) (kv_vlen r) (kv_val r) = b :: tl /\ b <> 0.
Proof.
  intros (Hv & Hsum & _). unfold wal_bytes.
  assert (Hn : 0 <= Z.land (kv_vlen r) SST_VLEN_MASK) by (apply Z.land_nonneg; lia).
  destruct (vi128_encode_head (Z.of_nat (length (kv_key r)))) as (b & tl & E & Hb).
  { unfold kv_klen in Hsum. lia. }
  rewrite E. cbn [app]. eauto.
Qed.

Lemma recover_step st r :
  mt_sorted (rp_mt st) ->
  wormhole_merge (rp_mt st) (kv_key r) xdb_recover_update_func (r, rp_mtsz st) =
    (true, rp_mt (replay_step st r), (r, rp_mtsz (replay_step st r))).
Proof.
  intros Hs. apply wormhole_merge_new; [exact Hs | reflexivity|].
  unfold xdb_recover_update_func, replay_step. cbn [rp_mt rp_mtsz]. reflexivity.
Qed.

Lemma replay_step_sorted st r : mt_sorted (rp_mt st) -> mt_sorted (rp_mt (replay_step st r)).
Proof. intros H. unfold replay_step. cbn [rp_mt]. apply mt_set_sorted. exact H. Qed.

Lemma recover_loop_items items :
  forall pre st fuel,
    Forall wal_item_ok items -> mt_sorted (rp_mt st) ->
    (length (wal_items_bytes items) < fuel)%nat ->
    recover_loop fuel (pre ++ wal_items_bytes items)
                 (skip_zeros (length (pre ++ wal_items_bytes items))
                             (pre ++ wal_items_bytes items) (length pre)) st =
      Ok (length (pre ++ wal_items_bytes items),
          fold_left replay_step (wal_items_records items) st).
Proof.
  induction items as [|it items IH]; intros pre st fuel Hok Hs Hfuel.
  - cbn [wal_items_bytes wal_items_records flat_map fold_left]. rewrite app_nil_r.
    rewrite skip_zeros_stop by (intros b Hb; apply lookup_lt_Some in Hb; lia).
    destruct fuel as [|fuel]; [reflexivity|]. cbn [recover_loop].
    rewrite Nat.ltb_irrefl. reflexivity.
  - pose proof (List.Forall_inv Hok) as Hit. pose proof (List.Forall_inv_tail Hok) as Hok'.
    unfold wal_items_bytes in *. cbn [flat_map] in *.
    destruct it as [n|r]; cbn [wal_item_bytes wal_items_records flat_map app] in *.
    + rewrite length_app, repeat_length in Hfuel.
      assert (Hm : pre ++ repeat 0 n ++ flat_map wal_item_bytes items =
                   (pre ++ repeat 0 n) ++ flat_map wal_item_bytes items)
        by (rewrite <- app_assoc; reflexivity).
      rewrite skip_zeros_pad by (rewrite !length_app, repeat_length; lia).
      rewrite (skip_zeros_fuel _ (length (pre ++ repeat 0 n ++ flat_map wal_item_bytes items)))
        by (rewrite !length_app, repeat_length; lia).
      replace (length pre + n)%nat with (length (pre ++ repeat 0 n))
        by (rewrite length_app, repeat_length; reflexivity).
      rewrite Hm. apply IH; [exact Hok' | exact Hs | lia].
    + cbn [wal_item_ok] in Hit.
      set (bytes := wal_bytes (kv_key r) (kv_vlen r) (kv_val r)) in *.
      set (bs := flat_map wal_item_bytes items) in *.
      destruct (wal_bytes_head r Hit) as (b & tl & Eb & Hb). fold bytes in Eb.
      rewrite skip_zeros_stop.
      2:{ intros b0 Hb0. rewrite lookup_app_r in Hb0 by lia.
          rewrite Nat.sub_diag, Eb in Hb0. cbn in Hb0. congruence. }
      destruct fuel as [|fuel]; [lia|]. cbn [recover_loop].
      destruct (Nat.ltb_spec (length pre) (length (pre ++ bytes ++ bs))) as [_|Hbad].
      2:{ rewrite !length_app, Eb in Hbad. cbn in Hbad. lia. }
      destruct (wal_vi128_decode_record pre r bs Hit) as (wk & Hd & Hr).
      cbv zeta in Hd, Hr. fold bytes in Hd, Hr.
      rewrite Hd. cbn [obind]. rewrite Hr.
      rewrite (recover_step st r Hs).
      assert (Hm : pre ++ bytes ++ bs = (pre ++ bytes) ++ bs)
        by (rewrite <- app_assoc; reflexivity).
      rewrite <- length_app. rewrite Hm.
      rewrite length_app in Hfuel.
      change (Replay (rp_mt (replay_step st r)) (rp_mtsz (replay_step st r)) (rp_nkeys st + 1))
        with (replay_step st r).
      assert (Hbl : (1 <= length bytes)%nat) by (rewrite Eb; cbn; lia).
      rewrite (IH (pre ++ bytes) (replay_step st r) fuel Hok' (replay_step_sorted st r Hs))
        by (unfold wal_items_bytes; fold bs; lia).
      reflexivity.
Qed.

Lemma replay_fold_mt rs st :
  rp_mt (fold_left replay_step rs st) = mt_replay rs (rp_mt st) /\
  rp_nkeys (fold_left replay_step rs st) = rp_nkeys st + Z.of_nat (length rs).
Proof.
  revert st. induction rs as [|r rs IH]; intros st; cbn [fold_left length].
  - split; [reflexivity | lia].
  - destruct (IH (replay_step st r)) as [H1 H2]. rewrite H1, H2.
    unfold mt_replay, replay_step. cbn [rp_mt rp_nkeys fold_left]. split; [reflexivity | lia].
Qed.

Lemma mt_replay_sorted rs m : mt_sorted m -> mt_sorted (mt_replay rs m).
Proof.
  revert m. induction rs as [|r rs IH]; intros m Hs; [exact Hs|].
  apply IH. apply mt_set_sorted. exact Hs.
Qed.

Lemma find_app_first {A} (f : A -> bool) l1 l2 :
  List.find f (l1 ++ l2) =
    match List.find f l1 with Some x => Some x | None => List.find f l2 end.
Proof.
  induction l1 as [|a l1 IH]; cbn [app List.find]; [reflexivity|].
  destruct (f a); [reflexivity | exact IH].
Qed.

(** Of the records put into a memtable, the last one for a key is the one
    that stays. *)
Lemma mt_get_replay rs :
  forall m k,
    mt_sorted m ->
    mt_get k (mt_replay rs m) =
      match List.find (fun r => kref_match k (kv_key r)) (rev rs) with
      | Some r => Some r
      | None => mt_get k m
      end.
Proof.
  induction rs as [|r rs IH]; intros m k Hs; [reflexivity|].
  change (mt_replay (r :: rs) m) with (mt_replay rs (mt_set r m)).
  rewrite IH by (apply mt_set_sorted; exact Hs).
  cbn [rev]. rewrite find_app_first.
  destruct (List.find _ (rev rs)) as [r'|]; [reflexivity|].
  cbn [List.find]. rewrite mt_get_set.
  destruct (kref_match k (kv_key r)); reflexivity.
Qed.

Lemma xdb_recover_fd_items x f hdr items :
  length hdr = 8%nat -> Forall wal_item_ok items -> mt_sorted (x_mt1 x) ->
  let file := hdr ++ wal_items_bytes items in
  let st := fold_left replay_step (wal_items_records items)
                      (Replay (x_mt1 x) (x_mtsz x) 0) in
  xdb_recover_fd x f file =
    Ok (Z.of_nat (length file),
        x_set_mtsz (x_set_mt x MT1 (rp_mt st)) (rp_mtsz st),
        [LogRecover f (Z.of_nat (length file)) (Z.of_nat (length file)) (rp_nkeys st)]).
Proof.
  intros Hh Hok Hs. cbv zeta. unfold xdb_recover_fd.
  destruct (Nat.eqb_spec (length (hdr ++ wal_items_bytes items)) 0) as [E|_].
  { rewrite length_app in E. lia. }
  rewrite <- Hh.
  rewrite (recover_loop_items items hdr (Replay (x_mt1 x) (x_mtsz x) 0)); [reflexivity| | |].
  - exact Hok.
  - exact Hs.
  - rewrite length_app. lia.
Qed.

(** X11: [xdb_recover_fd] on a log file that holds, behind its 8-byte
    header, records as [wal_vi128_decode] takes them, with any runs of
    zero bytes between and after them: it reads the whole file
    ([rsize] is the file size), applies every record to [mt1] in file
    order and reports their number; for each key, the last record of the
    file is the one that stays in the memtable. *)
Theorem xdb_recover_fd_replays x f hdr items :
  length hdr = 8%nat -> Forall wal_item_ok items -> mt_sorted (x_mt1 x) ->
  let file := hdr ++ wal_items_bytes items in
  let rs := wal_items_records items in
  let fsize := Z.of_nat (length file) in
  exists x1,
    xdb_recover_fd x f file =
      Ok (fsize, x1, [LogRecover f fsize fsize (Z.of_nat (length rs))]) /\
    x_mt1 x1 = mt_replay rs (x_mt1 x) /\ mt_sorted (x_mt1 x1) /\
    x_mt2 x1 = x_mt2 x /\ x_wal x1 = x_wal x /\
    forall k,
      mt_get k (x_mt1 x1) =
        match List.find (fun r => kref_match k (kv_key r)) (rev rs) with
        | Some r => Some r
        | None => mt_get k (x_mt1 x)
        end.
Proof.
  intros Hh Hok Hs. cbv zeta.
  pose proof (xdb_recover_fd_items x f hdr items Hh Hok Hs) as H. cbv zeta in H.
  destruct (replay_fold_mt (wal_items_records items) (Replay (x_mt1 x) (x_mtsz x) 0))
    as [Hmt Hn].
  cbn [rp_mt rp_nkeys] in Hmt, Hn. rewrite Hn, Hmt in H.
  eexists. split; [exact H|].
  destruct x as [v sz w m1 m2 a b z]. cbn.
  split; [reflexivity|]. split; [apply mt_replay_sorted; exact Hs|].
  split; [reflexivity|]. split; [reflexivity|].
  intros k. apply mt_get_replay. exact Hs.
Qed.

Lemma xdb_recover_fd_replays_witness :
  exists x1,
    xdb_recover_fd ex_x0 Wal1
      (le_bytes 8 1 ++
       wal_items_bytes [WalRec (Kv [1] 1 [5]); WalPad 3; WalRec (Kv [1] 1 [6])]) =
      Ok (27, x1, [LogRecover Wal1 27 27 2]) /\
    x_mt1 x1 = [Kv [1] 1 [6]] /\ mt_get [1] (x_mt1 x1) = Some (Kv [1] 1 [6]).
Proof.
  assert (Hok : forall v, wal_record_ok (Kv [1] 1 [v])).
  { intros v. unfold wal_record_ok. cbn [kv_key kv_vlen kv_val].
    split; [lia|]. split; [reflexivity|]. split; [reflexivity|].
    repeat constructor; lia. }
  destruct (xdb_recover_fd_replays ex_x0 Wal1 (le_bytes 8 1)
              [WalRec (Kv [1] 1 [5]); WalPad 3; WalRec (Kv [1] 1 [6])])
    as (x1 & H1 & H2 & _ & _ & _ & H6).
  - reflexivity.
  - constructor; [apply Hok|]. constructor; [exact I|].
    constructor; [apply Hok|]. constructor.
  - reflexivity.
  - exists x1. split; [exact H1|]. split; [exact H2|].
    rewrite (H6 [1]). reflexivity.
Defined.


(** * The log on disk: what the writes leave in the file *)

Lemma disk_write_append file data :
  disk_write file (Z.of_nat (length file)) data = file ++ data.
Proof.
  unfold disk_write. cbv zeta. rewrite Nat2Z.id.
  rewrite firstn_all, Nat.sub_diag. cbn [repeat app].
  rewrite skipn_all2 by lia. rewrite app_nil_r. reflexivity.
Qed.

Lemma disk_after_app f l1 l2 file :
  disk_after f (l1 ++ l2) file = disk_after f l2 (disk_after f l1 file).
Proof. unfold disk_after. apply fold_left_app. Qed.

Lemma disk_after_quiet f evs file :
  forallb ev_quiet evs = true -> disk_after f evs file = file.
Proof.
  revert file. induction evs as [|e evs IH]; intros file H; [reflexivity|].
  cbn [forallb] in H. apply andb_true_iff in H. destruct H as [He Hevs].
  unfold disk_after. cbn [fold_left]. fold (disk_after f evs (disk_apply f file e)).
  rewrite IH by exact Hevs. destruct e; try discriminate; reflexivity.
Qed.

Lemma log_appends_quiet evs : forallb ev_quiet evs = true -> log_appends evs = [].
Proof.
  induction evs as [|e evs IH]; intros H; [reflexivity|].
  cbn [forallb] in H. apply andb_true_iff in H. destruct H as [He Hevs].
  unfold log_appends in *. cbn [flat_map]. rewrite IH by exact Hevs.
  destruct e; try discriminate; reflexivity.
Qed.

Lemma disk_after_append_ev f log r file :
  disk_after f (log ++ [EvAppend r]) file = disk_after f log file.
Proof. rewrite disk_after_app. reflexivity. Qed.

Lemma fd_eqb_eq a b : fd_eqb a b = true <-> a = b.
Proof. destruct a, b; cbn; split; congruence. Qed.

(** A change of the log that touches no file and no record. *)
Lemma wal_disk_ok_quiet w w' evs :
  wal_disk_ok w -> forallb ev_quiet evs = true ->
  wal_log w' = wal_log w ++ evs -> wal_buf w' = wal_buf w ->
  wal_woff w' = wal_woff w -> wal_fds w' = wal_fds w ->
  wal_ring_fd w' = wal_ring_fd w -> wal_maxsz w' = wal_maxsz w ->
  wal_version w' = wal_version w ->
  wal_disk_ok w'.
Proof.
  intros Hok Hq Hl Hb Hw Hf Hr Hm Hv. unfold wal_disk_ok, wal_bufoff in *. cbv zeta in *.
  rewrite Hl, Hb, Hw, Hf, Hr, Hm, Hv.
  rewrite disk_after_app, (disk_after_quiet _ evs) by exact Hq.
  rewrite log_appends_app, (log_appends_quiet evs Hq), app_nil_r.
  exact Hok.
Qed.

Lemma round_up_block v :
  0 <= v <= WAL_BLKSZ ->
  let r := bits_round_up v 12 in
  v <= r <= WAL_BLKSZ /\ r mod 4096 = 0.
Proof.
  intros Hv. cbv zeta. unfold WAL_BLKSZ in *.
  unfold bits_round_up. change (Z.shiftl 1 12) with 4096.
  rewrite (u64_small (v + 4096 - 1)) by lia.
  rewrite Z.shiftr_div_pow2, Z.shiftl_mul_pow2 by lia. change (2 ^ 12) with 4096.
  pose proof (Z.div_mod (v + 4096 - 1) 4096 ltac:(lia)) as Hd.
  pose proof (Z.mod_pos_bound (v + 4096 - 1) 4096 ltac:(lia)) as Hm.
  assert (Hq : 0 <= (v + 4096 - 1) / 4096 <= 64).
  { split; [apply Z.div_pos; lia|]. apply Z.lt_succ_r. apply Z.div_lt_upper_bound; lia. }
  rewrite u64_small by lia. split; [lia|]. apply Z.mod_mul. lia.
Qed.

Lemma wal_items_bytes_app a b :
  wal_items_bytes (a ++ b) = wal_items_bytes a ++ wal_items_bytes b.
Proof. unfold wal_items_bytes. apply flat_map_app. Qed.

Lemma wal_items_records_app a b :
  wal_items_records (a ++ b) = wal_items_records a ++ wal_items_records b.
Proof. unfold wal_items_records. apply flat_map_app. Qed.

(** [wal_flush]: the buffer goes to the end of the file, padded to whole
    pages; the two assertions of the source hold. *)
Lemma wal_flush_disk w :
  wal_disk_ok w ->
  wal_disk_ok (wal_flush w) /\ wal_buf (wal_flush w) = [] /\
  wal_woff w <= wal_woff (wal_flush w) <= wal_woff w + WAL_BLKSZ /\
  wal_fds (wal_flush w) = wal_fds w /\ wal_version (wal_flush w) = wal_version w /\
  wal_maxsz (wal_flush w) = wal_maxsz w /\
  log_appends (wal_log (wal_flush w)) = log_appends (wal_log w).
Proof.
  intros Hok. pose proof Hok as Hok0.
  unfold wal_disk_ok in Hok. cbv zeta in Hok.
  destruct Hok as (Hr & Hlen & Hpage & Hbuf & Hmax & Hpot & items & Hitems & Hrecs & Himg).
  unfold wal_flush.
  destruct (Z.eqb_spec (wal_bufoff w) 0) as [E0|E0].
  { split; [exact Hok0|]. split.
    - unfold wal_bufoff in E0. destruct (wal_buf w); [reflexivity | cbn in E0; lia].
    - unfold WAL_BLKSZ. repeat split; lia. }
  cbv zeta.
  assert (Hb0 : 0 <= wal_bufoff w <= WAL_BLKSZ) by (unfold wal_bufoff in *; lia).
  destruct (round_up_block (wal_bufoff w) Hb0) as [Hws Hwm]. cbv zeta in Hws, Hwm.
  set (wsize := bits_round_up (wal_bufoff w) 12) in *.
  set (pad := Z.to_nat (wsize - wal_bufoff w)).
  set (data := wal_buf w ++ repeat 0 pad).
  assert (Hw0 : 0 <= wal_woff w) by lia.
  assert (Hnowrap : u64 (wal_woff w + wsize) = wal_woff w + wsize).
  { apply u64_small. unfold WAL_BLKSZ in *. lia. }
  set (w2 := Wal [] (u64 (wal_woff (wring_submit (EvWrite (wal_ring_fd w) (wal_woff w) data) w)
                          + wsize)) _ _ _ _ _ _ _ _ _).
  assert (Hcore : wal_disk_ok w2).
  { unfold wal_disk_ok, w2, wal_bufoff. cbv zeta.
    cbn [wal_fds wal_log wal_ring_fd wal_woff wal_buf wal_maxsz wal_version wring_submit length].
    rewrite disk_after_app. cbn [disk_after fold_left disk_apply].
    rewrite Hr, (proj2 (fd_eqb_eq _ _) eq_refl).
    fold (disk_after (fst (wal_fds w)) (wal_log w) []).
    set (D := disk_after (fst (wal_fds w)) (wal_log w) []) in *.
    rewrite Hnowrap.
    replace (disk_write D (wal_woff w) data) with (D ++ data)
      by (rewrite <- Hlen; symmetry; apply disk_write_append).
    split; [reflexivity|]. split.
    { rewrite <- Hlen, length_app. unfold data. rewrite length_app, repeat_length.
      unfold pad, wal_bufoff in *. lia. }
    split; [rewrite <- Z.add_mod_idemp_l, Hpage, Z.add_0_l by lia; exact Hwm|].
    split; [unfold WAL_BLKSZ; cbn; lia|]. split; [exact Hmax|].
    split.
    { change (Z.of_nat 0 =? 0) with true. cbv iota.
      destruct (Z.eqb_spec (wal_bufoff w) 0); [contradiction|]. lia. }
    exists (items ++ [WalPad pad]). split; [|split].
    - apply Forall_app. split; [exact Hitems | repeat constructor].
    - rewrite wal_items_records_app, log_appends_app. cbn. rewrite !app_nil_r. exact Hrecs.
    - rewrite app_nil_r. unfold data. rewrite app_assoc, Himg, wal_items_bytes_app.
      change (wal_items_bytes [WalPad pad]) with (repeat 0 pad ++ []).
      rewrite ?app_nil_r, <- ?app_assoc. reflexivity. }
  assert (Hw2 : wal_woff w2 = wal_woff w + wsize) by (unfold w2; cbn; exact Hnowrap).
  destruct (XDB_SYNC_SIZE <=? u64 (wal_woff w2 - wal_soff w2)).
  - split.
    + eapply (wal_disk_ok_quiet w2 _ [EvFsync (wal_ring_fd w2)] Hcore); reflexivity.
    + cbn. rewrite Hnowrap. repeat split; try lia.
      rewrite !log_appends_app. cbn. rewrite !app_nil_r. reflexivity.
  - split; [exact Hcore|]. cbn. rewrite Hnowrap. repeat split; try lia.
    rewrite !log_appends_app. cbn. rewrite !app_nil_r. reflexivity.
Qed.

Lemma wal_record_bytes_layout r :
  wal_record_ok r ->
  wal_record_bytes r = wal_bytes (kv_key r) (kv_vlen r) (kv_val r) /\
  Z.of_nat (length (wal_record_bytes r)) = sst_kv_vi128_estimate r + 4.
Proof.
  intros (Hv & Hsum & Hval & Hkey).
  unfold wal_record_bytes, wal_bytes, sst_kv_vi128_encode, sst_kv_vi128_estimate.
  rewrite <- Hval, Nat2Z.id, firstn_all. split.
  - unfold kv_klen. rewrite <- !app_assoc. reflexivity.
  - rewrite !length_app, length_le_bytes.
    unfold vi128_encode_u32. rewrite !vi128_encode_cases_length. unfold kv_klen. lia.
Qed.

Lemma wal_bufoff_nonneg w : 0 <= wal_bufoff w.
Proof. unfold wal_bufoff. lia. Qed.

(** [wal_append] of a record that fits a block, while the log is not
    full. *)
Lemma wal_append_disk w r :
  wal_disk_ok w -> wal_woff w < wal_maxsz w -> wal_record_fits r ->
  wal_disk_ok (wal_append w r) /\
  wal_fds (wal_append w r) = wal_fds w /\
  wal_version (wal_append w r) = wal_version w /\
  wal_maxsz (wal_append w r) = wal_maxsz w.
Proof.
  intros Hok Hfull [Hrok Hfit].
  destruct (wal_record_bytes_layout r Hrok) as [Hlay Hlen].
  pose proof (vi128_encode_length (kv_klen r)) as E1.
  pose proof (vi128_encode_length (kv_vlen r)) as E2.
  assert (Hest : 0 < sst_kv_vi128_estimate r + 4 <= WAL_BLKSZ).
  { rewrite <- Hlen. unfold wal_record_bytes, sst_kv_vi128_encode.
    rewrite !length_app, length_le_bytes, length_firstn.
    unfold vi128_encode_u32 in *. rewrite !vi128_encode_cases_length in *.
    destruct Hrok as (Hv & Hsum & Hval & _). unfold kv_klen in *. lia. }
  unfold wal_append. cbv zeta.
  set (w1 := if WAL_BLKSZ <? sst_kv_vi128_estimate r + 4 + wal_bufoff w
             then wal_flush w else w).
  assert (H1 : wal_disk_ok w1 /\ wal_woff w1 <= wal_woff w + WAL_BLKSZ /\
               wal_bufoff w1 + (sst_kv_vi128_estimate r + 4) <= WAL_BLKSZ /\
               wal_fds w1 = wal_fds w /\ wal_version w1 = wal_version w /\
               wal_maxsz w1 = wal_maxsz w /\
               log_appends (wal_log w1) = log_appends (wal_log w)).
  { unfold w1. destruct (Z.ltb_spec WAL_BLKSZ (sst_kv_vi128_estimate r + 4 + wal_bufoff w)).
    - destruct (wal_flush_disk w Hok) as (F1 & F2 & F3 & F4 & F5 & F6 & F7).
      split; [exact F1|]. split; [lia|]. split; [|tauto].
      unfold wal_bufoff. rewrite F2. cbn. lia.
    - split; [exact Hok|]. unfold WAL_BLKSZ in *. repeat split; lia. }
  destruct H1 as (Hok1 & Hw1 & Hb1 & Hf1 & Hv1 & Hm1 & Hl1).
  clearbody w1.
  unfold wal_disk_ok in Hok1. cbv zeta in Hok1.
  destruct Hok1 as (Hr & Hdlen & Hpage & Hbuf & Hmax & Hpot & items & Hitems & Hrecs & Himg).
  split; [|cbn; tauto].
  unfold wal_disk_ok, wal_emit, wal_bufoff. cbv zeta.
  cbn [wal_fds wal_log wal_ring_fd wal_woff wal_buf wal_maxsz wal_version].
  rewrite disk_after_append_ev.
  split; [exact Hr|]. split; [exact Hdlen|]. split; [exact Hpage|].
  split; [rewrite length_app, Nat2Z.inj_add, Hlen; unfold wal_bufoff in Hb1; lia|].
  split; [exact Hmax|]. split.
  { rewrite length_app, Nat2Z.inj_add, Hlen.
    pose proof (wal_bufoff_nonneg w1) as Hb0. unfold wal_bufoff in Hb0.
    destruct (Z.eqb_spec (Z.of_nat (length (wal_buf w1)) + (sst_kv_vi128_estimate r + 4)) 0);
      [lia|]. rewrite Hm1 in *. lia. }
  exists (items ++ [WalRec r]). split; [|split].
  - apply Forall_app. split; [exact Hitems|]. constructor; [exact Hrok | constructor].
  - rewrite wal_items_records_app, log_appends_app, Hrecs. reflexivity.
  - rewrite app_assoc, Himg, wal_items_bytes_app, Hlay.
    change (wal_items_bytes [WalRec r])
      with (wal_bytes (kv_key r) (kv_vlen r) (kv_val r) ++ []).
    rewrite ?app_nil_r, <- ?app_assoc. reflexivity.
Qed.

(** [wal_flush_sync_wait]: everything appended is in the file. *)
Lemma wal_flush_sync_wait_disk w :
  wal_disk_ok w ->
  let w' := wal_flush_sync_wait w in
  wal_disk_ok w' /\ wal_buf w' = [] /\ wal_inflight w' = [] /\
  wal_soff w' = wal_woff w' /\
  wal_fds w' = wal_fds w /\ wal_version w' = wal_version w /\
  wal_maxsz w' = wal_maxsz w /\
  log_appends (wal_log w') = log_appends (wal_log w).
Proof.
  intros Hok. cbv zeta.
  destruct (wal_flush_disk w Hok) as (F1 & F2 & F3 & F4 & F5 & F6 & F7).
  unfold wal_flush_sync_wait, wal_io_complete, wal_flush_sync. cbv zeta.
  set (w1 := wal_flush w) in *. clearbody w1.
  destruct (Z.eqb_spec (wal_woff w1) (wal_soff w1)) as [E|E].
  - split.
    + eapply (wal_disk_ok_quiet w1 _ [EvIoWait] F1); reflexivity.
    + cbn. rewrite log_appends_app. cbn. rewrite app_nil_r. repeat split; auto.
  - split.
    + eapply (wal_disk_ok_quiet w1 _ [EvFsync (wal_ring_fd w1); EvIoWait] F1);
        try reflexivity.
      cbn. rewrite <- app_assoc. reflexivity.
    + cbn. rewrite !log_appends_app. cbn. rewrite !app_nil_r. repeat split; auto.
Qed.

(** The file that the ring does not write to stays as it is. *)
Lemma wal_flush_other w f file :
  f <> wal_ring_fd w ->
  disk_after f (wal_log (wal_flush w)) file = disk_after f (wal_log w) file.
Proof.
  intros Hne. unfold wal_flush. destruct (wal_bufoff w =? 0); [reflexivity|]. cbv zeta.
  assert (Hb : fd_eqb (wal_ring_fd w) f = false).
  { destruct (fd_eqb (wal_ring_fd w) f) eqn:E; [|reflexivity].
    apply fd_eqb_eq in E. congruence. }
  destruct (XDB_SYNC_SIZE <=? _); cbn [wal_log wring_fsync wring_submit wal_set_soff];
    rewrite !disk_after_app; cbn [disk_after fold_left disk_apply]; rewrite Hb; reflexivity.
Qed.

Lemma wal_flush_ring w : wal_ring_fd (wal_flush w) = wal_ring_fd w.
Proof.
  unfold wal_flush. destruct (wal_bufoff w =? 0); [reflexivity|]. cbv zeta.
  destruct (XDB_SYNC_SIZE <=? _); reflexivity.
Qed.

Lemma wal_append_other w r f file :
  f <> wal_ring_fd w ->
  disk_after f (wal_log (wal_append w r)) file = disk_after f (wal_log w) file.
Proof.
  intros Hne. unfold wal_append. cbv zeta. cbn [wal_log wal_emit].
  rewrite disk_after_append_ev.
  destruct (WAL_BLKSZ <? _); [apply wal_flush_other; exact Hne | reflexivity].
Qed.

Lemma wal_flush_sync_wait_other w f file :
  f <> wal_ring_fd w ->
  disk_after f (wal_log (wal_flush_sync_wait w)) file = disk_after f (wal_log w) file.
Proof.
  intros Hne. unfold wal_flush_sync_wait, wal_io_complete, wal_flush_sync. cbv zeta.
  destruct (wal_woff (wal_flush w) =? wal_soff (wal_flush w));
    cbn [wal_log wring_flush wring_fsync wring_submit wal_set_soff];
    rewrite !disk_after_app; cbn [disk_after fold_left disk_apply];
    apply wal_flush_other; exact Hne.
Qed.

Lemma mt_replay_snoc rs r m : mt_replay (rs ++ [r]) m = mt_set r (mt_replay rs m).
Proof. unfold mt_replay. rewrite fold_left_app. reflexivity. Qed.

Lemma wal_add_write_user_ok w n : wal_disk_ok w -> wal_disk_ok (wal_add_write_user w n).
Proof.
  intros H. eapply (wal_disk_ok_quiet w _ [] H); try reflexivity.
  cbn. rewrite app_nil_r. reflexivity.
Qed.

(** A write of a record that fits, in a store that is not full. *)
Lemma update_plain z x newkv :
  xdb_plain_inv z x -> xdb_mt_wal_full x = false -> wal_record_fits newkv ->
  xdb_plain_inv z (xdb_update_result x newkv).
Proof.
  intros (Hv & H2 & Hz & Hw & Hf & Hver & Hd2 & Hm1 & Hsz) Hfull Hfit.
  assert (Hwmt : x_wmt x = x_mt1 x) by (unfold x_wmt; rewrite Hv; reflexivity).
  assert (Hs : mt_sorted (x_wmt x)).
  { rewrite Hwmt, Hm1. apply mt_replay_sorted. reflexivity. }
  assert (Hwoff : wal_woff (x_wal x) < wal_maxsz (x_wal x)).
  { unfold xdb_mt_wal_full in Hfull. apply orb_false_iff in Hfull.
    destruct Hfull as [_ Hfull]. apply Z.leb_gt in Hfull. exact Hfull. }
  pose proof (wal_append_disk (wal_add_write_user (x_wal x) (sst_kv_size newkv)) newkv
                (wal_add_write_user_ok _ _ Hw) Hwoff Hfit) as (A1 & A2 & A3 & A4).
  assert (Hwal : x_wal (xdb_update_result x newkv) =
                 wal_append (wal_add_write_user (x_wal x) (sst_kv_size newkv)) newkv).
  { unfold xdb_update_result. rewrite x_wal_set_mt. reflexivity. }
  assert (Hmt1 : x_mt1 (xdb_update_result x newkv) = mt_set newkv (x_mt1 x)).
  { rewrite <- Hwmt, <- update_result_wmt. unfold x_wmt.
    rewrite update_result_view, Hv. reflexivity. }
  unfold xdb_plain_inv. rewrite Hwal, Hmt1.
  split; [rewrite update_result_view; exact Hv|].
  split.
  { pose proof (update_result_mt x newkv MT2) as Hm. rewrite Hv in Hm. cbn in Hm.
    destruct (mt_id_eq_dec MT2 MT1) as [E|_]; [discriminate|].
    exact (eq_trans Hm H2). }
  split; [rewrite update_result_z; exact Hz|].
  split; [exact A1|]. split; [rewrite A2; exact Hf|]. split; [rewrite A3; exact Hver|].
  split.
  { rewrite wal_append_other; [exact Hd2|].
    destruct Hw as (Hr & _). cbn [wal_ring_fd wal_add_write_user].
    rewrite Hr, Hf. discriminate. }
  split.
  { rewrite wal_append_appends. cbn [wal_log wal_add_write_user].
    rewrite mt_replay_snoc, <- Hm1. reflexivity. }
  rewrite <- Hwmt. apply update_result_mtsz; [exact Hs|]. rewrite Hwmt. exact Hsz.
Qed.

Lemma legal_fits r :
  kv_legal r -> Forall (fun b => 0 <= b < 256) (kv_key r) ->
  xdb_dup_kv r = r /\ wal_record_fits r.
Proof.
  intros Hl Hk. destruct (kv_legal_stable r Hl) as [Hv Hd]. split; [exact Hd|].
  destruct Hl as [[Hv32 Hlen] Hsum].
  pose proof (land_mask_range (kv_vlen r)) as Hm.
  assert (Hland : Z.land (kv_vlen r) SST_VLEN_MASK <= kv_vlen r).
  { change SST_VLEN_MASK with (Z.ones 16). rewrite Z.land_ones by lia.
    apply Z.mod_le; lia. }
  unfold wal_record_fits, wal_record_ok, WAL_BLKSZ, kv_klen in *.
  repeat split; try lia; assumption.
Qed.

Lemma tombstone_fits k :
  Z.of_nat (length k) <= 65500 -> Forall (fun b => 0 <= b < 256) k ->
  wal_record_fits (xdb_new_ts k).
Proof.
  intros Hl Hk. unfold wal_record_fits, wal_record_ok, xdb_new_ts, kv_klen, WAL_BLKSZ.
  cbn [kv_key kv_vlen kv_val length].
  change (Z.land SST_VLEN_TS SST_VLEN_MASK) with 0. unfold SST_VLEN_TS.
  repeat split; try lia; assumption.
Qed.

Lemma sys_step_plain z o s s' :
  op_plain o -> sys_plain_inv z s -> sys_step o s = Ok s' -> sys_plain_inv z s'.
Proof.
  intros Hop (Hx & Href & Hpc). destruct s as [x ref pc]. cbn [s_x s_ref s_pc] in *.
  pose proof Hx as (Hv & H2 & Hz & Hw & Hf & Hver & Hd2 & Hm1 & Hsz).
  assert (Hwmt : x_wmt x = x_mt1 x) by (unfold x_wmt; rewrite Hv; reflexivity).
  assert (Hs : mt_sorted (x_wmt x)).
  { rewrite Hwmt, Hm1. apply mt_replay_sorted. reflexivity. }
  assert (Hru : xdb_ref_update_version x ref = ref).
  { apply ref_update_same. rewrite Href, Hv. reflexivity. }
  destruct o as [r|k|k uf|k|k| |decide splits]; cbn [op_plain] in Hop;
    cbn [sys_step s_x s_ref s_pc]; try contradiction.
  - destruct Hop as [Hl Hk]. destruct (legal_fits r Hl Hk) as [Hd Hfit].
    unfold xdb_put. destruct (xdb_mt_wal_full x) eqn:Ef.
    + rewrite xdb_update_full by exact Ef. discriminate.
    + rewrite xdb_update_spec by (auto using xdb_dup_kv_key).
      cbn [obind fst snd]. intros [= <-]. rewrite Hd, Hru.
      split; [apply update_plain; assumption | split; assumption].
  - destruct Hop as [Hl Hk].
    unfold xdb_del. destruct (xdb_mt_wal_full x) eqn:Ef.
    + rewrite xdb_update_full by exact Ef. discriminate.
    + rewrite xdb_update_spec by auto.
      cbn [obind fst snd]. intros [= <-]. rewrite Hru.
      split; [apply update_plain; auto using tombstone_fits | split; assumption].
  - intros [= <-]. rewrite snd_xdb_get, Hru. split; [exact Hx | split; assumption].
  - intros [= <-]. rewrite snd_xdb_probe, Hru. split; [exact Hx | split; assumption].
  - intros [= <-]. split; [|split; assumption]. cbn [s_x].
    unfold xdb_sync.
    destruct (wal_flush_sync_wait_disk (x_wal x) Hw) as (S1 & S2 & S3 & S4 & S5 & S6 & S7 & S8).
    cbv zeta in *.
    unfold xdb_plain_inv. destruct x as [v sz w m1 m2 a b zz].
    unfold x_set_wal. cbn [x_mt_view x_mtsz x_wal x_mt1 x_mt2 x_z] in *.
    split; [exact Hv|]. split; [exact H2|]. split; [exact Hz|]. split; [exact S1|].
    split; [rewrite S5; exact Hf|]. split; [rewrite S6; exact Hver|].
    split.
    { rewrite wal_flush_sync_wait_other; [exact Hd2|].
      destruct Hw as (Hr & _). cbv zeta in Hr. rewrite Hr, Hf. discriminate. }
    split; [rewrite S8; exact Hm1 | exact Hsz].
Qed.

Lemma sys_run_plain z ops :
  forall s s',
    Forall op_plain ops -> sys_plain_inv z s -> sys_run ops s = Ok s' ->
    sys_plain_inv z s'.
Proof.
  induction ops as [|o ops IH]; intros s s' Hops Hinv; cbn [sys_run].
  - intros [= <-]. exact Hinv.
  - destruct (sys_step o s) as [s1| | |] eqn:E; cbn [obind]; try discriminate.
    apply IH; [exact (List.Forall_inv_tail Hops)|].
    eapply sys_step_plain; [exact (List.Forall_inv Hops) | exact Hinv | exact E].
Qed.

Lemma bits_round_up_page v :
  0 <= v < 2^63 -> v mod 4096 = 0 -> bits_round_up v 12 = v.
Proof.
  intros Hv Hm. unfold bits_round_up. change (Z.shiftl 1 12) with 4096.
  rewrite (u64_small (v + 4096 - 1)) by lia.
  rewrite Z.shiftr_div_pow2, Z.shiftl_mul_pow2 by lia. change (2^12) with 4096.
  pose proof (Z.div_mod v 4096 ltac:(lia)) as Hd. rewrite Hm in Hd.
  assert (E : (v + 4096 - 1) / 4096 = v / 4096).
  { symmetry. apply Z.div_unique with (r := 4095); lia. }
  rewrite E. replace (v / 4096 * 4096) with v by lia. apply u64_small. lia.
Qed.

Lemma replay_fold_mtsz rs :
  forall st,
    mt_sorted (rp_mt st) -> rp_mtsz st = u64 (mt_size (rp_mt st)) ->
    rp_mtsz (fold_left replay_step rs st) =
      u64 (mt_size (rp_mt (fold_left replay_step rs st))).
Proof.
  induction rs as [|r rs IH]; intros st Hs Hsz; cbn [fold_left]; [exact Hsz|].
  apply IH.
  - apply replay_step_sorted. exact Hs.
  - unfold replay_step. cbn [rp_mt rp_mtsz].
    rewrite Hsz, u64_add_diff, (mt_size_set _ _ Hs). reflexivity.
Qed.

Lemma open_empty_plain z max_mtsz maxsz d sp x1 l :
  0 <= maxsz < 2^62 ->
  xdb_wal_recover (xdb_open_state z max_mtsz maxsz) (fun _ => []) d sp = Ok (x1, l) ->
  sys_plain_inv z (Sys x1 (xdb_ref_all x1) CompIdle) /\
  x_max_mtsz x1 = max_mtsz /\ x_max_rejsz x1 = Z.shiftr max_mtsz 4 /\
  wal_maxsz (x_wal x1) = maxsz.
Proof.
  intros Hm. unfold xdb_wal_recover, xdb_open_state.
  cbn. intros [= <- _]. cbn.
  unfold sys_plain_inv, xdb_plain_inv, wal_disk_ok, xdb_ref_all. cbn.
  unfold WAL_BLKSZ.
  split; [|repeat split; reflexivity].
  split; [|split; reflexivity].
  do 3 (split; [reflexivity|]).
  split; [|repeat split; reflexivity].
  do 3 (split; [reflexivity|]).
  unfold wal_bufoff, wal_set_soff, wal_emit, wal_set_buf_version; cbn.
  split; [lia|]. split; [lia|].
  split; [change (Z.of_nat 8 =? 0) with false; cbv iota; lia|].
  exists []. split; [constructor|]. split; reflexivity.
Qed.

Lemma wal_file_version_header v rest :
  0 <= v < 2^64 -> rest <> [] ->
  wal_file_version (le_bytes 8 v ++ rest) = v.
Proof.
  intros Hv Hr. unfold wal_file_version.
  rewrite length_app, length_le_bytes.
  destruct rest as [|b rest]; [contradiction|]. cbn [length].
  destruct (Nat.ltb_spec 8 (8 + S (length rest))) as [_|H]; [|lia].
  rewrite firstn_app, length_le_bytes, Nat.sub_diag, firstn_O, app_nil_r.
  rewrite firstn_all2 by (rewrite length_le_bytes; lia).
  apply le_value_le_bytes. change (256 ^ Z.of_nat 8) with (2^64). exact Hv.
Qed.

Lemma recover_wellformed z max_mtsz maxsz files d sp items :
  0 <= msstz_version z < 2^64 ->
  files Wal1 = le_bytes 8 (msstz_version z) ++ wal_items_bytes items ->
  files Wal2 = [] ->
  Forall wal_item_ok items ->
  wal_items_bytes items <> [] ->
  Z.of_nat (length (files Wal1)) mod 4096 = 0 ->
  Z.of_nat (length (files Wal1)) < 2^63 ->
  exists x2 l2,
    xdb_wal_recover (xdb_open_state z max_mtsz maxsz) files d sp = Ok (x2, l2) /\
    x_mt_view x2 = 0%nat /\
    x_mt1 x2 = mt_replay (wal_items_records items) [] /\
    x_mtsz x2 = u64 (mt_size (x_mt1 x2)) /\
    x_mt2 x2 = [] /\ x_max_mtsz x2 = max_mtsz /\
    x_max_rejsz x2 = Z.shiftr max_mtsz 4 /\ x_z x2 = z /\
    wal_woff (x_wal x2) = Z.of_nat (length (files Wal1)) /\
    wal_soff (x_wal x2) = wal_woff (x_wal x2) /\
    wal_buf (x_wal x2) = [] /\ wal_inflight (x_wal x2) = [] /\
    wal_log (x_wal x2) = [EvTruncate Wal2; EvFdatasync Wal2].
Proof.
  intros Hv H1 H2 Hok Hne Hpg Hlt.
  unfold xdb_wal_recover, xdb_open_state.
  cbn [x_wal wal_fds fst snd x_z].
  rewrite H2. change (wal_file_version []) with 0.
  assert (Hver : wal_file_version (files Wal1) = msstz_version z).
  { rewrite H1. apply wal_file_version_header; assumption. }
  rewrite Hver. rewrite andb_false_r.
  assert (Hsel : (msstz_version z <? 0) = false) by (apply Z.ltb_ge; lia).
  unfold wal_select. cbn [wal_fds]. rewrite Hsel. cbn [wal_fds].
  cbn [wal_buf wal_woff wal_soff wal_write_user wal_write_nbytes wal_maxsz
       wal_ring_fd wal_inflight wal_log x_set_wal x_mt_view x_mtsz x_mt1 x_mt2
       x_max_mtsz x_max_rejsz x_z].
  match goal with |- context [xdb_recover_fd ?x _ _] => set (x0 := x) end.
  pose proof (xdb_recover_fd_items x0 Wal1 (le_bytes 8 (msstz_version z)) items
                (length_le_bytes _ _) Hok) as Hrec.
  cbv zeta in Hrec. rewrite <- H1 in Hrec. rewrite Hrec by reflexivity.
  clear Hrec. cbn [obind].
  set (st := fold_left replay_step (wal_items_records items)
                       (Replay (x_mt1 x0) (x_mtsz x0) 0)).
  set (n := Z.of_nat (length (files Wal1))) in *.
  assert (Hn : 0 < n).
  { unfold n. rewrite H1, length_app, length_le_bytes. lia. }
  destruct (Z.eqb_spec n 0) as [E|_]; [lia|].
  unfold x_set_mtsz, x_set_mt. cbn [x_wal wal_version x0].
  rewrite Z.ltb_irrefl.
  rewrite bits_round_up_page by (unfold n in *; lia).
  rewrite Z.ltb_irrefl. cbn [obind].
  eexists _, _. split; [reflexivity|].
  assert (Hmt : rp_mt st = mt_replay (wal_items_records items) []).
  { unfold st. rewrite (proj1 (replay_fold_mt _ _)). reflexivity. }
  assert (Hsz : rp_mtsz st = u64 (mt_size (rp_mt st))).
  { unfold st. apply replay_fold_mtsz; reflexivity. }
  unfold x_set_wal, wal_set_soff, wal_emit, wal_set_woff.
  cbn [x_mt_view x_mtsz x_wal x_mt1 x_mt2 x_max_mtsz x_max_rejsz x_z x0
       wal_buf wal_woff wal_soff wal_inflight wal_log app].
  repeat split; try reflexivity; assumption.
Qed.

Lemma update_result_max x newkv :
  x_max_mtsz (xdb_update_result x newkv) = x_max_mtsz x /\
  x_max_rejsz (xdb_update_result x newkv) = x_max_rejsz x.
Proof.
  unfold xdb_update_result. cbv zeta. unfold x_set_mt.
  destruct (mp_wmt (mt_views (x_mt_view x))); destruct x; split; reflexivity.
Qed.

Lemma sys_step_plain_max z o s s' :
  op_plain o -> sys_plain_inv z s -> sys_step o s = Ok s' ->
  x_max_mtsz (s_x s') = x_max_mtsz (s_x s) /\
  x_max_rejsz (s_x s') = x_max_rejsz (s_x s).
Proof.
  intros Hop (Hx & Href & Hpc). destruct s as [x ref pc]. cbn [s_x s_ref s_pc] in *.
  pose proof Hx as (Hv & H2 & Hz & Hw & Hf & Hver & Hd2 & Hm1 & Hsz).
  assert (Hwmt : x_wmt x = x_mt1 x) by (unfold x_wmt; rewrite Hv; reflexivity).
  assert (Hs : mt_sorted (x_wmt x)).
  { rewrite Hwmt, Hm1. apply mt_replay_sorted. reflexivity. }
  destruct o as [r|k|k uf|k|k| |decide splits]; cbn [op_plain] in Hop;
    cbn [sys_step s_x s_ref s_pc]; try contradiction.
  - unfold xdb_put. destruct (xdb_mt_wal_full x) eqn:Ef.
    + rewrite xdb_update_full by exact Ef. discriminate.
    + rewrite xdb_update_spec by (auto using xdb_dup_kv_key).
      cbn [obind fst snd]. intros [= <-]. apply update_result_max.
  - unfold xdb_del. destruct (xdb_mt_wal_full x) eqn:Ef.
    + rewrite xdb_update_full by exact Ef. discriminate.
    + rewrite xdb_update_spec by auto.
      cbn [obind fst snd]. intros [= <-]. apply update_result_max.
  - intros [= <-]. split; reflexivity.
  - intros [= <-]. split; reflexivity.
  - intros [= <-]. destruct x. split; reflexivity.
Qed.

Lemma sys_run_plain_max z ops :
  forall s s',
    Forall op_plain ops -> sys_plain_inv z s -> sys_run ops s = Ok s' ->
    x_max_mtsz (s_x s') = x_max_mtsz (s_x s) /\
    x_max_rejsz (s_x s') = x_max_rejsz (s_x s).
Proof.
  induction ops as [|o ops IH]; intros s s' Hops Hinv; cbn [sys_run].
  - intros [= <-]. split; reflexivity.
  - destruct (sys_step o s) as [s1| | |] eqn:E; cbn [obind]; try discriminate.
    intros Hr.
    destruct (sys_step_plain_max z o s s1 (List.Forall_inv Hops) Hinv E) as [A B].
    destruct (IH s1 s' (List.Forall_inv_tail Hops)
                 (sys_step_plain z o s s1 (List.Forall_inv Hops) Hinv E) Hr) as [A' B'].
    split; congruence.
Qed.

Lemma sys_run_snoc ops o :
  forall s, sys_run (ops ++ [o]) s = let* s1 := sys_run ops s in sys_step o s1.
Proof.
  induction ops as [|a ops IH]; intros s; cbn [app sys_run].
  - cbn [obind]. destruct (sys_step o s); reflexivity.
  - destruct (sys_step a s) as [s1| | |]; cbn [obind]; [apply IH | reflexivity..].
Qed.

(** X12: a store is opened on two empty log files and runs puts, deletes,
    gets, probes and syncs, none of which has to wait for a compaction,
    and then [xdb_sync].  Nothing is left in flight, and opening the
    store again on the files as the writes of the log have left them
    succeeds, writes nothing to the log file it replays, and gives the
    same memtables, sizes and version: every [xdb_get] answers as it did
    before. *)
Theorem wal_crash_recovery z max_mtsz maxsz d sp x1 l1 ops s :
  0 <= maxsz < 2^62 -> 0 <= msstz_version z < 2^64 ->
  xdb_wal_recover (xdb_open_state z max_mtsz maxsz) (fun _ => []) d sp = Ok (x1, l1) ->
  Forall op_plain ops ->
  sys_run (ops ++ [OpSync]) (Sys x1 (xdb_ref_all x1) CompIdle) = Ok s ->
  let files := fun f => disk_after f (wal_log (x_wal (s_x s))) [] in
  wal_inflight (x_wal (s_x s)) = [] /\ wal_buf (x_wal (s_x s)) = [] /\
  exists x2 l2,
    xdb_wal_recover (xdb_open_state z max_mtsz maxsz) files d sp = Ok (x2, l2) /\
    same_tables (s_x s) x2 /\
    wal_log (x_wal x2) = [EvTruncate Wal2; EvFdatasync Wal2] /\
    forall k, fst (xdb_get x2 (xdb_ref_all x2) k) = fst (xdb_get (s_x s) (s_ref s) k).
Proof.
  intros Hm Hv Hopen Hops Hrun files.
  destruct (open_empty_plain z max_mtsz maxsz d sp x1 l1 Hm Hopen)
    as (Hinv0 & Ha0 & Hb0 & Hmax0).
  rewrite sys_run_snoc in Hrun.
  destruct (sys_run ops (Sys x1 (xdb_ref_all x1) CompIdle)) as [s1| | |] eqn:E1;
    cbn [obind] in Hrun; try discriminate.
  pose proof (sys_run_plain z ops _ _ Hops Hinv0 E1) as Hinv1.
  destruct (sys_run_plain_max z ops _ _ Hops Hinv0 E1) as [Ha1 Hb1].
  cbn [s_x] in Ha1, Hb1.
  pose proof (sys_step_plain z OpSync s1 s I Hinv1 Hrun) as Hinv.
  destruct (sys_step_plain_max z OpSync s1 s I Hinv1 Hrun) as [Ha Hb].
  destruct Hinv1 as ((_ & _ & _ & Hw1 & _) & _).
  destruct (wal_flush_sync_wait_disk (x_wal (s_x s1)) Hw1) as (_ & S2 & S3 & _).
  cbv zeta in S2, S3.
  assert (Hwal : x_wal (s_x s) = wal_flush_sync_wait (x_wal (s_x s1))).
  { cbn [sys_step] in Hrun. injection Hrun as <-. cbn [s_x].
    unfold xdb_sync. destruct (s_x s1). reflexivity. }
  rewrite <- Hwal in S2, S3.
  split; [exact S3|]. split; [exact S2|].
  destruct Hinv as ((Hview & H2 & Hz & Hw & Hf & Hver & Hd2 & Hm1 & Hsz) & Href & _).
  destruct Hw as (_ & Hlen & Hpg & _ & Hmx & Hpot & items & Hok & Hrec & Hbytes).
  cbv zeta in Hlen, Hbytes. rewrite Hf in Hlen, Hbytes. cbn [fst] in Hlen, Hbytes.
  rewrite S2, app_nil_r, Hver in Hbytes.
  assert (Hbuf0 : wal_bufoff (x_wal (s_x s)) = 0) by (unfold wal_bufoff; rewrite S2; reflexivity).
  rewrite Hbuf0 in Hpot. cbn [Z.eqb] in Hpot.
  assert (Hne : wal_items_bytes items <> []).
  { intros E. rewrite E, app_nil_r in Hbytes. rewrite Hbytes, length_le_bytes in Hlen.
    rewrite <- Hlen in Hpg. discriminate Hpg. }
  destruct (recover_wellformed z max_mtsz maxsz files d sp items Hv Hbytes Hd2 Hok Hne)
    as (x2 & l2 & Hr2 & V & M1 & SZ & M2 & A & B & Z2 & _ & _ & _ & _ & L).
  { unfold files. rewrite Hlen. exact Hpg. }
  { unfold files. rewrite Hlen. unfold WAL_BLKSZ in Hpot. lia. }
  exists x2, l2. split; [exact Hr2|].
  assert (Hsame : same_tables (s_x s) x2).
  { unfold same_tables. rewrite V, SZ, M1, M2, A, B, Z2, Hview, Hsz, Hm1, Hrec, H2, Hz.
    rewrite Ha, Hb, Ha1, Hb1, Ha0, Hb0. repeat split; reflexivity. }
  split; [exact Hsame|]. split; [exact L|].
  intros k. rewrite (same_tables_eq _ _ Hsame), Href.
  destruct s as [x ref pc]. cbn [s_x s_ref] in *. destruct x. cbn in Hview, Hz.
  subst. reflexivity.
Qed.

Lemma wal_crash_recovery_witness :
  exists x2 l2,
    xdb_wal_recover ex_x0
      (fun f => disk_after f
         (wal_log (x_wal (s_x (sys_after ([OpPut ex_r1; OpPut ex_r2; OpDel [1]] ++ [OpSync])
                                         ex_open)))) [])
      [] [] = Ok (x2, l2) /\
    x_mt1 x2 = [Kv [1] SST_VLEN_TS []; ex_r2] /\
    fst (xdb_get x2 (xdb_ref_all x2) [2]) = Some ex_r2.
Proof.
  destruct (wal_crash_recovery ex_z0 4194304 8388608 [] [] (s_x ex_open) []
              [OpPut ex_r1; OpPut ex_r2; OpDel [1]]
              (sys_after ([OpPut ex_r1; OpPut ex_r2; OpDel [1]] ++ [OpSync]) ex_open))
    as (_ & _ & x2 & l2 & H & Hs & _ & Hg).
  - lia.
  - split; [discriminate | reflexivity].
  - reflexivity.
  - repeat constructor; vm_compute; try discriminate; try reflexivity.
  - vm_compute. reflexivity.
  - exists x2, l2. split; [exact H|].
    destruct Hs as (_ & _ & Hm & _). split; [rewrite Hm; reflexivity|].
    rewrite Hg. reflexivity.
Defined.


(** * Reads, writes of other keys and compactions *)





(** * Read-modify-write *)

Lemma ref_update_wmt x ref : ref_wmt x (xdb_ref_update_version x ref) = x_wmt x.
Proof. unfold ref_wmt, x_wmt. rewrite ref_update_view. reflexivity. Qed.

Lemma xdb_get_merge_old x ref k :
  mt_get k (x_wmt x) = None ->
  fst (xdb_get x ref k) = xdb_merge_get_old x (xdb_ref_update_version x ref) k.
Proof.
  intros Eg. unfold xdb_get, xdb_merge_get_old. cbv zeta.
  rewrite ref_update_wmt. unfold wormhole_inpr at 1. rewrite Eg.
  destruct (ref_imt x (xdb_ref_update_version x ref)) as [imt|]; [|reflexivity].
  destruct (wormhole_inpr imt k xdb_inp_get) as [f r]. destruct f; reflexivity.
Qed.

(** X14: in a state that a run reaches from [xdb_open], with room in the
    memtable and the log, [xdb_merge] hands the user's function the record of the key
    that the WMT holds, tombstone or not; when the WMT has none, what
    [xdb_get] returns for the key (nothing for a missing or deleted key).
    When the function answers with a record of its own for that key, the
    merge returns true after one turn of its loops, a copy of the record
    is what the key reads from then on ([xdb_get] returns it when it is a
    value of less than 65536 bytes), and no other key reads differently. *)
Theorem xdb_merge_new_record x ref pc k uf new fuel :
  reachable (Sys x ref pc) -> xdb_mt_wal_full x = false ->
  kv_key new = k ->
  uf (match mt_get k (x_wmt x) with
      | Some r0 => Some r0
      | None => fst (xdb_get x ref k)
      end) = URetNew new ->
  let x' := xdb_update_result x (xdb_dup_kv new) in
  let ref' := xdb_ref_update_version x ref in
  xdb_merge (S fuel) x ref k uf = Ok (true, x', ref') /\
  vis (Sys x' ref' pc) k = Some (xdb_dup_kv new) /\
  (0 <= kv_vlen new < SST_VLEN_TS ->
   fst (xdb_get x' ref' k) = Some (xdb_dup_kv new) /\
   fst (xdb_probe x' ref' k) = true) /\
  forall k', k' <> k -> vis (Sys x' ref' pc) k' = vis (Sys x ref pc) k'.
Proof.
  intros Hreach Hfull Hk Huf. cbv zeta.
  pose proof (reachable_shape _ Hreach) as Hinv.
  pose proof (sys_shape_wmt_sorted _ Hinv) as Hs. cbn [s_x] in Hs.
  set (ctx0 := RmwCtx (MergeCtx (Kv [] 0 []) 0 false) None false false).
  assert (Hrun : xdb_merge (S fuel) x ref k uf =
                 Ok (true, xdb_update_result x (xdb_dup_kv new),
                     xdb_ref_update_version x ref)).
  { unfold xdb_merge. rewrite Hfull. fold ctx0.
    destruct (mt_get k (x_wmt x)) as [r0|] eqn:Eg.
    - destruct (loop1_new fuel uf x ref ctx0 k r0 new Eg Huf Hk Hs) as (ctx' & Hrun & Hm).
      rewrite Hrun. rmw_simpl. rewrite Hm. reflexivity.
    - rewrite (xdb_get_merge_old x ref k Eg) in Huf.
      destruct (loop1_absent fuel uf x ref ctx0 k Eg) as (ctx' & Hrun & Hm).
      rewrite Hrun. rmw_simpl. rewrite Hm. rmw_simpl.
      rewrite (loop2_new fuel uf _ _ _ k new Eg);
        [| rewrite ref_update_idem; exact Huf | exact Hk | exact Hs].
      rewrite ref_update_idem. reflexivity. }
  split; [exact Hrun|].
  assert (Hvis : vis (Sys (xdb_update_result x (xdb_dup_kv new))
                          (xdb_ref_update_version x ref) pc) k = Some (xdb_dup_kv new)).
  { rewrite vis_update, xdb_dup_kv_key, Hk, kref_match_refl. reflexivity. }
  split; [exact Hvis|]. split.
  - intros Hlen. apply xdb_get_value; [exact Hvis | exact Hlen].
  - intros k' Hne. rewrite vis_update, xdb_dup_kv_key, Hk.
    rewrite kref_match_neq by congruence. reflexivity.
Qed.

(** X15: [xdb_merge] with a user's function that only reads (it returns
    NULL whatever it is given).  When the WMT does not hold the key, the
    merge returns true and the store is as it was.  When the WMT holds the
    key, the first loop of [xdb_merge] does not end: a turn sets [merged]
    and leaves [mt_ctx.success] false, the state is as before, and the
    loop goes round again, for every number of turns. *)
Theorem xdb_merge_read_only x ref k uf :
  xdb_mt_wal_full x = false -> (forall old, uf old = URetNull) ->
  match mt_get k (x_wmt x) with
  | Some _ => forall fuel, xdb_merge fuel x ref k uf = Waits
  | None =>
      forall fuel,
        xdb_merge (S fuel) x ref k uf = Ok (true, x, xdb_ref_update_version x ref)
  end.
Proof.
  intros Hfull Huf.
  set (ctx0 := RmwCtx (MergeCtx (Kv [] 0 []) 0 false) None false false).
  destruct (mt_get k (x_wmt x)) as [r0|] eqn:Eg; intros fuel;
    unfold xdb_merge; rewrite Hfull; fold ctx0.
  - rewrite (loop1_null fuel uf x ref ctx0 k r0 Eg (Huf _)); reflexivity.
  - destruct (loop1_absent fuel uf x ref ctx0 k Eg) as (ctx' & Hrun & Hm).
    rewrite Hrun. rmw_simpl. rewrite Hm. rmw_simpl.
    rewrite loop2_keep; [| exact Eg | left; apply Huf].
    rewrite ref_update_idem. reflexivity.
Qed.

Lemma xdb_merge_read_only_witness :
  xdb_merge 5 (s_x ex_after_put) (s_ref ex_after_put) [1] (fun _ => URetNull) = Waits /\
  xdb_merge 1 (s_x ex_after_put) (s_ref ex_after_put) [2] (fun _ => URetNull) =
    Ok (true, s_x ex_after_put,
        xdb_ref_update_version (s_x ex_after_put) (s_ref ex_after_put)).
Proof.
  split.
  - pose proof (xdb_merge_read_only (s_x ex_after_put) (s_ref ex_after_put) [1]
                  (fun _ => URetNull) eq_refl (fun _ => eq_refl)) as H.
    assert (E : mt_get [1] (x_wmt (s_x ex_after_put)) = Some ex_r1) by reflexivity.
    rewrite E in H. exact (H 5%nat).
  - pose proof (xdb_merge_read_only (s_x ex_after_put) (s_ref ex_after_put) [2]
                  (fun _ => URetNull) eq_refl (fun _ => eq_refl)) as H.
    assert (E : mt_get [2] (x_wmt (s_x ex_after_put)) = None) by reflexivity.
    rewrite E in H. exact (H 0%nat).
Defined.

Lemma xdb_merge_new_record_witness :
  exists x' ref',
    xdb_merge 2 (s_x ex_after_put) (s_ref ex_after_put) [1]
      (fun old => match old with
                  | Some r => URetNew (Kv [1] 1 [hd 0 (kv_val r) + 1])
                  | None => URetNull
                  end) = Ok (true, x', ref') /\
    fst (xdb_get x' ref' [1]) = Some (Kv [1] 1 [11]) /\
    fst (xdb_get (s_x ex_after_put) (s_ref ex_after_put) [1]) = Some ex_r1.
Proof.
  destruct (xdb_merge_new_record (s_x ex_after_put) (s_ref ex_after_put)
              (s_pc ex_after_put) [1]
              (fun old => match old with
                          | Some r => URetNew (Kv [1] 1 [hd 0 (kv_val r) + 1])
                          | None => URetNull
                          end)
              (Kv [1] 1 [11]) 1) as (A & _ & B & _).
  - exists ex_z0, 4194304, 8388608, (fun _ => []), [], [], (s_x ex_open), [], [OpPut ex_r1].
    vm_compute. auto.
  - reflexivity.
  - reflexivity.
  - reflexivity.
  - eexists _, _. split; [exact A|]. split; [|reflexivity].
    exact (proj1 (B ltac:(cbn; unfold SST_VLEN_TS; lia))).
Defined.

(** * An iteration misses no key *)

Lemma same_source u x ref m m' s :
  miter_for u x ref m -> miter_for u x ref m' -> In s (mi_mh m) ->
  exists s', In s' (mi_mh m') /\ ms_src s' = ms_src s.
Proof.
  intros Hm Hm' Hs.
  pose proof (stream_fresh u x ref m s Hm Hs) as Hid.
  destruct (fresh_stream u x ref m' _ Hm' Hid) as (s' & Hs' & E).
  exists s'. split; [exact Hs'|]. unfold stream_id in E. congruence.
Qed.

Lemma stream_at_in_map x strict c s r :
  stream_at x strict c s -> In r (ms_iter s) -> In r (stream_map x (ms_src s)).
Proof. intros (pre & Hm & _) Hr. rewrite Hm. apply in_or_app. right. exact Hr. Qed.

Lemma stream_at_ahead x c s r :
  stream_at x true c s -> In r (stream_map x (ms_src s)) -> key_lt c (kv_key r) ->
  In r (ms_iter s).
Proof.
  intros (pre & Hm & Hp & _) Hr Hlt. rewrite Hm in Hr.
  apply in_app_or in Hr. destruct Hr as [Hr|Hr]; [|exact Hr].
  rewrite List.Forall_forall in Hp. specialize (Hp r Hr). cbn beta iota in Hp.
  exfalso. exact (key_lt_not_le _ _ Hlt Hp).
Qed.

Lemma stream_at_ahead_le x c s r :
  stream_at x false c s -> In r (stream_map x (ms_src s)) -> key_le c (kv_key r) ->
  In r (ms_iter s).
Proof.
  intros (pre & Hm & Hp & _) Hr Hle. rewrite Hm in Hr.
  apply in_app_or in Hr. destruct Hr as [Hr|Hr]; [|exact Hr].
  rewrite List.Forall_forall in Hp. specialize (Hp r Hr). cbn beta iota in Hp.
  exfalso. exact (key_lt_not_le _ _ Hp Hle).
Qed.

(** A key ahead that is not the key on top is still ahead after
    [miter_skip_unique]. *)
Lemma ahead_skip_unique u x ref m a rest k0 k :
  miter_for u x ref m -> miter_aligned x m ->
  mi_mh m = a :: rest -> ms_kref a = Some k0 ->
  miter_ahead m k -> k <> k0 ->
  miter_ahead (miter_skip_unique m) k.
Proof.
  intros Hfor Hal Hmh Hka (s & r & Hs & Hr & Hk) Hne.
  pose proof (aligned_at_top _ _ _ _ _ _ _ Hfor Hal Hmh Hka) as Hat.
  destruct (skip_unique_spec u x ref m a rest k0 Hfor Hal Hmh Hka) as (B1 & B2 & _ & _).
  rewrite List.Forall_forall in Hat, B2.
  pose proof (stream_at_keys _ _ _ _ (Hat s Hs)) as Hge.
  rewrite List.Forall_forall in Hge. specialize (Hge r Hr). cbn beta iota in Hge.
  assert (Hlt : key_lt k0 (kv_key r)).
  { apply key_le_neq_lt; [exact Hge | congruence]. }
  destruct (same_source u x ref m _ s Hfor B1 Hs) as (s' & Hs' & Esrc).
  exists s', r. split; [exact Hs'|]. split; [|exact Hk].
  apply (stream_at_ahead x k0 s' r (B2 s' Hs')); [|exact Hlt].
  rewrite Esrc. exact (stream_at_in_map _ _ _ _ _ (Hat s Hs) Hr).
Qed.

(** [xdb_iter_skip_ts] does not pass a key that reads as a value. *)
Lemma ahead_skip_ts_loop u x ref k r fuel :
  vis_lookup x ref k = Some r -> kv_vlen r <> SST_VLEN_TS ->
  forall m,
    miter_for u x ref m -> miter_aligned x m ->
    (miter_remaining m < fuel)%nat -> miter_ahead m k ->
    miter_ahead (xdb_iter_skip_ts_loop fuel m) k /\
    (miter_remaining (xdb_iter_skip_ts_loop fuel m) <= miter_remaining m)%nat.
Proof.
  intros Hvis Hts.
  induction fuel as [|fuel IH]; intros m Hfor Hal Hfuel Hah; [lia|].
  cbn [xdb_iter_skip_ts_loop].
  destruct (miter_kvref m) as [rt|] eqn:Ekv; [|split; [exact Hah | lia]].
  destruct (Z.eqb_spec (kv_vlen rt) SST_VLEN_TS) as [Ets | Ets]; cbn [negb];
    [|split; [exact Hah | lia]].
  destruct (kvref_root m rt Ekv) as (a & rest & tl & Hmh & Hit).
  pose proof (kvref_kref _ _ _ _ _ _ _ _ Hfor Hmh Hit) as Hka.
  destruct (skip_unique_spec u x ref m a rest (kv_key rt) Hfor Hal Hmh Hka)
    as (B1 & B2 & _ & B4).
  assert (Hal1 : miter_aligned x (miter_skip_unique m)).
  { exists true, (kv_key rt). exact B2. }
  assert (Hne : k <> kv_key rt).
  { intros ->. rewrite (top_vis u x ref m rt Hfor Hal Ekv) in Hvis.
    injection Hvis as ->. contradiction. }
  pose proof (ahead_skip_unique u x ref m a rest (kv_key rt) k Hfor Hal Hmh Hka Hah Hne)
    as Hah1.
  destruct (IH (miter_skip_unique m) B1 Hal1 ltac:(lia) Hah1) as [C1 C2].
  split; [exact C1 | lia].
Qed.

Lemma ahead_kvref u x ref m k :
  miter_for u x ref m -> miter_ahead m k -> exists r, miter_kvref m = Some r.
Proof.
  intros (_ & Hfix & _ & Hmin) (s & r & Hs & Hr & _).
  unfold heap_root_min in Hmin.
  destruct (mi_mh m) as [|a rest] eqn:Hmh; [destruct Hs|].
  unfold miter_kvref. rewrite (mh_get_1 m a rest Hmh).
  rewrite List.Forall_forall in Hfix.
  assert (Hks : ms_kref s <> None).
  { rewrite (Hfix s Hs). destruct (ms_iter s); [destruct Hr | discriminate]. }
  assert (Hka : ms_kref a <> None).
  { destruct Hs as [<- | Hin]; [exact Hks|].
    rewrite List.Forall_forall in Hmin. specialize (Hmin s Hin).
    unfold stream_le in Hmin.
    destruct (ms_kref a); [discriminate|]. destruct (ms_kref s); [destruct Hmin | congruence]. }
  rewrite (Hfix a ltac:(left; reflexivity)) in Hka.
  unfold iter_kvref. destruct (ms_iter a) as [|ra tl]; [exfalso; apply Hka; reflexivity|].
  exists ra. reflexivity.
Qed.

Lemma collect_complete u x ref k r fuel :
  vis_lookup x ref k = Some r -> kv_vlen r <> SST_VLEN_TS ->
  forall m v,
    (miter_remaining m < fuel)%nat ->
    miter_for u x ref m -> miter_aligned x m -> miter_ahead m k ->
    exists n, In r (xdb_iter_collect n (XdbIter v m)).
Proof.
  intros Hvis Hts.
  induction fuel as [|fuel IH]; intros m v Hfuel Hfor Hal Hah; [lia|].
  destruct (ahead_kvref u x ref m k Hfor Hah) as [rt Ekv].
  destruct (kvref_root m rt Ekv) as (a & rest & tl & Hmh & Hit).
  pose proof (kvref_kref _ _ _ _ _ _ _ _ Hfor Hmh Hit) as Hka.
  pose proof (top_vis u x ref m rt Hfor Hal Ekv) as Htop.
  destruct (List.list_eq_dec Z.eq_dec k (kv_key rt)) as [E|Hne].
  - exists 1%nat. cbn [xdb_iter_collect]. unfold xdb_iter_next, xdb_iter_peek.
    cbn [it_miter]. rewrite Ekv. left.
    rewrite E, Htop in Hvis. injection Hvis as ->. reflexivity.
  - destruct (skip_unique_spec u x ref m a rest (kv_key rt) Hfor Hal Hmh Hka)
      as (B1 & B2 & _ & B4).
    assert (Hal1 : miter_aligned x (miter_skip_unique m)).
    { exists true, (kv_key rt). exact B2. }
    pose proof (ahead_skip_unique u x ref m a rest (kv_key rt) k Hfor Hal Hmh Hka Hah Hne)
      as Hah1.
    destruct (skip_ts_spec u x ref (miter_skip_unique m) B1 Hal1) as (C1 & C2 & _ & _).
    destruct (ahead_skip_ts_loop u x ref k r (S (miter_remaining (miter_skip_unique m)))
                Hvis Hts (miter_skip_unique m) B1 Hal1 ltac:(lia) Hah1) as [D1 D2].
    fold (xdb_iter_skip_ts (miter_skip_unique m)) in D1, D2.
    destruct (IH (xdb_iter_skip_ts (miter_skip_unique m)) v ltac:(lia) C1 C2 D1) as [n Hn].
    exists (S n). cbn [xdb_iter_collect]. unfold xdb_iter_next, xdb_iter_peek.
    cbn [it_miter]. rewrite Ekv. right. exact Hn.
Qed.

Lemma vis_source u x ref k r :
  vis_lookup x ref k = Some r ->
  exists i,
    In i (map stream_id (mi_mh (xdb_iter_miter_ref u x ref (Miter [] [])))) /\
    In r (stream_map x (fst (fst i))) /\ kv_key r = k.
Proof.
  unfold vis_lookup, ref_wmt, ref_imt. rewrite fresh_ids.
  set (w := mp_wmt (mt_views (ref_mt_view ref))).
  destruct (mt_get k (x_mt x w)) as [r1|] eqn:Ew.
  { intros [= ->].
    exists (SrcMt w, (match mp_imt (mt_views (ref_mt_view ref)) with
                      | Some _ => 2 | None => 1 end)%nat, true).
    split; [destruct (mp_imt _); cbn; auto|]. cbn [fst stream_map].
    split; [eapply mt_get_some_in | eapply mt_get_some_key]; exact Ew. }
  destruct (mp_imt (mt_views (ref_mt_view ref))) as [i|]; cbn [option_map].
  - destruct (mt_get k (x_mt x i)) as [r1|] eqn:Ei.
    { intros [= ->]. exists (SrcMt i, 1%nat, true). split; [cbn; auto|].
      cbn [fst stream_map].
      split; [eapply mt_get_some_in | eapply mt_get_some_key]; exact Ei. }
    intros Ev. exists (SrcSst (ref_v ref), 0%nat, u). split; [cbn; auto|].
    cbn [fst stream_map].
    split; [eapply mt_get_some_in | eapply mt_get_some_key]; exact Ev.
  - intros Ev. exists (SrcSst (ref_v ref), 0%nat, u). split; [cbn; auto|].
    cbn [fst stream_map].
    split; [eapply mt_get_some_in | eapply mt_get_some_key]; exact Ev.
Qed.

Lemma seek_ahead u x ref m key k r :
  miter_for u x ref m -> Forall (stream_at x false key) (mi_mh m) ->
  key_le key k -> vis_lookup x ref k = Some r -> miter_ahead m k.
Proof.
  intros Hfor Hat Hle Hvis.
  destruct (vis_source u x ref k r Hvis) as (i & Hi & Hr & Hk).
  destruct (fresh_stream u x ref m i Hfor Hi) as (s & Hs & <-).
  rewrite List.Forall_forall in Hat.
  exists s, r. split; [exact Hs|]. split; [|exact Hk].
  apply (stream_at_ahead_le x key s r (Hat s Hs)); [exact Hr|].
  rewrite Hk. exact Hle.
Qed.

(** X16: an iteration on an engine that is not written meanwhile misses
    nothing: after a seek to [key], every key from [key] on that reads as
    a value (its record in the source of highest rank, the WMT's, else
    the IMT's, else the SSTable version's, is not a tombstone) is handed
    out with that record by some number of calls of [xdb_iter_next]. *)
Theorem xdb_iter_misses_nothing u x ref it key k r :
  (forall i, mt_sorted (x_mt x i)) ->
  mt_sorted (v_data (ref_v ref)) -> mt_sorted (v_data (x_z x)) ->
  xdb_iter_for u x ref it ->
  let it1 := fst (xdb_iter_seek u x ref it key) in
  let ref1 := snd (xdb_iter_seek u x ref it key) in
  key_le key k -> vis_lookup x ref1 k = Some r -> kv_vlen r <> SST_VLEN_TS ->
  exists n, In r (xdb_iter_collect n it1).
Proof.
  intros Hmt Hv Hz Hit. cbv zeta. unfold xdb_iter_seek.
  destruct (update_version_for u x ref it Hit) as [Hp Href].
  destruct (xdb_iter_update_version u x ref it) as [it0 ref0]. cbn [fst snd] in *.
  assert (Hv0 : mt_sorted (v_data (ref_v ref0))).
  { destruct Href as [-> | ->]; [exact Hv | exact Hz]. }
  destruct (miter_seek_spec u x ref0 (it_miter it0) key Hp Hmt Hv0) as (A1 & A2 & _).
  assert (Hal : miter_aligned x (miter_seek x (it_miter it0) key)).
  { exists false, key. exact A2. }
  destruct (skip_ts_spec u x ref0 _ A1 Hal) as (C1 & C2 & _ & _).
  intros Hle Hvis Hts.
  pose proof (seek_ahead u x ref0 _ key k r A1 A2 Hle Hvis) as Hah.
  destruct (ahead_skip_ts_loop u x ref0 k r
              (S (miter_remaining (miter_seek x (it_miter it0) key)))
              Hvis Hts _ A1 Hal ltac:(lia) Hah) as [D1 _].
  fold (xdb_iter_skip_ts (miter_seek x (it_miter it0) key)) in D1.
  exact (collect_complete u x ref0 k r _ Hvis Hts _ (it_mt_view it0)
           (Nat.lt_succ_diag_r _) C1 C2 D1).
Qed.

Lemma xdb_iter_misses_nothing_witness :
  xdb_iter_collect 5 (fst (xdb_iter_seek true ex_iter_x ex_iter_ref ex_iter [2])) =
    [Kv [2] 1 [12]; Kv [3] 1 [23]; Kv [4] 1 [34]] /\
  exists n,
    In (Kv [3] 1 [23])
       (xdb_iter_collect n (fst (xdb_iter_seek true ex_iter_x ex_iter_ref ex_iter [2]))).
Proof.
  split; [vm_compute; reflexivity|].
  apply (xdb_iter_misses_nothing true ex_iter_x ex_iter_ref ex_iter [2] [3]).
  - intros [|]; reflexivity.
  - reflexivity.
  - reflexivity.
  - intros _ _. vm_compute. apply Permutation_refl.
  - vm_compute. discriminate.
  - vm_compute. reflexivity.
  - vm_compute. discriminate.
Defined.


(** * The log and the writes of the clients *)

Lemma sys_step_plain_appends z o s s' :
  op_plain o -> sys_plain_inv z s -> sys_step o s = Ok s' ->
  log_appends (wal_log (x_wal (s_x s'))) =
    log_appends (wal_log (x_wal (s_x s))) ++ op_records o.
Proof.
  intros Hop (Hx & Href & Hpc). destruct s as [x ref pc]. cbn [s_x s_ref s_pc] in *.
  pose proof Hx as (Hv & H2 & Hz & Hw & Hf & Hver & Hd2 & Hm1 & Hsz).
  assert (Hwmt : x_wmt x = x_mt1 x) by (unfold x_wmt; rewrite Hv; reflexivity).
  assert (Hs : mt_sorted (x_wmt x)).
  { rewrite Hwmt, Hm1. apply mt_replay_sorted. reflexivity. }
  destruct o as [r|k|k uf|k|k| |decide splits]; cbn [op_plain] in Hop;
    cbn [sys_step s_x s_ref s_pc op_records]; try contradiction.
  - unfold xdb_put. destruct (xdb_mt_wal_full x) eqn:Ef.
    + rewrite xdb_update_full by exact Ef. discriminate.
    + rewrite xdb_update_spec by (auto using xdb_dup_kv_key).
      cbn [obind fst snd]. intros [= <-]. apply update_result_appends.
  - unfold xdb_del. destruct (xdb_mt_wal_full x) eqn:Ef.
    + rewrite xdb_update_full by exact Ef. discriminate.
    + rewrite xdb_update_spec by auto.
      cbn [obind fst snd]. intros [= <-]. apply update_result_appends.
  - intros [= <-]. rewrite app_nil_r. reflexivity.
  - intros [= <-]. rewrite app_nil_r. reflexivity.
  - intros [= <-]. rewrite app_nil_r. cbn [s_x]. unfold xdb_sync.
    destruct (wal_flush_sync_wait_disk (x_wal x) Hw) as (_ & _ & _ & _ & _ & _ & _ & S8).
    cbv zeta in S8. destruct x. exact S8.
Qed.

Lemma sys_run_plain_appends z ops :
  forall s s',
    Forall op_plain ops -> sys_plain_inv z s -> sys_run ops s = Ok s' ->
    log_appends (wal_log (x_wal (s_x s'))) =
      log_appends (wal_log (x_wal (s_x s))) ++ flat_map op_records ops.
Proof.
  induction ops as [|o ops IH]; intros s s' Hops Hinv; cbn [sys_run flat_map].
  - intros [= <-]. rewrite app_nil_r. reflexivity.
  - destruct (sys_step o s) as [s1| | |] eqn:E; cbn [obind]; try discriminate.
    intros Hr.
    rewrite (IH s1 s' (List.Forall_inv_tail Hops)
               (sys_step_plain z o s s1 (List.Forall_inv Hops) Hinv E) Hr).
    rewrite (sys_step_plain_appends z o s s1 (List.Forall_inv Hops) Hinv E).
    rewrite app_assoc. reflexivity.
Qed.

(** X17: a store is opened on two empty log files and runs puts of legal
    records, deletions, gets, probes and syncs, none of which has to wait.
    At every point of the run the write buffer of the log is within its
    block (the assertions of [wal_flush] and [wal_append] hold), the
    write offset is a multiple of the page size and is the size of the
    file, and the file followed by the buffer is the 8-byte version
    header and then, in the order of the turns, one well-formed record
    for each put and each deletion, with zero bytes between them only;
    the memtable is what replaying these records gives. *)
Theorem wal_holds_writes z max_mtsz maxsz d sp x1 l1 ops s :
  0 <= maxsz < 2^62 ->
  xdb_wal_recover (xdb_open_state z max_mtsz maxsz) (fun _ => []) d sp = Ok (x1, l1) ->
  Forall op_plain ops ->
  sys_run ops (Sys x1 (xdb_ref_all x1) CompIdle) = Ok s ->
  let w := x_wal (s_x s) in
  let file := disk_after Wal1 (wal_log w) [] in
  wal_bufoff w <= WAL_BLKSZ /\
  wal_woff w mod 4096 = 0 /\ Z.of_nat (length file) = wal_woff w /\
  x_mt1 (s_x s) = mt_replay (flat_map op_records ops) [] /\
  exists items,
    Forall wal_item_ok items /\
    wal_items_records items = flat_map op_records ops /\
    file ++ wal_buf w = le_bytes 8 (msstz_version z) ++ wal_items_bytes items.
Proof.
  intros Hm Hopen Hops Hrun. cbv zeta.
  destruct (open_empty_plain z max_mtsz maxsz d sp x1 l1 Hm Hopen) as (Hinv0 & _).
  pose proof (sys_run_plain z ops _ _ Hops Hinv0 Hrun) as Hinv.
  pose proof (sys_run_plain_appends z ops _ _ Hops Hinv0 Hrun) as Happ.
  assert (H0 : log_appends (wal_log (x_wal x1)) = []).
  { unfold xdb_wal_recover, xdb_open_state in Hopen. cbn in Hopen.
    injection Hopen as <- _. reflexivity. }
  cbn [s_x] in Happ. rewrite H0 in Happ. cbn [app] in Happ.
  destruct Hinv as ((_ & _ & _ & Hw & Hf & Hver & _ & Hm1 & _) & _).
  destruct Hw as (_ & Hlen & Hpg & Hbuf & _ & _ & items & Hok & Hrec & Hbytes).
  cbv zeta in Hlen, Hbytes. rewrite Hf in Hlen, Hbytes. cbn [fst] in Hlen, Hbytes.
  rewrite Happ in Hm1, Hrec. rewrite Hver in Hbytes.
  split; [exact Hbuf|]. split; [exact Hpg|]. split; [exact Hlen|]. split; [exact Hm1|].
  exists items. split; [exact Hok|]. split; [exact Hrec | exact Hbytes].
Qed.

Lemma wal_holds_writes_witness :
  x_mt1 (s_x (sys_after [OpPut ex_r1; OpSync; OpDel [1]; OpPut ex_r2] ex_open)) =
    mt_replay [ex_r1; Kv [1] SST_VLEN_TS []; ex_r2] [] /\
  Z.of_nat (length (disk_after Wal1
     (wal_log (x_wal (s_x (sys_after [OpPut ex_r1; OpSync; OpDel [1]; OpPut ex_r2]
                                      ex_open)))) [])) = 4096 /\
  wal_bufoff (x_wal (s_x (sys_after [OpPut ex_r1; OpSync; OpDel [1]; OpPut ex_r2]
                                     ex_open))) = 17.
Proof.
  destruct (wal_holds_writes ex_z0 4194304 8388608 [] [] (s_x ex_open) []
              [OpPut ex_r1; OpSync; OpDel [1]; OpPut ex_r2]
              (sys_after [OpPut ex_r1; OpSync; OpDel [1]; OpPut ex_r2] ex_open))
    as (_ & _ & _ & Hm & _).
  - lia.
  - reflexivity.
  - repeat constructor; vm_compute; try discriminate; try reflexivity.
  - vm_compute. reflexivity.
  - split; [exact Hm|]. split; vm_compute; reflexivity.
Defined.

(** * [xdb_probe] and [xdb_get] *)

(** X18: [xdb_probe] answers true exactly when [xdb_get] returns a
    record, in any state of the engine and for any reference: both look
    into the WMT, then the IMT, then the SSTable version, stop at the
    first record of the key, and take a tombstone for no record; both
    leave the reference in the same state. *)
Theorem xdb_probe_agrees_with_get x ref k :
  fst (xdb_probe x ref k) =
    match fst (xdb_get x ref k) with Some _ => true | None => false end /\
  snd (xdb_probe x ref k) = snd (xdb_get x ref k).
Proof.
  rewrite snd_xdb_probe, snd_xdb_get. split; [|reflexivity].
  unfold xdb_probe, xdb_get. cbv zeta.
  set (ref' := xdb_ref_update_version x ref).
  unfold wormhole_inpr, xdb_inp_probe, xdb_inp_get, msstv_probe_ts, msstv_get_ts.
  destruct (mt_get k (ref_wmt x ref')) as [r1|].
  { cbn [fst]. destruct (kv_vlen r1 =? SST_VLEN_TS); reflexivity. }
  destruct (ref_imt x ref') as [imt|].
  - destruct (mt_get k imt) as [r2|].
    { cbn [fst]. destruct (kv_vlen r2 =? SST_VLEN_TS); reflexivity. }
    cbn [fst]. destruct (mt_get k (v_data (ref_v ref'))) as [r3|]; [|reflexivity].
    destruct (sst_is_ts r3); reflexivity.
  - cbn [fst]. destruct (mt_get k (v_data (ref_v ref'))) as [r3|]; [|reflexivity].
    destruct (sst_is_ts r3); reflexivity.
Qed.


(** * The log file across compactions *)

(** A change of the log that touches neither the current file nor the
    buffer. *)
Lemma wal_file_ok_same w w' rs :
  wal_file_ok w rs ->
  disk_after (fst (wal_fds w)) (wal_log w') [] =
    disk_after (fst (wal_fds w)) (wal_log w) [] ->
  wal_buf w' = wal_buf w -> wal_woff w' = wal_woff w -> wal_fds w' = wal_fds w ->
  wal_ring_fd w' = wal_ring_fd w -> wal_version w' = wal_version w ->
  wal_file_ok w' rs.
Proof.
  intros Hok Hd Hb Hw Hf Hr Hv. unfold wal_file_ok, wal_bufoff in *. cbv zeta in *.
  rewrite Hb, Hw, Hf, Hr, Hv, Hd. exact Hok.
Qed.

Lemma wal_file_ok_quiet w w' evs rs :
  wal_file_ok w rs -> forallb ev_quiet evs = true ->
  wal_log w' = wal_log w ++ evs -> wal_buf w' = wal_buf w ->
  wal_woff w' = wal_woff w -> wal_fds w' = wal_fds w ->
  wal_ring_fd w' = wal_ring_fd w -> wal_version w' = wal_version w ->
  wal_file_ok w' rs.
Proof.
  intros Hok Hq Hl Hb Hw Hf Hr Hv.
  apply (wal_file_ok_same w w' rs Hok); try assumption.
  rewrite Hl, disk_after_app. apply disk_after_quiet. exact Hq.
Qed.

(** [wal_flush], while the file is far from the end of the 64-bit
    range. *)
Lemma wal_flush_file w rs :
  wal_file_ok w rs -> Z.of_nat (length rs) < 2^40 ->
  wal_file_ok (wal_flush w) rs /\ wal_buf (wal_flush w) = [] /\
  wal_fds (wal_flush w) = wal_fds w /\ wal_version (wal_flush w) = wal_version w.
Proof.
  intros Hok Hn. pose proof Hok as Hok0.
  unfold wal_file_ok in Hok. cbv zeta in Hok.
  destruct Hok as (Hr & Hlen & Hpage & Hbuf & (items & Hitems & Hrecs & Himg) & Hpot).
  unfold wal_flush.
  destruct (Z.eqb_spec (wal_bufoff w) 0) as [E0|E0].
  { split; [exact Hok0|]. split; [|split; reflexivity].
    unfold wal_bufoff in E0. destruct (wal_buf w); [reflexivity | cbn in E0; lia]. }
  cbv zeta.
  assert (Hb0 : 0 <= wal_bufoff w <= WAL_BLKSZ) by (unfold wal_bufoff in *; lia).
  destruct (round_up_block (wal_bufoff w) Hb0) as [Hws Hwm]. cbv zeta in Hws, Hwm.
  set (wsize := bits_round_up (wal_bufoff w) 12) in *.
  set (pad := Z.to_nat (wsize - wal_bufoff w)).
  set (data := wal_buf w ++ repeat 0 pad).
  assert (Hw0 : 0 <= wal_woff w) by lia.
  assert (Hnowrap : u64 (wal_woff w + wsize) = wal_woff w + wsize).
  { apply u64_small. unfold WAL_BLKSZ in *. lia. }
  set (w2 := Wal [] (u64 (wal_woff (wring_submit (EvWrite (wal_ring_fd w) (wal_woff w) data) w)
                          + wsize)) _ _ _ _ _ _ _ _ _).
  assert (Hcore : wal_file_ok w2 rs).
  { unfold wal_file_ok, w2, wal_bufoff. cbv zeta.
    cbn [wal_fds wal_log wal_ring_fd wal_woff wal_buf wal_maxsz wal_version wring_submit length].
    rewrite disk_after_app. cbn [disk_after fold_left disk_apply].
    rewrite Hr, (proj2 (fd_eqb_eq _ _) eq_refl).
    fold (disk_after (fst (wal_fds w)) (wal_log w) []).
    set (D := disk_after (fst (wal_fds w)) (wal_log w) []) in *.
    rewrite Hnowrap.
    replace (disk_write D (wal_woff w) data) with (D ++ data)
      by (rewrite <- Hlen; symmetry; apply disk_write_append).
    split; [reflexivity|]. split.
    { rewrite <- Hlen, length_app. unfold data. rewrite length_app, repeat_length.
      unfold pad, wal_bufoff in *. lia. }
    split; [rewrite <- Z.add_mod_idemp_l, Hpage, Z.add_0_l by lia; exact Hwm|].
    split; [unfold WAL_BLKSZ; cbn; lia|]. split.
    { exists (items ++ [WalPad pad]). split; [|split].
      - apply Forall_app. split; [exact Hitems | repeat constructor].
      - rewrite wal_items_records_app. cbn. rewrite !app_nil_r. exact Hrecs.
      - rewrite app_nil_r. unfold data. rewrite app_assoc, Himg, wal_items_bytes_app.
        change (wal_items_bytes [WalPad pad]) with (repeat 0 pad ++ []).
        rewrite ?app_nil_r, <- ?app_assoc. reflexivity. }
    change (Z.of_nat 0 =? 0) with true. cbv iota.
    destruct (Z.eqb_spec (wal_bufoff w) 0); [contradiction|]. lia. }
  destruct (XDB_SYNC_SIZE <=? u64 (wal_woff w2 - wal_soff w2)).
  - split; [|cbn; auto].
    eapply (wal_file_ok_quiet w2 _ [EvFsync (wal_ring_fd w2)] rs Hcore); reflexivity.
  - split; [exact Hcore | cbn; auto].
Qed.

(** [wal_append] of a record that fits a block. *)
Lemma wal_append_file w rs r :
  wal_file_ok w rs -> Z.of_nat (length rs) < 2^40 -> wal_record_fits r ->
  wal_file_ok (wal_append w r) (rs ++ [r]) /\
  wal_fds (wal_append w r) = wal_fds w /\
  wal_version (wal_append w r) = wal_version w.
Proof.
  intros Hok Hn [Hrok Hfit].
  destruct (wal_record_bytes_layout r Hrok) as [Hlay Hlen].
  pose proof (vi128_encode_length (kv_klen r)) as E1.
  pose proof (vi128_encode_length (kv_vlen r)) as E2.
  assert (Hest : 0 < sst_kv_vi128_estimate r + 4 <= WAL_BLKSZ).
  { rewrite <- Hlen. unfold wal_record_bytes, sst_kv_vi128_encode.
    rewrite !length_app, length_le_bytes, length_firstn.
    unfold vi128_encode_u32 in *. rewrite !vi128_encode_cases_length in *.
    destruct Hrok as (Hv & Hsum & Hval & _). unfold kv_klen in *. lia. }
  unfold wal_append. cbv zeta.
  set (w1 := if WAL_BLKSZ <? sst_kv_vi128_estimate r + 4 + wal_bufoff w
             then wal_flush w else w).
  assert (H1 : wal_file_ok w1 rs /\
               wal_bufoff w1 + (sst_kv_vi128_estimate r + 4) <= WAL_BLKSZ /\
               wal_fds w1 = wal_fds w /\ wal_version w1 = wal_version w).
  { unfold w1. destruct (Z.ltb_spec WAL_BLKSZ (sst_kv_vi128_estimate r + 4 + wal_bufoff w)).
    - destruct (wal_flush_file w rs Hok Hn) as (F1 & F2 & F3 & F4).
      split; [exact F1|]. split; [|tauto].
      unfold wal_bufoff. rewrite F2. cbn. lia.
    - split; [exact Hok|]. unfold WAL_BLKSZ in *. repeat split; lia. }
  destruct H1 as (Hok1 & Hb1 & Hf1 & Hv1).
  clearbody w1.
  unfold wal_file_ok in Hok1. cbv zeta in Hok1.
  destruct Hok1 as (Hr & Hdlen & Hpage & Hbuf & (items & Hitems & Hrecs & Himg) & Hpot).
  split; [|cbn; tauto].
  unfold wal_file_ok, wal_emit, wal_bufoff. cbv zeta.
  cbn [wal_fds wal_log wal_ring_fd wal_woff wal_buf wal_maxsz wal_version].
  rewrite disk_after_append_ev.
  split; [exact Hr|]. split; [exact Hdlen|]. split; [exact Hpage|].
  split; [rewrite length_app, Nat2Z.inj_add, Hlen; unfold wal_bufoff in Hb1; lia|].
  split.
  { exists (items ++ [WalRec r]). split; [|split].
    - apply Forall_app. split; [exact Hitems|]. constructor; [exact Hrok | constructor].
    - rewrite wal_items_records_app, Hrecs. reflexivity.
    - rewrite app_assoc, Himg, wal_items_bytes_app, Hlay.
      change (wal_items_bytes [WalRec r])
        with (wal_bytes (kv_key r) (kv_vlen r) (kv_val r) ++ []).
      rewrite ?app_nil_r, <- ?app_assoc. reflexivity. }
  rewrite !length_app, !Nat2Z.inj_add, Hlen. cbn [length].
  pose proof (wal_bufoff_nonneg w1) as Hb0. unfold wal_bufoff in Hb0, Hpot.
  destruct (Z.eqb_spec (Z.of_nat (length (wal_buf w1)) + (sst_kv_vi128_estimate r + 4)) 0);
    [lia|].
  destruct (Z.eqb_spec (Z.of_nat (length (wal_buf w1))) 0); unfold WAL_BLKSZ in *; lia.
Qed.

Lemma wal_flush_sync_file w rs :
  wal_file_ok w rs -> Z.of_nat (length rs) < 2^40 ->
  wal_file_ok (wal_flush_sync w) rs /\ wal_buf (wal_flush_sync w) = [] /\
  wal_fds (wal_flush_sync w) = wal_fds w /\
  wal_version (wal_flush_sync w) = wal_version w.
Proof.
  intros Hok Hn.
  destruct (wal_flush_file w rs Hok Hn) as (F1 & F2 & F3 & F4).
  unfold wal_flush_sync. cbv zeta.
  set (w1 := wal_flush w) in *. clearbody w1.
  destruct (Z.eqb_spec (wal_woff w1) (wal_soff w1)) as [E|E]; [auto|].
  split; [|cbn; auto].
  eapply (wal_file_ok_quiet w1 _ [EvFsync (wal_ring_fd w1)] rs F1); reflexivity.
Qed.

Lemma wal_flush_sync_wait_file w rs :
  wal_file_ok w rs -> Z.of_nat (length rs) < 2^40 ->
  let w' := wal_flush_sync_wait w in
  wal_file_ok w' rs /\ wal_buf w' = [] /\ wal_inflight w' = [] /\
  wal_fds w' = wal_fds w /\ wal_version w' = wal_version w.
Proof.
  intros Hok Hn. cbv zeta.
  destruct (wal_flush_sync_file w rs Hok Hn) as (F1 & F2 & F3 & F4).
  unfold wal_flush_sync_wait, wal_io_complete.
  set (w1 := wal_flush_sync w) in *. clearbody w1.
  split; [|cbn; auto].
  eapply (wal_file_ok_quiet w1 _ [EvIoWait] rs F1); reflexivity.
Qed.

Lemma wal_flush_sync_other w f file :
  f <> wal_ring_fd w ->
  disk_after f (wal_log (wal_flush_sync w)) file = disk_after f (wal_log w) file.
Proof.
  intros Hne. unfold wal_flush_sync. cbv zeta.
  destruct (wal_woff (wal_flush w) =? wal_soff (wal_flush w));
    cbn [wal_log wring_fsync wring_submit wal_set_soff];
    rewrite ?disk_after_app; cbn [disk_after fold_left disk_apply];
    apply wal_flush_other; exact Hne.
Qed.

(** [wal_switch] to an empty file: the header of the new version is in
    the buffer, nothing in the file. *)
Lemma wal_switch_file w rs v :
  wal_file_ok w rs -> Z.of_nat (length rs) < 2^40 ->
  fst (wal_fds w) <> snd (wal_fds w) ->
  disk_after (snd (wal_fds w)) (wal_log w) [] = [] ->
  let w2 := fst (wal_switch w v) in
  wal_file_ok w2 [] /\ wal_fds w2 = (snd (wal_fds w), fst (wal_fds w)) /\
  wal_version w2 = v.
Proof.
  intros Hok Hn Hne Hother. cbv zeta.
  destruct (wal_flush_sync_wait_file w rs Hok Hn) as (F1 & F2 & F3 & F4 & F5).
  cbv zeta in *.
  assert (Hring : wal_ring_fd w = fst (wal_fds w)) by (destruct Hok as [H _]; exact H).
  pose proof (wal_flush_sync_wait_other w (snd (wal_fds w)) []
                ltac:(rewrite Hring; congruence)) as Ho.
  rewrite Hother in Ho.
  unfold wal_switch. cbv zeta.
  set (w1 := wal_flush_sync_wait w) in *. clearbody w1.
  rewrite F4. destruct (wal_fds w) as [fd0 fd1]. cbn [fst snd] in *.
  split; [|split; reflexivity].
  unfold wal_file_ok, wal_bufoff. cbv zeta.
  cbn [wal_fds wal_log wal_ring_fd wal_woff wal_buf wal_version fst snd].
  rewrite disk_after_app, Ho. cbn [disk_after fold_left disk_apply].
  rewrite length_le_bytes. cbn [length].
  split; [reflexivity|]. split; [reflexivity|]. split; [reflexivity|].
  split; [unfold WAL_BLKSZ; lia|]. split.
  - exists []. split; [constructor|]. split; [reflexivity|].
    cbn [wal_items_bytes flat_map app]. symmetry. apply app_nil_r.
  - change (Z.of_nat 8 =? 0) with false. cbv iota. unfold WAL_BLKSZ. lia.
Qed.

Lemma disk_after_snoc f log e file :
  disk_after f (log ++ [e]) file = disk_apply f (disk_after f log file) e.
Proof. rewrite disk_after_app. reflexivity. Qed.

(** The end of a compaction: the retired file is empty, the current one
    is as it was. *)
Lemma comp_finish_file x rs :
  wal_file_ok (x_wal x) rs ->
  fst (wal_fds (x_wal x)) <> snd (wal_fds (x_wal x)) ->
  let w' := x_wal (comp_finish x) in
  wal_file_ok w' rs /\ wal_fds w' = wal_fds (x_wal x) /\
  wal_version w' = wal_version (x_wal x) /\
  disk_after (snd (wal_fds w')) (wal_log w') [] = [].
Proof.
  intros Hok Hne. cbv zeta.
  unfold comp_finish, wal_io_complete, wring_flush, wal_emit. cbv zeta.
  destruct x as [v sz w m1 m2 a b z]. cbn [x_wal x_set_wal wal_fds wal_log wal_version] in *.
  set (old := snd (wal_fds w)) in *.
  assert (Hb : fd_eqb old (fst (wal_fds w)) = false).
  { destruct (fd_eqb old (fst (wal_fds w))) eqn:E; [|reflexivity].
    apply fd_eqb_eq in E. congruence. }
  split; [|split; [reflexivity|split; [reflexivity|]]].
  - apply (wal_file_ok_same w _ rs Hok); try reflexivity.
    cbn [wal_log]. rewrite !disk_after_snoc. cbn [disk_apply]. rewrite Hb. reflexivity.
  - rewrite !disk_after_snoc. cbn [disk_apply].
    rewrite (proj2 (fd_eqb_eq old old) eq_refl). reflexivity.
Qed.

Lemma mt_set_length r m : (length (mt_set r m) <= S (length m))%nat.
Proof.
  induction m as [|a m IH]; cbn; [lia|].
  destruct (kref_compare (kv_key r) (kv_key a)); cbn; lia.
Qed.

Lemma mt_replay_length rs :
  forall m, (length (mt_replay rs m) <= length m + length rs)%nat.
Proof.
  induction rs as [|r rs IH]; intros m; cbn; [lia|].
  unfold mt_replay in *. cbn [fold_left].
  pose proof (IH (mt_set r m)) as H. pose proof (mt_set_length r m). lia.
Qed.

Lemma fds_distinct w :
  wal_fds w = (Wal1, Wal2) \/ wal_fds w = (Wal2, Wal1) /\ 0 < wal_version w ->
  fst (wal_fds w) <> snd (wal_fds w).
Proof. intros [-> | [-> _]]; discriminate. Qed.

(** A write of a record that fits: [xdb_mt_update_func] through
    [xdb_update]. *)
Lemma durable_update v0 n x ref pc newkv :
  Z.of_nat n < 2^40 -> wal_record_fits newkv ->
  durable_inv v0 n (Sys x ref pc) ->
  sys_inv (Sys (xdb_update_result x newkv) (xdb_ref_update_version x ref) pc) ->
  durable_inv v0 (S n) (Sys (xdb_update_result x newkv) (xdb_ref_update_version x ref) pc).
Proof.
  intros Hn Hfit (Hinv & Hf1 & Hf2 & Hfds & Hver & Hoth & Hv0 & Hvn & rs & Hw & Hwmt & Hcnt)
         Hinv'.
  cbn [s_x s_pc s_ref] in *.
  assert (Hrs : Z.of_nat (length rs) < 2^40) by lia.
  pose proof (wal_file_ok_same (x_wal x) (wal_add_write_user (x_wal x) (sst_kv_size newkv))
                rs Hw eq_refl eq_refl eq_refl eq_refl eq_refl eq_refl) as Hw0.
  destruct (wal_append_file _ rs newkv Hw0 Hrs Hfit) as (A1 & A2 & A3).
  assert (Hwal : x_wal (xdb_update_result x newkv) =
                 wal_append (wal_add_write_user (x_wal x) (sst_kv_size newkv)) newkv).
  { unfold xdb_update_result. rewrite x_wal_set_mt. reflexivity. }
  pose proof (update_result_tables (Forall wal_record_fits) x newkv
                (fun m Hm => mt_set_forall _ newkv m Hfit Hm)
                (proj1 (x_mt_all _ x) (conj Hf1 Hf2))) as Ht.
  unfold durable_inv. cbn [s_x s_pc s_ref]. rewrite Hwal, A2, A3.
  cbn [wal_fds wal_version wal_add_write_user].
  split; [exact Hinv'|]. split; [exact (Ht MT1)|]. split; [exact (Ht MT2)|].
  split; [exact Hfds|]. split; [rewrite update_result_z; exact Hver|].
  split.
  { intros Hpc. rewrite wal_append_other; [exact (Hoth Hpc)|].
    cbn [wal_ring_fd wal_add_write_user]. destruct Hw as (Hr & _). cbv zeta in Hr.
    rewrite Hr. intros E. exact (fds_distinct _ Hfds (eq_sym E)). }
  split; [rewrite update_result_z; exact Hv0|]. split; [lia|].
  exists (rs ++ [newkv]). split; [exact A1|]. split.
  { rewrite update_result_wmt, Hwmt, mt_replay_snoc. reflexivity. }
  rewrite length_app. cbn [length].
  assert (Hp : comp_pending (xdb_update_result x newkv) pc = comp_pending x pc).
  { destruct Hinv as (_ & _ & _ & _ & _ & _ & Hpc & _). cbn [s_x s_pc] in Hpc.
    destruct pc as [|l|l|l|l|l|l]; cbn [comp_pending pc_inv] in *; try reflexivity.
    - destruct Hpc as (Hl & Hvc). rewrite comp_imt_update by assumption. reflexivity.
    - destruct Hpc as (Hl & Hvc & _). rewrite comp_imt_update by assumption. reflexivity. }
  rewrite Hp. lia.
Qed.

(** The reinsertion of rejected records: each one that the WMT lacks is
    appended to the current file and put into the WMT. *)
Lemma reinsert_one_file wid x c rs :
  wal_file_ok (x_wal x) rs -> x_mt x wid = mt_replay rs [] ->
  Z.of_nat (length rs) < 2^40 -> wal_record_fits (xdb_dup_kv c) ->
  Forall wal_record_fits (x_mt x wid) ->
  let x1 := reinsert_one wid x c in
  exists rs',
    wal_file_ok (x_wal x1) rs' /\ x_mt x1 wid = mt_replay rs' [] /\
    (length rs' <= S (length rs))%nat /\
    wal_fds (x_wal x1) = wal_fds (x_wal x) /\
    wal_version (x_wal x1) = wal_version (x_wal x) /\
    Forall wal_record_fits (x_mt x1 wid).
Proof.
  intros Hw Hm Hn Hfit Hall. cbv zeta. unfold reinsert_one.
  destruct (mt_get (kv_key c) (x_mt x wid)) as [r0|].
  { exists rs. split; [exact Hw|]. split; [exact Hm|]. split; [lia|].
    split; [reflexivity|]. split; [reflexivity | exact Hall]. }
  destruct (wal_append_file (x_wal x) rs (xdb_dup_kv c) Hw Hn Hfit) as (A1 & A2 & A3).
  rewrite x_wal_set_mt, x_mt_set_same. cbn [x_wal x_set_wal].
  exists (rs ++ [xdb_dup_kv c]). split; [exact A1|].
  split; [rewrite mt_replay_snoc, Hm; reflexivity|].
  split; [rewrite length_app; cbn; lia|]. split; [exact A2|]. split; [exact A3|].
  apply mt_set_forall; assumption.
Qed.

Lemma fold_reinsert_file wid L :
  forall x rs,
    wal_file_ok (x_wal x) rs -> x_mt x wid = mt_replay rs [] ->
    Z.of_nat (length rs + length L) < 2^40 ->
    Forall (fun c => wal_record_fits (xdb_dup_kv c)) L ->
    Forall wal_record_fits (x_mt x wid) ->
    let x1 := fold_left (reinsert_one wid) L x in
    exists rs',
      wal_file_ok (x_wal x1) rs' /\ x_mt x1 wid = mt_replay rs' [] /\
      (length rs' <= length rs + length L)%nat /\
      wal_fds (x_wal x1) = wal_fds (x_wal x) /\
      wal_version (x_wal x1) = wal_version (x_wal x) /\
      Forall wal_record_fits (x_mt x1 wid).
Proof.
  induction L as [|c L IH]; intros x rs Hw Hm Hn HL Hall; cbv zeta; cbn [fold_left].
  { exists rs. split; [exact Hw|]. split; [exact Hm|]. split; [lia|].
    split; [reflexivity|]. split; [reflexivity | exact Hall]. }
  cbn [length] in Hn.
  destruct (reinsert_one_file wid x c rs Hw Hm ltac:(lia) (List.Forall_inv HL) Hall)
    as (rs1 & B1 & B2 & B3 & B4 & B5 & B6).
  cbv zeta in *.
  destruct (IH (reinsert_one wid x c) rs1 B1 B2 ltac:(lia) (List.Forall_inv_tail HL) B6)
    as (rs' & C1 & C2 & C3 & C4 & C5 & C6).
  cbv zeta in *.
  exists rs'. split; [exact C1|]. split; [exact C2|]. split; [cbn [length]; lia|].
  split; [congruence|]. split; [congruence | exact C6].
Qed.

(** ** The steps of the compaction *)

Lemma rotate_imt x :
  view_normal (x_mt_view x) ->
  comp_imt (fst (comp_rotate x)) (snd (comp_rotate x)) = x_wmt x.
Proof.
  intros Hv. pose proof (comp_rotate_fields x) as H.
  destruct (comp_rotate x) as [x' l]. cbn [fst snd].
  destruct H as (_ & Hl & _ & H1 & H2 & _).
  unfold comp_imt, x_wmt. rewrite Hl.
  destruct Hv as [-> | ->]; cbn; assumption.
Qed.

Lemma rotate_wal x :
  x_wal (fst (comp_rotate x)) =
    fst (wal_switch (x_wal x) (msstz_version (x_z x) + 1)).
Proof.
  unfold comp_rotate. cbv zeta.
  destruct x as [v sz w m1 m2 a b z]. cbn [x_wal x_set_view x_z].
  destruct (wal_switch w (msstz_version z + 1)) as [w2 sz0]. reflexivity.
Qed.

Lemma durable_rotate v0 n x ref :
  0 <= v0 -> Z.of_nat n < 2^40 ->
  durable_inv v0 n (Sys x ref CompIdle) ->
  sys_inv (Sys (fst (comp_rotate x)) ref (CompRotated (snd (comp_rotate x)))) ->
  durable_inv v0 (S n) (Sys (fst (comp_rotate x)) ref (CompRotated (snd (comp_rotate x)))).
Proof.
  intros H0 Hn (Hinv & Hf1 & Hf2 & Hfds & Hver & Hoth & Hv0 & Hvn & rs & Hw & Hwmt & Hcnt)
         Hinv'.
  cbn [s_x s_pc s_ref] in *.
  assert (Hnorm : view_normal (x_mt_view x)).
  { destruct Hinv as (_ & _ & _ & _ & _ & _ & Hpc & _). exact (proj1 Hpc). }
  pose proof (rotate_imt x Hnorm) as Himt.
  pose proof (rotate_wal x) as Hwal.
  pose proof (rotate_inv x ref Hinv) as Hri.
  pose proof (comp_rotate_fields x) as Hfl.
  destruct (comp_rotate x) as [x' l]. cbn [fst snd] in *.
  destruct Hri as (_ & _ & Hwmt' & _).
  destruct Hfl as (_ & _ & _ & H1 & H2 & Hz & _).
  destruct (wal_switch_file (x_wal x) rs (msstz_version (x_z x) + 1) Hw ltac:(lia)
              (fds_distinct _ Hfds) (Hoth eq_refl)) as (S1 & S2 & S3).
  cbv zeta in S1, S2, S3. rewrite <- Hwal in S1, S2, S3.
  unfold durable_inv. cbn [s_x s_pc s_ref]. rewrite H1, H2, Hz, S3.
  split; [exact Hinv'|]. split; [exact Hf1|]. split; [exact Hf2|].
  split.
  { rewrite S2. destruct Hfds as [-> | [-> _]]; cbn [fst snd]; [right | left; reflexivity].
    split; [reflexivity | lia]. }
  split; [reflexivity|]. split; [discriminate|]. split; [exact Hv0|].
  split; [lia|].
  exists []. split; [exact S1|]. split; [rewrite Hwmt'; reflexivity|].
  cbn [length comp_pending Nat.add]. rewrite Himt, Hwmt.
  pose proof (mt_replay_length rs []). cbn [length] in *. lia.
Qed.

Lemma durable_tables v0 n x ref l decide splits :
  durable_inv v0 n (Sys x ref (CompRotated l)) ->
  sys_inv (Sys (fst (comp_tables x l decide splits)) ref
               (CompTablesDone (snd (comp_tables x l decide splits)))) ->
  durable_inv v0 (S n) (Sys (fst (comp_tables x l decide splits)) ref
                            (CompTablesDone (snd (comp_tables x l decide splits)))).
Proof.
  intros (Hinv & Hf1 & Hf2 & Hfds & Hver & Hoth & Hv0 & Hvn & rs & Hw & Hwmt & Hcnt) Hinv'.
  cbn [s_x s_pc s_ref] in *.
  unfold comp_tables in *. cbv zeta in *.
  unfold msstz_comp in *. cbv zeta in *. cbn [fst snd] in *.
  unfold durable_inv. cbn [s_x s_pc s_ref].
  destruct x as [v sz w m1 m2 a b z].
  cbn [x_set_z x_wal x_mt1 x_mt2 x_z x_mt_view x_max_rejsz] in *.
  unfold msstz_version in *. cbn [v_version].
  split; [exact Hinv'|]. split; [exact Hf1|]. split; [exact Hf2|].
  split; [exact Hfds|]. split; [lia|]. split; [discriminate|]. split; [lia|].
  split; [lia|].
  exists rs. split; [exact Hw|]. split; [exact Hwmt|].
  cbn [comp_pending cl_v_comp] in *. unfold comp_imt in *. cbn [cl_v_comp] in *.
  destruct (mp_imt (mt_views (cl_v_comp l))) as [i|]; [|lia].
  rewrite x_mt_set_z. lia.
Qed.

Lemma durable_reinsert v0 n x ref l x' :
  Z.of_nat n < 2^40 ->
  durable_inv v0 n (Sys x ref (CompTablesDone l)) ->
  comp_reinsert x l = Ok x' ->
  sys_inv (Sys x' ref (CompReinserted l)) ->
  durable_inv v0 (S n) (Sys x' ref (CompReinserted l)).
Proof.
  intros Hn (Hinv & Hf1 & Hf2 & Hfds & Hver & Hoth & Hv0 & Hvn & rs & Hw & Hwmt & Hcnt)
         Hrun Hinv'.
  cbn [s_x s_pc s_ref comp_pending] in *.
  rewrite (comp_reinsert_fold x ref l (sys_inv_shape _ Hinv)) in Hrun. injection Hrun as <-.
  pose proof Hinv as (Hs1 & Hs2 & Hst1 & Hst2 & _ & _ & Hpc & _).
  cbn [s_x s_pc pc_inv] in Hs1, Hs2, Hst1, Hst2, Hpc.
  destruct Hpc as (Hl & Hvc & [Hanc _]).
  set (wid := mp_wmt (mt_views (cl_v_comp l))) in *.
  set (L := rej_records (cl_anchors l) (comp_imt x l)) in *.
  assert (Hwid : x_mt x wid = x_wmt x) by (unfold wid, x_wmt; rewrite Hl; reflexivity).
  assert (Himt : comp_imt x l = x_mt x (mt_other wid)).
  { unfold comp_imt, wid. rewrite Hl, (view_comp_imt _ Hvc). reflexivity. }
  pose proof (proj1 (x_mt_all _ x) (conj Hf1 Hf2)) as Hfits.
  pose proof (proj1 (x_mt_all _ x) (conj Hst1 Hst2)) as Hstab.
  pose proof (proj1 (x_mt_all _ x) (conj Hs1 Hs2)) as Hsort.
  assert (HLin : forall c, In c L -> In c (comp_imt x l)).
  { intros c Hc. apply (rej_records_in _ _ _ Hanc) in Hc. tauto. }
  assert (HLfit : Forall (fun c => wal_record_fits (xdb_dup_kv c)) L).
  { apply List.Forall_forall. intros c Hc. apply HLin in Hc. rewrite Himt in Hc.
    pose proof (Hfits (mt_other wid)) as Hf. pose proof (Hstab (mt_other wid)) as Hsb.
    rewrite List.Forall_forall in Hf, Hsb. rewrite (Hsb c Hc). exact (Hf c Hc). }
  assert (HLlen : (length L <= length (comp_imt x l))%nat).
  { apply NoDup_incl_length; [|exact HLin].
    eapply NoDup_map_inv. apply sorted_nodup_keys. apply rej_records_sorted; [exact Hanc|].
    rewrite Himt. apply Hsort. }
  destruct (fold_reinsert_file wid L x rs Hw ltac:(rewrite Hwid; exact Hwmt) ltac:(lia)
              HLfit (Hfits wid)) as (rs' & C1 & C2 & C3 & C4 & C5 & C6).
  cbv zeta in *.
  set (x1 := fold_left (reinsert_one wid) L x) in *.
  assert (Hview : x_mt_view x1 = x_mt_view x) by apply fold_reinsert_view.
  assert (Hz : x_z x1 = x_z x) by apply fold_reinsert_z.
  assert (Hoth1 : x_mt x1 (mt_other wid) = x_mt x (mt_other wid)).
  { apply fold_reinsert_other. intros E. exact (mt_other_ne wid (eq_sym E)). }
  assert (Hfits1 : forall i, Forall wal_record_fits (x_mt x1 i)).
  { intros i. destruct (mt_id_eq_dec i wid) as [-> | Hne]; [exact C6|].
    assert (i = mt_other wid) as -> by (destruct i, wid; cbn; congruence).
    rewrite Hoth1. apply Hfits. }
  unfold durable_inv. cbn [s_x s_pc s_ref comp_pending]. rewrite C4, C5, Hz.
  split; [exact Hinv'|]. split; [exact (Hfits1 MT1)|]. split; [exact (Hfits1 MT2)|].
  split; [exact Hfds|]. split; [exact Hver|]. split; [discriminate|].
  split; [exact Hv0|]. split; [lia|].
  exists rs'. split; [exact C1|]. split.
  { unfold x_wmt. rewrite Hview, <- Hl. exact C2. }
  lia.
Qed.

Lemma durable_flush_sync v0 n x ref l :
  Z.of_nat n < 2^40 ->
  durable_inv v0 n (Sys x ref (CompReinserted l)) ->
  sys_inv (Sys (comp_flush_sync x) ref (CompSynced l)) ->
  durable_inv v0 (S n) (Sys (comp_flush_sync x) ref (CompSynced l)).
Proof.
  intros Hn (Hinv & Hf1 & Hf2 & Hfds & Hver & Hoth & Hv0 & Hvn & rs & Hw & Hwmt & Hcnt) Hinv'.
  cbn [s_x s_pc s_ref comp_pending] in *.
  destruct (wal_flush_sync_file (x_wal x) rs Hw ltac:(lia)) as (F1 & F2 & F3 & F4).
  unfold durable_inv. cbn [s_x s_pc s_ref comp_pending].
  unfold comp_flush_sync in *. destruct x as [v sz w m1 m2 a b z].
  cbn [x_set_wal x_wal x_mt1 x_mt2 x_z] in *. rewrite F3, F4.
  split; [exact Hinv'|]. split; [exact Hf1|]. split; [exact Hf2|].
  split; [exact Hfds|]. split; [exact Hver|]. split; [discriminate|].
  split; [exact Hv0|]. split; [lia|].
  exists rs. split; [exact F1|]. split; [exact Hwmt | lia].
Qed.

Lemma durable_rotate_back v0 n x ref l :
  durable_inv v0 n (Sys x ref (CompSynced l)) ->
  sys_inv (Sys (comp_rotate_back x l) ref (CompSwitched l)) ->
  durable_inv v0 (S n) (Sys (comp_rotate_back x l) ref (CompSwitched l)).
Proof.
  intros (Hinv & Hf1 & Hf2 & Hfds & Hver & Hoth & Hv0 & Hvn & rs & Hw & Hwmt & Hcnt) Hinv'.
  cbn [s_x s_pc s_ref comp_pending] in *.
  destruct (rotate_back_inv x ref l Hinv) as (_ & Hwmt' & _).
  unfold durable_inv. cbn [s_x s_pc s_ref comp_pending]. rewrite Hwmt'.
  unfold comp_rotate_back in *. destruct x as [v sz w m1 m2 a b z].
  cbn [x_set_view x_wal x_mt1 x_mt2 x_z] in *.
  split; [exact Hinv'|]. split; [exact Hf1|]. split; [exact Hf2|].
  split; [exact Hfds|]. split; [exact Hver|]. split; [discriminate|].
  split; [exact Hv0|]. split; [lia|].
  exists rs. split; [exact Hw|]. split; [exact Hwmt | lia].
Qed.

Lemma durable_clean v0 n x ref l :
  ref_mt_view ref = x_mt_view x ->
  durable_inv v0 n (Sys x ref (CompSwitched l)) ->
  sys_inv (Sys (comp_clean x l) ref (CompCleaned l)) ->
  durable_inv v0 (S n) (Sys (comp_clean x l) ref (CompCleaned l)).
Proof.
  intros Hrv (Hinv & Hf1 & Hf2 & Hfds & Hver & Hoth & Hv0 & Hvn & rs & Hw & Hwmt & Hcnt)
         Hinv'.
  cbn [s_x s_pc s_ref comp_pending] in *.
  destruct (clean_inv x ref l Hinv Hrv) as (_ & Hwmt' & _).
  pose proof (comp_clean_wal x l) as Hwal.
  pose proof (proj1 (x_mt_all _ x) (conj Hf1 Hf2)) as Hfits.
  assert (Hfits' : forall i, Forall wal_record_fits (x_mt (comp_clean x l) i)).
  { intros i. unfold comp_clean. destruct (mp_imt (mt_views (cl_v_comp l))) as [iid|];
      [|apply Hfits].
    destruct (mt_id_eq_dec iid i) as [-> | Hne].
    - rewrite x_mt_set_same. constructor.
    - rewrite x_mt_set_other by exact Hne. apply Hfits. }
  assert (Hz : x_z (comp_clean x l) = x_z x).
  { unfold comp_clean. destruct (mp_imt _); [apply x_z_set_mt | reflexivity]. }
  unfold durable_inv. cbn [s_x s_pc s_ref comp_pending]. rewrite Hwmt', Hwal, Hz.
  split; [exact Hinv'|]. split; [exact (Hfits' MT1)|]. split; [exact (Hfits' MT2)|].
  split; [exact Hfds|]. split; [exact Hver|]. split; [discriminate|].
  split; [exact Hv0|]. split; [lia|].
  exists rs. split; [exact Hw|]. split; [exact Hwmt | lia].
Qed.

Lemma durable_finish v0 n x ref l :
  durable_inv v0 n (Sys x ref (CompCleaned l)) ->
  sys_inv (Sys (comp_finish x) ref CompIdle) ->
  durable_inv v0 (S n) (Sys (comp_finish x) ref CompIdle).
Proof.
  intros (Hinv & Hf1 & Hf2 & Hfds & Hver & Hoth & Hv0 & Hvn & rs & Hw & Hwmt & Hcnt) Hinv'.
  cbn [s_x s_pc s_ref comp_pending] in *.
  destruct (comp_finish_file x rs Hw (fds_distinct _ Hfds)) as (F1 & F2 & F3 & F4).
  cbv zeta in F1, F2, F3, F4.
  destruct (finish_inv x ref l Hinv) as (_ & Hsame).
  destruct Hsame as (Sv & _ & S1 & S2 & _ & _ & Sz).
  unfold durable_inv. cbn [s_x s_pc s_ref comp_pending].
  rewrite S1, S2, Sz, F2, F3.
  split; [exact Hinv'|]. split; [exact Hf1|]. split; [exact Hf2|].
  split; [exact Hfds|]. split; [exact Hver|].
  split; [intros _; rewrite <- F2; exact F4|].
  split; [exact Hv0|]. split; [lia|].
  exists rs. split; [exact F1|]. split; [|lia].
  unfold x_wmt in *. rewrite Sv. destruct (mp_wmt _); cbn [x_mt] in *; congruence.
Qed.

(** A step of the compaction thread. *)
Lemma durable_comp_step v0 n decide splits s s' :
  0 <= v0 -> Z.of_nat n < 2^40 ->
  durable_inv v0 n s -> sys_step (OpComp decide splits) s = Ok s' ->
  durable_inv v0 (S n) s'.
Proof.
  intros H0 Hn Hd Hstep.
  pose proof Hd as (Hinv & _).
  pose proof (proj1 (comp_step_inv decide splits s s' Hinv Hstep)) as Hinv'.
  destruct s as [x ref pc]. cbn [sys_step s_x s_ref s_pc] in Hstep.
  unfold comp_step in Hstep.
  destruct pc as [|l|l|l|l|l|l].
  - pose proof (durable_rotate v0 n x ref H0 Hn Hd) as H.
    destruct (comp_rotate x) as [x1 l]. cbn [obind fst snd] in *.
    injection Hstep as <-. apply H. exact Hinv'.
  - destruct (Nat.eqb (ref_mt_view ref) (cl_v_comp l)); [|discriminate].
    pose proof (durable_tables v0 n x ref l decide splits Hd) as H.
    destruct (comp_tables x l decide splits) as [x1 l1]. cbn [obind fst snd] in *.
    injection Hstep as <-. apply H. exact Hinv'.
  - destruct (comp_reinsert x l) as [x1| | |] eqn:E; cbn [obind fst snd] in Hstep;
      try discriminate.
    injection Hstep as <-. exact (durable_reinsert v0 n x ref l x1 Hn Hd E Hinv').
  - cbn [obind fst snd] in Hstep. injection Hstep as <-.
    exact (durable_flush_sync v0 n x ref l Hn Hd Hinv').
  - cbn [obind fst snd] in Hstep. injection Hstep as <-.
    exact (durable_rotate_back v0 n x ref l Hd Hinv').
  - destruct (Nat.eqb (ref_mt_view ref) (mp_next (mt_views (cl_v_comp l)))) eqn:Eq;
      [|discriminate].
    apply Nat.eqb_eq in Eq. cbn [obind fst snd] in Hstep. injection Hstep as <-.
    assert (Hrv : ref_mt_view ref = x_mt_view x).
    { destruct Hinv as (_ & _ & _ & _ & _ & _ & [Hv _] & _). cbn in Hv. congruence. }
    exact (durable_clean v0 n x ref l Hrv Hd Hinv').
  - cbn [obind fst snd] in Hstep. injection Hstep as <-.
    exact (durable_finish v0 n x ref l Hd Hinv').
Qed.

(** ** Runs *)

Lemma durable_ref v0 n x ref ref' pc :
  durable_inv v0 n (Sys x ref pc) -> sys_inv (Sys x ref' pc) ->
  durable_inv v0 (S n) (Sys x ref' pc).
Proof.
  intros (Hinv & Hf1 & Hf2 & Hfds & Hver & Hoth & Hv0 & Hvn & rs & Hw & Hwmt & Hcnt) Hinv'.
  cbn [s_x s_pc s_ref] in *. unfold durable_inv. cbn [s_x s_pc s_ref].
  split; [exact Hinv'|]. split; [exact Hf1|]. split; [exact Hf2|].
  split; [exact Hfds|]. split; [exact Hver|]. split; [exact Hoth|].
  split; [exact Hv0|]. split; [lia|].
  exists rs. split; [exact Hw|]. split; [exact Hwmt | lia].
Qed.

Lemma durable_sync v0 n x ref pc :
  Z.of_nat n < 2^40 ->
  durable_inv v0 n (Sys x ref pc) -> sys_inv (Sys (xdb_sync x) ref pc) ->
  durable_inv v0 (S n) (Sys (xdb_sync x) ref pc) /\
  wal_buf (x_wal (xdb_sync x)) = [] /\ wal_inflight (x_wal (xdb_sync x)) = [].
Proof.
  intros Hn (Hinv & Hf1 & Hf2 & Hfds & Hver & Hoth & Hv0 & Hvn & rs & Hw & Hwmt & Hcnt) Hinv'.
  cbn [s_x s_pc s_ref] in *.
  destruct (wal_flush_sync_wait_file (x_wal x) rs Hw ltac:(lia)) as (F1 & F2 & F3 & F4 & F5).
  cbv zeta in *.
  assert (Hring : wal_ring_fd (x_wal x) = fst (wal_fds (x_wal x))).
  { destruct Hw as [H _]. exact H. }
  pose proof (wal_flush_sync_wait_other (x_wal x) (snd (wal_fds (x_wal x))) []
                ltac:(rewrite Hring; intros E; exact (fds_distinct _ Hfds (eq_sym E)))) as Ho.
  assert (Hp : comp_pending (xdb_sync x) pc = comp_pending x pc).
  { unfold xdb_sync. destruct x, pc; reflexivity. }
  unfold durable_inv. cbn [s_x s_pc s_ref]. rewrite Hp.
  unfold xdb_sync in *. destruct x as [v sz w m1 m2 a b z].
  cbn [x_set_wal x_wal x_mt1 x_mt2 x_z] in *. rewrite F4, F5.
  split; [|split; assumption].
  split; [exact Hinv'|]. split; [exact Hf1|]. split; [exact Hf2|].
  split; [exact Hfds|]. split; [exact Hver|].
  split; [intros Hpc; rewrite Ho; exact (Hoth Hpc)|].
  split; [exact Hv0|]. split; [lia|].
  exists rs. split; [exact F1|]. split; [exact Hwmt | lia].
Qed.

Lemma durable_step v0 n o s s' :
  0 <= v0 -> Z.of_nat n < 2^40 -> op_durable o ->
  durable_inv v0 n s -> sys_step o s = Ok s' -> durable_inv v0 (S n) s'.
Proof.
  intros H0 Hn Hop Hd Hstep.
  pose proof Hd as (Hinv & _).
  assert (Hok : forall k uf, o <> OpMerge k uf)
    by (intros k uf ->; exact Hop).
  pose proof (sys_step_inv o s s' Hinv Hok Hstep) as Hinv'.
  destruct s as [x ref pc].
  pose proof (sys_inv_wmt_sorted _ Hinv) as Hs. cbn [s_x] in Hs.
  destruct o as [r|k|k uf|k|k| |decide splits]; cbn [op_durable] in Hop;
    try contradiction.
  - destruct Hop as [Hl Hk]. destruct (legal_fits r Hl Hk) as [Hdup Hfit].
    cbn [sys_step s_x s_ref s_pc] in Hstep. unfold xdb_put in Hstep.
    destruct (xdb_mt_wal_full x) eqn:Ef.
    + rewrite xdb_update_full in Hstep by exact Ef. discriminate.
    + rewrite xdb_update_spec in Hstep by (auto using xdb_dup_kv_key).
      cbn [obind fst snd] in Hstep. injection Hstep as <-. rewrite Hdup in *.
      apply durable_update; assumption.
  - destruct Hop as [Hl Hk].
    cbn [sys_step s_x s_ref s_pc] in Hstep. unfold xdb_del in Hstep.
    destruct (xdb_mt_wal_full x) eqn:Ef.
    + rewrite xdb_update_full in Hstep by exact Ef. discriminate.
    + rewrite xdb_update_spec in Hstep by auto.
      cbn [obind fst snd] in Hstep. injection Hstep as <-.
      apply durable_update; auto using tombstone_fits.
  - cbn [sys_step s_x s_ref s_pc] in Hstep. injection Hstep as <-.
    eapply durable_ref; [exact Hd | exact Hinv'].
  - cbn [sys_step s_x s_ref s_pc] in Hstep. injection Hstep as <-.
    eapply durable_ref; [exact Hd | exact Hinv'].
  - cbn [sys_step s_x s_ref s_pc] in Hstep. injection Hstep as <-.
    exact (proj1 (durable_sync v0 n x ref pc Hn Hd Hinv')).
  - exact (durable_comp_step v0 n decide splits _ _ H0 Hn Hd Hstep).
Qed.

Lemma durable_run v0 ops :
  forall n s s',
    0 <= v0 -> Z.of_nat (n + length ops) < 2^40 -> Forall op_durable ops ->
    durable_inv v0 n s -> sys_run ops s = Ok s' ->
    durable_inv v0 (n + length ops) s'.
Proof.
  induction ops as [|o ops IH]; intros n s s' H0 Hn Hops Hd; cbn [sys_run length].
  - intros [= <-]. rewrite Nat.add_0_r. exact Hd.
  - destruct (sys_step o s) as [s1| | |] eqn:E; cbn [obind]; try discriminate.
    intros Hrun. cbn [length] in Hn.
    replace (n + S (length ops))%nat with (S n + length ops)%nat by lia.
    apply (IH (S n) s1 s' H0 ltac:(lia) (List.Forall_inv_tail Hops)); [|exact Hrun].
    apply (durable_step v0 n o s s1 H0 ltac:(lia) (List.Forall_inv Hops) Hd E).
Qed.

(** ** Recovery from the second file *)

Lemma recover_wellformed_swapped z max_mtsz maxsz files d sp items :
  0 < msstz_version z < 2^64 ->
  files Wal2 = le_bytes 8 (msstz_version z) ++ wal_items_bytes items ->
  files Wal1 = [] ->
  Forall wal_item_ok items ->
  wal_items_bytes items <> [] ->
  Z.of_nat (length (files Wal2)) mod 4096 = 0 ->
  Z.of_nat (length (files Wal2)) < 2^63 ->
  exists x2 l2,
    xdb_wal_recover (xdb_open_state z max_mtsz maxsz) files d sp = Ok (x2, l2) /\
    x_mt_view x2 = 0%nat /\
    x_mt1 x2 = mt_replay (wal_items_records items) [] /\
    x_mt2 x2 = [] /\ x_z x2 = z.
Proof.
  intros Hv H2 H1 Hok Hne Hpg Hlt.
  unfold xdb_wal_recover, xdb_open_state.
  cbn [x_wal wal_fds fst snd x_z].
  rewrite H1. change (wal_file_version []) with 0.
  assert (Hver : wal_file_version (files Wal2) = msstz_version z).
  { rewrite H2. apply wal_file_version_header; [lia | assumption]. }
  rewrite Hver. change (negb (0 =? 0)) with false. cbn [andb].
  assert (Hsel : (0 <? msstz_version z) = true) by (apply Z.ltb_lt; lia).
  unfold wal_select. cbn [wal_fds]. rewrite Hsel. cbn [wal_fds].
  cbn [wal_buf wal_woff wal_soff wal_write_user wal_write_nbytes wal_maxsz
       wal_ring_fd wal_inflight wal_log x_set_wal x_mt_view x_mtsz x_mt1 x_mt2
       x_max_mtsz x_max_rejsz x_z app].
  match goal with |- context [xdb_recover_fd ?x _ _] => set (x0 := x) end.
  pose proof (xdb_recover_fd_items x0 Wal2 (le_bytes 8 (msstz_version z)) items
                (length_le_bytes _ _) Hok) as Hrec.
  cbv zeta in Hrec. rewrite <- H2 in Hrec. rewrite Hrec by reflexivity.
  clear Hrec. cbn [obind].
  set (st := fold_left replay_step (wal_items_records items)
                       (Replay (x_mt1 x0) (x_mtsz x0) 0)).
  set (n := Z.of_nat (length (files Wal2))) in *.
  assert (Hn : 0 < n).
  { unfold n. rewrite H2, length_app, length_le_bytes. lia. }
  destruct (Z.eqb_spec n 0) as [E|_]; [lia|].
  unfold x_set_mtsz, x_set_mt. cbn [x_wal wal_version x0].
  rewrite Z.ltb_irrefl.
  rewrite bits_round_up_page by (unfold n in *; lia).
  rewrite Z.ltb_irrefl. cbn [obind].
  eexists _, _. split; [reflexivity|].
  assert (Hmt : rp_mt st = mt_replay (wal_items_records items) []).
  { unfold st. rewrite (proj1 (replay_fold_mt _ _)). reflexivity. }
  unfold x_set_wal, wal_set_soff, wal_emit, wal_set_woff.
  cbn [x_mt_view x_mtsz x_wal x_mt1 x_mt2 x_max_mtsz x_max_rejsz x_z x0].
  repeat split; try reflexivity; assumption.
Qed.

Lemma open_empty_durable z max_mtsz maxsz d sp x1 l :
  mt_sorted (v_anchors z) ->
  xdb_wal_recover (xdb_open_state z max_mtsz maxsz) (fun _ => []) d sp = Ok (x1, l) ->
  durable_inv (msstz_version z) 0 (Sys x1 (xdb_ref_all x1) CompIdle) /\
  x_max_mtsz x1 = max_mtsz /\ wal_maxsz (x_wal x1) = maxsz.
Proof.
  intros Hanc Hopen.
  assert (Hinv : sys_inv (Sys x1 (xdb_ref_all x1) CompIdle)).
  { exact (open_inv z max_mtsz maxsz (fun _ => []) d sp x1 l Hanc Hopen). }
  revert Hinv. unfold xdb_wal_recover, xdb_open_state in Hopen. cbn in Hopen.
  injection Hopen as <- _. intros Hinv.
  split; [|split; reflexivity].
  unfold durable_inv. cbn [s_x s_pc s_ref].
  split; [exact Hinv|]. cbn.
  split; [constructor|]. split; [constructor|]. split; [left; reflexivity|].
  split; [lia|]. split; [reflexivity|]. split; [lia|]. split; [lia|].
  exists []. split; [|split; [reflexivity | cbn; lia]].
  unfold wal_file_ok, wal_bufoff, wal_set_soff, wal_emit, wal_set_buf_version. cbn.
  unfold WAL_BLKSZ.
  split; [reflexivity|]. split; [reflexivity|]. split; [reflexivity|].
  split; [lia|]. split.
  - exists []. split; [constructor|]. split; reflexivity.
  - change (Z.of_nat 8 =? 0) with false. cbv iota. lia.
Qed.

(** ** Reads after a restart *)

Lemma reads_after_recovery x ref x2 k :
  sys_inv (Sys x ref CompIdle) ->
  x_mt_view x2 = 0%nat -> x_mt1 x2 = x_wmt x -> x_z x2 = x_z x ->
  fst (xdb_get x2 (xdb_ref_all x2) k) = fst (xdb_get x ref k) /\
  fst (xdb_probe x2 (xdb_ref_all x2) k) = fst (xdb_probe x ref k).
Proof.
  intros (_ & _ & _ & _ & _ & _ & Hpc & Href) Hv Hm Hz.
  cbn [s_x s_pc s_ref pc_inv ref_inv] in Hpc, Href.
  destruct Hpc as [Hnorm _]. destruct Href as [Hrv Hvd].
  assert (Hr : xdb_ref_update_version x ref = ref).
  { apply ref_update_same. exact Hrv. }
  assert (Hr2 : xdb_ref_update_version x2 (xdb_ref_all x2) = xdb_ref_all x2).
  { apply ref_update_same. reflexivity. }
  unfold xdb_get, xdb_probe. cbv zeta. rewrite Hr, Hr2.
  assert (Hw : ref_wmt x ref = x_wmt x).
  { unfold ref_wmt, x_wmt. rewrite Hrv. reflexivity. }
  assert (Hw2 : ref_wmt x2 (xdb_ref_all x2) = x_wmt x).
  { unfold ref_wmt, xdb_ref_all. cbn [ref_mt_view]. rewrite Hv. cbn. exact Hm. }
  assert (Hi : ref_imt x ref = None).
  { unfold ref_imt. rewrite Hrv. destruct Hnorm as [-> | ->]; reflexivity. }
  assert (Hi2 : ref_imt x2 (xdb_ref_all x2) = None).
  { unfold ref_imt, xdb_ref_all. cbn [ref_mt_view]. rewrite Hv. reflexivity. }
  rewrite Hw, Hw2, Hi, Hi2.
  assert (Hg : msstv_get_ts (ref_v (xdb_ref_all x2)) k = msstv_get_ts (ref_v ref) k).
  { unfold msstv_get_ts, xdb_ref_all. cbn [ref_v]. rewrite Hz, Hvd. reflexivity. }
  assert (Hp : msstv_probe_ts (ref_v (xdb_ref_all x2)) k = msstv_probe_ts (ref_v ref) k).
  { unfold msstv_probe_ts, xdb_ref_all. cbn [ref_v]. rewrite Hz, Hvd. reflexivity. }
  rewrite Hg, Hp.
  split.
  - destruct (wormhole_inpr (x_wmt x) k xdb_inp_get) as [f r]. destruct f; reflexivity.
  - destruct (wormhole_inpr (x_wmt x) k xdb_inp_probe) as [f r]. destruct f; reflexivity.
Qed.

(** X19: synced writes survive a restart, across compactions.  A store is
    opened on two empty log files and runs fewer than 2^40 turns: puts of
    legal records, deletions, gets, probes, syncs, and steps of the
    compaction thread in any interleaving with them; then [xdb_sync],
    while no compaction is under way.  Nothing is left in flight or in
    the buffer, and opening the store again over the SSTable version of
    that moment, on the log files as the writes, truncations and switches
    of the run have left them, succeeds and answers every [xdb_get] and
    [xdb_probe] as the store did before. *)
Theorem sync_survives_restart z max_mtsz maxsz d sp x1 l1 ops s d' sp' :
  mt_sorted (v_anchors z) -> 0 <= msstz_version z ->
  Z.of_nat (length ops) < 2^40 - 1 ->
  msstz_version z + 2^40 <= 2^64 ->
  xdb_wal_recover (xdb_open_state z max_mtsz maxsz) (fun _ => []) d sp = Ok (x1, l1) ->
  Forall op_durable ops ->
  sys_run (ops ++ [OpSync]) (Sys x1 (xdb_ref_all x1) CompIdle) = Ok s ->
  s_pc s = CompIdle ->
  let files := fun f => disk_after f (wal_log (x_wal (s_x s))) [] in
  wal_inflight (x_wal (s_x s)) = [] /\ wal_buf (x_wal (s_x s)) = [] /\
  exists x2 l2,
    xdb_wal_recover (xdb_open_state (x_z (s_x s)) max_mtsz maxsz) files d' sp'
      = Ok (x2, l2) /\
    forall k,
      fst (xdb_get x2 (xdb_ref_all x2) k) = fst (xdb_get (s_x s) (s_ref s) k) /\
      fst (xdb_probe x2 (xdb_ref_all x2) k) = fst (xdb_probe (s_x s) (s_ref s) k).
Proof.
  intros Hanc H0 Hlen Hvmax Hopen Hops Hrun Hidle files.
  destruct (open_empty_durable z max_mtsz maxsz d sp x1 l1 Hanc Hopen) as (Hd0 & _).
  rewrite sys_run_snoc in Hrun.
  destruct (sys_run ops (Sys x1 (xdb_ref_all x1) CompIdle)) as [s1| | |] eqn:E1;
    cbn [obind] in Hrun; try discriminate.
  pose proof (durable_run (msstz_version z) ops 0 _ _ H0 ltac:(cbn [Nat.add]; lia)
                Hops Hd0 E1) as Hd1.
  cbn [Nat.add] in Hd1.
  pose proof (sys_step_inv OpSync s1 s (proj1 Hd1) ltac:(discriminate) Hrun) as Hinv.
  destruct s1 as [xa ra pca]. cbn [sys_step s_x s_ref s_pc] in Hrun.
  injection Hrun as <-. cbn [s_x s_ref s_pc] in *. subst pca.
  destruct (durable_sync (msstz_version z) (length ops) xa ra CompIdle ltac:(lia) Hd1 Hinv)
    as (Hd & Hbuf & Hfl).
  split; [exact Hfl|]. split; [exact Hbuf|].
  destruct Hd as (_ & _ & _ & Hfds & Hver & Hoth & Hv0 & Hvn & rs & Hw & Hwmt & Hcnt).
  cbn [s_x s_pc s_ref] in *. specialize (Hoth eq_refl).
  set (x := xdb_sync xa) in *.
  destruct Hw as (_ & Hdlen & Hpg & _ & (items & Hok & Hrec & Hbytes) & Hpot).
  cbv zeta in Hdlen, Hbytes. rewrite Hbuf, app_nil_r in Hbytes.
  assert (Hb0 : wal_bufoff (x_wal x) = 0) by (unfold wal_bufoff; rewrite Hbuf; reflexivity).
  rewrite Hb0 in Hpot. cbn [Z.eqb] in Hpot.
  rewrite Hver, Z.add_0_r in Hbytes, Hvn.
  assert (Hne : wal_items_bytes items <> []).
  { intros E. rewrite E, app_nil_r in Hbytes. rewrite Hbytes, length_le_bytes in Hdlen.
    rewrite <- Hdlen in Hpg. discriminate Hpg. }
  assert (Hsmall : wal_woff (x_wal x) < 2^63).
  { unfold WAL_BLKSZ in Hpot. nia. }
  assert (Hrec2 : exists x2 l2,
            xdb_wal_recover (xdb_open_state (x_z x) max_mtsz maxsz) files d' sp'
              = Ok (x2, l2) /\
            x_mt_view x2 = 0%nat /\
            x_mt1 x2 = mt_replay (wal_items_records items) [] /\ x_z x2 = x_z x).
  { destruct Hfds as [Hf | [Hf Hpos]]; rewrite Hf in Hdlen, Hbytes, Hoth;
      cbn [fst snd] in Hdlen, Hbytes, Hoth.
    - destruct (recover_wellformed (x_z x) max_mtsz maxsz files d' sp' items
                  ltac:(lia) Hbytes Hoth Hok Hne)
        as (x2 & l2 & R & V & M1 & _ & _ & _ & _ & Z2 & _).
      { unfold files. rewrite Hdlen. exact Hpg. }
      { unfold files. rewrite Hdlen. exact Hsmall. }
      exists x2, l2. auto.
    - rewrite Hver, Z.add_0_r in Hpos.
      destruct (recover_wellformed_swapped (x_z x) max_mtsz maxsz files d' sp' items
                  ltac:(lia) Hbytes Hoth Hok Hne)
        as (x2 & l2 & R & V & M1 & _ & Z2).
      { unfold files. rewrite Hdlen. exact Hpg. }
      { unfold files. rewrite Hdlen. exact Hsmall. }
      exists x2, l2. auto. }
  destruct Hrec2 as (x2 & l2 & R & V & M1 & Z2).
  exists x2, l2. split; [exact R|].
  intros k. apply reads_after_recovery; [exact Hinv | exact V | | exact Z2].
  rewrite M1, Hrec, Hwmt. reflexivity.
Qed.

Lemma sync_survives_restart_witness :
  wal_fds (x_wal (s_x (sys_after (([OpPut ex_r1] ++ ex_comp ++ [OpPut ex_r2]) ++ [OpSync])
                                  ex_open))) = (Wal2, Wal1) /\
  v_data (x_z (s_x (sys_after (([OpPut ex_r1] ++ ex_comp ++ [OpPut ex_r2]) ++ [OpSync])
                               ex_open))) = [ex_r1] /\
  exists x2 l2,
    xdb_wal_recover
      (xdb_open_state
         (x_z (s_x (sys_after (([OpPut ex_r1] ++ ex_comp ++ [OpPut ex_r2]) ++ [OpSync])
                              ex_open)))
         4194304 8388608)
      (fun f => disk_after f
         (wal_log (x_wal (s_x (sys_after
            (([OpPut ex_r1] ++ ex_comp ++ [OpPut ex_r2]) ++ [OpSync]) ex_open)))) [])
      [] [] = Ok (x2, l2) /\
    fst (xdb_get x2 (xdb_ref_all x2) [1]) = Some ex_r1 /\
    fst (xdb_get x2 (xdb_ref_all x2) [2]) = Some ex_r2.
Proof.
  split; [vm_compute; reflexivity|]. split; [vm_compute; reflexivity|].
  destruct (sync_survives_restart ex_z0 4194304 8388608 [] [] (s_x ex_open) []
              ([OpPut ex_r1] ++ ex_comp ++ [OpPut ex_r2])
              (sys_after (([OpPut ex_r1] ++ ex_comp ++ [OpPut ex_r2]) ++ [OpSync]) ex_open)
              [] [])
    as (_ & _ & x2 & l2 & H & Hg).
  - reflexivity.
  - discriminate.
  - reflexivity.
  - discriminate.
  - reflexivity.
  - repeat constructor; vm_compute; try discriminate; try reflexivity.
  - vm_compute. reflexivity.
  - vm_compute. reflexivity.
  - exists x2, l2. split; [exact H|].
    split; [rewrite (proj1 (Hg [1])) | rewrite (proj1 (Hg [2]))]; vm_compute; reflexivity.
Defined.


(** * A restart without a sync *)

Lemma disk_prefix_flushed w :
  wal_disk_ok w -> wal_buf w = [] -> wal_disk_prefix w.
Proof.
  intros (_ & _ & _ & _ & _ & _ & items & Hok & Hrec & Hbytes) Hb.
  cbv zeta in Hbytes. rewrite Hb, app_nil_r in Hbytes.
  right. exists items, []. split; [exact Hok|]. split; [exact Hbytes|].
  rewrite app_nil_r. symmetry. exact Hrec.
Qed.

Lemma disk_prefix_more w w' evs :
  wal_disk_prefix w ->
  wal_log w' = wal_log w ++ evs ->
  disk_after (fst (wal_fds w)) evs (disk_after (fst (wal_fds w)) (wal_log w) []) =
    disk_after (fst (wal_fds w)) (wal_log w) [] ->
  wal_fds w' = wal_fds w -> wal_version w' = wal_version w ->
  wal_disk_prefix w'.
Proof.
  intros Hp Hl Hd Hf Hv. unfold wal_disk_prefix in *. cbv zeta in *.
  rewrite Hf, Hv, Hl, disk_after_app, Hd.
  destruct Hp as [E | (items & tail & Hok & Hb & Hr)]; [left; exact E|].
  right. exists items, (tail ++ log_appends evs).
  split; [exact Hok|]. split; [exact Hb|].
  rewrite log_appends_app, Hr, app_assoc. reflexivity.
Qed.

Lemma wal_flush_prefix w :
  wal_disk_ok w -> wal_disk_prefix w -> wal_disk_prefix (wal_flush w).
Proof.
  intros Hok Hp. destruct (wal_flush_disk w Hok) as (F1 & F2 & _).
  destruct (Z.eqb_spec (wal_bufoff w) 0) as [E|E].
  - unfold wal_flush. rewrite (proj2 (Z.eqb_eq _ _) E). exact Hp.
  - apply disk_prefix_flushed; assumption.
Qed.

Lemma wal_append_prefix w r :
  wal_disk_ok w -> wal_disk_prefix w -> wal_disk_prefix (wal_append w r).
Proof.
  intros Hok Hp. unfold wal_append. cbv zeta.
  set (w1 := if WAL_BLKSZ <? sst_kv_vi128_estimate r + 4 + wal_bufoff w
             then wal_flush w else w).
  assert (H1 : wal_disk_prefix w1).
  { unfold w1. destruct (WAL_BLKSZ <? _); [apply wal_flush_prefix; assumption | exact Hp]. }
  clearbody w1.
  eapply (disk_prefix_more w1 _ [EvAppend r] H1); reflexivity.
Qed.

Lemma wal_flush_sync_wait_prefix w :
  wal_disk_ok w -> wal_disk_prefix (wal_flush_sync_wait w).
Proof.
  intros Hok.
  destruct (wal_flush_sync_wait_disk w Hok) as (S1 & S2 & _). cbv zeta in S1, S2.
  apply disk_prefix_flushed; assumption.
Qed.

Lemma sys_step_plain_prefix z o s s' :
  op_plain o -> sys_plain_inv z s -> wal_disk_prefix (x_wal (s_x s)) ->
  sys_step o s = Ok s' -> wal_disk_prefix (x_wal (s_x s')).
Proof.
  intros Hop (Hx & Href & Hpc) Hp. destruct s as [x ref pc]. cbn [s_x s_ref s_pc] in *.
  pose proof Hx as (Hv & H2 & Hz & Hw & Hf & Hver & Hd2 & Hm1 & Hsz).
  assert (Hwmt : x_wmt x = x_mt1 x) by (unfold x_wmt; rewrite Hv; reflexivity).
  assert (Hs : mt_sorted (x_wmt x)).
  { rewrite Hwmt, Hm1. apply mt_replay_sorted. reflexivity. }
  assert (Hupd : forall newkv,
             wal_disk_prefix (x_wal (xdb_update_result x newkv))).
  { intros newkv. unfold xdb_update_result. rewrite x_wal_set_mt. cbn [x_wal x_set_wal].
    apply wal_append_prefix; [apply wal_add_write_user_ok; exact Hw|].
    eapply (disk_prefix_more (x_wal x) _ [] Hp); try reflexivity.
    cbn. rewrite app_nil_r. reflexivity. }
  destruct o as [r|k|k uf|k|k| |decide splits]; cbn [op_plain] in Hop;
    cbn [sys_step s_x s_ref s_pc]; try contradiction.
  - unfold xdb_put. destruct (xdb_mt_wal_full x) eqn:Ef.
    + rewrite xdb_update_full by exact Ef. discriminate.
    + rewrite xdb_update_spec by (auto using xdb_dup_kv_key).
      cbn [obind fst snd]. intros [= <-]. apply Hupd.
  - unfold xdb_del. destruct (xdb_mt_wal_full x) eqn:Ef.
    + rewrite xdb_update_full by exact Ef. discriminate.
    + rewrite xdb_update_spec by auto.
      cbn [obind fst snd]. intros [= <-]. apply Hupd.
  - intros [= <-]. exact Hp.
  - intros [= <-]. exact Hp.
  - intros [= <-]. cbn [s_x]. unfold xdb_sync. destruct x as [v sz w m1 m2 a b zz].
    cbn [x_set_wal x_wal] in *.
    apply wal_flush_sync_wait_prefix. exact Hw.
Qed.

Lemma sys_run_plain_prefix z ops :
  forall s s',
    Forall op_plain ops -> sys_plain_inv z s -> wal_disk_prefix (x_wal (s_x s)) ->
    sys_run ops s = Ok s' -> wal_disk_prefix (x_wal (s_x s')).
Proof.
  induction ops as [|o ops IH]; intros s s' Hops Hinv Hp; cbn [sys_run].
  - intros [= <-]. exact Hp.
  - destruct (sys_step o s) as [s1| | |] eqn:E; cbn [obind]; try discriminate.
    apply IH; [exact (List.Forall_inv_tail Hops) | |].
    + eapply sys_step_plain; [exact (List.Forall_inv Hops) | exact Hinv | exact E].
    + eapply sys_step_plain_prefix; [exact (List.Forall_inv Hops) | exact Hinv | exact Hp | exact E].
Qed.

Lemma recover_empty z max_mtsz maxsz files d sp :
  files Wal1 = [] -> files Wal2 = [] ->
  exists x2 l2,
    xdb_wal_recover (xdb_open_state z max_mtsz maxsz) files d sp = Ok (x2, l2) /\
    x_mt_view x2 = 0%nat /\ x_mt1 x2 = [] /\ x_mt2 x2 = [] /\ x_z x2 = z.
Proof.
  intros H1 H2. unfold xdb_wal_recover, xdb_open_state.
  cbn [x_wal wal_fds fst snd x_z]. rewrite H1, H2. cbn.
  rewrite ?H1, ?H2. cbn.
  eexists _, _. split; [reflexivity|]. repeat split; reflexivity.
Qed.

(** X20: a restart without a sync loses only the last writes.  A store is
    opened on two empty log files and runs puts of legal records,
    deletions, gets, probes and syncs that do not have to wait; it stops
    at any point, and what is in the write buffer is lost.  Opening the
    store again on the files succeeds, and its memtable is what replaying
    the first records of the run gives, in their order: no write ends
    inside a record, so the recovery meets whole records only.  When the
    buffer was empty, nothing is lost. *)
Theorem restart_without_sync z max_mtsz maxsz d sp x1 l1 ops s :
  0 <= maxsz < 2^62 -> 0 <= msstz_version z < 2^64 ->
  xdb_wal_recover (xdb_open_state z max_mtsz maxsz) (fun _ => []) d sp = Ok (x1, l1) ->
  Forall op_plain ops ->
  sys_run ops (Sys x1 (xdb_ref_all x1) CompIdle) = Ok s ->
  let files := fun f => disk_after f (wal_log (x_wal (s_x s))) [] in
  exists x2 l2 kept lost,
    xdb_wal_recover (xdb_open_state z max_mtsz maxsz) files d sp = Ok (x2, l2) /\
    flat_map op_records ops = kept ++ lost /\
    x_mt_view x2 = 0%nat /\ x_mt1 x2 = mt_replay kept [] /\ x_mt2 x2 = [] /\
    x_z x2 = z /\
    (wal_buf (x_wal (s_x s)) = [] -> lost = []).
Proof.
  intros Hm Hv Hopen Hops Hrun files.
  destruct (open_empty_plain z max_mtsz maxsz d sp x1 l1 Hm Hopen) as (Hinv0 & _).
  assert (Hp0 : wal_disk_prefix (x_wal x1)).
  { unfold xdb_wal_recover, xdb_open_state in Hopen. cbn in Hopen.
    injection Hopen as <- _. left. reflexivity. }
  assert (H0 : log_appends (wal_log (x_wal x1)) = []).
  { unfold xdb_wal_recover, xdb_open_state in Hopen. cbn in Hopen.
    injection Hopen as <- _. reflexivity. }
  pose proof (sys_run_plain z ops _ _ Hops Hinv0 Hrun) as Hinv.
  pose proof (sys_run_plain_appends z ops _ _ Hops Hinv0 Hrun) as Happ.
  pose proof (sys_run_plain_prefix z ops _ _ Hops Hinv0 Hp0 Hrun) as Hp.
  cbn [s_x] in Happ. rewrite H0 in Happ. cbn [app] in Happ.
  destruct Hinv as ((_ & _ & _ & Hw & Hf & Hver & Hd2 & _) & _).
  assert (Hfull : wal_buf (x_wal (s_x s)) = [] ->
                  exists items, Forall wal_item_ok items /\
                    disk_after (fst (wal_fds (x_wal (s_x s)))) (wal_log (x_wal (s_x s))) [] =
                      le_bytes 8 (wal_version (x_wal (s_x s))) ++ wal_items_bytes items /\
                    log_appends (wal_log (x_wal (s_x s))) = wal_items_records items).
  { intros Hb. destruct Hw as (_ & _ & _ & _ & _ & _ & items & Hok & Hrec & Hbytes).
    cbv zeta in Hbytes. rewrite Hb, app_nil_r in Hbytes.
    exists items. split; [exact Hok|]. split; [exact Hbytes | symmetry; exact Hrec]. }
  pose proof Hw as (_ & Hlen & Hpg & _ & Hmx & Hpot & _).
  cbv zeta in Hlen. rewrite Hf in Hlen. cbn [fst] in Hlen.
  assert (Hsmall : wal_woff (x_wal (s_x s)) < 2^63).
  { destruct (wal_bufoff (x_wal (s_x s)) =? 0); unfold WAL_BLKSZ in Hpot; lia. }
  assert (Hsome : forall items tail,
             Forall wal_item_ok items ->
             disk_after Wal1 (wal_log (x_wal (s_x s))) [] =
               le_bytes 8 (msstz_version z) ++ wal_items_bytes items ->
             flat_map op_records ops = wal_items_records items ++ tail ->
             (wal_buf (x_wal (s_x s)) = [] -> tail = []) ->
             exists x2 l2 kept lost,
               xdb_wal_recover (xdb_open_state z max_mtsz maxsz) files d sp = Ok (x2, l2) /\
               flat_map op_records ops = kept ++ lost /\
               x_mt_view x2 = 0%nat /\ x_mt1 x2 = mt_replay kept [] /\ x_mt2 x2 = [] /\
               x_z x2 = z /\ (wal_buf (x_wal (s_x s)) = [] -> lost = [])).
  { intros items tail Hok Hb Hr Ht.
    assert (Hne : wal_items_bytes items <> []).
    { intros E. rewrite E, app_nil_r in Hb. rewrite Hb, length_le_bytes in Hlen.
      rewrite <- Hlen in Hpg. discriminate Hpg. }
    destruct (recover_wellformed z max_mtsz maxsz files d sp items Hv Hb Hd2 Hok Hne)
      as (x2 & l2 & R & V & M1 & _ & M2 & _ & _ & Z2 & _).
    { unfold files. rewrite Hlen. exact Hpg. }
    { unfold files. rewrite Hlen. exact Hsmall. }
    exists x2, l2, (wal_items_records items), tail. auto 10. }
  destruct (wal_buf (x_wal (s_x s))) as [|b0 buf] eqn:Ebuf.
  - destruct (Hfull eq_refl) as (items & Hok & Hb & Hr).
    rewrite Hf, Hver in Hb. cbn [fst] in Hb.
    apply (Hsome items []); [exact Hok | exact Hb | | reflexivity].
    rewrite app_nil_r, <- Hr. symmetry. exact Happ.
  - unfold wal_disk_prefix in Hp. cbv zeta in Hp. rewrite Hf, Hver in Hp. cbn [fst] in Hp.
    destruct Hp as [E | (items & tail & Hok & Hb & Hr)].
    + destruct (recover_empty z max_mtsz maxsz files d sp E Hd2)
        as (x2 & l2 & R & V & M1 & M2 & Z2).
      exists x2, l2, [], (flat_map op_records ops).
      split; [exact R|]. split; [reflexivity|]. split; [exact V|].
      split; [exact M1|]. split; [exact M2|]. split; [exact Z2 | discriminate].
    + apply (Hsome items tail); [exact Hok | exact Hb | | discriminate].
      rewrite <- Hr. symmetry. exact Happ.
Qed.

Lemma restart_without_sync_witness :
  (exists x2 l2 kept lost,
     xdb_wal_recover ex_x0
       (fun f => disk_after f
          (wal_log (x_wal (s_x (sys_after [OpPut ex_r1; OpSync; OpPut ex_r2] ex_open)))) [])
       [] [] = Ok (x2, l2) /\
     [ex_r1; ex_r2] = kept ++ lost /\ x_mt1 x2 = mt_replay kept []) /\
  match xdb_wal_recover ex_x0
          (fun f => disk_after f
             (wal_log (x_wal (s_x (sys_after [OpPut ex_r1; OpSync; OpPut ex_r2] ex_open))))
             [])
          [] [] with
  | Ok (x2, _) => x_mt1 x2
  | _ => []
  end = [ex_r1] /\
  x_mt1 (s_x (sys_after [OpPut ex_r1; OpSync; OpPut ex_r2] ex_open)) = [ex_r1; ex_r2].
Proof.
  split; [|split; vm_compute; reflexivity].
  destruct (restart_without_sync ex_z0 4194304 8388608 [] [] (s_x ex_open) []
              [OpPut ex_r1; OpSync; OpPut ex_r2]
              (sys_after [OpPut ex_r1; OpSync; OpPut ex_r2] ex_open))
    as (x2 & l2 & kept & lost & H & Hk & _ & Hm & _).
  - lia.
  - split; [discriminate | reflexivity].
  - reflexivity.
  - repeat constructor; vm_compute; try discriminate; try reflexivity.
  - vm_compute. reflexivity.
  - exists x2, l2, kept, lost. split; [exact H|]. split; [exact Hk | exact Hm].
Defined.


(** * The bytes of the log *)

(** [wal_flush] adds the padding of its write to the bytes of the log, and
    nothing else. *)
Lemma wal_flush_image w rs :
  wal_file_ok w rs -> Z.of_nat (length rs) < 2^40 ->
  exists n, wal_image (wal_flush w) = wal_image w ++ repeat 0 n.
Proof.
  intros Hok Hn.
  unfold wal_file_ok in Hok. cbv zeta in Hok.
  destruct Hok as (Hr & Hlen & Hpage & Hbuf & _ & Hpot).
  unfold wal_flush.
  destruct (Z.eqb_spec (wal_bufoff w) 0) as [E0|E0].
  { exists 0%nat. cbn [repeat]. rewrite app_nil_r. reflexivity. }
  cbv zeta.
  set (wsize := bits_round_up (wal_bufoff w) 12) in *.
  set (pad := Z.to_nat (wsize - wal_bufoff w)).
  exists pad.
  assert (Himg : forall evs,
            forallb ev_quiet evs = true ->
            disk_after (fst (wal_fds w))
              ((wal_log w ++ [EvWrite (wal_ring_fd w) (wal_woff w)
                                      (wal_buf w ++ repeat 0 pad)]) ++ evs) [] ++ []
            = wal_image w ++ repeat 0 pad).
  { intros evs Hq. rewrite disk_after_app, (disk_after_quiet _ evs) by exact Hq.
    rewrite disk_after_app. cbn [disk_after fold_left disk_apply].
    rewrite Hr, (proj2 (fd_eqb_eq _ _) eq_refl).
    fold (disk_after (fst (wal_fds w)) (wal_log w) []).
    rewrite <- Hlen, disk_write_append, app_nil_r. unfold wal_image.
    rewrite app_assoc. reflexivity. }
  match goal with |- context [if ?c then _ else _] => destruct c end;
    unfold wal_image;
    cbn [wal_set_soff wring_fsync wring_submit wal_fds wal_log wal_buf wal_ring_fd wal_woff].
  - exact (Himg [EvFsync (wal_ring_fd w)] eq_refl).
  - rewrite <- (app_nil_r (wal_log w ++ _)). exact (Himg [] eq_refl).
Qed.

(** [wal_append] adds the bytes of the record to the bytes of the log,
    behind the padding of a write when the buffer had to be flushed. *)
Lemma wal_append_image w rs r :
  wal_file_ok w rs -> Z.of_nat (length rs) < 2^40 -> wal_record_fits r ->
  exists n,
    wal_image (wal_append w r) = wal_image w ++ wal_items_bytes [WalPad n; WalRec r].
Proof.
  intros Hok Hn [Hrok Hfit].
  destruct (wal_record_bytes_layout r Hrok) as [Hlay _].
  assert (H1 : exists n,
            wal_image (if WAL_BLKSZ <? sst_kv_vi128_estimate r + 4 + wal_bufoff w
                       then wal_flush w else w) = wal_image w ++ repeat 0 n).
  { destruct (WAL_BLKSZ <? _).
    - exact (wal_flush_image w rs Hok Hn).
    - exists 0%nat. cbn [repeat]. rewrite app_nil_r. reflexivity. }
  destruct H1 as (n & H1). exists n.
  unfold wal_append. cbv zeta.
  set (w1 := if WAL_BLKSZ <? sst_kv_vi128_estimate r + 4 + wal_bufoff w
             then wal_flush w else w) in *.
  unfold wal_image in *. cbn [wal_emit wal_fds wal_log wal_buf].
  rewrite disk_after_append_ev, app_assoc, H1, Hlay.
  unfold wal_items_bytes. cbn [flat_map wal_item_bytes].
  rewrite app_nil_r, <- !app_assoc. reflexivity.
Qed.

(** One record through [xdb_mt_reinsert_func]: what goes to the log, as
    events, as records of the file and as bytes, is the copy when the WMT
    lacks the key, and nothing otherwise. *)
Lemma reinsert_one_image wid x c rs :
  wal_file_ok (x_wal x) rs -> Z.of_nat (length rs) < 2^40 ->
  wal_record_fits (xdb_dup_kv c) ->
  exists app items,
    (length app <= 1)%nat /\
    wal_file_ok (x_wal (reinsert_one wid x c)) (rs ++ app) /\
    log_appends (wal_log (x_wal (reinsert_one wid x c)))
      = log_appends (wal_log (x_wal x)) ++ app /\
    wal_items_records items = app /\
    wal_image (x_wal (reinsert_one wid x c)) = wal_image (x_wal x) ++ wal_items_bytes items.
Proof.
  intros Hw Hn Hfit. unfold reinsert_one.
  destruct (mt_get (kv_key c) (x_mt x wid)) as [r0|].
  { exists [], []. cbn [length]. rewrite !app_nil_r.
    split; [lia|]. split; [assumption|]. split; [reflexivity|]. split; reflexivity. }
  destruct (wal_append_file (x_wal x) rs (xdb_dup_kv c) Hw Hn Hfit) as (A1 & _ & _).
  destruct (wal_append_image (x_wal x) rs (xdb_dup_kv c) Hw Hn Hfit) as (n & A2).
  rewrite x_wal_set_mt. cbn [x_wal x_set_wal].
  exists [xdb_dup_kv c], [WalPad n; WalRec (xdb_dup_kv c)].
  split; [cbn; lia|]. split; [exact A1|].
  split; [apply wal_append_appends|]. split; [reflexivity | exact A2].
Qed.

Lemma fold_reinsert_image wid L :
  forall x rs,
    wal_file_ok (x_wal x) rs ->
    Z.of_nat (length rs + length L) < 2^40 ->
    Forall (fun c => wal_record_fits (xdb_dup_kv c)) L ->
    exists app items,
      (length app <= length L)%nat /\
      wal_file_ok (x_wal (fold_left (reinsert_one wid) L x)) (rs ++ app) /\
      log_appends (wal_log (x_wal (fold_left (reinsert_one wid) L x)))
        = log_appends (wal_log (x_wal x)) ++ app /\
      wal_items_records items = app /\
      wal_image (x_wal (fold_left (reinsert_one wid) L x))
        = wal_image (x_wal x) ++ wal_items_bytes items.
Proof.
  induction L as [|c L IH]; intros x rs Hw Hn HL; cbn [fold_left].
  { exists [], []. cbn [length]. rewrite !app_nil_r.
    split; [lia|]. split; [assumption|]. split; [reflexivity|]. split; reflexivity. }
  cbn [length] in Hn.
  destruct (reinsert_one_image wid x c rs Hw ltac:(lia) (List.Forall_inv HL))
    as (a1 & i1 & B0 & B1 & B2 & B3 & B4).
  destruct (IH (reinsert_one wid x c) (rs ++ a1) B1
              ltac:(rewrite length_app; lia) (List.Forall_inv_tail HL))
    as (a2 & i2 & C0 & C1 & C2 & C3 & C4).
  exists (a1 ++ a2), (i1 ++ i2).
  split; [rewrite length_app; cbn [length]; lia|].
  split; [rewrite app_assoc; exact C1|].
  split; [rewrite C2, B2, app_assoc; reflexivity|].
  split; [rewrite wal_items_records_app, B3, C3; reflexivity|].
  rewrite C4, B4, wal_items_bytes_app, app_assoc. reflexivity.
Qed.

Lemma rej_records_length anchors imt :
  mt_sorted anchors -> mt_sorted imt ->
  (length (rej_records anchors imt) <= length imt)%nat.
Proof.
  intros Ha Hi. apply NoDup_incl_length.
  - eapply NoDup_map_inv. apply sorted_nodup_keys. apply rej_records_sorted; assumption.
  - intros c Hc. apply (rej_records_in _ _ _ Ha) in Hc. tauto.
Qed.

(** C5: the reinsertion phase of compaction.  With the WMT and the IMT two
    different tables, [xdb_reinsert_rejected] returns, and afterwards:
    a key that the WMT held keeps its WMT record; a key that the WMT did
    not hold, that the IMT holds and that lies in a rejected partition
    (anchor with a non-zero [vlen]) maps to a copy of the IMT record; no
    other key is added; the IMT is as it was; [mtsz] has grown by the
    sizes of the copies; and the copies, and only they, have been appended
    to the WAL, in key order.  The appending is in the bytes: when the
    current log file and the write buffer hold the version header and the
    records [rs], and the records of the IMT fit a block, the file and the
    buffer afterwards hold the header and the records [rs] followed by the
    copies; the bytes that have been there are still there, and what comes
    behind them is the encodings of the copies, in order, with the padding
    of the writes between them. *)
Theorem xdb_reinsert_rejected_spec x wid iid anchors :
  wid <> iid ->
  mt_sorted (x_mt x wid) -> mt_sorted (x_mt x iid) -> mt_sorted anchors ->
  u64 (x_mtsz x) = x_mtsz x ->
  exists x',
    xdb_reinsert_rejected x wid iid anchors = Ok x' /\
    (forall k,
       mt_get k (x_mt x' wid) =
         match mt_get k (x_mt x wid) with
         | Some r0 => Some r0
         | None =>
             match mt_get k (x_mt x iid) with
             | Some r => if part_rejected anchors k then Some (xdb_dup_kv r) else None
             | None => None
             end
         end) /\
    x_mt x' iid = x_mt x iid /\
    mt_sorted (x_mt x' wid) /\
    x_mtsz x' = u64 (x_mtsz x + mt_size (reinserted anchors (x_mt x iid) (x_mt x wid))) /\
    log_appends (wal_log (x_wal x')) =
      log_appends (wal_log (x_wal x)) ++ reinserted anchors (x_mt x iid) (x_mt x wid) /\
    (forall c,
       In c (reinserted anchors (x_mt x iid) (x_mt x wid)) <->
       exists r, In r (x_mt x iid) /\ part_rejected anchors (kv_key r) = true /\
                 mt_get (kv_key r) (x_mt x wid) = None /\ c = xdb_dup_kv r) /\
    (forall rs,
       wal_file_ok (x_wal x) rs ->
       Z.of_nat (length rs + length (x_mt x iid)) < 2^40 ->
       Forall (fun r => wal_record_fits (xdb_dup_kv r)) (x_mt x iid) ->
       wal_file_ok (x_wal x') (rs ++ reinserted anchors (x_mt x iid) (x_mt x wid)) /\
       exists items,
         wal_items_records items = reinserted anchors (x_mt x iid) (x_mt x wid) /\
         wal_image (x_wal x') = wal_image (x_wal x) ++ wal_items_bytes items).
Proof.
  intros Hne Hw Hi Ha Hm.
  exists (fold_left (reinsert_one wid) (rej_records anchors (x_mt x iid)) x).
  split; [apply reinsert_anchors_spec; assumption|].
  pose proof (rej_records_sorted _ _ Ha Hi) as Hrs.
  destruct (fold_reinsert_spec wid _ x (sorted_nodup_keys _ Hrs) Hm) as [Hget [Hsz Hlog]].
  split; [|split; [|split; [|split; [|split; [|split]]]]].
  - intros k. rewrite Hget, find_rej_records by assumption.
    destruct (mt_get k (x_mt x wid)); [reflexivity|].
    destruct (mt_get k (x_mt x iid)); [|reflexivity].
    destruct (part_rejected anchors k); reflexivity.
  - apply fold_reinsert_other. exact Hne.
  - apply fold_reinsert_sorted. exact Hw.
  - exact Hsz.
  - exact Hlog.
  - intros c. apply reinserted_in. exact Ha.
  - intros rs Hok Hn Hfit.
    pose proof (rej_records_length _ _ Ha Hi) as Hlen.
    assert (HL : Forall (fun c => wal_record_fits (xdb_dup_kv c))
                        (rej_records anchors (x_mt x iid))).
    { apply List.Forall_forall. intros c Hc. apply (rej_records_in _ _ _ Ha) in Hc.
      rewrite List.Forall_forall in Hfit. apply Hfit. tauto. }
    destruct (fold_reinsert_image wid (rej_records anchors (x_mt x iid)) x rs Hok
                ltac:(lia) HL)
      as (app & items & _ & F1 & F2 & F3 & F4).
    assert (Happ : app = reinserted anchors (x_mt x iid) (x_mt x wid)).
    { rewrite Hlog in F2. apply app_inv_head in F2. symmetry. exact F2. }
    rewrite <- Happ. split; [exact F1|]. exists items. split; assumption.
Qed.

Lemma xdb_reinsert_rejected_spec_witness :
  wal_image (x_wal ex_reinsert_w) = [2; 0; 0; 0; 0; 0; 0; 0] /\
  exists x',
    xdb_reinsert_rejected ex_reinsert_w MT1 MT2 ex_anchors = Ok x' /\
    x_mt x' MT1 = [Kv [2] 1 [2]; Kv [3] 1 [9]] /\
    x_mtsz x' = u64 (x_mtsz ex_reinsert_w + sst_kv_size (Kv [2] 1 [2])) /\
    log_appends (wal_log (x_wal x')) = [Kv [2] 1 [2]] /\
    wal_file_ok (x_wal x') [Kv [2] 1 [2]] /\
    wal_buf (x_wal x') = le_bytes 8 2 ++ wal_record_bytes (Kv [2] 1 [2]) /\
    exists items,
      wal_items_records items = [Kv [2] 1 [2]] /\
      wal_image (x_wal x') = [2; 0; 0; 0; 0; 0; 0; 0] ++ wal_items_bytes items.
Proof.
  split; [reflexivity|].
  destruct (xdb_reinsert_rejected_spec ex_reinsert_w MT1 MT2 ex_anchors)
    as [x' [Hrun [_ [_ [_ [Hsz [Hlog [_ Hbytes]]]]]]]];
    [discriminate | reflexivity | reflexivity | reflexivity | reflexivity |].
  destruct (Hbytes []) as [Hfile Himg].
  { unfold wal_file_ok. cbv zeta. split; [reflexivity|]. split; [reflexivity|].
    split; [reflexivity|]. split; [vm_compute; discriminate|].
    split; [|vm_compute; discriminate].
    exists []. split; [constructor|]. split; reflexivity. }
  { vm_compute. reflexivity. }
  { repeat constructor; vm_compute; try reflexivity; try discriminate; lia. }
  exists x'. split; [exact Hrun|].
  vm_compute in Hrun. injection Hrun as <-.
  split; [reflexivity|]. split; [exact Hsz|]. split; [exact Hlog|].
  split; [exact Hfile|]. split; [reflexivity | exact Himg].
Defined.


(** * The log of a compaction with the client's turns between its steps *)

(** ** Logs *)

Lemma snoc_split {A} (evs a b : list A) e x :
  evs ++ [e] = a ++ x :: b ->
  (b = [] /\ x = e /\ evs = a) \/ (exists b', b = b' ++ [e] /\ evs = a ++ x :: b').
Proof.
  destruct b as [|y b _] using rev_ind; intros H.
  - left. change (a ++ [x]) with (a ++ [x]) in H.
    apply app_inj_tail in H. destruct H as [-> ->]. auto.
  - right. exists b.
    replace (a ++ x :: b ++ [y]) with ((a ++ x :: b) ++ [y]) in H
      by (rewrite <- app_assoc; reflexivity).
    apply app_inj_tail in H. destruct H as [-> ->]. auto.
Qed.

Lemma log_unwritten_snoc f evs e :
  log_unwritten f (evs ++ [e]) = pend_write f (log_unwritten f evs) e.
Proof. unfold log_unwritten. rewrite fold_left_app. reflexivity. Qed.

Lemma log_unsynced_snoc f evs e :
  log_unsynced f (evs ++ [e]) = pend_sync f (log_unsynced f evs) e.
Proof. unfold log_unsynced. rewrite fold_left_app. reflexivity. Qed.

Lemma log_unwritten_written f evs : log_unwritten f evs = false -> appends_written f evs.
Proof.
  induction evs as [|e evs IH] using rev_ind; intros H a r b Hsplit.
  - destruct a; discriminate.
  - rewrite log_unwritten_snoc in H.
    destruct (snoc_split _ _ _ _ _ Hsplit) as [(-> & <- & ->) | (b' & -> & ->)].
    + discriminate.
    + destruct e as [r'|g off data|g| |g|g off data|g|g]; cbn [pend_write] in H;
        try discriminate;
        try (destruct (IH H a r b' eq_refl) as (off0 & data0 & Hin);
             exists off0, data0; apply in_or_app; left; exact Hin).
      destruct (fd_eqb g f) eqn:Eg.
      * apply fd_eqb_eq in Eg. subst g. exists off, data.
        apply in_or_app. right. left. reflexivity.
      * destruct (IH H a r b' eq_refl) as (off0 & data0 & Hin).
        exists off0, data0. apply in_or_app. left. exact Hin.
Qed.

Lemma log_unsynced_fsynced f evs : log_unsynced f evs = false -> writes_fsynced f evs.
Proof.
  induction evs as [|e evs IH] using rev_ind; intros H a off data b Hsplit.
  - destruct a; discriminate.
  - rewrite log_unsynced_snoc in H.
    destruct (snoc_split _ _ _ _ _ Hsplit) as [(-> & <- & ->) | (b' & -> & ->)].
    + cbn [pend_sync] in H. rewrite fd_eqb_refl in H. discriminate.
    + destruct e as [r'|g off' data'|g| |g|g off' data'|g|g]; cbn [pend_sync] in H;
        try (apply in_or_app; left; exact (IH H a off data b' eq_refl)).
      * destruct (fd_eqb g f); [discriminate|].
        apply in_or_app; left; exact (IH H a off data b' eq_refl).
      * destruct (fd_eqb g f) eqn:Eg.
        -- apply fd_eqb_eq in Eg. subst g. apply in_or_app. right. left. reflexivity.
        -- apply in_or_app; left; exact (IH H a off data b' eq_refl).
Qed.

(** ** The log functions between the switch and the truncation *)

Lemma wal_comp_inv_mono new old bound bound' evs w :
  bound <= bound' -> wal_comp_inv new old bound evs w -> wal_comp_inv new old bound' evs w.
Proof.
  unfold wal_comp_inv. intros Hle (A & B & C & D & E & F & G).
  repeat split; auto; lia.
Qed.

Lemma wal_during_comp_inv new old bound w :
  wal_during_comp new old bound w -> wal_woff w = wal_soff w ->
  wal_comp_inv new old bound [] w.
Proof.
  intros (A & B & C & D & E) Hw. unfold wal_comp_inv.
  repeat split; auto; lia.
Qed.

Lemma wal_flush_inv new old bound evs w :
  wal_comp_inv new old bound evs w -> bound + 4096 <= 2^63 ->
  exists evs',
    wal_log (wal_flush w) = wal_log w ++ evs' /\
    wal_comp_inv new old (bound + 4096) (evs ++ evs') (wal_flush w) /\
    wal_buf (wal_flush w) = [] /\ log_appends evs' = [].
Proof.
  intros (Hr & Hf & Hs & Hb & Hev & Hu & Hy) Hlim. unfold wal_flush.
  pose proof (wal_bufoff_nonneg w) as Hb0.
  destruct (Z.eqb_spec (wal_bufoff w) 0) as [E|E].
  - exists []. rewrite !app_nil_r. split; [reflexivity|]. split.
    + unfold wal_comp_inv. repeat split; auto; lia.
    + split; [|reflexivity]. unfold wal_bufoff in E.
      destruct (wal_buf w); [reflexivity | cbn in E; lia].
  - cbv zeta.
    destruct (bits_round_up_12 (wal_bufoff w) ltac:(lia)) as [Hru Hpos].
    specialize (Hpos ltac:(lia)).
    set (wsize := bits_round_up (wal_bufoff w) 12) in *.
    cbn [wring_submit wal_woff wal_soff wal_log wal_ring_fd wal_fds wal_buf
         wal_write_user wal_write_nbytes wal_version wal_maxsz wal_inflight].
    rewrite (u64_small (wal_woff w + wsize)) by lia.
    rewrite Hr.
    destruct (XDB_SYNC_SIZE <=? u64 (wal_woff w + wsize - wal_soff w)) eqn:Esync.
    + eexists [EvWrite new (wal_woff w) _; EvFsync new].
      unfold wal_comp_inv, wal_bufoff, log_unwritten, log_unsynced.
      cbn [wal_set_soff wring_fsync wring_submit wal_woff wal_soff wal_log wal_ring_fd
           wal_fds wal_buf length].
      rewrite <- app_assoc, forallb_app, !fold_left_app, Hev.
      cbn [app forallb ev_during ev_on fold_left pend_write pend_sync log_appends flat_map].
      rewrite fd_eqb_refl. cbn [andb].
      repeat split; auto; lia.
    + eexists [EvWrite new (wal_woff w) _].
      unfold wal_comp_inv, wal_bufoff, log_unwritten, log_unsynced.
      cbn [wal_set_soff wring_fsync wring_submit wal_woff wal_soff wal_log wal_ring_fd
           wal_fds wal_buf length].
      rewrite forallb_app, !fold_left_app, Hev.
      cbn [app forallb ev_during ev_on fold_left pend_write pend_sync log_appends flat_map].
      rewrite fd_eqb_refl. cbn [andb].
      repeat split; auto; lia.
Qed.

Lemma wal_add_write_user_inv new old bound evs w n :
  wal_comp_inv new old bound evs w ->
  wal_comp_inv new old bound evs (wal_add_write_user w n).
Proof. intros H. exact H. Qed.

Lemma wal_append_inv new old bound evs w r :
  wal_comp_inv new old bound evs w -> bound + wal_cost r + 4096 <= 2^63 ->
  exists evs',
    wal_log (wal_append w r) = wal_log w ++ evs' /\
    wal_comp_inv new old (bound + wal_cost r) (evs ++ evs') (wal_append w r) /\
    log_appends evs' = [r].
Proof.
  intros HW Hlim. pose proof (wal_record_bytes_length r) as Hlen.
  unfold wal_append. cbv zeta.
  set (w1 := if WAL_BLKSZ <? sst_kv_vi128_estimate r + 4 + wal_bufoff w
             then wal_flush w else w).
  assert (H1 : exists evs1,
            wal_log w1 = wal_log w ++ evs1 /\
            wal_comp_inv new old (bound + 4096) (evs ++ evs1) w1 /\
            log_appends evs1 = []).
  { unfold w1. destruct (WAL_BLKSZ <? _).
    - destruct (wal_flush_inv new old bound evs w HW ltac:(lia)) as (e1 & A & B & _ & C).
      exists e1. auto.
    - exists []. rewrite !app_nil_r. split; [reflexivity|].
      split; [|reflexivity]. eapply wal_comp_inv_mono; [|exact HW]. lia. }
  destruct H1 as (evs1 & Hl1 & (Hr & Hf & Hs & Hb & Hev & Hu & Hy) & Ha1).
  clearbody w1.
  exists (evs1 ++ [EvAppend r]).
  unfold wal_emit. cbn [wal_log]. rewrite Hl1, <- app_assoc.
  split; [reflexivity|]. split.
  - unfold wal_comp_inv, wal_bufoff in *.
    cbn [wal_woff wal_soff wal_log wal_ring_fd wal_fds wal_buf].
    rewrite length_app, Nat2Z.inj_add. rewrite app_assoc.
    rewrite forallb_app, Hev, log_unwritten_snoc, log_unsynced_snoc.
    cbn [forallb ev_during ev_on pend_write pend_sync andb].
    repeat split; auto; lia.
  - rewrite log_appends_app, Ha1. reflexivity.
Qed.

Lemma wal_flush_sync_inv new old bound evs w :
  wal_comp_inv new old bound evs w -> bound + 4096 <= 2^63 ->
  exists evs',
    wal_log (wal_flush_sync w) = wal_log w ++ evs' /\
    wal_comp_inv new old (bound + 4096) (evs ++ evs') (wal_flush_sync w) /\
    log_appends evs' = [] /\
    log_unwritten new (evs ++ evs') = false /\
    log_unsynced new (evs ++ evs') = false.
Proof.
  intros HW Hlim.
  destruct (wal_flush_inv new old bound evs w HW Hlim) as (e1 & Hl & HW1 & Hbuf & Ha).
  unfold wal_flush_sync. cbv zeta.
  pose proof HW1 as (Hr & Hf & Hs & Hb & Hev & Hu & Hy).
  assert (Hb0 : wal_bufoff (wal_flush w) = 0) by (unfold wal_bufoff; rewrite Hbuf; reflexivity).
  destruct (Z.eqb_spec (wal_woff (wal_flush w)) (wal_soff (wal_flush w))) as [E|E].
  - exists e1. split; [exact Hl|]. split; [exact HW1|]. split; [exact Ha|]. auto.
  - exists (e1 ++ [EvFsync new]).
    cbn [wal_set_soff wring_fsync wring_submit wal_log]. rewrite Hl, Hr, <- app_assoc.
    split; [reflexivity|].
    assert (Hw' : log_unwritten new (evs ++ e1 ++ [EvFsync new]) = false).
    { rewrite app_assoc, log_unwritten_snoc. cbn [pend_write]. auto. }
    assert (Hs' : log_unsynced new (evs ++ e1 ++ [EvFsync new]) = false).
    { rewrite app_assoc, log_unsynced_snoc. cbn [pend_sync]. rewrite fd_eqb_refl.
      reflexivity. }
    assert (He' : forallb (ev_during new) (evs ++ e1 ++ [EvFsync new]) = true).
    { rewrite app_assoc, forallb_app, Hev. cbn [forallb ev_during ev_on andb].
      rewrite fd_eqb_refl. reflexivity. }
    split.
    + unfold wal_comp_inv, wal_bufoff in *.
      cbn [wal_set_soff wring_fsync wring_submit wal_woff wal_soff wal_log wal_ring_fd
           wal_fds wal_buf].
      repeat split; auto; lia.
    + split; [rewrite log_appends_app, Ha; reflexivity|]. auto.
Qed.

Lemma wal_flush_sync_wait_inv new old bound evs w :
  wal_comp_inv new old bound evs w -> bound + 4096 <= 2^63 ->
  exists evs',
    wal_log (wal_flush_sync_wait w) = wal_log w ++ evs' /\
    wal_comp_inv new old (bound + 4096) (evs ++ evs') (wal_flush_sync_wait w) /\
    log_appends evs' = [].
Proof.
  intros HW Hlim.
  destruct (wal_flush_sync_inv new old bound evs w HW Hlim)
    as (e1 & Hl & (Hr & Hf & Hs & Hb & Hev & Hu & Hy) & Ha & _).
  exists (e1 ++ [EvIoWait]).
  unfold wal_flush_sync_wait, wal_io_complete, wring_flush. cbn [wal_log].
  rewrite Hl, <- app_assoc. split; [reflexivity|]. split.
  - unfold wal_comp_inv, wal_bufoff in *.
    cbn [wal_woff wal_soff wal_log wal_ring_fd wal_fds wal_buf].
    rewrite (app_assoc evs), forallb_app, Hev, log_unwritten_snoc, log_unsynced_snoc.
    cbn [forallb ev_during pend_write pend_sync andb].
    repeat split; auto; lia.
  - rewrite log_appends_app, Ha. reflexivity.
Qed.

Lemma fold_reinsert_wal_inv new old wid L :
  forall x bound evs,
    wal_comp_inv new old bound evs (x_wal x) ->
    bound + wal_costs L + 4096 <= 2^63 ->
    exists evs',
      wal_log (x_wal (fold_left (reinsert_one wid) L x)) = wal_log (x_wal x) ++ evs' /\
      wal_comp_inv new old (bound + wal_costs L) (evs ++ evs')
                   (x_wal (fold_left (reinsert_one wid) L x)).
Proof.
  induction L as [|c L IH]; intros x bound evs HW Hlim.
  - cbn. exists []. rewrite !app_nil_r, Z.add_0_r. auto.
  - change (wal_costs (c :: L)) with (wal_cost c + wal_costs L) in *.
    pose proof (wal_costs_nonneg L) as HL. pose proof (wal_cost_pos c) as Hc.
    cbn [fold_left].
    assert (H1 : exists e1,
              wal_log (x_wal (reinsert_one wid x c)) = wal_log (x_wal x) ++ e1 /\
              wal_comp_inv new old (bound + wal_cost c) (evs ++ e1)
                           (x_wal (reinsert_one wid x c))).
    { unfold reinsert_one. destruct (mt_get _ _).
      - exists []. rewrite !app_nil_r. split; [reflexivity|].
        eapply wal_comp_inv_mono; [|exact HW]. lia.
      - rewrite x_wal_set_mt. cbn [x_wal x_set_wal].
        rewrite <- (wal_cost_dup c).
        destruct (wal_append_inv new old bound evs (x_wal x) (xdb_dup_kv c) HW
                    ltac:(rewrite wal_cost_dup; lia)) as (e1 & A & B & _).
        exists e1. auto. }
    destruct H1 as (e1 & Hl1 & HW1).
    destruct (IH _ _ _ HW1 ltac:(lia)) as (e2 & Hl2 & HW2).
    exists (e1 ++ e2). rewrite Hl2, Hl1, <- app_assoc. split; [reflexivity|].
    replace (bound + (wal_cost c + wal_costs L))
      with (bound + wal_cost c + wal_costs L) by lia.
    rewrite app_assoc. exact HW2.
Qed.

(** ** The turns of the client *)

Lemma client_frame_refl x : client_frame x x.
Proof. unfold client_frame. auto. Qed.

Lemma client_frame_trans x y z :
  client_frame x y -> client_frame y z -> client_frame x z.
Proof.
  unfold client_frame. intros (A1 & A2 & A3 & A4) (B1 & B2 & B3 & B4).
  rewrite A1 in B4. repeat split; congruence.
Qed.

Lemma client_frame_same x x' : same_tables x x' -> client_frame x x'.
Proof.
  intros (A1 & A2 & A3 & A4 & A5 & A6 & A7). unfold client_frame.
  repeat split; auto. destruct (mt_other _); cbn [x_mt]; assumption.
Qed.

Lemma client_frame_update x newkv : client_frame x (xdb_update_result x newkv).
Proof.
  unfold client_frame. rewrite update_result_view, update_result_z, update_result_mt.
  repeat split.
  - unfold xdb_update_result. rewrite x_max_rejsz_set_mt. reflexivity.
  - destruct (mt_id_eq_dec _ _) as [E|_]; [|reflexivity].
    exfalso. exact (mt_other_ne _ E).
Qed.

Lemma client_frame_set_mtsz x x' m : client_frame x x' -> client_frame x (x_set_mtsz x' m).
Proof.
  unfold client_frame. intros (A1 & A2 & A3 & A4). rewrite x_mt_set_mtsz. auto.
Qed.

Lemma update_result_wal x newkv :
  x_wal (xdb_update_result x newkv) =
    wal_append (wal_add_write_user (x_wal x) (sst_kv_size newkv)) newkv.
Proof. unfold xdb_update_result. rewrite x_wal_set_mt. reflexivity. Qed.

(** The key is in the WMT and the user's function hands the record back:
    the record goes to the log once more. *)
Lemma loop1_same_wal fuel uf x ref ctx k r0 :
  mt_get k (x_wmt x) = Some r0 -> uf (Some r0) = URetSame ->
  x_mtsz x = u64 (x_mtsz x) ->
  exists x' ctx',
    xdb_merge_loop1 (S fuel) uf x ref ctx k =
      Ok (true, x', xdb_ref_update_version x ref, ctx') /\
    rmw_merged ctx' = true /\ same_tables x x' /\
    x_wal x' = wal_append (wal_add_write_user (x_wal x) (sst_kv_size r0)) r0.
Proof.
  intros Eg Euf Hsz. cbn [xdb_merge_loop1]. cbv zeta. rewrite ref_update_view.
  fold (x_wmt x). unfold wormhole_merge. rewrite Eg.
  unfold xdb_merge_merge_func1, xdb_merge_merge_func. rmw_simpl. rewrite Euf.
  unfold xdb_mt_update_func. rmw_simpl. rewrite Nat.eqb_refl. rmw_simpl.
  eexists _, _. split; [reflexivity|]. split; [reflexivity|].
  rewrite x_wal_set_mt. split; [|reflexivity].
  unfold same_tables, x_wmt. rewrite Z.sub_diag.
  destruct x as [v sz w m1 m2 a b z]. cbn in Hsz |- *.
  destruct (mp_wmt (mt_views v)); cbn; repeat split; try reflexivity;
    rewrite Z.add_0_r; symmetry; exact Hsz.
Qed.

(** What a merge that returns has done: nothing, or it has appended a
    record with the merged key to the log and left everything but the WMT
    and [mtsz] as it was. *)
Lemma xdb_merge_effect x ref k uf b x' ref' :
  mt_sorted (x_wmt x) -> 0 <= x_mtsz x < 2^64 ->
  (forall old new, uf old = URetNew new -> kv_key new = k) ->
  xdb_merge 2 x ref k uf = Ok (b, x', ref') ->
  client_frame x x' /\
  (x_wal x' = x_wal x \/
   exists r, kv_key r = k /\
             x_wal x' = wal_append (wal_add_write_user (x_wal x) (sst_kv_size r)) r).
Proof.
  intros Hs Hsz Hkey.
  assert (Hsz' : x_mtsz x = u64 (x_mtsz x)) by (symmetry; apply u64_small; exact Hsz).
  unfold xdb_merge. destruct (xdb_mt_wal_full x); [discriminate|].
  set (ctx0 := RmwCtx (MergeCtx (Kv [] 0 []) 0 false) None false false).
  destruct (mt_get k (x_wmt x)) as [r0|] eqn:Eg.
  - pose proof (mt_get_some_key _ _ _ Eg) as Hk0.
    destruct (uf (Some r0)) as [| |vlen val|new] eqn:Euf.
    + rewrite (loop1_null 2 uf x ref ctx0 k r0 Eg Euf); [discriminate | reflexivity].
    + destruct (loop1_same_wal 1 uf x ref ctx0 k r0 Eg Euf Hsz')
        as (x1 & ctx' & Hrun & Hm & Hsame & Hwal).
      rewrite Hrun. rmw_simpl. rewrite Hm. rmw_simpl. intros [= _ <- _].
      split; [apply client_frame_same; exact Hsame|]. right. exists r0. auto.
    + destruct (loop1_in_place 1 uf x ref ctx0 k r0 vlen val Eg Euf Hs Hsz)
        as (ctx' & Hrun & Hm).
      rewrite Hrun. rmw_simpl. rewrite Hm. rmw_simpl. intros [= _ <- _].
      split; [apply client_frame_set_mtsz, client_frame_update|].
      right. exists (kv_rewrite r0 vlen val). rewrite kv_rewrite_key.
      split; [exact Hk0|]. apply update_result_wal.
    + pose proof (Hkey _ _ Euf) as Hk.
      destruct (loop1_new 1 uf x ref ctx0 k r0 new Eg Euf Hk Hs) as (ctx' & Hrun & Hm).
      rewrite Hrun. rmw_simpl. rewrite Hm. rmw_simpl. intros [= _ <- _].
      split; [apply client_frame_update|].
      right. exists (xdb_dup_kv new). rewrite xdb_dup_kv_key.
      split; [exact Hk|]. apply update_result_wal.
  - destruct (loop1_absent 1 uf x ref ctx0 k Eg) as (ctx' & Hrun & Hm).
    rewrite Hrun. rmw_simpl. rewrite Hm. rmw_simpl.
    set (ref1 := xdb_ref_update_version x ref) in *.
    assert (Hidem : xdb_ref_update_version x ref1 = ref1) by apply ref_update_idem.
    destruct (xdb_merge_get_old x ref1 k) as [r|] eqn:Eold.
    + destruct (uf (Some r)) as [| |vlen val|new] eqn:Euf.
      * rewrite loop2_keep; [| exact Eg | rewrite Hidem, Eold; auto].
        intros [= _ <- _]. split; [apply client_frame_refl | auto].
      * rewrite (loop2_hand_back 1 uf x ref1 _ k r Eg);
          [discriminate | rewrite Hidem; exact Eold | auto].
      * rewrite (loop2_hand_back 1 uf x ref1 _ k r Eg);
          [discriminate | rewrite Hidem; exact Eold | eauto].
      * pose proof (Hkey _ _ Euf) as Hk.
        rewrite (loop2_new 1 uf x ref1 _ k new Eg);
          [| rewrite Hidem, Eold; exact Euf | exact Hk | exact Hs].
        intros [= _ <- _]. split; [apply client_frame_update|].
        right. exists (xdb_dup_kv new). rewrite xdb_dup_kv_key.
        split; [exact Hk|]. apply update_result_wal.
    + destruct (uf None) as [| |vlen val|new] eqn:Euf.
      * rewrite loop2_keep; [| exact Eg | rewrite Hidem, Eold; auto].
        intros [= _ <- _]. split; [apply client_frame_refl | auto].
      * rewrite loop2_keep_null; [| exact Eg | rewrite Hidem; exact Eold | auto].
        intros [= _ <- _]. split; [apply client_frame_refl | auto].
      * rewrite loop2_keep_null; [| exact Eg | rewrite Hidem; exact Eold | eauto].
        intros [= _ <- _]. split; [apply client_frame_refl | auto].
      * pose proof (Hkey _ _ Euf) as Hk.
        rewrite (loop2_new 1 uf x ref1 _ k new Eg);
          [| rewrite Hidem, Eold; exact Euf | exact Hk | exact Hs].
        intros [= _ <- _]. split; [apply client_frame_update|].
        right. exists (xdb_dup_kv new). rewrite xdb_dup_kv_key.
        split; [exact Hk|]. apply update_result_wal.
Qed.

Lemma wal_cost_key r k :
  kv_key r = k -> wal_cost r <= Z.of_nat (length k) + 140000.
Proof.
  intros <-. unfold wal_cost, sst_kv_size, KV_HDR, kv_klen.
  pose proof (land_mask_range (kv_vlen r)). lia.
Qed.

(** What a turn of the client does to the log: nothing, the flush and the
    wait of a sync, or the append of one record. *)
Lemma client_step_effect o s s' :
  sys_shape s -> op_ok s o -> op_client o = true -> sys_step o s = Ok s' ->
  s_pc s' = s_pc s /\ client_frame (s_x s) (s_x s') /\
  (x_wal (s_x s') = x_wal (s_x s) \/
   (o = OpSync /\ x_wal (s_x s') = wal_flush_sync_wait (x_wal (s_x s))) \/
   exists r, wal_cost r <= op_cost o /\
     x_wal (s_x s') = wal_append (wal_add_write_user (x_wal (s_x s)) (sst_kv_size r)) r).
Proof.
  intros Hinv Hok Hc. destruct s as [x ref pc].
  pose proof (sys_shape_wmt_sorted _ Hinv) as Hs.
  pose proof (sys_shape_mtsz _ Hinv) as Hsz. cbn [s_x] in Hs, Hsz.
  destruct o as [r|k|k uf|k|k| |decide splits]; cbn [sys_step s_x s_ref s_pc];
    try discriminate Hc.
  - unfold xdb_put. destruct (xdb_mt_wal_full x) eqn:Ef.
    + rewrite xdb_update_full by exact Ef. discriminate.
    + rewrite xdb_update_spec by (auto using xdb_dup_kv_key).
      cbn [obind fst snd]. intros [= <-]. cbn [s_x s_pc].
      split; [reflexivity|]. split; [apply client_frame_update|].
      right. right. exists (xdb_dup_kv r). cbn [op_cost]. rewrite wal_cost_dup.
      split; [lia | apply update_result_wal].
  - unfold xdb_del. destruct (xdb_mt_wal_full x) eqn:Ef.
    + rewrite xdb_update_full by exact Ef. discriminate.
    + rewrite xdb_update_spec by auto.
      cbn [obind fst snd]. intros [= <-]. cbn [s_x s_pc].
      split; [reflexivity|]. split; [apply client_frame_update|].
      right. right. exists (xdb_new_ts k). cbn [op_cost].
      split; [lia | apply update_result_wal].
  - destruct (xdb_merge 2 x ref k uf) as [[[b x'] ref']| | |] eqn:Em;
      cbn [obind fst snd]; try discriminate.
    intros [= <-]. cbn [s_x s_pc].
    destruct (xdb_merge_effect x ref k uf b x' ref' Hs Hsz Hok Em) as [Hfr Hw].
    split; [reflexivity|]. split; [exact Hfr|].
    destruct Hw as [Hw | (r & Hk & Hw)]; [left; exact Hw|].
    right. right. exists r. cbn [op_cost]. split; [apply wal_cost_key; exact Hk | exact Hw].
  - intros [= <-]. cbn [s_x s_pc]. split; [reflexivity|].
    split; [apply client_frame_refl | auto].
  - intros [= <-]. cbn [s_x s_pc]. split; [reflexivity|].
    split; [apply client_frame_refl | auto].
  - intros [= <-]. cbn [s_x s_pc]. split; [reflexivity|].
    split; [apply client_frame_same; unfold xdb_sync; apply same_tables_set_wal|].
    right. left. split; reflexivity.
Qed.

Lemma ops_cost_app a b : ops_cost (a ++ b) = ops_cost a + ops_cost b.
Proof. unfold ops_cost. induction a as [|o a IH]; cbn; [reflexivity|]. rewrite IH. lia. Qed.

Lemma op_cost_nonneg o : 0 <= op_cost o.
Proof.
  destruct o; cbn [op_cost]; try lia; try (pose proof (wal_cost_pos r); lia).
  pose proof (wal_cost_pos (xdb_new_ts k)). lia.
Qed.

Lemma ops_cost_nonneg ops : 0 <= ops_cost ops.
Proof.
  unfold ops_cost. induction ops as [|o ops IH]; cbn [fold_right]; [lia|].
  pose proof (op_cost_nonneg o). lia.
Qed.

(** One turn of the client between the switch and the truncation. *)
Lemma client_step_wal new old bound evs o s s' :
  sys_shape s -> op_ok s o -> op_client o = true -> sys_step o s = Ok s' ->
  wal_comp_inv new old bound evs (x_wal (s_x s)) ->
  bound + op_cost o + 4096 <= 2^63 ->
  exists evs',
    wal_log (x_wal (s_x s')) = wal_log (x_wal (s_x s)) ++ evs' /\
    wal_comp_inv new old (bound + op_cost o) (evs ++ evs') (x_wal (s_x s')).
Proof.
  intros Hinv Hok Hc Hstep HW Hlim.
  pose proof (op_cost_nonneg o) as Hc0.
  destruct (client_step_effect o s s' Hinv Hok Hc Hstep)
    as (_ & _ & [Hw | [[-> Hw] | (r & Hr & Hw)]]); rewrite Hw.
  - exists []. rewrite !app_nil_r. split; [reflexivity|].
    eapply wal_comp_inv_mono; [|exact HW]. lia.
  - destruct (wal_flush_sync_wait_inv new old bound evs _ HW ltac:(lia))
      as (e1 & A & B & _).
    exists e1. split; [exact A | exact B].
  - destruct (wal_append_inv new old bound evs
                (wal_add_write_user (x_wal (s_x s)) (sst_kv_size r)) r
                (wal_add_write_user_inv _ _ _ _ _ _ HW) ltac:(lia))
      as (e1 & A & B & _).
    exists e1. split; [exact A|]. eapply wal_comp_inv_mono; [|exact B]. lia.
Qed.

(** Turns of the client, one after the other. *)
Lemma clients_run new old cs :
  forall s s' bound evs,
    forallb op_client cs = true -> sys_shape s -> run_ok cs s -> sys_run cs s = Ok s' ->
    wal_comp_inv new old bound evs (x_wal (s_x s)) ->
    bound + ops_cost cs + 4096 <= 2^63 ->
    sys_shape s' /\ s_pc s' = s_pc s /\ client_frame (s_x s) (s_x s') /\
    exists evs',
      wal_log (x_wal (s_x s')) = wal_log (x_wal (s_x s)) ++ evs' /\
      wal_comp_inv new old (bound + ops_cost cs) (evs ++ evs') (x_wal (s_x s')).
Proof.
  induction cs as [|o cs IH]; intros s s' bound evs Hc Hinv Hok Hrun HW Hlim.
  - cbn in Hrun. injection Hrun as <-. split; [exact Hinv|]. split; [reflexivity|].
    split; [apply client_frame_refl|]. exists []. rewrite !app_nil_r.
    change (ops_cost []) with 0. rewrite Z.add_0_r. auto.
  - cbn [forallb] in Hc. apply andb_true_iff in Hc. destruct Hc as [Hco Hcs].
    change (ops_cost (o :: cs)) with (op_cost o + ops_cost cs) in *.
    pose proof (ops_cost_nonneg cs) as Hn. pose proof (op_cost_nonneg o) as Hn'.
    cbn [sys_run] in Hrun. cbn [run_ok] in Hok. destruct Hok as [Hok1 Hok2].
    destruct (sys_step o s) as [s1| | |] eqn:E; cbn [obind] in Hrun; try discriminate.
    pose proof (sys_step_shape o s s1 Hinv Hok1 E) as Hinv1.
    destruct (client_step_effect o s s1 Hinv Hok1 Hco E) as (Hpc1 & Hfr1 & _).
    destruct (client_step_wal new old bound evs o s s1 Hinv Hok1 Hco E HW ltac:(lia))
      as (e1 & Hl1 & HW1).
    destruct (IH s1 s' _ _ Hcs Hinv1 Hok2 Hrun HW1 ltac:(lia))
      as (Hinv' & Hpc' & Hfr' & e2 & Hl2 & HW2).
    split; [exact Hinv'|]. split; [congruence|].
    split; [eapply client_frame_trans; eassumption|].
    exists (e1 ++ e2). rewrite Hl2, Hl1, <- app_assoc. split; [reflexivity|].
    replace (bound + (op_cost o + ops_cost cs)) with (bound + op_cost o + ops_cost cs) by lia.
    rewrite app_assoc. exact HW2.
Qed.

(** ** The steps of the compaction *)

Lemma sys_run_app a b :
  forall s, sys_run (a ++ b) s = let* s1 := sys_run a s in sys_run b s1.
Proof.
  induction a as [|o a IH]; intros s; cbn [app sys_run obind]; [reflexivity|].
  destruct (sys_step o s) as [s1| | |]; cbn [obind]; [apply IH | reflexivity..].
Qed.

Lemma run_ok_app a b :
  forall s s1, run_ok (a ++ b) s -> sys_run a s = Ok s1 -> run_ok a s /\ run_ok b s1.
Proof.
  induction a as [|o a IH]; intros s s1 Hok Hrun; cbn [app] in Hok.
  - cbn in Hrun. injection Hrun as <-. split; [exact I | exact Hok].
  - cbn [run_ok] in Hok |- *. cbn [sys_run] in Hrun. destruct Hok as [Ho Hrest].
    destruct (sys_step o s) as [s0| | |]; cbn [obind] in Hrun; try discriminate.
    destruct (IH s0 s1 Hrest Hrun) as [A B]. auto.
Qed.

(** A step of the compaction, the turns of the client behind it, and the
    rest of a run. *)
Lemma run_segment d sp c rest s s' :
  run_ok (OpComp d sp :: c ++ rest) s ->
  sys_run (OpComp d sp :: c ++ rest) s = Ok s' ->
  exists s1 s2,
    sys_step (OpComp d sp) s = Ok s1 /\ sys_run c s1 = Ok s2 /\ run_ok c s1 /\
    run_ok rest s2 /\ sys_run rest s2 = Ok s'.
Proof.
  intros Hok Hrun. cbn [run_ok] in Hok. cbn [sys_run] in Hrun. destruct Hok as [_ Hok].
  destruct (sys_step (OpComp d sp) s) as [s1| | |]; cbn [obind] in Hrun; try discriminate.
  rewrite sys_run_app in Hrun.
  destruct (sys_run c s1) as [s2| | |] eqn:Ec; cbn [obind] in Hrun; try discriminate.
  destruct (run_ok_app c rest s1 s2 Hok Ec) as [A B].
  exists s1, s2. auto.
Qed.

Lemma wal_switch_offsets w v :
  wal_woff (fst (wal_switch w v)) = wal_soff (fst (wal_switch w v)).
Proof. unfold wal_switch. cbv zeta. destruct (wal_fds _). reflexivity. Qed.

Lemma comp_imt_frame x x' l :
  cl_v_comp l = x_mt_view x -> view_comp (x_mt_view x) -> client_frame x x' ->
  comp_imt x' l = comp_imt x l.
Proof.
  intros Hl Hv (_ & _ & _ & Hm). unfold comp_imt.
  rewrite Hl, (view_comp_imt _ Hv). exact Hm.
Qed.

Lemma step_rotate x ref d sp s1 :
  sys_shape (Sys x ref CompIdle) ->
  sys_step (OpComp d sp) (Sys x ref CompIdle) = Ok s1 ->
  exists l1 pre,
    s_pc s1 = CompRotated l1 /\ sys_shape s1 /\
    comp_imt (s_x s1) l1 = x_wmt x /\
    x_z (s_x s1) = x_z x /\ x_max_rejsz (s_x s1) = x_max_rejsz x /\
    wal_log (x_wal (s_x s1)) =
      wal_log (x_wal x) ++ pre ++ [EvUpdateFd (snd (wal_fds (x_wal x)))] /\
    forallb ev_not_truncate pre = true /\
    wal_comp_inv (snd (wal_fds (x_wal x))) (fst (wal_fds (x_wal x))) 8 []
                 (x_wal (s_x s1)).
Proof.
  intros Hinv Hstep.
  destruct (comp_step_shape d sp _ _ Hinv Hstep) as [Hinv1 _].
  destruct (wal_switch_comp (x_wal x) (msstz_version (x_z x) + 1))
    as [HW (pre & Hlog & Hpre)].
  pose proof (wal_switch_offsets (x_wal x) (msstz_version (x_z x) + 1)) as Hoff.
  cbn [sys_step s_x s_ref s_pc comp_step] in Hstep.
  destruct Hinv as (_ & _ & _ & _ & _ & _ & [Hn _] & _). cbn [s_x] in Hn.
  unfold comp_rotate in Hstep. cbv zeta in Hstep.
  change (x_wal (x_set_view x (mp_next (mt_views (x_mt_view x))))) with (x_wal x) in Hstep.
  change (x_z (x_set_view x (mp_next (mt_views (x_mt_view x))))) with (x_z x) in Hstep.
  destruct (wal_switch (x_wal x) (msstz_version (x_z x) + 1)) as [w walsz0].
  cbn [fst snd obind] in *. injection Hstep as <-. cbn [s_x s_pc] in *.
  eexists _, pre. split; [reflexivity|]. split; [exact Hinv1|].
  split.
  { unfold comp_imt, x_wmt. cbn [cl_v_comp].
    destruct x as [v sz w0 m1 m2 a b z]. cbn [x_mt_view] in *.
    destruct Hn as [-> | ->]; reflexivity. }
  split; [reflexivity|]. split; [reflexivity|].
  split; [exact Hlog|]. split; [exact Hpre|].
  apply wal_during_comp_inv; assumption.
Qed.

Lemma step_tables x ref l d sp s2 :
  sys_shape (Sys x ref (CompRotated l)) ->
  sys_step (OpComp d sp) (Sys x ref (CompRotated l)) = Ok s2 ->
  exists l2,
    s_pc s2 = CompTablesDone l2 /\ sys_shape s2 /\
    x_wal (s_x s2) = x_wal x /\
    comp_imt (s_x s2) l2 = comp_imt x l /\
    cl_anchors l2 =
      msstv_anchors (snd (msstz_comp (x_z x) (comp_imt x l) (x_max_rejsz x) d sp)).
Proof.
  intros Hinv Hstep.
  destruct (comp_step_shape d sp _ _ Hinv Hstep) as [Hinv1 _].
  cbn [sys_step s_x s_ref s_pc comp_step] in Hstep.
  destruct (Nat.eqb (ref_mt_view ref) (cl_v_comp l)); [|discriminate].
  unfold comp_tables in Hstep. cbv zeta in Hstep. fold (comp_imt x l) in Hstep.
  destruct (msstz_comp (x_z x) (comp_imt x l) (x_max_rejsz x) d sp) as [z oldv].
  cbn [fst snd obind] in *. injection Hstep as <-. cbn [s_x s_pc] in *.
  eexists. split; [reflexivity|]. split; [exact Hinv1|].
  split; [reflexivity|]. split; [|reflexivity].
  unfold comp_imt. cbn [cl_v_comp]. destruct (mp_imt _); [|reflexivity].
  apply x_mt_set_z.
Qed.

Lemma step_reinsert new old bound evs x ref l d sp s4 :
  sys_shape (Sys x ref (CompTablesDone l)) ->
  sys_step (OpComp d sp) (Sys x ref (CompTablesDone l)) = Ok s4 ->
  wal_comp_inv new old bound evs (x_wal x) ->
  bound + wal_costs (comp_imt x l) + 4096 <= 2^63 ->
  exists R,
    s_pc s4 = CompReinserted l /\ sys_shape s4 /\
    wal_log (x_wal (s_x s4)) = wal_log (x_wal x) ++ R /\
    wal_comp_inv new old (bound + wal_costs (comp_imt x l)) (evs ++ R) (x_wal (s_x s4)) /\
    log_appends R = reinserted (cl_anchors l) (comp_imt x l) (x_wmt x).
Proof.
  intros Hinv Hstep HW Hlim.
  destruct (comp_step_shape d sp _ _ Hinv Hstep) as [Hinv1 _].
  cbn [sys_step s_x s_ref s_pc comp_step] in Hstep.
  rewrite (comp_reinsert_fold x ref l Hinv) in Hstep.
  cbn [fst snd obind] in Hstep. injection Hstep as <-. cbn [s_x s_pc] in *.
  pose proof (sys_shape_mtsz _ Hinv) as Hsz. cbn [s_x] in Hsz.
  pose proof Hinv as (Hs1 & Hs2 & _ & _ & _ & _ & Hpc & _).
  cbn [s_x s_pc pc_inv] in Hs1, Hs2, Hpc. destruct Hpc as (Hl & Hv & [Hanc _]).
  pose proof (proj1 (x_mt_all mt_sorted x) (conj Hs1 Hs2)) as Hsort.
  set (wid := mp_wmt (mt_views (cl_v_comp l))) in *.
  set (L := rej_records (cl_anchors l) (comp_imt x l)) in *.
  assert (Himt : mt_sorted (comp_imt x l)).
  { unfold comp_imt. destruct (mp_imt _); [apply Hsort | reflexivity]. }
  assert (HL : wal_costs L <= wal_costs (comp_imt x l))
    by (apply rej_records_costs; assumption).
  destruct (fold_reinsert_wal_inv new old wid L x bound evs HW ltac:(lia))
    as (R & Hlog & HWR).
  exists R. split; [reflexivity|]. split; [exact Hinv1|]. split; [exact Hlog|].
  split.
  { eapply wal_comp_inv_mono; [|exact HWR]. lia. }
  assert (HLs : mt_sorted L) by (apply rej_records_sorted; assumption).
  destruct (fold_reinsert_spec wid L x (sorted_nodup_keys _ HLs)
              (u64_small _ Hsz)) as (_ & _ & Hla).
  rewrite Hlog, log_appends_app in Hla. apply app_inv_head in Hla. rewrite Hla.
  unfold reinserted, L, wid, x_wmt. rewrite Hl. reflexivity.
Qed.

Lemma step_flush_sync new old bound evs x ref l d sp s5 :
  sys_shape (Sys x ref (CompReinserted l)) ->
  sys_step (OpComp d sp) (Sys x ref (CompReinserted l)) = Ok s5 ->
  wal_comp_inv new old bound evs (x_wal x) -> bound + 4096 <= 2^63 ->
  exists F,
    s_pc s5 = CompSynced l /\ sys_shape s5 /\
    wal_log (x_wal (s_x s5)) = wal_log (x_wal x) ++ F /\
    wal_comp_inv new old (bound + 4096) (evs ++ F) (x_wal (s_x s5)) /\
    log_unwritten new (evs ++ F) = false /\ log_unsynced new (evs ++ F) = false.
Proof.
  intros Hinv Hstep HW Hlim.
  destruct (comp_step_shape d sp _ _ Hinv Hstep) as [Hinv1 _].
  cbn [sys_step s_x s_ref s_pc comp_step obind fst snd] in Hstep.
  injection Hstep as <-. cbn [s_x s_pc] in *.
  destruct (wal_flush_sync_inv new old bound evs (x_wal x) HW Hlim)
    as (F & A & B & _ & C & D).
  exists F. split; [reflexivity|]. split; [exact Hinv1|].
  unfold comp_flush_sync. cbn [x_wal x_set_wal]. auto.
Qed.

Lemma step_rotate_back x ref l d sp s6 :
  sys_shape (Sys x ref (CompSynced l)) ->
  sys_step (OpComp d sp) (Sys x ref (CompSynced l)) = Ok s6 ->
  s_pc s6 = CompSwitched l /\ sys_shape s6 /\ x_wal (s_x s6) = x_wal x.
Proof.
  intros Hinv Hstep.
  destruct (comp_step_shape d sp _ _ Hinv Hstep) as [Hinv1 _].
  cbn [sys_step s_x s_ref s_pc comp_step obind fst snd] in Hstep.
  injection Hstep as <-. auto.
Qed.

Lemma step_clean x ref l d sp s7 :
  sys_shape (Sys x ref (CompSwitched l)) ->
  sys_step (OpComp d sp) (Sys x ref (CompSwitched l)) = Ok s7 ->
  s_pc s7 = CompCleaned l /\ sys_shape s7 /\ x_wal (s_x s7) = x_wal x.
Proof.
  intros Hinv Hstep.
  destruct (comp_step_shape d sp _ _ Hinv Hstep) as [Hinv1 _].
  cbn [sys_step s_x s_ref s_pc comp_step] in Hstep.
  destruct (Nat.eqb _ _); [|discriminate].
  cbn [obind fst snd] in Hstep. injection Hstep as <-. cbn [s_x s_pc].
  split; [reflexivity|]. split; [exact Hinv1 | apply comp_clean_wal].
Qed.

Lemma step_finish x ref l d sp s8 :
  sys_step (OpComp d sp) (Sys x ref (CompCleaned l)) = Ok s8 ->
  s_pc s8 = CompIdle /\
  wal_log (x_wal (s_x s8)) =
    wal_log (x_wal x) ++
    [EvIoWait; EvTruncate (snd (wal_fds (x_wal x))); EvFdatasync (snd (wal_fds (x_wal x)))] /\
  wal_inflight (x_wal (s_x s8)) = [].
Proof.
  cbn [sys_step s_x s_ref s_pc comp_step obind fst snd]. intros [= <-]. cbn [s_x s_pc].
  destruct (comp_finish_wal x) as (A & _ & B). auto.
Qed.

(** C4: a compaction with turns of the client between its steps.  The run
    starts in a state that a run reaches from [xdb_open], with the
    compaction thread idle, and goes through the seven steps of
    [xdb_do_comp]; between the steps the client puts, deletes, merges,
    reads and syncs as it likes.  When the run returns, the log of its
    I/O reads: what [wal_switch] flushes to the old file, no truncation
    among it; the switch to the new file; then appends, writes and fsyncs
    on the new file and waits for the ring, and nothing else; and, as the
    last three events, the wait for the ring ([wal_io_complete]), the
    truncation of the old file and its fdatasync.  The events on the new
    file are those of the client's turns before the reinsertion ([A]),
    those of the reinsertion ([R]), those up to and with the
    [wal_flush_sync] of the compaction ([B]) and those of the client's
    turns after it ([C]).  [R] appends the copies that
    [xdb_reinsert_rejected] makes in the state [s3] it runs in: of the
    records of the table under compaction, which is the WMT of the start,
    those in a rejected partition whose key the WMT of [s3] lacks.  At the
    end of [B] every append has a write to the new file behind it and
    every such write an fsync of the new file: also when a sync of the
    client has flushed the buffer first and the [wal_flush_sync] of the
    compaction finds nothing to write.  The truncation thus comes after
    the wait for these fsyncs, which come after the appends of the
    rejected records.  (The bound on the WMT and on the client's turns
    keeps the 64-bit offsets of the log from wrapping.) *)
Theorem comp_run_wal_order s ds c1 c2 c3 c4 c5 c6 s' :
  reachable s -> s_pc s = CompIdle ->
  forallb op_client (c1 ++ c2 ++ c3 ++ c4 ++ c5 ++ c6) = true ->
  wal_costs (x_wmt (s_x s)) + ops_cost (c1 ++ c2 ++ c3 ++ c4 ++ c5 ++ c6) < 2^62 ->
  run_ok (comp_turns ds c1 c2 c3 c4 c5 c6) s ->
  sys_run (comp_turns ds c1 c2 c3 c4 c5 c6) s = Ok s' ->
  let new := snd (wal_fds (x_wal (s_x s))) in
  let old := fst (wal_fds (x_wal (s_x s))) in
  exists s3 l pre A R B C,
    sys_run (comp_op ds 1 :: c1 ++ comp_op ds 2 :: c2) s = Ok s3 /\
    s_pc s3 = CompTablesDone l /\
    comp_imt (s_x s3) l = x_wmt (s_x s) /\
    cl_anchors l =
      msstv_anchors
        (snd (msstz_comp (x_z (s_x s)) (x_wmt (s_x s)) (x_max_rejsz (s_x s))
                         (fst (ds 2%nat)) (snd (ds 2%nat)))) /\
    wal_log (x_wal (s_x s')) =
      wal_log (x_wal (s_x s)) ++ pre ++ [EvUpdateFd new] ++ A ++ R ++ B ++ C ++
      [EvIoWait; EvTruncate old; EvFdatasync old] /\
    forallb ev_not_truncate pre = true /\
    forallb (ev_during new) (A ++ R ++ B ++ C) = true /\
    log_appends R = reinserted (cl_anchors l) (x_wmt (s_x s)) (x_wmt (s_x s3)) /\
    appends_written new (A ++ R ++ B) /\
    writes_fsynced new (A ++ R ++ B) /\
    s_pc s' = CompIdle /\ wal_inflight (x_wal (s_x s')) = [].
Proof.
  intros Hreach Hpc Hcl Hbound Hok Hrun new old.
  pose proof (reachable_shape _ Hreach) as Hinv.
  destruct s as [x ref pc]. cbn [s_x s_pc] in *. subst pc.
  rewrite !forallb_app in Hcl.
  apply andb_true_iff in Hcl. destruct Hcl as [Hc1 Hcl].
  apply andb_true_iff in Hcl. destruct Hcl as [Hc2 Hcl].
  apply andb_true_iff in Hcl. destruct Hcl as [Hc3 Hcl].
  apply andb_true_iff in Hcl. destruct Hcl as [Hc4 Hcl].
  apply andb_true_iff in Hcl. destruct Hcl as [Hc5 Hc6].
  rewrite !ops_cost_app in Hbound.
  pose proof (ops_cost_nonneg c1) as N1. pose proof (ops_cost_nonneg c2) as N2.
  pose proof (ops_cost_nonneg c3) as N3. pose proof (ops_cost_nonneg c4) as N4.
  pose proof (ops_cost_nonneg c5) as N5. pose proof (ops_cost_nonneg c6) as N6.
  pose proof (wal_costs_nonneg (x_wmt x)) as N0.
  unfold comp_turns, comp_op in Hok, Hrun.
  destruct (run_segment _ _ c1 _ _ _ Hok Hrun) as (s1 & s1' & St1 & Rc1 & Ok1 & Hok2 & Hrun2).
  destruct (run_segment _ _ c2 _ _ _ Hok2 Hrun2)
    as (s2 & s3 & St2 & Rc2 & Ok2 & Hok3 & Hrun3).
  destruct (run_segment _ _ c3 _ _ _ Hok3 Hrun3)
    as (s4 & s4' & St3 & Rc3 & Ok3 & Hok4 & Hrun4).
  destruct (run_segment _ _ c4 _ _ _ Hok4 Hrun4)
    as (s5 & s5' & St4 & Rc4 & Ok4 & Hok5 & Hrun5).
  destruct (run_segment _ _ c5 _ _ _ Hok5 Hrun5)
    as (s6 & s6' & St5 & Rc5 & Ok5 & Hok6 & Hrun6).
  destruct (run_segment _ _ c6 _ _ _ Hok6 Hrun6)
    as (s7 & s7' & St6 & Rc6 & Ok6 & _ & Hrun7).
  cbn [sys_run] in Hrun7.
  destruct (sys_step (OpComp (fst (ds 7%nat)) (snd (ds 7%nat))) s7') as [s8| | |] eqn:St7;
    cbn [obind] in Hrun7; try discriminate.
  injection Hrun7 as ->.
  clear Hok Hrun Hok2 Hrun2 Hok3 Hrun3 Hok4 Hrun4 Hok5 Hrun5 Hok6 Hrun6.
  (* the rotation *)
  destruct (step_rotate x ref _ _ s1 Hinv St1)
    as (l1 & pre & P1 & I1 & M1 & Z1 & J1 & Lg1 & Hpre & W1).
  fold new in Lg1, W1. fold old in W1.
  destruct s1 as [x1 r1 p1]. cbn [s_x s_pc] in *. subst p1.
  destruct (clients_run new old c1 _ s1' 8 [] Hc1 I1 Ok1 Rc1 W1 ltac:(lia))
    as (I1' & P1' & F1 & e1 & Lg1' & W1').
  destruct s1' as [x1' r1' p1']. cbn [s_x s_pc app] in *. subst p1'.
  assert (V1 : cl_v_comp l1 = x_mt_view x1 /\ view_comp (x_mt_view x1)).
  { destruct I1 as (_ & _ & _ & _ & _ & _ & Hp & _). exact Hp. }
  pose proof (comp_imt_frame x1 x1' l1 (proj1 V1) (proj2 V1) F1) as M1'.
  (* the tables *)
  destruct (step_tables x1' r1' l1 _ _ s2 I1' St2) as (l2 & P2 & I2 & Wl2 & M2 & A2).
  destruct s2 as [x2 r2 p2]. cbn [s_x s_pc] in *. subst p2.
  rewrite <- Wl2 in W1'.
  destruct (clients_run new old c2 _ s3 _ e1 Hc2 I2 Ok2 Rc2 W1' ltac:(lia))
    as (I3 & P3 & F2 & e2 & Lg2 & W2).
  destruct s3 as [x3 r3 p3]. cbn [s_x s_pc] in *. subst p3.
  assert (V2 : cl_v_comp l2 = x_mt_view x2 /\ view_comp (x_mt_view x2)).
  { destruct I2 as (_ & _ & _ & _ & _ & _ & Hp & _). cbn [s_x s_pc pc_inv] in Hp. tauto. }
  pose proof (comp_imt_frame x2 x3 l2 (proj1 V2) (proj2 V2) F2) as M3.
  assert (Himt : comp_imt x3 l2 = x_wmt x) by congruence.
  (* the reinsertion *)
  destruct (step_reinsert new old _ _ x3 r3 l2 _ _ s4 I3 St3 W2
              ltac:(rewrite Himt; lia)) as (R & P4 & I4 & Lg3 & W3 & HR).
  rewrite Himt in W3, HR.
  destruct s4 as [x4 r4 p4]. cbn [s_x s_pc] in *. subst p4.
  destruct (clients_run new old c3 _ s4' _ _ Hc3 I4 Ok3 Rc3 W3 ltac:(lia))
    as (I4' & P4' & _ & e3 & Lg3' & W3').
  destruct s4' as [x4' r4' p4']. cbn [s_x s_pc] in *. subst p4'.
  (* the flush and the fsync of the new file *)
  destruct (step_flush_sync new old _ _ x4' r4' l2 _ _ s5 I4' St4 W3' ltac:(lia))
    as (F & P5 & I5 & Lg4 & W4 & U4 & Y4).
  destruct s5 as [x5 r5 p5]. cbn [s_x s_pc] in *. subst p5.
  destruct (clients_run new old c4 _ s5' _ _ Hc4 I5 Ok4 Rc4 W4 ltac:(lia))
    as (I5' & P5' & _ & e4 & Lg4' & W4').
  destruct s5' as [x5' r5' p5']. cbn [s_x s_pc] in *. subst p5'.
  (* the view goes back, the IMT is cleaned *)
  destruct (step_rotate_back x5' r5' l2 _ _ s6 I5' St5) as (P6 & I6 & Wl6).
  destruct s6 as [x6 r6 p6]. cbn [s_x s_pc] in *. subst p6.
  rewrite <- Wl6 in W4'.
  destruct (clients_run new old c5 _ s6' _ _ Hc5 I6 Ok5 Rc5 W4' ltac:(lia))
    as (I6' & P6' & _ & e5 & Lg5 & W5).
  destruct s6' as [x6' r6' p6']. cbn [s_x s_pc] in *. subst p6'.
  destruct (step_clean x6' r6' l2 _ _ s7 I6' St6) as (P7 & I7 & Wl7).
  destruct s7 as [x7 r7 p7]. cbn [s_x s_pc] in *. subst p7.
  rewrite <- Wl7 in W5.
  destruct (clients_run new old c6 _ s7' _ _ Hc6 I7 Ok6 Rc6 W5 ltac:(lia))
    as (I7' & P7' & _ & e6 & Lg6 & W6).
  destruct s7' as [x7' r7' p7']. cbn [s_x s_pc] in *. subst p7'.
  (* the wait and the truncation *)
  destruct (step_finish x7' r7' l2 _ _ _ St7) as (P8 & Lg7 & Hfl).
  assert (Hold : snd (wal_fds (x_wal x7')) = old).
  { destruct W6 as (_ & Hf & _). rewrite Hf. reflexivity. }
  rewrite Hold in Lg7.
  exists (Sys x3 r3 (CompTablesDone l2)), l2, pre, (e1 ++ e2), R, (e3 ++ F),
         (e4 ++ e5 ++ e6).
  cbn [s_x s_pc].
  split.
  { unfold comp_op. cbn [sys_run]. rewrite St1. cbn [obind].
    rewrite sys_run_app, Rc1. cbn [obind sys_run]. rewrite St2. cbn [obind]. exact Rc2. }
  split; [reflexivity|]. split; [exact Himt|].
  split.
  { rewrite A2, M1', M1. destruct F1 as (_ & -> & -> & _). rewrite Z1, J1. reflexivity. }
  split.
  { rewrite Lg7, Lg6, Wl7, Lg5, Wl6, Lg4', Lg4, Lg3', Lg3, Lg2, Wl2, Lg1', Lg1.
    rewrite <- !app_assoc. reflexivity. }
  split; [exact Hpre|].
  split.
  { destruct W6 as (_ & _ & _ & _ & Hev & _). rewrite <- Hev.
    rewrite <- !app_assoc. reflexivity. }
  split; [exact HR|].
  split.
  { apply log_unwritten_written. rewrite <- U4. rewrite <- !app_assoc. reflexivity. }
  split.
  { apply log_unsynced_fsynced. rewrite <- Y4. rewrite <- !app_assoc. reflexivity. }
  split; [exact P8 | exact Hfl].
Qed.

Lemma comp_run_wal_order_witness :
  log_appends (wal_log (x_wal (s_x (sys_after ex_comp_turns ex_after_put)))) =
    [ex_r1; ex_r2; ex_r1] /\
  exists pre A R B C,
    wal_log (x_wal (s_x (sys_after ex_comp_turns ex_after_put))) =
      wal_log (x_wal (s_x ex_after_put)) ++ pre ++ [EvUpdateFd Wal2] ++ A ++ R ++ B ++ C ++
      [EvIoWait; EvTruncate Wal1; EvFdatasync Wal1] /\
    forallb (ev_during Wal2) (A ++ R ++ B ++ C) = true /\
    log_appends R = [ex_r1] /\
    appends_written Wal2 (A ++ R ++ B) /\
    writes_fsynced Wal2 (A ++ R ++ B).
Proof.
  split; [vm_compute; reflexivity|].
  destruct (comp_run_wal_order ex_after_put (fun _ => ([true], []))
              [OpProbe []] [OpPut ex_r2] [OpSync] [] [OpProbe []] []
              (sys_after ex_comp_turns ex_after_put))
    as (s3 & l & pre & A & R & B & C & H1 & H2 & H3 & H4 & H5 & H6 & H7 & H8 & H9 & H10 & _).
  - exists ex_z0, 4194304, 8388608, (fun _ => []), [], [], (s_x ex_open), [], [OpPut ex_r1].
    vm_compute. auto.
  - reflexivity.
  - reflexivity.
  - vm_compute. reflexivity.
  - vm_compute. tauto.
  - vm_compute. reflexivity.
  - exists pre, A, R, B, C. split; [exact H5|]. split; [exact H7|].
    split; [|split; assumption].
    rewrite H8, H4. vm_compute in H1. injection H1 as <-. vm_compute. reflexivity.
Defined.


(** * [mtsz] and the records that a merge hands back *)

(** X22: [mtsz] on runs without merges.  A store is opened and runs puts,
    deletions, reads, syncs and steps of the compaction, in any order;
    in every state that such a run reaches, [mtsz] is the sum of
    [sst_kv_size] over the records of the WMT, as a 64-bit number: the
    recovery counts the records it replays, a put and a deletion add the
    difference of the sizes, the rotation of the view resets [mtsz] with
    the empty WMT it adopts, and the reinsertion adds the size of every
    copy. *)
Theorem mtsz_exact_without_merge z max_mtsz maxsz files decide splits x1 lines ops s :
  mt_sorted (v_anchors z) ->
  xdb_wal_recover (xdb_open_state z max_mtsz maxsz) files decide splits = Ok (x1, lines) ->
  Forall (fun o => forall k uf, o <> OpMerge k uf) ops ->
  sys_run ops (Sys x1 (xdb_ref_all x1) CompIdle) = Ok s ->
  x_mtsz (s_x s) = u64 (mt_size (x_wmt (s_x s))).
Proof.
  intros Hanc Hopen Hops Hrun.
  apply sys_inv_mtsz.
  eapply sys_run_inv; [|exact Hops|exact Hrun].
  exact (open_inv z max_mtsz maxsz files decide splits x1 lines Hanc Hopen).
Qed.

Lemma mtsz_exact_without_merge_witness :
  x_mtsz (s_x (sys_after (ex_comp_turns ++ [OpDel [2]]) ex_after_put)) =
    u64 (mt_size (x_wmt (s_x (sys_after (ex_comp_turns ++ [OpDel [2]]) ex_after_put)))) /\
  x_wmt (s_x (sys_after (ex_comp_turns ++ [OpDel [2]]) ex_after_put)) =
    [ex_r1; xdb_new_ts [2]] /\
  x_mtsz (s_x (sys_after (ex_comp_turns ++ [OpDel [2]]) ex_after_put)) = 36.
Proof.
  split; [|split; vm_compute; reflexivity].
  apply (mtsz_exact_without_merge ex_z0 4194304 8388608 (fun _ => []) [] []
           (s_x ex_open) [] (OpPut ex_r1 :: ex_comp_turns ++ [OpDel [2]])).
  - reflexivity.
  - vm_compute. reflexivity.
  - repeat constructor; discriminate.
  - vm_compute. reflexivity.
Defined.

(** X23: a merge whose function hands back the copy it was given.  When
    the WMT does not hold the key, [xdb_merge] fetches a copy of the
    record from the IMT or from the SSTable version and gives it to the
    user's function.  When the function returns that pointer, untouched or
    after an update in place, [xdb_merge_merge_func] passes the pointer
    itself to the WMT, and [xdb_merge] frees it after the turn: the WMT is
    left holding a freed record. *)
Theorem xdb_merge_hand_back_freed fuel x ref k uf r :
  xdb_mt_wal_full x = false ->
  mt_get k (x_wmt x) = None ->
  xdb_merge_get_old x (xdb_ref_update_version x ref) k = Some r ->
  (uf (Some r) = URetSame \/ exists vlen val, uf (Some r) = URetInPlace vlen val) ->
  xdb_merge (S fuel) x ref k uf = Fault UseAfterFree.
Proof.
  intros Hfull Eg Hold Huf. unfold xdb_merge. rewrite Hfull.
  set (ctx0 := RmwCtx (MergeCtx (Kv [] 0 []) 0 false) None false false).
  destruct (loop1_absent fuel uf x ref ctx0 k Eg) as (ctx' & Hrun & Hm).
  rewrite Hrun. rmw_simpl. rewrite Hm. rmw_simpl.
  apply (loop2_hand_back fuel uf x _ _ k r);
    [exact Eg | rewrite ref_update_idem; exact Hold | exact Huf].
Qed.

Lemma xdb_merge_hand_back_freed_witness :
  fst (xdb_get (s_x ex_after_put_comp) (s_ref ex_after_put_comp) [1]) = Some ex_r1 /\
  x_wmt (s_x ex_after_put_comp) = [] /\
  xdb_merge 2 (s_x ex_after_put_comp) (s_ref ex_after_put_comp) [1] (fun _ => URetSame)
    = Fault UseAfterFree.
Proof.
  split; [vm_compute; reflexivity|]. split; [vm_compute; reflexivity|].
  apply (xdb_merge_hand_back_freed 1 (s_x ex_after_put_comp) (s_ref ex_after_put_comp)
           [1] (fun _ => URetSame) ex_r1).
  - vm_compute. reflexivity.
  - vm_compute. reflexivity.
  - vm_compute. reflexivity.
  - left. reflexivity.
Defined.

